(** * See-the-tree: tree engines and their action traces

    A shallow embedding of the tree-algorithm module (classes [Tree], [Bst],
    [Avl], [RedBlack] and the helpers that build [Global.actionList]) together
    with the part of the controller that consumes the list ([animate] pops
    actions from the end of the list).

    - Keys are the integers produced by [parseInt] in [getInput]: [Z].
    - [BstNode] and [AvlNode] objects form an ownership tree (no node is
      shared), so in-place mutation of a node followed by re-linking it into
      its parent is modelled by a functional tree; the recursive functions
      return the node that stands in the place of their argument.
    - [RbNode] objects carry [parent] back references and are compared by
      identity; they live in a store indexed by locations.
    - [Global] is threaded explicitly by a state-and-error monad; a
      [TypeError] (property access on [null]) is the error. *)

From Stdlib Require Import ZArith Lia ZifyBool Sorted.
From stdpp Require Import base option list gmap strings pretty.

Open Scope Z_scope.

(** ** Nodes of the Plain and AVL engines, and tree copies *)

(** [BstNode] has fields [value], [left], [right]; [AvlNode] adds [height].
    The extra field is the parameter [A]. *)
Inductive Node (A : Type) : Type :=
| null : Node A
| node (left : Node A) (value : Z) (aug : A) (right : Node A) : Node A.
Arguments null {A}.
Arguments node {A} left value aug right.

(** What [JSON.parse(JSON.stringify(tree))] keeps of a node besides
    [value], [left] and [right]. *)
Inductive Aug : Type :=
| AugPlain
| AugHeight (height : Z)
| AugColour (colour : Z).

Definition Snap : Type := Node Aug.

Fixpoint copyNode {A} (f : A -> Aug) (n : Node A) : Snap :=
  match n with
  | null => null
  | node l v a r => node (copyNode f l) v (f a) (copyNode f r)
  end.

(** ** Actions *)

Inductive Arg : Type :=
| ANull
| ANum (z : Z)
| ABool (b : bool)
| AStr (s : string)
| ATree (root : Snap)        (* a copy of a tree object *)
| ANode (ref : option nat)   (* a reference to a live [RbNode] *)
| AChange (ref : option nat) (colour : Z).   (* a pair [node, colour] *)

Record Action : Type := mkAction { id : Z; args : option (list Arg) }.

Inductive Operation : Type := INSERT | DELETE.

(** The two pending-record slots, and the history of what happened to them.
    [slotLog] is not a field of the source's [Global]: it records, in order,
    every write to [Global.deleteSpec] or [Global.rotationSpec] so that
    properties of the intermediate states of a call can be stated. *)
Inductive Slot : Type := DeleteSlot | RotationSlot.
Inductive SlotEvent : Type := Written (s : Slot) | Consumed (s : Slot).

Record Global : Type := mkGlobal {
  actionList : list Action;
  deleteSpec : option (list Arg);
  rotationSpec : option (list Arg);
  operation : option Operation;
  treeBound : bool;     (* [Global.tree] is the tree operated on, or null *)
  slotLog : list SlotEvent
}.

(** [var Global = {}] after [initializeInterface]. *)
Definition initialGlobal : Global :=
  mkGlobal [] None None None false [].

(** ** The state-and-error monad *)

Definition M (S A : Type) : Type := S -> option (A * S).

Definition ret {S A} (a : A) : M S A := fun s => Some (a, s).
Definition bind {S A B} (m : M S A) (f : A -> M S B) : M S B :=
  fun s => match m s with Some (a, s') => f a s' | None => None end.
Definition throw {S A} : M S A := fun _ => None.

Notation "'let*' x ':=' m 'in' k" := (bind m (fun x => k))
  (at level 10, x name, m at level 100, k at level 200).
Notation "m '>>' k" := (bind m (fun _ => k))
  (at level 100, k at level 200, right associativity).

Definition modify {S} (f : S -> S) : M S unit := fun s => Some (tt, f s).
Definition gets {S A} (f : S -> A) : M S A := fun s => Some (f s, s).

Definition G : Type -> Type := M Global.

(** ** Helpers of the source *)

Definition withActions (f : list Action -> list Action) (g : Global) : Global :=
  mkGlobal (f (actionList g)) (deleteSpec g) (rotationSpec g) (operation g)
           (treeBound g) (slotLog g).

Definition withDeleteSpec (d : option (list Arg)) (e : SlotEvent) (g : Global)
  : Global :=
  mkGlobal (actionList g) d (rotationSpec g) (operation g) (treeBound g)
           (slotLog g ++ [e]).

Definition withRotationSpec (r : option (list Arg)) (e : SlotEvent)
  (g : Global) : Global :=
  mkGlobal (actionList g) (deleteSpec g) r (operation g) (treeBound g)
           (slotLog g ++ [e]).

Definition withOperation (o : Operation) (g : Global) : Global :=
  mkGlobal (actionList g) (deleteSpec g) (rotationSpec g) (Some o)
           (treeBound g) (slotLog g).

(** [Global.actionList.push(new Action(actionId, args))] *)
Definition pushArgs (actionId : Z) (args : option (list Arg)) : G unit :=
  modify (withActions (fun l => l ++ [mkAction actionId args])).

Definition pushAction (actionId : Z) (args : list Arg) : G unit :=
  pushArgs actionId (Some args).

(** [pushAction(5, null)] and the like *)
Definition pushActionNull (actionId : Z) : G unit := pushArgs actionId None.

Definition pushActionEnd (message : string) : G unit :=
  pushAction 32 [AStr message].

(** [Global.actionList = Global.actionList.reverse()] *)
Definition reverseActions : G unit := modify (withActions (@rev Action)).

(** [Global.actionList = [new Action(0, null)]] *)
Definition setNewTreeAction : G unit :=
  modify (withActions (fun _ => [mkAction 0 None])).

(** [setCreateAction] of the controller *)
Definition setCreateAction : G unit :=
  modify (withActions (fun _ => [mkAction 0 (Some [])])).

Definition setOperation (o : Operation) : G unit := modify (withOperation o).

(** [Global.deleteSpec = [resizeRequired]] *)
Definition setDeleteSpec (resizeRequired : bool) : G unit :=
  modify (withDeleteSpec (Some [ABool resizeRequired]) (Written DeleteSlot)).

(** [Global.rotationSpec = [a, b, subtreeValue, actionId]] *)
Definition setRotationSpec (spec : list Arg) : G unit :=
  modify (withRotationSpec (Some spec) (Written RotationSlot)).

(** [getTreeCopy()] with no argument: a copy of [Global.tree], or null.
    [whole] is the tree object as it stands when the copy is taken. *)
Definition getTreeCopy (whole : Snap) : G Arg :=
  gets (fun g => if treeBound g then ATree whole else ANull).

Module Tree.

(** [Tree.getHeight]: the recursively computed height. *)
Fixpoint getHeight {A} (n : Node A) : Z :=
  match n with
  | null => 0
  | node l _ _ r => Z.max (getHeight l) (getHeight r) + 1
  end.

(** [Tree.getMinValue]: follows left children, one action 9 per node. *)
Fixpoint getMinValue {A} (n : Node A) : G Z :=
  match n with
  | null => throw
  | node l v _ _ =>
      pushAction 9 [ANum v] >>
      match l with
      | null => ret v
      | node _ _ _ _ => getMinValue l
      end
  end.

(** [Tree.findRecursive]: 1 when found, -1 otherwise. *)
Fixpoint findRecursive {A} (n : Node A) (value : Z) : Z :=
  match n with
  | null => -1
  | node l v _ r =>
      if value <? v then findRecursive l value
      else if value >? v then findRecursive r value
      else 1
  end.

End Tree.

(** [checkInsertResize]: the resize action goes to the FRONT of the list
    ([unshift]). It is only called with a non-null root. *)
Definition checkInsertResize (wholeHeight : Z) : G unit :=
  modify (fun g =>
    if treeBound g
    then withActions (fun l => mkAction 5 (Some [ANum wholeHeight]) :: l) g
    else g).

(** [pushDelete] *)
Definition pushDelete (whole : Snap) : G unit :=
  fun g =>
    match deleteSpec g with
    | None => Some (tt, g)
    | Some spec =>
        (let* copy := getTreeCopy whole in
         pushAction 5 (spec ++ [copy]) >>
         modify (withDeleteSpec None (Consumed DeleteSlot))) g
    end.

(** [args.pop()] on the pending rotation record. *)
Definition popArg (l : list Arg) : option (list Arg * Arg) :=
  match rev l with
  | [] => None
  | x :: l' => Some (rev l', x)
  end.

(** [pushDeleteAndRotate(parentId)]. An action whose id is not a number
    cannot be produced by the engines: the last element of a rotation record
    is always 14 or 15. *)
Definition pushDeleteAndRotate (parentId : Arg) (whole : Snap) : G unit :=
  fun g =>
    match deleteSpec g with
    | Some _ => pushDelete whole g
    | None =>
        match rotationSpec g with
        | None => Some (tt, g)
        | Some spec =>
            match popArg spec with
            | Some (spec', ANum actionId) =>
                (let* copy := getTreeCopy whole in
                 pushAction actionId (spec' ++ [parentId; copy]) >>
                 modify (withRotationSpec None (Consumed RotationSlot))) g
            | _ => None
            end
        end
    end.

(** [animate] takes the next action with [Global.actionList.pop()]: the
    actions are played from the END of the list. *)
Definition replay (l : list Action) : list Action := rev l.

(** [subtree !== null ? subtree.value : null] *)
Definition valueOrNull {A} (n : Node A) : Arg :=
  match n with
  | null => ANull
  | node _ v _ _ => ANum v
  end.

(** [node.left || node.right] *)
Definition orElse {A} (l r : Node A) : Node A :=
  match l with
  | null => r
  | node _ _ _ _ => l
  end.

Definition isNull {A} (n : Node A) : bool :=
  match n with
  | null => true
  | node _ _ _ _ => false
  end.

(** ** Plain binary search tree *)

Module Bst.

Definition BstNode : Type := Node unit.

Definition newBstNode (value : Z) : BstNode := node null value tt null.

Definition copy (n : BstNode) : Snap := copyNode (fun _ => AugPlain) n.

Fixpoint insertRecursive (n : BstNode) (value : Z) : G BstNode :=
  match n with
  | null => throw
  | node l v a r =>
      if value <? v then
        pushAction 3 [ANum value; ANum v] >>
        match l with
        | null =>
            pushAction 1 [ANum value; ANum v] >>
            ret (node (newBstNode value) v a r)
        | node _ _ _ _ =>
            let* l' := insertRecursive l value in
            ret (node l' v a r)
        end
      else
        pushAction 4 [ANum value; ANum v] >>
        match r with
        | null =>
            pushAction 2 [ANum value; ANum v] >>
            ret (node l v a (newBstNode value))
        | node _ _ _ _ =>
            let* r' := insertRecursive r value in
            ret (node l v a r')
        end
  end.

(** [wrap] rebuilds the whole tree around the node at hand: the copies
    taken by [pushDelete] are copies of [Global.tree]. *)
Fixpoint deleteRecursive (wrap : BstNode -> BstNode) (n : BstNode)
  (value : Z) : G BstNode :=
  match n with
  | null => ret null
  | node l v a r =>
      if value <? v then
        pushAction 3 [ANum value; ANum v] >>
        let* l' := deleteRecursive (fun t => wrap (node t v a r)) l value in
        pushDelete (copy (wrap (node l' v a r))) >>
        ret (node l' v a r)
      else if value >? v then
        pushAction 4 [ANum value; ANum v] >>
        let* r' := deleteRecursive (fun t => wrap (node l v a t)) r value in
        pushDelete (copy (wrap (node l v a r'))) >>
        ret (node l v a r')
      else if negb (isNull l) && negb (isNull r) then
        pushAction 6 [ANum value] >>
        let* m := Tree.getMinValue r in
        pushAction 10 [ANum v; ANum m] >>
        let* r' := deleteRecursive (fun t => wrap (node l m a t)) r m in
        pushDelete (copy (wrap (node l m a r'))) >>
        ret (node l m a r')
      else
        pushAction 11 [ANum v] >>
        let n' := orElse l r in
        (if isNull n' then pushAction 8 [ANum v]
         else pushAction 7 [ANum v]) >>
        setDeleteSpec (negb (isNull n')) >>
        ret n'
  end.

(** [Bst.prototype.insert]; the argument and the result are [this.root]. *)
Definition insert (root : BstNode) (value : Z) : G BstNode :=
  setOperation INSERT >>
  let* root' :=
    match root with
    | null => setNewTreeAction >> ret (newBstNode value)
    | node _ _ _ _ => insertRecursive root value
    end in
  pushActionEnd "Insertion complete." >>
  reverseActions >>
  pushActionNull 5 >>
  ret root'.

(** [Bst.prototype.delete] (the name [delete] is taken by the map
    library). *)
Definition delete_ (root : BstNode) (value : Z) : G BstNode :=
  setOperation DELETE >>
  let* root' := deleteRecursive (fun t => t) root value in
  pushDelete (copy root') >>
  pushActionEnd "Deletion complete." >>
  reverseActions >>
  ret root'.

End Bst.

(** ** AVL tree *)

Module Avl.

(** The [aug] field of an [AvlNode] is its cached [height]. *)
Definition AvlNode : Type := Node Z.

Definition newAvlNode (value : Z) : AvlNode := node null value 1 null.

Definition copy (n : AvlNode) : Snap := copyNode AugHeight n.

(** [Avl.getHeight]: reads the cached field. *)
Definition getHeight (n : AvlNode) : Z :=
  match n with
  | null => 0
  | node _ _ h _ => h
  end.

Definition getBalance (n : AvlNode) : G Z :=
  match n with
  | null => throw
  | node l _ _ r => ret (getHeight l - getHeight r)
  end.

Definition valueOf (n : AvlNode) : G Z :=
  match n with
  | null => throw
  | node _ v _ _ => ret v
  end.

Definition leftRotate (leftNode : AvlNode) : G AvlNode :=
  match leftNode with
  | node a lv _ (node subtree rv _ c) =>
      let leftNode' :=
        node a lv (Z.max (getHeight a) (getHeight subtree) + 1) subtree in
      let rightNode' :=
        node leftNode' rv (Z.max (getHeight leftNode') (getHeight c) + 1) c in
      setRotationSpec [ANum lv; ANum rv; valueOrNull subtree; ANum 15] >>
      ret rightNode'
  | _ => throw
  end.

Definition rightRotate (rightNode : AvlNode) : G AvlNode :=
  match rightNode with
  | node (node a lv _ subtree) rv _ c =>
      let rightNode' :=
        node subtree rv (Z.max (getHeight subtree) (getHeight c) + 1) c in
      let leftNode' :=
        node a lv (Z.max (getHeight a) (getHeight rightNode') + 1) rightNode' in
      setRotationSpec [ANum rv; ANum lv; valueOrNull subtree; ANum 14] >>
      ret leftNode'
  | _ => throw
  end.

(** The second half of [Avl.insertRecursive]: recompute the height of
    [node], then rebalance. *)
Definition rebalanceInsert (wrap : AvlNode -> AvlNode) (n : AvlNode)
  (value : Z) : G AvlNode :=
  match n with
  | null => throw
  | node l v _ r =>
      let h := Z.max (getHeight l) (getHeight r) + 1 in
      let balance := getHeight l - getHeight r in
      if balance >? 1 then
        pushAction 13 [ANum v] >>
        let* lv := valueOf l in
        if value <? lv then rightRotate (node l v h r)
        else
          let* l' := leftRotate l in
          pushDeleteAndRotate (ANum v) (copy (wrap (node l' v h r))) >>
          rightRotate (node l' v h r)
      else if balance <? -1 then
        pushAction 13 [ANum v] >>
        let* rv := valueOf r in
        if value >? rv then leftRotate (node l v h r)
        else
          let* r' := rightRotate r in
          pushDeleteAndRotate (ANum v) (copy (wrap (node l v h r'))) >>
          leftRotate (node l v h r')
      else
        pushAction 12 [ANum v] >>
        ret (node l v h r)
  end.

Fixpoint insertRecursive (wrap : AvlNode -> AvlNode) (n : AvlNode)
  (value : Z) : G AvlNode :=
  match n with
  | null => throw
  | node l v h r =>
      let* n1 :=
        if value <? v then
          match l with
          | null =>
              let n1 := node (newAvlNode value) v h r in
              checkInsertResize (Tree.getHeight (wrap n1)) >>
              pushAction 3 [ANum value; ANum v] >>
              pushAction 1 [ANum value; ANum v] >>
              ret n1
          | node _ _ _ _ =>
              pushAction 3 [ANum value; ANum v] >>
              let* l' :=
                insertRecursive (fun t => wrap (node t v h r)) l value in
              pushDeleteAndRotate (ANum v) (copy (wrap (node l' v h r))) >>
              ret (node l' v h r)
          end
        else
          match r with
          | null =>
              let n1 := node l v h (newAvlNode value) in
              checkInsertResize (Tree.getHeight (wrap n1)) >>
              pushAction 4 [ANum value; ANum v] >>
              pushAction 2 [ANum value; ANum v] >>
              ret n1
          | node _ _ _ _ =>
              pushAction 4 [ANum value; ANum v] >>
              let* r' :=
                insertRecursive (fun t => wrap (node l v h t)) r value in
              pushDeleteAndRotate (ANum v) (copy (wrap (node l v h r'))) >>
              ret (node l v h r')
          end in
      rebalanceInsert wrap n1 value
  end.

(** The second half of [Avl.deleteRecursive]. *)
Definition rebalanceDelete (wrap : AvlNode -> AvlNode) (n : AvlNode)
  : G AvlNode :=
  match n with
  | null => throw
  | node l v _ r =>
      let h := Z.max (getHeight l) (getHeight r) + 1 in
      let balance := getHeight l - getHeight r in
      if balance >? 1 then
        pushAction 13 [ANum v] >>
        let* bl := getBalance l in
        if bl >=? 0 then rightRotate (node l v h r)
        else
          let* l' := leftRotate l in
          pushDeleteAndRotate (ANum v) (copy (wrap (node l' v h r))) >>
          rightRotate (node l' v h r)
      else if balance <? -1 then
        pushAction 13 [ANum v] >>
        let* br := getBalance r in
        if br <=? 0 then leftRotate (node l v h r)
        else
          let* r' := rightRotate r in
          pushDeleteAndRotate (ANum v) (copy (wrap (node l v h r'))) >>
          leftRotate (node l v h r')
      else
        pushAction 12 [ANum v] >>
        ret (node l v h r)
  end.

Fixpoint deleteRecursive (wrap : AvlNode -> AvlNode) (n : AvlNode)
  (value : Z) : G AvlNode :=
  match n with
  | null => ret null
  | node l v h r =>
      if value <? v then
        pushAction 3 [ANum value; ANum v] >>
        let* l' := deleteRecursive (fun t => wrap (node t v h r)) l value in
        pushDeleteAndRotate (ANum v) (copy (wrap (node l' v h r))) >>
        rebalanceDelete wrap (node l' v h r)
      else if value >? v then
        pushAction 4 [ANum value; ANum v] >>
        let* r' := deleteRecursive (fun t => wrap (node l v h t)) r value in
        pushDeleteAndRotate (ANum v) (copy (wrap (node l v h r'))) >>
        rebalanceDelete wrap (node l v h r')
      else if negb (isNull l) && negb (isNull r) then
        pushAction 6 [ANum value] >>
        let* m := Tree.getMinValue r in
        pushAction 10 [ANum v; ANum m] >>
        let* r' := deleteRecursive (fun t => wrap (node l m h t)) r m in
        pushDeleteAndRotate (ANum m) (copy (wrap (node l m h r'))) >>
        rebalanceDelete wrap (node l m h r')
      else
        pushAction 11 [ANum v] >>
        let n' := orElse l r in
        (if isNull n' then pushAction 8 [ANum v] >> setDeleteSpec false
         else pushAction 7 [ANum v] >> setDeleteSpec true) >>
        ret n'
  end.

(** [Avl.prototype.insert] *)
Definition insert (root : AvlNode) (value : Z) : G AvlNode :=
  setOperation INSERT >>
  let* root' :=
    match root with
    | null => setNewTreeAction >> ret (newAvlNode value)
    | node _ _ _ _ =>
        let* r := insertRecursive (fun t => t) root value in
        pushDeleteAndRotate ANull (copy r) >>
        ret r
    end in
  pushActionEnd "Insertion complete, tree is balanced." >>
  reverseActions >>
  pushActionNull 5 >>
  ret root'.

(** [Avl.prototype.delete] *)
Definition delete_ (root : AvlNode) (value : Z) : G AvlNode :=
  setOperation DELETE >>
  let* root' := deleteRecursive (fun t => t) root value in
  pushDeleteAndRotate ANull (copy root') >>
  pushActionEnd "Deletion complete, tree is balanced." >>
  reverseActions >>
  ret root'.

End Avl.

(** ** Red-Black tree *)

Module RedBlack.

(** [RbNode] objects are identified by their location in the store; a
    reference is a location or null. The constant [fills] and [strokes]
    arrays of a node play no part in the algorithms and are left out. *)
Definition loc : Type := nat.
Definition ref : Type := option loc.

Record RbNode : Type := mkRbNode {
  value : Z;
  left : ref;
  right : ref;
  parent : ref;
  colour : Z          (* 0 is black, 1 is red *)
}.

(** A [RedBlack] object ([root]) with the store of its nodes, and [Global].
    [nextLoc] is the next location [new RbNode] returns; a node that was
    removed from the tree stays in the store, unreachable. *)
Record State : Type := mkState {
  heap : gmap loc RbNode;
  root : ref;
  nextLoc : loc;
  glob : Global
}.

Definition R : Type -> Type := M State.

Definition withHeap (f : gmap loc RbNode -> gmap loc RbNode) (s : State)
  : State :=
  mkState (f (heap s)) (root s) (nextLoc s) (glob s).

Definition withRoot (r : ref) (s : State) : State :=
  mkState (heap s) r (nextLoc s) (glob s).

Definition liftG {A} (m : G A) : R A :=
  fun s =>
    match m (glob s) with
    | Some (a, g') => Some (a, mkState (heap s) (root s) (nextLoc s) g')
    | None => None
    end.

Definition push (actionId : Z) (args : list Arg) : R unit :=
  liftG (pushAction actionId args).

(** Reading a field of [x]: a [TypeError] when [x] is null. *)
Definition getNode (x : ref) : R RbNode :=
  fun s =>
    match x with
    | None => None
    | Some l =>
        match heap s !! l with
        | Some n => Some (n, s)
        | None => None
        end
    end.

Definition valueOf (x : ref) : R Z := let* n := getNode x in ret (value n).
Definition leftOf (x : ref) : R ref := let* n := getNode x in ret (left n).
Definition rightOf (x : ref) : R ref := let* n := getNode x in ret (right n).
Definition parentOf (x : ref) : R ref := let* n := getNode x in ret (parent n).
Definition colourOf (x : ref) : R Z := let* n := getNode x in ret (colour n).

(** Writing a field of [x]. *)
Definition setNode (x : ref) (f : RbNode -> RbNode) : R unit :=
  let* n := getNode x in
  match x with
  | None => throw
  | Some l => modify (withHeap (fun h => <[l := f n]> h))
  end.

Definition setValue (x : ref) (v : Z) : R unit :=
  setNode x (fun n => mkRbNode v (left n) (right n) (parent n) (colour n)).
Definition setLeft (x : ref) (y : ref) : R unit :=
  setNode x (fun n => mkRbNode (value n) y (right n) (parent n) (colour n)).
Definition setRight (x : ref) (y : ref) : R unit :=
  setNode x (fun n => mkRbNode (value n) (left n) y (parent n) (colour n)).
Definition setParent (x : ref) (y : ref) : R unit :=
  setNode x (fun n => mkRbNode (value n) (left n) (right n) y (colour n)).
Definition setColour (x : ref) (c : Z) : R unit :=
  setNode x (fun n => mkRbNode (value n) (left n) (right n) (parent n) c).

Definition getRoot : R ref := gets root.
Definition setRoot (r : ref) : R unit := modify (withRoot r).

(** [new RbNode(value)]: red, no links. *)
Definition newRbNode (v : Z) : R ref :=
  fun s =>
    Some (Some (nextLoc s),
          mkState (<[nextLoc s := mkRbNode v None None None 1]> (heap s))
                  (root s) (S (nextLoc s)) (glob s)).

(** [isBlack] *)
Definition isBlack (x : ref) : R bool :=
  match x with
  | None => ret true
  | Some _ => let* c := colourOf x in ret (c =? 0)
  end.

(** [x !== null ? x.value : null] *)
Definition valueOrNullOf (x : ref) : R Arg :=
  match x with
  | None => ret ANull
  | Some _ => let* v := valueOf x in ret (ANum v)
  end.

(** The copy [JSON.stringify] makes of the nodes below [x]; [parent] is
    replaced by null. The recursion is bounded by the number of nodes ever
    allocated. *)
Fixpoint copyFrom (fuel : nat) (h : gmap loc RbNode) (x : ref) : Snap :=
  match fuel with
  | O => null
  | S fuel' =>
      match x with
      | None => null
      | Some l =>
          match h !! l with
          | None => null
          | Some n =>
              node (copyFrom fuel' h (left n)) (value n)
                   (AugColour (colour n)) (copyFrom fuel' h (right n))
          end
      end
  end.

Definition copyOf (s : State) : Snap := copyFrom (nextLoc s) (heap s) (root s).

(** [getTreeCopy(tree)] *)
Definition getTreeCopyOf : R Arg := gets (fun s => ATree (copyOf s)).

(** [getTreeCopy()] *)
Definition getTreeCopyGlobal : R Arg :=
  gets (fun s => if treeBound (glob s) then ATree (copyOf s) else ANull).

(** [checkInsertResize()] *)
Definition checkResize : R unit :=
  fun s => liftG (checkInsertResize (Tree.getHeight (copyOf s))) s.

(** [Tree.getMinValue] on [RbNode]s. *)
Fixpoint getMinValue (fuel : nat) (x : ref) : R Z :=
  match fuel with
  | O => throw
  | S fuel' =>
      let* v := valueOf x in
      push 9 [ANum v] >>
      let* l := leftOf x in
      match l with
      | None => ret v
      | Some _ => getMinValue fuel' l
      end
  end.

(** [Tree.findRecursive] on [RbNode]s; [None] when the descent does not
    end. *)
Fixpoint findRecursive (fuel : nat) (h : gmap loc RbNode) (x : ref)
  (v : Z) : option Z :=
  match fuel with
  | O => None
  | S fuel' =>
      match x with
      | None => Some (-1)
      | Some l =>
          match h !! l with
          | None => None
          | Some n =>
              if v <? value n then findRecursive fuel' h (left n) v
              else if v >? value n then findRecursive fuel' h (right n) v
              else Some 1
          end
      end
  end.

Definition find (s : State) (v : Z) : option Z :=
  findRecursive (S (nextLoc s)) (heap s) (root s) v.

(** [RedBlack.leftRotate(leftNode, tree)] *)
Definition leftRotate (leftNode : ref) : R unit :=
  let* rightNode := rightOf leftNode in
  let* rl := leftOf rightNode in
  setRight leftNode rl >>
  let* lp := parentOf leftNode in
  let* parentValue := valueOrNullOf lp in
  let* subtreeValue := valueOrNullOf rl in
  (match rl with
   | None => ret tt
   | Some _ => setParent rl leftNode
   end) >>
  setParent rightNode lp >>
  (match lp with
   | None => setRoot rightNode
   | Some _ =>
       let* lpl := leftOf lp in
       if bool_decide (leftNode = lpl) then setLeft lp rightNode
       else setRight lp rightNode
   end) >>
  setLeft rightNode leftNode >>
  setParent leftNode rightNode >>
  let* lv := valueOf leftNode in
  let* rv := valueOf rightNode in
  let* copy := getTreeCopyOf in
  push 15 [ANum lv; ANum rv; subtreeValue; parentValue; copy].

(** [RedBlack.rightRotate(rightNode, tree)] *)
Definition rightRotate (rightNode : ref) : R unit :=
  let* leftNode := leftOf rightNode in
  let* lr := rightOf leftNode in
  setLeft rightNode lr >>
  let* rp := parentOf rightNode in
  let* parentValue := valueOrNullOf rp in
  let* subtreeValue := valueOrNullOf lr in
  (match lr with
   | None => ret tt
   | Some _ => setParent lr rightNode
   end) >>
  setParent leftNode rp >>
  (match rp with
   | None => setRoot leftNode
   | Some _ =>
       let* rpr := rightOf rp in
       if bool_decide (rightNode = rpr) then setRight rp leftNode
       else setLeft rp leftNode
   end) >>
  setRight leftNode rightNode >>
  setParent rightNode leftNode >>
  let* rv := valueOf rightNode in
  let* lv := valueOf leftNode in
  let* copy := getTreeCopyOf in
  push 14 [ANum rv; ANum lv; subtreeValue; parentValue; copy].

(** [RedBlack.insertRecursive]: returns the new node. *)
Fixpoint insertRecursive (fuel : nat) (n : ref) (v : Z) : R ref :=
  match fuel with
  | O => throw
  | S fuel' =>
      let* nv := valueOf n in
      if v <? nv then
        push 3 [ANum v; ANum nv] >>
        let* l := leftOf n in
        match l with
        | None =>
            let* newNode := newRbNode v in
            setParent newNode n >>
            setLeft n newNode >>
            checkResize >>
            push 1 [ANum v; ANum nv] >>
            ret newNode
        | Some _ => insertRecursive fuel' l v
        end
      else
        push 4 [ANum v; ANum nv] >>
        let* r := rightOf n in
        match r with
        | None =>
            let* newNode := newRbNode v in
            setParent newNode n >>
            setRight n newNode >>
            checkResize >>
            push 2 [ANum v; ANum nv] >>
            ret newNode
        | Some _ => insertRecursive fuel' r v
        end
  end.

(** [uncle !== null && uncle.colour === 1] *)
Definition isRed (x : ref) : R bool :=
  match x with
  | None => ret false
  | Some _ => let* c := colourOf x in ret (c =? 1)
  end.

(** One side of the body of the [while] loop of [fixInsert]: [inner] and
    [outer] are [left]/[right] for a parent that is a right child, and the
    other way round for a left child. Returns the next [child] and
    [nextNodeDescription]. *)
Definition fixInsertSide (uncleOf innerOf : ref -> R ref)
  (rotateInner rotateOuter : ref -> R unit) (child grandparent : ref)
  : R (ref * string) :=
  let* p := parentOf child in
  let* uncle := uncleOf grandparent in
  let* uncleRed := isRed uncle in
  if uncleRed then
    setColour p 0 >>
    setColour uncle 0 >>
    setColour grandparent 1 >>
    push 20 [AChange p 0; AChange uncle 0; AChange grandparent 1] >>
    ret (grandparent, "was previously the grandparent"%string)
  else
    let* pi := innerOf p in
    let* cd :=
      if bool_decide (child = pi) then
        rotateInner p >>
        ret (p, "was previously the parent"%string)
      else ret (child, "same node as before"%string) in
    let child1 := fst cd in
    let* p1 := parentOf child1 in
    setColour p1 0 >>
    setColour grandparent 1 >>
    (if bool_decide (grandparent = p1) then push 21 [AChange grandparent 1]
     else push 22 [AChange p1 0; AChange grandparent 1]) >>
    rotateOuter grandparent >>
    ret cd.

(** The [while] loop of [fixInsert]; the result is [child] when the loop is
    left. *)
Fixpoint fixInsertLoop (fuel : nat) (child : ref) : R ref :=
  match fuel with
  | O => throw
  | S fuel' =>
      let* p := parentOf child in
      let* pc := colourOf p in
      if pc =? 1 then
        let* grandparent := parentOf p in
        let* gr := rightOf grandparent in
        let* cd :=
          if bool_decide (p = gr)
          then fixInsertSide leftOf leftOf rightRotate leftRotate
                 child grandparent
          else fixInsertSide rightOf rightOf leftRotate rightRotate
                 child grandparent in
        let child' := fst cd in
        let* cv := valueOf child' in
        push 23 [ANum cv; AStr (snd cd)] >>
        let* rt := getRoot in
        if bool_decide (child' = rt) then
          push 17 [ANode child'] >>
          ret child'
        else fixInsertLoop fuel' child'
      else ret child
  end.

(** [RedBlack.fixInsert(newNode, tree)] *)
Definition fixInsert (fuel : nat) (newNode : ref) : R unit :=
  let* p := parentOf newNode in
  match p with
  | None =>
      push 17 [ANode newNode] >>
      setColour newNode 0
  | Some _ =>
      let* pp := parentOf p in
      match pp with
      | None =>
          let* cv := valueOf newNode in
          push 19 [ANum cv]
      | Some _ =>
          let* child := fixInsertLoop fuel newNode in
          let* cp := parentOf child in
          (match cp with
           | None => ret tt
           | Some _ =>
               let* cpc := colourOf cp in
               if cpc =? 0 then
                 let* rt := getRoot in
                 let* rc := colourOf rt in
                 let* cv := valueOf child in
                 if rc =? 1 then push 18 [ANum cv; ANode rt]
                 else push 19 [ANum cv]
               else ret tt
           end) >>
          let* rt := getRoot in
          setColour rt 0
      end
  end.

(** One side of the body of the [while] loop of [deleteFix]: [near] is the
    side of [node], [far] the side of [sibling]. Returns the next [parent]
    and [node]. *)
Definition deleteFixSide (nearOf farOf : ref -> R ref)
  (rotateNear rotateFar : ref -> R unit) (farText : string)
  (parent_ : ref) : R (ref * ref) :=
  let* sibling0 := farOf parent_ in
  let* sc := colourOf sibling0 in
  let* sibling :=
    if sc =? 1 then
      setColour sibling0 0 >>
      setColour parent_ 1 >>
      push 27 [AChange parent_ 1; AChange sibling0 0] >>
      rotateNear parent_ >>
      farOf parent_
    else ret sibling0 in
  let* sn := nearOf sibling in
  let* sf := farOf sibling in
  let* snb := isBlack sn in
  let* sfb := isBlack sf in
  if snb && sfb then
    setColour sibling 1 >>
    push 28 [AChange sibling 1] >>
    let node' := parent_ in
    let* parent' := parentOf node' in
    let* nv := valueOf node' in
    push 23 [ANum nv; AStr "was previously the parent"] >>
    ret (parent', node')
  else
    let* sibling' :=
      if sfb then
        (if negb snb then
           setColour sn 0 >>
           push 30 [AChange sibling 1; AChange sn 0]
         else push 28 [AChange sibling 1]) >>
        setColour sibling 1 >>
        rotateFar sibling >>
        farOf parent_
      else ret sibling in
    let* pc := colourOf parent_ in
    setColour sibling' pc >>
    setColour parent_ 0 >>
    let* sf' := farOf sibling' in
    let* sfb' := isBlack sf' in
    (if negb sfb' then
       setColour sf' 0 >>
       let* sc' := colourOf sibling' in
       push 31 [AChange sibling' sc'; AChange parent_ 0; AChange sf' 0;
                AStr farText]
     else
       let* sc' := colourOf sibling' in
       push 31 [AChange sibling' sc'; AChange parent_ 0; AStr ""]) >>
    rotateNear parent_ >>
    let* rt := getRoot in
    ret (parent_, rt).

(** The [while] loop of [deleteFix]; the result is [node] when the loop is
    left. *)
Fixpoint deleteFixLoop (fuel : nat) (parent_ node_ : ref) : R ref :=
  match fuel with
  | O => throw
  | S fuel' =>
      let* rt := getRoot in
      let* nb := isBlack node_ in
      if negb (bool_decide (node_ = rt)) && nb then
        let* pl := leftOf parent_ in
        let* pn :=
          if bool_decide (pl = None) || bool_decide (pl = node_)
          then deleteFixSide leftOf rightOf leftRotate rightRotate
                 ", its right child to black," parent_
          else deleteFixSide rightOf leftOf rightRotate leftRotate
                 ", its left child to black," parent_ in
        deleteFixLoop fuel' (fst pn) (snd pn)
      else ret node_
  end.

(** [RedBlack.deleteFix(parent, node, tree)] *)
Definition deleteFix (fuel : nat) (parent_ node_ : ref) : R unit :=
  let* n := deleteFixLoop fuel parent_ node_ in
  let* rt := getRoot in
  let* rb := isBlack rt in
  if negb rb then
    push 29 [AChange rt 0; AStr "(root) "] >>
    setColour rt 0
  else
    let* nb := isBlack n in
    if negb nb then
      push 29 [AChange n 0; AStr ""] >>
      setColour n 0
    else ret tt.

(** The last branch of [RedBlack.deleteRecursive]: [node] has at most one
    child. *)
Definition removeNode (fuel : nat) (n : ref) : R unit :=
  let* nv := valueOf n in
  push 11 [ANum nv] >>
  let* l := leftOf n in
  let* r := rightOf n in
  let successor := match l with Some _ => l | None => r end in
  let* p := parentOf n in
  match successor, p with
  | None, None =>
      push 8 [ANum nv] >>
      push 5 [ANull; ANull] >>
      setRoot None
  | _, _ =>
      (match successor with
       | None => push 8 [ANum nv]
       | Some _ => push 7 [ANum nv]
       end) >>
      (match p with
       | None => setRoot successor
       | Some _ =>
           let* pl := leftOf p in
           if bool_decide (n = pl) then setLeft p successor
           else setRight p successor
       end) >>
      (match successor with
       | None => ret tt
       | Some _ => setParent successor p
       end) >>
      let* copy := getTreeCopyGlobal in
      push 5 [ABool (bool_decide (successor <> None)); copy] >>
      let* nc := colourOf n in
      let* sb := isBlack successor in
      if (nc =? 0) && sb then
        match successor with
        | None =>
            (match p with
             | Some _ =>
                 let* pv := valueOf p in
                 push 24 [ANum nv;
                          AStr (" (null child of Node " +:+ pretty pv
                                +:+ ")")]
             | None => push 24 [ANum nv; AStr " (former tree root)"]
             end) >>
            deleteFix fuel p None
        | Some _ =>
            let* sv := valueOf successor in
            push 16 [ANum sv] >>
            deleteFix fuel p n
        end
      else
        match successor with
        | None => liftG (pushActionNull 26)
        | Some _ =>
            push 25 [AChange successor 0] >>
            setColour successor 0
        end
  end.

(** [RedBlack.deleteRecursive(node, value, tree)]; [bound] bounds the
    loops started from the node that is removed. *)
Fixpoint deleteRecursive (fuel bound : nat) (n : ref) (v : Z) : R unit :=
  match fuel with
  | O => throw
  | S fuel' =>
      let* nv := valueOf n in
      if v <? nv then
        push 3 [ANum v; ANum nv] >>
        let* l := leftOf n in
        deleteRecursive fuel' bound l v
      else if v >? nv then
        push 4 [ANum v; ANum nv] >>
        let* r := rightOf n in
        deleteRecursive fuel' bound r v
      else
        let* l := leftOf n in
        let* r := rightOf n in
        match l, r with
        | Some _, Some _ =>
            push 6 [ANum v] >>
            let* m := getMinValue bound r in
            setValue n m >>
            push 10 [ANum nv; ANum m] >>
            deleteRecursive fuel' bound r m
        | _, _ => removeNode bound n
        end
  end.

(** [RedBlack.prototype.insert] *)
Definition insert (v : Z) : R unit :=
  liftG (setOperation INSERT) >>
  let* rt := getRoot in
  (match rt with
   | None =>
       let* newNode := newRbNode v in
       setRoot newNode >>
       setColour newNode 0 >>
       liftG setNewTreeAction
   | Some _ =>
       let* bound := gets nextLoc in
       let* newNode := insertRecursive (S bound) rt v in
       let* nv := valueOf newNode in
       push 16 [ANum nv] >>
       fixInsert (S bound) newNode
   end) >>
  liftG (pushActionEnd "Insertion complete, tree is balanced.") >>
  liftG reverseActions >>
  liftG (pushActionNull 5).

(** [RedBlack.prototype.delete] *)
Definition delete_ (v : Z) : R unit :=
  liftG (setOperation DELETE) >>
  let* rt := getRoot in
  let* bound := gets nextLoc in
  deleteRecursive (S bound) (S bound) rt v >>
  liftG (pushActionEnd "Deletion complete, tree is balanced.") >>
  liftG reverseActions.

(** A new [RedBlack] object. *)
Definition emptyState (g : Global) : State := mkState ∅ None O g.

End RedBlack.


(** A [RedBlack] object without [Global]: what [insert] and [delete]
    take and leave behind. *)
Record RbTree : Type := mkRbTree {
  rbHeap : gmap RedBlack.loc RedBlack.RbNode;
  rbRoot : RedBlack.ref;
  rbNext : RedBlack.loc
}.

Definition rbCall (m : RedBlack.R unit) (t : RbTree) : G RbTree :=
  fun g =>
    match m (RedBlack.mkState (rbHeap t) (rbRoot t) (rbNext t) g) with
    | Some (_, s) =>
        Some (mkRbTree (RedBlack.heap s) (RedBlack.root s)
                       (RedBlack.nextLoc s), RedBlack.glob s)
    | None => None
    end.

(** ** The three engines behind one interface

    [Bst], [Avl] and [RedBlack] extend the abstract class [Tree]; the
    controller calls [insert] and [delete] on whichever object
    [initializeTree] made. *)
Class Engine (T : Type) : Type := {
  newTree : T;                       (* [new Bst()], [new Avl()], ... *)
  rootIsNull : T -> bool;            (* [this.root === null] *)
  insertOp : T -> Z -> G T;
  deleteOp : T -> Z -> G T;
  findOp : T -> Z -> option Z        (* [Tree.prototype.find] *)
}.

#[export] Instance BstEngine : Engine Bst.BstNode := {
  newTree := null;
  rootIsNull := isNull;
  insertOp := Bst.insert;
  deleteOp := Bst.delete_;
  findOp := fun t v => Some (Tree.findRecursive t v)
}.

#[export] Instance AvlEngine : Engine Avl.AvlNode := {
  newTree := null;
  rootIsNull := isNull;
  insertOp := Avl.insert;
  deleteOp := Avl.delete_;
  findOp := fun t v => Some (Tree.findRecursive t v)
}.

#[export] Instance RbEngine : Engine RbTree := {
  newTree := mkRbTree ∅ None O;
  rootIsNull := fun t => bool_decide (rbRoot t = None);
  insertOp := fun t v => rbCall (RedBlack.insert v) t;
  deleteOp := fun t v => rbCall (RedBlack.delete_ v) t;
  findOp := fun t v =>
    RedBlack.findRecursive (S (rbNext t)) (rbHeap t) (rbRoot t) v
}.

(** ** The controller's side of the action list *)

Module Controller.

Definition withTreeBound (b : bool) (g : Global) : Global :=
  mkGlobal (actionList g) (deleteSpec g) (rotationSpec g) (operation g) b
           (slotLog g).

(** The first branch of [addClick]: [Global.tree] is null, so a tree is
    made, the value inserted, and the list replaced by [setCreateAction]. *)
Definition addClickNewTree {T} `{Engine T} (nodeId : Z) : G T :=
  modify (withTreeBound true) >>
  let* t := insertOp newTree nodeId in
  setCreateAction >>
  ret t.

(** The captions [animate] shows for the two rotation actions (cases 14
    and 15 of its [switch]); the other cases are not needed here. *)
Definition rotationCaption (a : Action) : option string :=
  match args a with
  | Some (ANum n :: _) =>
      if id a =? 14
      then Some ("Perform a left rotation at Node " +:+ pretty n +:+ ".")
      else if id a =? 15
      then Some ("Perform a right rotation at Node " +:+ pretty n +:+ ".")
      else None
  | _ => None
  end.

End Controller.

(** * Properties *)

(** The parts of the recursive functions are kept folded while a run is
    taken apart. *)
Arguments Avl.rebalanceInsert : simpl never.
Arguments Avl.rebalanceDelete : simpl never.
Arguments Avl.leftRotate : simpl never.
Arguments Avl.rightRotate : simpl never.
Arguments pushDelete : simpl never.
Arguments pushDeleteAndRotate : simpl never.
Arguments pushAction : simpl never.
Arguments checkInsertResize : simpl never.

(** ** Running the monad *)

Lemma bind_Some {S A B} (m : M S A) (f : A -> M S B) s b s' :
  bind m f s = Some (b, s') <->
  exists a s1, m s = Some (a, s1) /\ f a s1 = Some (b, s').
Proof.
  unfold bind. split.
  - destruct (m s) as [[a s1]|]; [eauto | discriminate].
  - intros (a & s1 & -> & H). exact H.
Qed.

Lemma bind_run {S A B} (m : M S A) (f : A -> M S B) s a s1 :
  m s = Some (a, s1) -> bind m f s = f a s1.
Proof. unfold bind. now intros ->. Qed.

Lemma pushArgs_run i a g :
  pushArgs i a g = Some (tt, withActions (fun l => l ++ [mkAction i a]) g).
Proof. reflexivity. Qed.

Definition idle (g : Global) : Prop :=
  deleteSpec g = None /\ rotationSpec g = None.

Lemma pushDelete_idle w g : deleteSpec g = None -> pushDelete w g = Some (tt, g).
Proof. unfold pushDelete. now intros ->. Qed.

Lemma pushDeleteAndRotate_idle p w g :
  idle g -> pushDeleteAndRotate p w g = Some (tt, g).
Proof. unfold pushDeleteAndRotate. now intros [-> ->]. Qed.

(** Splits a successful run of a sequence into the runs of its parts. *)
Ltac mprim H :=
  unfold pushActionEnd, pushAction, pushActionNull, pushArgs, reverseActions,
    setNewTreeAction, setCreateAction, setOperation, setDeleteSpec,
    setRotationSpec, getTreeCopy, checkInsertResize, modify, gets in H;
  first [injection H as ? ? | injection H as ?]; subst.

Ltac msplit :=
  repeat match goal with
  | u : unit |- _ => destruct u
  | H : bind _ _ _ = Some _ |- _ =>
      apply bind_Some in H; destruct H as (? & ? & ? & H)
  | H : ret _ _ = Some _ |- _ =>
      unfold ret in H; first [injection H as ? ? | injection H as ?]; subst
  | H : throw _ = Some _ |- _ => discriminate H
  | H : Some _ = Some _ |- _ =>
      first [injection H as ? ? | injection H as ?]; subst
  | H : pushAction _ _ _ = Some _ |- _ => mprim H
  | H : pushArgs _ _ _ = Some _ |- _ => mprim H
  | H : pushActionNull _ _ = Some _ |- _ => mprim H
  | H : pushActionEnd _ _ = Some _ |- _ => mprim H
  | H : reverseActions _ = Some _ |- _ => mprim H
  | H : setNewTreeAction _ = Some _ |- _ => mprim H
  | H : setOperation _ _ = Some _ |- _ => mprim H
  | H : setDeleteSpec _ _ = Some _ |- _ => mprim H
  | H : setRotationSpec _ _ = Some _ |- _ => mprim H
  | H : getTreeCopy _ _ = Some _ |- _ => mprim H
  | H : checkInsertResize _ _ = Some _ |- _ => mprim H
  | H : modify _ _ = Some _ |- _ => mprim H
  | H : gets _ _ = Some _ |- _ => mprim H
  end.

(** ** Keys of a tree *)

Fixpoint inorder {A} (n : Node A) : list Z :=
  match n with
  | null => []
  | node l v _ r => inorder l ++ v :: inorder r
  end.

(** [P] holds of every node object of the tree. *)
Fixpoint allNodes {A} (P : Node A -> Prop) (n : Node A) : Prop :=
  match n with
  | null => True
  | node l _ _ r => P n /\ allNodes P l /\ allNodes P r
  end.

(** [|height(left) - height(right)| <= 1], heights computed recursively. *)
Definition balancedAt {A} (n : Node A) : Prop :=
  match n with
  | null => True
  | node l _ _ r => -1 <= Tree.getHeight l - Tree.getHeight r <= 1
  end.

Definition heightCachedAt (n : Avl.AvlNode) : Prop :=
  Avl.getHeight n = Tree.getHeight n.

Lemma getHeight_nonneg {A} (n : Node A) : 0 <= Tree.getHeight n.
Proof. induction n; simpl; lia. Qed.

Lemma allNodes_cached_root (n : Avl.AvlNode) :
  allNodes heightCachedAt n -> Avl.getHeight n = Tree.getHeight n.
Proof. destruct n; [reflexivity | now intros [H _]]. Qed.

(** ** Deleting a key that is not stored *)

Lemma pushDelete_total w g : exists g', pushDelete w g = Some (tt, g').
Proof.
  unfold pushDelete. destruct (deleteSpec g); [|eauto].
  unfold bind, getTreeCopy, gets, pushAction. rewrite pushArgs_run.
  unfold modify. eauto.
Qed.

Lemma bst_delete_absent (t : Bst.BstNode) :
  forall wrap k g, ~ In k (inorder t) ->
  exists g', Bst.deleteRecursive wrap t k g = Some (t, g').
Proof.
  induction t as [|l IHl v a r IHr]; intros wrap k g Hk; simpl.
  - eauto.
  - simpl in Hk. rewrite in_app_iff in Hk. simpl in Hk.
    destruct (k <? v) eqn:Hlt.
    + destruct (IHl (fun t => wrap (node t v a r)) k
                  (withActions (fun l0 => l0 ++ [mkAction 3 (Some [ANum k; ANum v])]) g))
        as (g1 & H1); [tauto |].
      destruct (pushDelete_total (Bst.copy (wrap (node l v a r))) g1)
        as (g2 & H2).
      exists g2.
      unfold pushAction. erewrite bind_run by apply pushArgs_run.
      erewrite bind_run by exact H1.
      erewrite bind_run by exact H2.
      reflexivity.
    + destruct (k >? v) eqn:Hgt.
      * destruct (IHr (fun t => wrap (node l v a t)) k
                  (withActions (fun l0 => l0 ++ [mkAction 4 (Some [ANum k; ANum v])]) g))
          as (g1 & H1); [tauto |].
        destruct (pushDelete_total (Bst.copy (wrap (node l v a r))) g1)
          as (g2 & H2).
        exists g2.
        unfold pushAction. erewrite bind_run by apply pushArgs_run.
        erewrite bind_run by exact H1.
        erewrite bind_run by exact H2.
        reflexivity.
      * exfalso. apply Hk. right. left. lia.
Qed.

Lemma avl_rebalanceDelete_balanced wrap (n : Avl.AvlNode) g :
  n <> null -> heightCachedAt n -> balancedAt n ->
  (match n with null => True | node l _ _ r =>
     heightCachedAt l /\ heightCachedAt r end) ->
  Avl.rebalanceDelete wrap n g =
  Some (n, withActions (fun l0 => l0 ++ [mkAction 12 (Some [ANum (match n with null => 0 | node _ v _ _ => v end)])]) g).
Proof.
  destruct n as [|l v h r]; [congruence|]. intros _ Hc Hb [Hl Hr].
  unfold heightCachedAt in *. simpl in Hc, Hb. unfold Avl.rebalanceDelete.
  rewrite Hl, Hr.
  destruct (_ >? 1) eqn:E1; [lia|].
  destruct (_ <? -1) eqn:E2; [lia|].
  unfold pushAction. erewrite bind_run by apply pushArgs_run.
  unfold ret. do 3 f_equal. lia.
Qed.

Lemma avl_delete_absent (t : Avl.AvlNode) :
  forall wrap k g, ~ In k (inorder t) -> idle g ->
  allNodes heightCachedAt t -> allNodes balancedAt t ->
  exists g', Avl.deleteRecursive wrap t k g = Some (t, g') /\ idle g'.
Proof.
  induction t as [|l IHl v h r IHr]; intros wrap k g Hk Hg Hc Hb; simpl.
  - eauto.
  - simpl in Hk. rewrite in_app_iff in Hk. simpl in Hk.
    destruct Hc as (Hc & Hcl & Hcr). destruct Hb as (Hb & Hbl & Hbr).
    assert (Hreb : forall g1, Avl.rebalanceDelete wrap (node l v h r) g1 =
      Some (node l v h r, withActions (fun l0 => l0 ++ [mkAction 12 (Some [ANum v])]) g1)).
    { intros g1. apply (avl_rebalanceDelete_balanced wrap (node l v h r));
        [congruence | exact Hc | exact Hb |].
      split; apply allNodes_cached_root; assumption. }
    destruct (k <? v) eqn:Hlt.
    + destruct (IHl (fun t => wrap (node t v h r)) k
                  (withActions (fun l0 => l0 ++ [mkAction 3 (Some [ANum k; ANum v])]) g))
        as (g1 & H1 & Hd1); [tauto | exact Hg | assumption | assumption |].
      eexists. split.
      * unfold pushAction. erewrite bind_run by apply pushArgs_run.
        erewrite bind_run by exact H1.
        erewrite bind_run by (apply pushDeleteAndRotate_idle; exact Hd1).
        apply Hreb.
      * exact Hd1.
    + destruct (k >? v) eqn:Hgt.
      * destruct (IHr (fun t => wrap (node l v h t)) k
                  (withActions (fun l0 => l0 ++ [mkAction 4 (Some [ANum k; ANum v])]) g))
          as (g1 & H1 & Hd1); [tauto | exact Hg | assumption | assumption |].
        eexists. split.
        -- unfold pushAction. erewrite bind_run by apply pushArgs_run.
           erewrite bind_run by exact H1.
           erewrite bind_run by (apply pushDeleteAndRotate_idle; exact Hd1).
           apply Hreb.
        -- exact Hd1.
      * exfalso. apply Hk. right. left. lia.
Qed.

(** C10. Deleting a key that is not stored from a non-empty Plain tree, or
    from a non-empty AVL tree (cached heights right, every node balanced),
    returns normally and leaves the tree as it was: the same keys in the
    same shape, with the same cached heights. *)
Theorem delete_absent_key_leaves_tree_unchanged :
  (forall (root : Bst.BstNode) k g,
      root <> null -> ~ In k (inorder root) ->
      exists g', Bst.delete_ root k g = Some (root, g'))
  /\
  (forall (root : Avl.AvlNode) k g,
      root <> null -> ~ In k (inorder root) -> idle g ->
      allNodes heightCachedAt root -> allNodes balancedAt root ->
      exists g', Avl.delete_ root k g = Some (root, g')).
Proof.
  split.
  - intros root k g _ Hk. unfold Bst.delete_.
    destruct (bst_delete_absent root (fun t => t) k (withOperation DELETE g) Hk)
      as (g1 & H1).
    destruct (pushDelete_total (Bst.copy root) g1) as (g2 & H2).
    eexists. unfold setOperation. erewrite bind_run by reflexivity.
    erewrite bind_run by exact H1.
    erewrite bind_run by exact H2.
    reflexivity.
  - intros root k g _ Hk Hg Hc Hb. unfold Avl.delete_.
    destruct (avl_delete_absent root (fun t => t) k (withOperation DELETE g))
      as (g1 & H1 & Hi); [exact Hk | exact Hg | exact Hc | exact Hb |].
    eexists. unfold setOperation. erewrite bind_run by reflexivity.
    erewrite bind_run by exact H1.
    erewrite bind_run by (apply pushDeleteAndRotate_idle; exact Hi).
    reflexivity.
Qed.

Lemma delete_absent_key_leaves_tree_unchanged_witness :
  (exists g', Bst.delete_ (node (node null 3 tt null) 5 tt null) 4
                initialGlobal
              = Some (node (node null 3 tt null) 5 tt null, g'))
  /\
  (exists g', Avl.delete_ (node (node null 3 1 null) 5 2 null) 4
                initialGlobal
              = Some (node (node null 3 1 null) 5 2 null, g')).
Proof.
  destruct delete_absent_key_leaves_tree_unchanged as [Hb Ha]. split.
  - apply Hb; [discriminate|]. simpl. intros [H|[H|[]]]; discriminate H.
  - apply Ha; [discriminate| | split; reflexivity | |].
    + simpl. intros [H|[H|[]]]; discriminate H.
    + simpl. unfold heightCachedAt. simpl. tauto.
    + simpl. lia.
Defined.

(** ** One key in, the same key out *)

Lemma gtb_irrefl k : (k >? k) = false.
Proof. rewrite Z.gtb_ltb. apply Z.ltb_irrefl. Qed.

Lemma rb_insert_empty k h n g :
  RedBlack.insert k (RedBlack.mkState h None n g) =
  Some (tt, RedBlack.mkState
              (<[n := RedBlack.mkRbNode k None None None 0]>
                 (<[n := RedBlack.mkRbNode k None None None 1]> h))
              (Some n) (S n)
              (withActions
                 (fun _ => [mkAction 32 (Some [AStr "Insertion complete, tree is balanced."]);
                            mkAction 0 None; mkAction 5 None])
                 (withOperation INSERT g))).
Proof.
  unfold RedBlack.insert, bind, RedBlack.liftG, RedBlack.getRoot, gets,
    RedBlack.newRbNode, RedBlack.setRoot, modify, RedBlack.setColour,
    RedBlack.setNode, RedBlack.getNode, bind, ret; simpl.
  rewrite lookup_insert_eq. reflexivity.
Qed.

Lemma rb_delete_single k h n g :
  h !! n = Some (RedBlack.mkRbNode k None None None 0) ->
  exists g', RedBlack.delete_ k (RedBlack.mkState h (Some n) (S n) g) =
             Some (tt, RedBlack.mkState h None (S n) g').
Proof.
  intros Hn.
  unfold RedBlack.delete_, bind, RedBlack.liftG, RedBlack.getRoot, gets; simpl.
  unfold RedBlack.valueOf, RedBlack.getNode, bind, ret; simpl. rewrite Hn.
  simpl. rewrite Z.ltb_irrefl, gtb_irrefl.
  unfold RedBlack.leftOf, RedBlack.rightOf, RedBlack.getNode, bind, ret; simpl.
  rewrite Hn. simpl.
  unfold RedBlack.removeNode, RedBlack.valueOf, RedBlack.leftOf,
    RedBlack.rightOf, RedBlack.parentOf, RedBlack.getNode, RedBlack.push,
    RedBlack.liftG, RedBlack.setRoot, modify, bind, ret; simpl.
  repeat (rewrite Hn; simpl). eauto.
Qed.

Lemma isNull_true {A} (t : Node A) : isNull t = true -> t = null.
Proof. destruct t; [reflexivity | discriminate]. Qed.

Definition roundTrip (T : Type) `{Engine T} : Prop :=
  forall (t : T) (k : Z) (g : Global),
    rootIsNull t = true ->
    exists t1 g1 t2 g2,
      insertOp t k g = Some (t1, g1)
      /\ deleteOp t1 k g1 = Some (t2, g2)
      /\ rootIsNull t2 = true.

(** C8. Inserting [k] into an empty tree and then deleting [k] leaves the
    tree empty (its root is null), for the Plain, the AVL and the Red-Black
    engine. *)
Theorem insert_then_delete_yields_empty_tree :
  roundTrip Bst.BstNode /\ roundTrip Avl.AvlNode /\ roundTrip RbTree.
Proof.
  split; [|split]; intros t k g Ht.
  - apply isNull_true in Ht. subst t. simpl.
    do 4 eexists. split; [reflexivity|].
    unfold Bst.delete_, Bst.deleteRecursive, Bst.newBstNode.
    rewrite Z.ltb_irrefl, gtb_irrefl. split; reflexivity.
  - apply isNull_true in Ht. subst t. simpl.
    do 4 eexists. split; [reflexivity|].
    unfold Avl.delete_, Avl.deleteRecursive, Avl.newAvlNode.
    rewrite Z.ltb_irrefl, gtb_irrefl. split; reflexivity.
  - destruct t as [h r n]. simpl in Ht. apply bool_decide_eq_true in Ht.
    simpl in Ht. subst r. simpl. unfold rbCall. simpl.
    rewrite rb_insert_empty. simpl.
    edestruct (rb_delete_single k) as (g' & Hd);
      [apply lookup_insert_eq|].
    do 4 eexists. split; [reflexivity|]. simpl. rewrite Hd.
    split; reflexivity.
Qed.

Lemma insert_then_delete_yields_empty_tree_witness :
  (exists t1 g1 t2 g2,
      insertOp (newTree (T := Bst.BstNode)) 7 initialGlobal = Some (t1, g1)
      /\ deleteOp t1 7 g1 = Some (t2, g2) /\ rootIsNull t2 = true)
  /\ (exists t1 g1 t2 g2,
      insertOp (newTree (T := Avl.AvlNode)) 7 initialGlobal = Some (t1, g1)
      /\ deleteOp t1 7 g1 = Some (t2, g2) /\ rootIsNull t2 = true)
  /\ (exists t1 g1 t2 g2,
      insertOp (newTree (T := RbTree)) 7 initialGlobal = Some (t1, g1)
      /\ deleteOp t1 7 g1 = Some (t2, g2) /\ rootIsNull t2 = true).
Proof.
  destruct insert_then_delete_yields_empty_tree as (Hb & Ha & Hr).
  split; [|split].
  - apply Hb. reflexivity.
  - apply Ha. reflexivity.
  - apply Hr. reflexivity.
Defined.

(** ** The first insert into an empty tree *)

Definition endAction (message : string) : Action :=
  mkAction 32 (Some [AStr message]).

(** What the claim says: the list the call leaves is one create-new-tree
    action. *)
Definition singleCreateAction (l : list Action) : Prop :=
  exists a, l = [a] /\ id a = 0.

(** What [insert] leaves on an empty tree, and what [addClick] exposes. *)
Definition firstInsertTrace (T : Type) `{Engine T} : Prop :=
  forall (t : T) (v : Z) (g : Global),
    rootIsNull t = true ->
    (exists t' g' message,
        insertOp t v g = Some (t', g')
        /\ rootIsNull t' = false
        /\ actionList g' = [endAction message; mkAction 0 None; mkAction 5 None])
    /\ (exists t' g',
        Controller.addClickNewTree v g = Some (t', g')
        /\ singleCreateAction (actionList g')).

(** C5, as the code has it. On an empty tree [insert] replaces the action
    list by a create-new-tree action, then appends the end-of-sequence
    action, reverses, and appends a resize action: three actions, whatever
    the list held. The single create-new-tree action is what the
    controller's [addClick] exposes after the call ([setCreateAction]). *)
Theorem first_insert_leaves_end_create_resize :
  firstInsertTrace Bst.BstNode /\ firstInsertTrace Avl.AvlNode
  /\ firstInsertTrace RbTree.
Proof.
  split; [|split]; intros t v g Ht.
  - apply isNull_true in Ht. subst t. split.
    + do 3 eexists. split; [reflexivity|]. split; reflexivity.
    + do 2 eexists. split; [reflexivity|]. eexists. split; reflexivity.
  - apply isNull_true in Ht. subst t. split.
    + do 3 eexists. split; [reflexivity|]. split; reflexivity.
    + do 2 eexists. split; [reflexivity|]. eexists. split; reflexivity.
  - destruct t as [h r n]. simpl in Ht. apply bool_decide_eq_true in Ht.
    simpl in Ht. subst r. split.
    + simpl. unfold rbCall. simpl. rewrite rb_insert_empty.
      do 3 eexists. split; [reflexivity|]. split; reflexivity.
    + unfold Controller.addClickNewTree. simpl. unfold rbCall, bind. simpl.
      rewrite rb_insert_empty. simpl.
      do 2 eexists. split; [reflexivity|]. eexists. split; reflexivity.
Qed.

Lemma first_insert_leaves_end_create_resize_witness :
  exists t' g' message,
    insertOp (newTree (T := Avl.AvlNode)) 10 initialGlobal = Some (t', g')
    /\ rootIsNull t' = false
    /\ actionList g' = [endAction message; mkAction 0 None; mkAction 5 None].
Proof.
  destruct first_insert_leaves_end_create_resize as (_ & Ha & _).
  destruct (Ha newTree 10 initialGlobal) as [H _]; [reflexivity|].
  exact H.
Defined.

(** C5 as stated fails: the first insert of 10 into a new Plain tree leaves
    three actions (ids 32, 0, 5), not a single create-new-tree action. *)
Lemma first_insert_is_not_a_single_action :
  exists t' g',
    insertOp (newTree (T := Bst.BstNode)) 10 initialGlobal = Some (t', g')
    /\ map id (actionList g') = [32; 0; 5]
    /\ ~ singleCreateAction (actionList g').
Proof.
  do 2 eexists. split; [reflexivity|]. split; [reflexivity|].
  intros (a & H & _). discriminate H.
Qed.

(** ** Scenario A: 10, 20, 30 into an AVL tree *)

Definition isRotationAction (a : Action) : bool :=
  (id a =? 14) || (id a =? 15).

Definition rootKey {A} (t : Node A) : option Z :=
  match t with
  | null => None
  | node _ v _ _ => Some v
  end.

(** [Global] when a call starts from the controller: the list was played
    to the end, the slots are empty, [Global.tree] is the tree. *)
Definition readyGlobal : Global := mkGlobal [] None None None true [].

(** C4, evaluated. The third insert leaves exactly one rotation action, at
    the node keyed 10, and the root key is 20; but the action carries id
    15, which [animate] plays as a RIGHT rotation (case 14 is the left
    rotation), although it was [Avl.leftRotate] that ran. *)
Theorem avl_10_20_30_rotation_is_tagged_15 :
  exists t1 g1 t2 g2 t3 g3 snapshot,
    Controller.addClickNewTree 10 initialGlobal = Some (t1, g1)
    /\ Avl.insert t1 20 readyGlobal = Some (t2, g2)
    /\ Avl.insert t2 30 readyGlobal = Some (t3, g3)
    /\ filter (fun a => isRotationAction a = true) (actionList g3)
       = [mkAction 15 (Some [ANum 10; ANum 20; ANull; ANull; snapshot])]
    /\ Controller.rotationCaption
         (mkAction 15 (Some [ANum 10; ANum 20; ANull; ANull; snapshot]))
       = Some "Perform a right rotation at Node 10."%string
    /\ rootKey t3 = Some 20.
Proof.
  do 7 eexists. split; [reflexivity|]. split; [reflexivity|].
  split; [reflexivity|]. split; [reflexivity|]. split; reflexivity.
Qed.

(** ** The pending-record slots *)

Definition slotsOf (g : Global)
  : option (list Arg) * option (list Arg) * list SlotEvent :=
  (deleteSpec g, rotationSpec g, slotLog g).

(** A history in which every record written is consumed before the next
    one is written. *)
Definition bracketed (ks : list Slot) : list SlotEvent :=
  flat_map (fun k => [Written k; Consumed k]) ks.

(** The slots and their history, for a history that started as [log0]:
    nothing is pending, or one delete-shape record is, or one rotation
    record is. *)
Inductive SlotState (log0 : list SlotEvent)
  : option (list Arg) * option (list Arg) * list SlotEvent -> Prop :=
| slots_settled ks :
    SlotState log0 (None, None, log0 ++ bracketed ks)
| slots_delete ks b :
    SlotState log0 (Some [ABool b], None,
                    log0 ++ bracketed ks ++ [Written DeleteSlot])
| slots_rotation ks a b c i :
    SlotState log0 (None, Some [a; b; c; ANum i],
                    log0 ++ bracketed ks ++ [Written RotationSlot]).

Definition settled (log0 : list SlotEvent) (g : Global) : Prop :=
  exists ks, slotsOf g = (None, None, log0 ++ bracketed ks).

Lemma bracketed_app ks1 ks2 :
  bracketed (ks1 ++ ks2) = bracketed ks1 ++ bracketed ks2.
Proof. unfold bracketed. apply flat_map_app. Qed.

Lemma settled_idle log0 g : settled log0 g -> idle g.
Proof. intros (ks & H). unfold slotsOf in H. injection H as H1 H2 _. now split. Qed.

Lemma idle_settled g : idle g -> settled (slotLog g) g.
Proof.
  intros [H1 H2]. exists []. unfold slotsOf. rewrite H1, H2. simpl.
  now rewrite app_nil_r.
Qed.

Lemma settled_SlotState log0 g : settled log0 g -> SlotState log0 (slotsOf g).
Proof. intros (ks & ->). constructor. Qed.

Lemma SlotState_trans log0 ks x :
  SlotState (log0 ++ bracketed ks) x -> SlotState log0 x.
Proof.
  intros H. inversion H; subst; rewrite <- app_assoc.
  - rewrite <- bracketed_app. constructor.
  - rewrite (app_assoc (bracketed ks)), <- bracketed_app. constructor.
  - rewrite (app_assoc (bracketed ks)), <- bracketed_app. constructor.
Qed.

Lemma slotsOf_withActions f g : slotsOf (withActions f g) = slotsOf g.
Proof. reflexivity. Qed.

Lemma slotsOf_withOperation o g : slotsOf (withOperation o g) = slotsOf g.
Proof. reflexivity. Qed.

Lemma settled_same log0 g g' :
  slotsOf g' = slotsOf g -> settled log0 g -> settled log0 g'.
Proof. intros E (ks & H). exists ks. congruence. Qed.

Lemma slotsOf_resize h g :
  slotsOf (if treeBound g
           then withActions (fun l => mkAction 5 (Some [ANum h]) :: l) g
           else g) = slotsOf g.
Proof. now destruct (treeBound g). Qed.

Lemma getMinValue_slots {A} (n : Node A) :
  forall g m g', Tree.getMinValue n g = Some (m, g') -> slotsOf g' = slotsOf g.
Proof.
  induction n as [|l IHl v a r _]; intros g m g' H; simpl in H.
  - discriminate.
  - msplit. destruct l.
    + msplit. reflexivity.
    + apply IHl in H. exact H.
Qed.

Lemma SlotState_inv log0 g :
  SlotState log0 (slotsOf g) ->
  (exists ks, deleteSpec g = None /\ rotationSpec g = None
              /\ slotLog g = log0 ++ bracketed ks)
  \/ (exists ks b, deleteSpec g = Some [ABool b] /\ rotationSpec g = None
                   /\ slotLog g = log0 ++ bracketed ks ++ [Written DeleteSlot])
  \/ (exists ks a b c i,
         deleteSpec g = None /\ rotationSpec g = Some [a; b; c; ANum i]
         /\ slotLog g = log0 ++ bracketed ks ++ [Written RotationSlot]).
Proof.
  unfold slotsOf. intros H. inversion H; subst.
  - left. eauto.
  - right. left. eauto 6.
  - right. right. eauto 10.
Qed.

Lemma pushDelete_slots log0 w g g' :
  SlotState log0 (slotsOf g) -> rotationSpec g = None ->
  pushDelete w g = Some (tt, g') -> settled log0 g'.
Proof.
  intros Hs Hr H. unfold pushDelete in H.
  destruct (SlotState_inv _ _ Hs)
    as [(ks & Ed & Er & El)|[(ks & b & Ed & Er & El)|(ks & a & b & c & i & Ed & Er & El)]].
  - rewrite Ed in H. injection H as <-. exists ks. unfold slotsOf.
    congruence.
  - rewrite Ed in H. msplit. exists (ks ++ [DeleteSlot]).
    unfold slotsOf. simpl.
    rewrite Er, El, bracketed_app, <- !app_assoc. reflexivity.
  - congruence.
Qed.

Lemma pushDeleteAndRotate_slots log0 p w g :
  SlotState log0 (slotsOf g) ->
  exists g', pushDeleteAndRotate p w g = Some (tt, g') /\ settled log0 g'.
Proof.
  intros Hs. unfold pushDeleteAndRotate, pushDelete.
  destruct (SlotState_inv _ _ Hs)
    as [(ks & Ed & Er & El)|[(ks & b & Ed & Er & El)|(ks & a & b & c & i & Ed & Er & El)]].
  - rewrite Ed, Er. eexists. split; [reflexivity|]. exists ks.
    unfold slotsOf. congruence.
  - rewrite Ed. eexists. split; [reflexivity|].
    exists (ks ++ [DeleteSlot]). unfold slotsOf. simpl.
    rewrite Er, El, bracketed_app, <- !app_assoc. reflexivity.
  - rewrite Ed, Er. eexists. split; [reflexivity|].
    exists (ks ++ [RotationSlot]). unfold slotsOf. simpl.
    rewrite Ed, El, bracketed_app, <- !app_assoc. reflexivity.
Qed.

Lemma pushDeleteAndRotate_slots_inv log0 p w g g' :
  SlotState log0 (slotsOf g) ->
  pushDeleteAndRotate p w g = Some (tt, g') -> settled log0 g'.
Proof.
  intros Hs H. destruct (pushDeleteAndRotate_slots log0 p w g Hs)
    as (g2 & H2 & Hset). congruence.
Qed.

Lemma settled_withActions log0 f g :
  settled log0 g -> settled log0 (withActions f g).
Proof. apply settled_same. reflexivity. Qed.

Lemma settled_rotationSpec log0 g : settled log0 g -> rotationSpec g = None.
Proof. intros H. apply settled_idle in H. apply H. Qed.

Lemma settled_written_delete log0 b g :
  settled log0 g ->
  SlotState log0
    (slotsOf (withDeleteSpec (Some [ABool b]) (Written DeleteSlot) g)).
Proof.
  intros (ks & H). unfold slotsOf in *. simpl. injection H as _ -> ->.
  rewrite <- app_assoc. constructor.
Qed.

Lemma settled_written_rotation log0 a b c i g :
  settled log0 g ->
  SlotState log0
    (slotsOf (withRotationSpec (Some [a; b; c; ANum i])
                (Written RotationSlot) g)).
Proof.
  intros (ks & H). unfold slotsOf in *. simpl. injection H as -> _ ->.
  rewrite <- app_assoc. constructor.
Qed.

Ltac solve_settled :=
  repeat first
    [ eassumption
    | apply settled_withActions
    | eapply settled_same; [apply slotsOf_resize|]
    | match goal with
      | E : slotsOf ?g' = slotsOf ?g |- settled _ ?g' =>
          eapply settled_same; [exact E|]
      end ].

Lemma avl_valueOf_state n g v g' : Avl.valueOf n g = Some (v, g') -> g' = g.
Proof. destruct n; simpl; intros H; msplit; reflexivity. Qed.

Lemma avl_getBalance_state n g v g' : Avl.getBalance n g = Some (v, g') -> g' = g.
Proof. destruct n; simpl; intros H; msplit; reflexivity. Qed.

Lemma avl_leftRotate_slots log0 n g n' g' :
  settled log0 g -> Avl.leftRotate n g = Some (n', g') ->
  SlotState log0 (slotsOf g').
Proof.
  intros Hg H. destruct n as [|a lv h [|b rv h' c]]; try discriminate H.
  unfold Avl.leftRotate in H. msplit. now apply settled_written_rotation.
Qed.

Lemma avl_rightRotate_slots log0 n g n' g' :
  settled log0 g -> Avl.rightRotate n g = Some (n', g') ->
  SlotState log0 (slotsOf g').
Proof.
  intros Hg H. destruct n as [|[|a lv h b] rv h' c]; try discriminate H.
  unfold Avl.rightRotate in H. msplit. now apply settled_written_rotation.
Qed.

(** Forward steps through a run: what each part leaves in the slots. *)
Ltac slots_fwd :=
  repeat match goal with
  | H : Tree.getMinValue _ _ = Some _ |- _ => apply getMinValue_slots in H
  | H : Avl.valueOf _ _ = Some _ |- _ => apply avl_valueOf_state in H; subst
  | H : Avl.getBalance _ _ = Some _ |- _ =>
      apply avl_getBalance_state in H; subst
  | H : pushDelete _ _ = Some _ |- _ =>
      eapply pushDelete_slots in H; [|eassumption|eassumption]
  | H : pushDeleteAndRotate _ _ _ = Some _ |- _ =>
      eapply pushDeleteAndRotate_slots_inv in H; [|eassumption]
  | H : Avl.leftRotate _ _ = Some _ |- _ =>
      eapply avl_leftRotate_slots in H; [|solve [solve_settled]]
  | H : Avl.rightRotate _ _ = Some _ |- _ =>
      eapply avl_rightRotate_slots in H; [|solve [solve_settled]]
  end.

Lemma bst_insertRecursive_slots (t : Bst.BstNode) :
  forall v g t' g',
    Bst.insertRecursive t v g = Some (t', g') -> slotsOf g' = slotsOf g.
Proof.
  induction t as [|l IHl x a r IHr]; intros v g t' g' H; simpl in H.
  - discriminate.
  - destruct (v <? x); msplit.
    + destruct l; msplit; [reflexivity|].
      match goal with H : Bst.insertRecursive _ _ _ = _ |- _ =>
        apply IHl in H; exact H end.
    + destruct r; msplit; [reflexivity|].
      match goal with H : Bst.insertRecursive _ _ _ = _ |- _ =>
        apply IHr in H; exact H end.
Qed.

Lemma bst_deleteRecursive_slots log0 (t : Bst.BstNode) :
  forall wrap k g t' g',
    settled log0 g ->
    Bst.deleteRecursive wrap t k g = Some (t', g') ->
    SlotState log0 (slotsOf g') /\ rotationSpec g' = None.
Proof.
  induction t as [|l IHl x a r IHr]; intros wrap k g t' g' Hg H; simpl in H.
  - msplit. split; [now apply settled_SlotState |
                    eapply settled_rotationSpec; eassumption].
  - destruct (k <? x); [|destruct (k >? x);
      [|destruct (negb (isNull l) && negb (isNull r))]]; msplit.
    + match goal with H : Bst.deleteRecursive _ _ _ _ = _ |- _ =>
        apply IHl in H as [Hs Hr]; [|solve [solve_settled]] end.
      slots_fwd.
      split; [apply settled_SlotState |
              eapply settled_rotationSpec]; eassumption.
    + match goal with H : Bst.deleteRecursive _ _ _ _ = _ |- _ =>
        apply IHr in H as [Hs Hr]; [|solve [solve_settled]] end.
      slots_fwd.
      split; [apply settled_SlotState |
              eapply settled_rotationSpec]; eassumption.
    + slots_fwd.
      match goal with H : Bst.deleteRecursive _ _ _ _ = _ |- _ =>
        apply IHr in H as [Hs Hr]; [|solve [solve_settled]] end.
      slots_fwd.
      split; [apply settled_SlotState |
              eapply settled_rotationSpec]; eassumption.
    + split.
      * apply settled_written_delete.
        destruct (isNull (orElse l r)); msplit; solve_settled.
      * simpl. destruct (isNull (orElse l r)); msplit; simpl;
          eapply settled_rotationSpec; eassumption.
Qed.

Lemma avl_rebalanceInsert_slots log0 wrap n v g n' g' :
  settled log0 g -> Avl.rebalanceInsert wrap n v g = Some (n', g') ->
  SlotState log0 (slotsOf g').
Proof.
  intros Hg H. destruct n as [|l x h r]; [discriminate H|].
  unfold Avl.rebalanceInsert in H.
  destruct (_ >? 1); [|destruct (_ <? -1)]; msplit; slots_fwd.
  - destruct (v <? _); msplit; slots_fwd; assumption.
  - destruct (v >? _); msplit; slots_fwd; assumption.
  - apply settled_SlotState. solve_settled.
Qed.

Lemma avl_rebalanceDelete_slots log0 wrap n g n' g' :
  settled log0 g -> Avl.rebalanceDelete wrap n g = Some (n', g') ->
  SlotState log0 (slotsOf g').
Proof.
  intros Hg H. destruct n as [|l x h r]; [discriminate H|].
  unfold Avl.rebalanceDelete in H.
  destruct (_ >? 1); [|destruct (_ <? -1)]; msplit; slots_fwd.
  - destruct (_ >=? 0); msplit; slots_fwd; assumption.
  - destruct (_ <=? 0); msplit; slots_fwd; assumption.
  - apply settled_SlotState. solve_settled.
Qed.

Lemma avl_insertRecursive_slots log0 (t : Avl.AvlNode) :
  forall wrap v g t' g',
    settled log0 g ->
    Avl.insertRecursive wrap t v g = Some (t', g') ->
    SlotState log0 (slotsOf g').
Proof.
  induction t as [|l IHl x h r IHr]; intros wrap v g t' g' Hg H; simpl in H.
  - discriminate.
  - apply bind_Some in H as (n1 & g1 & H1 & H2).
    eapply avl_rebalanceInsert_slots; [|exact H2].
    destruct (v <? x).
    + destruct l; msplit; [solve_settled|].
      match goal with H : Avl.insertRecursive _ _ _ _ = _ |- _ =>
        apply IHl in H; [|solve [solve_settled]] end.
      slots_fwd. assumption.
    + destruct r; msplit; [solve_settled|].
      match goal with H : Avl.insertRecursive _ _ _ _ = _ |- _ =>
        apply IHr in H; [|solve [solve_settled]] end.
      slots_fwd. assumption.
Qed.

Lemma avl_deleteRecursive_slots log0 (t : Avl.AvlNode) :
  forall wrap k g t' g',
    settled log0 g ->
    Avl.deleteRecursive wrap t k g = Some (t', g') ->
    SlotState log0 (slotsOf g').
Proof.
  induction t as [|l IHl x h r IHr]; intros wrap k g t' g' Hg H; simpl in H.
  - msplit. now apply settled_SlotState.
  - destruct (k <? x); [|destruct (k >? x);
      [|destruct (negb (isNull l) && negb (isNull r))]]; msplit.
    + match goal with H : Avl.deleteRecursive _ _ _ _ = _ |- _ =>
        apply IHl in H; [|solve [solve_settled]] end.
      slots_fwd. eapply avl_rebalanceDelete_slots; [|eassumption]; eassumption.
    + match goal with H : Avl.deleteRecursive _ _ _ _ = _ |- _ =>
        apply IHr in H; [|solve [solve_settled]] end.
      slots_fwd. eapply avl_rebalanceDelete_slots; [|eassumption]; eassumption.
    + slots_fwd.
      match goal with H : Avl.deleteRecursive _ _ _ _ = _ |- _ =>
        apply IHr in H; [|solve [solve_settled]] end.
      slots_fwd. eapply avl_rebalanceDelete_slots; [|eassumption]; eassumption.
    + destruct (isNull (orElse l r)); msplit;
        apply settled_written_delete; solve_settled.
Qed.

(** ** What a run may do to [Global]

    [respects proj P m]: every successful run of [m] takes [Global] from
    [g] to some [g'] with [P g g'], for a reflexive and transitive [P]. *)

Section Respects.
Context {S : Type} (proj : S -> Global) (P : relation Global) `{!PreOrder P}.

Definition respects {A} (m : M S A) : Prop :=
  forall s a s', m s = Some (a, s') -> P (proj s) (proj s').

Lemma respects_ret {A} (a : A) : respects (ret a).
Proof. intros s a' s' H. msplit. reflexivity. Qed.

Lemma respects_throw {A} : respects (@throw S A).
Proof. intros s a' s' H. discriminate H. Qed.

Lemma respects_bind {A B} (m : M S A) (f : A -> M S B) :
  respects m -> (forall a, respects (f a)) -> respects (bind m f).
Proof.
  intros Hm Hf s b s' H. apply bind_Some in H as (a & s1 & H1 & H2).
  transitivity (proj s1); [eapply Hm | eapply Hf]; eassumption.
Qed.

Lemma respects_gets {A} (f : S -> A) : respects (gets f).
Proof. intros s a' s' H. msplit. reflexivity. Qed.

Lemma respects_modify (f : S -> S) :
  (forall s, P (proj s) (proj (f s))) -> respects (modify f).
Proof. intros Hf s a' s' H. msplit. apply Hf. Qed.

End Respects.

Create HintDb respects discriminated.

#[export] Hint Resolve respects_ret respects_throw respects_bind
  respects_gets : respects.
#[export] Hint Extern 3 (respects _ _ (if ?c then _ else _)) =>
  destruct c : respects.
#[export] Hint Extern 3 (respects _ _ (match ?x with _ => _ end)) =>
  destruct x : respects.
#[export] Hint Extern 4 (respects _ _ (let _ := _ in _)) =>
  cbv zeta : respects.

Lemma respects_liftG (P : relation Global) {A} (m : G A) :
  respects (fun g => g) P m -> respects RedBlack.glob P (RedBlack.liftG m).
Proof.
  intros Hm s a s' H. unfold RedBlack.liftG in H.
  destruct (m (RedBlack.glob s)) as [[a' g']|] eqn:E; [|discriminate].
  injection H as <- <-. simpl. eapply Hm. exact E.
Qed.

(** The store operations do not touch [Global]. *)
Section Silent.
Context (P : relation Global) `{!PreOrder P}.

Lemma respects_getNode x : respects RedBlack.glob P (RedBlack.getNode x).
Proof.
  intros s a s' H. unfold RedBlack.getNode in H.
  destruct x as [l|]; [|discriminate].
  destruct (RedBlack.heap s !! l); [|discriminate].
  injection H as <- <-. reflexivity.
Qed.

Lemma respects_setNode x f : respects RedBlack.glob P (RedBlack.setNode x f).
Proof.
  unfold RedBlack.setNode. apply respects_bind; [assumption|apply respects_getNode|].
  intros n. destruct x; [|apply respects_throw; assumption].
  apply respects_modify. intros s. reflexivity.
Qed.

Lemma respects_setRoot r : respects RedBlack.glob P (RedBlack.setRoot r).
Proof. apply respects_modify. intros s. reflexivity. Qed.

Lemma respects_newRbNode v : respects RedBlack.glob P (RedBlack.newRbNode v).
Proof. intros s a s' H. unfold RedBlack.newRbNode in H. injection H as <- <-. reflexivity. Qed.

End Silent.

#[export] Hint Resolve respects_liftG respects_getNode respects_setNode
  respects_setRoot respects_newRbNode : respects.

(** First relation: the two slots and their history are left alone. *)
Definition sameSlots : relation Global := fun g g' => slotsOf g' = slotsOf g.

#[export] Instance sameSlots_preorder : PreOrder sameSlots.
Proof.
  split.
  - intros g. reflexivity.
  - intros a b c H1 H2. unfold sameSlots in *. congruence.
Qed.

(** Second relation: the action list keeps what it held, in place; new
    actions go to its end, resize actions of [checkInsertResize] to its
    front. *)
Definition isInsertResize (a : Action) : Prop :=
  exists h, a = mkAction 5 (Some [ANum h]).

Definition extendsList : relation Global := fun g g' =>
  exists pre post,
    actionList g' = pre ++ actionList g ++ post /\ Forall isInsertResize pre.

#[export] Instance extendsList_preorder : PreOrder extendsList.
Proof.
  split.
  - intros g. exists [], []. simpl. rewrite app_nil_r. split; [reflexivity|constructor].
  - intros a b c (p1 & q1 & E1 & F1) (p2 & q2 & E2 & F2).
    exists (p2 ++ p1), (q1 ++ q2). split.
    + rewrite E2, E1, <- !app_assoc. reflexivity.
    + apply Forall_app. split; assumption.
Qed.

Lemma extendsList_push g a :
  extendsList g (withActions (fun l => l ++ [a]) g).
Proof. exists [], [a]. split; [reflexivity|constructor]. Qed.

Lemma extendsList_same g g' :
  actionList g' = actionList g -> extendsList g g'.
Proof.
  intros E. exists [], []. simpl. rewrite app_nil_r. split; [exact E|constructor].
Qed.

(** Third relation: the action list only grows at its end. *)
Definition appendsOnly : relation Global := fun g g' =>
  exists post, actionList g' = actionList g ++ post.

#[export] Instance appendsOnly_preorder : PreOrder appendsOnly.
Proof.
  split.
  - intros g. exists []. now rewrite app_nil_r.
  - intros a b c (q1 & E1) (q2 & E2). exists (q1 ++ q2).
    rewrite E2, E1, <- app_assoc. reflexivity.
Qed.

Definition resized (h : Z) (g : Global) : Global :=
  if treeBound g
  then withActions (fun l => mkAction 5 (Some [ANum h]) :: l) g
  else g.

Section Primitives.
Context (P : relation Global) `{!PreOrder P}.
Context (P_push : forall g a, P g (withActions (fun l => l ++ [a]) g)).
Context (P_resize : forall g h, P g (resized h g)).

Lemma respects_pushArgs i a : respects (fun g => g) P (pushArgs i a).
Proof. intros g u g' H. msplit. apply P_push. Qed.

Lemma respects_pushAction i a : respects (fun g => g) P (pushAction i a).
Proof. apply respects_pushArgs. Qed.

Lemma respects_pushActionNull i :
  respects (fun g => g) P (pushActionNull i).
Proof. apply respects_pushArgs. Qed.

Lemma respects_checkInsertResize h :
  respects (fun g => g) P (checkInsertResize h).
Proof. intros g u g' H. msplit. apply P_resize. Qed.

Lemma respects_push i a : respects RedBlack.glob P (RedBlack.push i a).
Proof. apply respects_liftG, respects_pushAction. Qed.

Lemma respects_checkResize : respects RedBlack.glob P RedBlack.checkResize.
Proof.
  intros s u s' H. unfold RedBlack.checkResize in H.
  eapply respects_liftG; [apply respects_checkInsertResize|exact H].
Qed.

End Primitives.

Lemma sameSlots_push g a : sameSlots g (withActions (fun l => l ++ [a]) g).
Proof. reflexivity. Qed.

Lemma sameSlots_resize g h : sameSlots g (resized h g).
Proof. unfold sameSlots, resized. now destruct (treeBound g). Qed.

Lemma extendsList_resize g h : extendsList g (resized h g).
Proof.
  unfold resized. destruct (treeBound g); [|reflexivity].
  exists [mkAction 5 (Some [ANum h])], []. simpl. rewrite app_nil_r.
  split; [reflexivity|]. constructor; [|constructor]. now exists h.
Qed.

Lemma appendsOnly_push g a : appendsOnly g (withActions (fun l => l ++ [a]) g).
Proof. now exists [a]. Qed.

(** The Red-Black engine only appends actions (and puts resize actions in
    front); it never touches the slots. *)
Section RbRespects.
Context (P : relation Global) `{!PreOrder P}.
Context (P_push : forall g a, P g (withActions (fun l => l ++ [a]) g)).
Context (P_resize : forall g h, P g (resized h g)).

Local Abbreviation ok m := (respects RedBlack.glob P m).

Local Hint Resolve respects_push respects_checkResize : respects.

Ltac rb_respects := eauto 200 with respects.

Lemma respects_valueOf x : ok (RedBlack.valueOf x).
Proof. unfold RedBlack.valueOf. rb_respects. Qed.
Lemma respects_leftOf x : ok (RedBlack.leftOf x).
Proof. unfold RedBlack.leftOf. rb_respects. Qed.
Lemma respects_rightOf x : ok (RedBlack.rightOf x).
Proof. unfold RedBlack.rightOf. rb_respects. Qed.
Lemma respects_parentOf x : ok (RedBlack.parentOf x).
Proof. unfold RedBlack.parentOf. rb_respects. Qed.
Lemma respects_colourOf x : ok (RedBlack.colourOf x).
Proof. unfold RedBlack.colourOf. rb_respects. Qed.
Local Hint Resolve respects_valueOf respects_leftOf respects_rightOf
  respects_parentOf respects_colourOf : respects.

Lemma respects_setters x :
  (forall v, ok (RedBlack.setValue x v))
  /\ (forall y, ok (RedBlack.setLeft x y))
  /\ (forall y, ok (RedBlack.setRight x y))
  /\ (forall y, ok (RedBlack.setParent x y))
  /\ (forall c, ok (RedBlack.setColour x c)).
Proof.
  unfold RedBlack.setValue, RedBlack.setLeft, RedBlack.setRight,
    RedBlack.setParent, RedBlack.setColour.
  repeat split; intros; rb_respects.
Qed.

Lemma respects_setValue x v : ok (RedBlack.setValue x v).
Proof. apply respects_setters. Qed.
Lemma respects_setLeft x y : ok (RedBlack.setLeft x y).
Proof. apply respects_setters. Qed.
Lemma respects_setRight x y : ok (RedBlack.setRight x y).
Proof. apply respects_setters. Qed.
Lemma respects_setParent x y : ok (RedBlack.setParent x y).
Proof. apply respects_setters. Qed.
Lemma respects_setColour x c : ok (RedBlack.setColour x c).
Proof. apply respects_setters. Qed.
Local Hint Resolve respects_setValue respects_setLeft respects_setRight
  respects_setParent respects_setColour : respects.

Lemma respects_isBlack x : ok (RedBlack.isBlack x).
Proof. unfold RedBlack.isBlack. rb_respects. Qed.
Lemma respects_isRed x : ok (RedBlack.isRed x).
Proof. unfold RedBlack.isRed. rb_respects. Qed.
Lemma respects_valueOrNullOf x : ok (RedBlack.valueOrNullOf x).
Proof. unfold RedBlack.valueOrNullOf. rb_respects. Qed.
Lemma respects_getRoot : ok RedBlack.getRoot.
Proof. unfold RedBlack.getRoot. rb_respects. Qed.
Lemma respects_getTreeCopyOf : ok RedBlack.getTreeCopyOf.
Proof. unfold RedBlack.getTreeCopyOf. rb_respects. Qed.
Lemma respects_getTreeCopyGlobal : ok RedBlack.getTreeCopyGlobal.
Proof. unfold RedBlack.getTreeCopyGlobal. rb_respects. Qed.
Local Hint Resolve respects_isBlack respects_isRed respects_valueOrNullOf
  respects_getRoot respects_getTreeCopyOf respects_getTreeCopyGlobal
  : respects.

Lemma respects_rb_getMinValue fuel : forall x, ok (RedBlack.getMinValue fuel x).
Proof. induction fuel; intros x; simpl; rb_respects. Qed.

Lemma respects_rb_leftRotate x : ok (RedBlack.leftRotate x).
Proof. unfold RedBlack.leftRotate. rb_respects. Qed.
Lemma respects_rb_rightRotate x : ok (RedBlack.rightRotate x).
Proof. unfold RedBlack.rightRotate. rb_respects. Qed.
Local Hint Resolve respects_rb_getMinValue respects_rb_leftRotate
  respects_rb_rightRotate : respects.

Lemma respects_rb_insertRecursive fuel :
  forall n v, ok (RedBlack.insertRecursive fuel n v).
Proof. induction fuel; intros n v; simpl; rb_respects. Qed.

Lemma respects_fixInsertSide u i ri ro c g :
  (forall x, ok (u x)) -> (forall x, ok (i x)) ->
  (forall x, ok (ri x)) -> (forall x, ok (ro x)) ->
  ok (RedBlack.fixInsertSide u i ri ro c g).
Proof. intros. unfold RedBlack.fixInsertSide. rb_respects. Qed.
Local Hint Resolve respects_rb_insertRecursive respects_fixInsertSide
  : respects.

Lemma respects_fixInsertLoop fuel : forall c, ok (RedBlack.fixInsertLoop fuel c).
Proof. induction fuel; intros c; simpl; rb_respects. Qed.
Local Hint Resolve respects_fixInsertLoop : respects.

Lemma respects_fixInsert fuel n : ok (RedBlack.fixInsert fuel n).
Proof. unfold RedBlack.fixInsert. rb_respects. Qed.

Lemma respects_deleteFixSide nr fr rn rf txt p :
  (forall x, ok (nr x)) -> (forall x, ok (fr x)) ->
  (forall x, ok (rn x)) -> (forall x, ok (rf x)) ->
  ok (RedBlack.deleteFixSide nr fr rn rf txt p).
Proof. intros. unfold RedBlack.deleteFixSide. rb_respects. Qed.
Local Hint Resolve respects_fixInsert respects_deleteFixSide : respects.

Lemma respects_deleteFixLoop fuel :
  forall p n, ok (RedBlack.deleteFixLoop fuel p n).
Proof. induction fuel; intros p n; simpl; rb_respects. Qed.
Local Hint Resolve respects_deleteFixLoop : respects.

Lemma respects_deleteFix fuel p n : ok (RedBlack.deleteFix fuel p n).
Proof. unfold RedBlack.deleteFix. rb_respects. Qed.
Local Hint Resolve respects_deleteFix : respects.

Local Hint Resolve respects_pushActionNull : respects.

Lemma respects_removeNode fuel n : ok (RedBlack.removeNode fuel n).
Proof. unfold RedBlack.removeNode. rb_respects. Qed.
Local Hint Resolve respects_removeNode : respects.

Lemma respects_rb_deleteRecursive fuel bound :
  forall n v, ok (RedBlack.deleteRecursive fuel bound n v).
Proof. induction fuel; intros n v; simpl; rb_respects. Qed.

End RbRespects.

(** The recursive parts of the Plain and AVL engines do the same. *)
Section TreeRespects.
Context (P : relation Global) `{!PreOrder P}.
Context (P_push : forall g a, P g (withActions (fun l => l ++ [a]) g)).
Context (P_resize : forall g h, P g (resized h g)).
Context (P_same : forall g g', actionList g' = actionList g -> P g g').

Local Abbreviation ok m := (respects (fun g : Global => g) P m).

Local Hint Resolve respects_pushAction respects_pushActionNull
  respects_checkInsertResize : respects.

Ltac g_respects := eauto 200 with respects.

Lemma respects_setDeleteSpec b : ok (setDeleteSpec b).
Proof. apply respects_modify. intros g. now apply P_same. Qed.

Lemma respects_setRotationSpec r : ok (setRotationSpec r).
Proof. apply respects_modify. intros g. now apply P_same. Qed.

Lemma respects_consume_delete :
  ok (modify (withDeleteSpec None (Consumed DeleteSlot))).
Proof. apply respects_modify. intros g. now apply P_same. Qed.

Lemma respects_consume_rotation :
  ok (modify (withRotationSpec None (Consumed RotationSlot))).
Proof. apply respects_modify. intros g. now apply P_same. Qed.

Lemma respects_getTreeCopy w : ok (getTreeCopy w).
Proof. unfold getTreeCopy. g_respects. Qed.

Local Hint Resolve respects_setDeleteSpec respects_setRotationSpec
  respects_consume_delete respects_consume_rotation respects_getTreeCopy
  : respects.

Lemma respects_pushDelete w : ok (pushDelete w).
Proof.
  intros g u g' H. unfold pushDelete in H.
  destruct (deleteSpec g); [|msplit; reflexivity].
  revert H. generalize g u g'. fold (ok
    (let* copy := getTreeCopy w in
     pushAction 5 (l ++ [copy]) >>
     modify (withDeleteSpec None (Consumed DeleteSlot)))).
  g_respects.
Qed.

Lemma respects_pushDeleteAndRotate p w : ok (pushDeleteAndRotate p w).
Proof.
  intros g u g' H. unfold pushDeleteAndRotate in H.
  destruct (deleteSpec g).
  - eapply respects_pushDelete. exact H.
  - destruct (rotationSpec g) as [spec|]; [|msplit; reflexivity].
    destruct (popArg spec) as [[spec' [| i | | | | |]]|]; try discriminate H.
    revert H. generalize g u g'. fold (ok
      (let* copy := getTreeCopy w in
       pushAction i (spec' ++ [p; copy]) >>
       modify (withRotationSpec None (Consumed RotationSlot)))).
    g_respects.
Qed.

Lemma respects_getMinValue {A} (n : Node A) : ok (Tree.getMinValue n).
Proof. induction n; simpl; g_respects. Qed.

Lemma respects_avl_valueOf n : ok (Avl.valueOf n).
Proof. unfold Avl.valueOf. g_respects. Qed.

Lemma respects_avl_getBalance n : ok (Avl.getBalance n).
Proof. unfold Avl.getBalance. g_respects. Qed.

Lemma respects_avl_leftRotate n : ok (Avl.leftRotate n).
Proof. unfold Avl.leftRotate. g_respects. Qed.

Lemma respects_avl_rightRotate n : ok (Avl.rightRotate n).
Proof. unfold Avl.rightRotate. g_respects. Qed.

Local Hint Resolve respects_pushDelete respects_pushDeleteAndRotate
  respects_getMinValue respects_avl_valueOf respects_avl_getBalance
  respects_avl_leftRotate respects_avl_rightRotate : respects.

Lemma respects_avl_rebalanceInsert wrap n v : ok (Avl.rebalanceInsert wrap n v).
Proof. unfold Avl.rebalanceInsert. g_respects. Qed.

Lemma respects_avl_rebalanceDelete wrap n : ok (Avl.rebalanceDelete wrap n).
Proof. unfold Avl.rebalanceDelete. g_respects. Qed.

Local Hint Resolve respects_avl_rebalanceInsert respects_avl_rebalanceDelete
  : respects.

Lemma respects_bst_insertRecursive (t : Bst.BstNode) :
  forall v, ok (Bst.insertRecursive t v).
Proof. induction t; intros v; simpl; g_respects. Qed.

Lemma respects_bst_deleteRecursive (t : Bst.BstNode) :
  forall wrap v, ok (Bst.deleteRecursive wrap t v).
Proof. induction t; intros wrap v; simpl; g_respects. Qed.

Lemma respects_avl_insertRecursive (t : Avl.AvlNode) :
  forall wrap v, ok (Avl.insertRecursive wrap t v).
Proof. induction t; intros wrap v; simpl; g_respects. Qed.

Lemma respects_avl_deleteRecursive (t : Avl.AvlNode) :
  forall wrap v, ok (Avl.deleteRecursive wrap t v).
Proof. induction t; intros wrap v; simpl; g_respects. Qed.

End TreeRespects.

(** ** C6: the slots over a whole call *)

Ltac rb_top H :=
  repeat match type of H with
  | bind _ _ _ = Some _ =>
      let H1 := fresh "Hstep" in
      apply bind_Some in H; destruct H as (? & ? & H1 & H)
  end.

Lemma respects_lift_modify (P : relation Global) `{!PreOrder P} f :
  (forall g, P g (f g)) ->
  respects RedBlack.glob P (RedBlack.liftG (modify f)).
Proof. intros Hf. apply respects_liftG, respects_modify. exact Hf. Qed.

Lemma rb_insert_sameSlots v :
  respects RedBlack.glob sameSlots (RedBlack.insert v).
Proof.
  pose proof sameSlots_push. pose proof sameSlots_resize.
  unfold RedBlack.insert, setOperation, setNewTreeAction, pushActionEnd,
    reverseActions.
  assert (forall f, respects RedBlack.glob sameSlots
                      (RedBlack.liftG (modify (withActions f)))).
  { intros f. apply respects_lift_modify; [apply _|]. intros g. reflexivity. }
  assert (forall o, respects RedBlack.glob sameSlots
                      (RedBlack.liftG (modify (withOperation o)))).
  { intros o. apply respects_lift_modify; [apply _|]. intros g. reflexivity. }
  eauto 200 using respects_setColour, respects_rb_insertRecursive,
    respects_valueOf, respects_push, respects_fixInsert, respects_liftG,
    respects_pushAction, respects_pushActionNull, respects_getRoot
    with respects typeclass_instances.
Qed.

Lemma rb_delete_sameSlots v :
  respects RedBlack.glob sameSlots (RedBlack.delete_ v).
Proof.
  pose proof sameSlots_push.
  unfold RedBlack.delete_, setOperation, pushActionEnd, reverseActions.
  assert (forall f, respects RedBlack.glob sameSlots
                      (RedBlack.liftG (modify (withActions f)))).
  { intros f. apply respects_lift_modify; [apply _|]. intros g. reflexivity. }
  assert (forall o, respects RedBlack.glob sameSlots
                      (RedBlack.liftG (modify (withOperation o)))).
  { intros o. apply respects_lift_modify; [apply _|]. intros g. reflexivity. }
  eauto 200 using respects_rb_deleteRecursive, respects_liftG,
    respects_pushAction, respects_getRoot
    with respects typeclass_instances.
Qed.

Lemma rbCall_respects (P : relation Global) m t g t' g' :
  respects RedBlack.glob P m -> rbCall m t g = Some (t', g') -> P g g'.
Proof.
  intros Hm H. unfold rbCall in H.
  destruct (m _) as [[u s]|] eqn:E; [|discriminate].
  injection H as <- <-. apply Hm in E. exact E.
Qed.

Definition settledAfter (g g' : Global) : Prop :=
  idle g' /\ exists ks, slotLog g' = slotLog g ++ bracketed ks.

Lemma settled_settledAfter g g' : settled (slotLog g) g' -> settledAfter g g'.
Proof.
  intros H. split; [eapply settled_idle; exact H|].
  destruct H as (ks & H). exists ks. unfold slotsOf in H. congruence.
Qed.

Lemma sameSlots_settledAfter g g' : idle g -> sameSlots g g' -> settledAfter g g'.
Proof.
  intros Hi H. apply settled_settledAfter. eapply settled_same; [exact H|].
  now apply idle_settled.
Qed.

(** Both slots empty when the call starts; when it returns they are empty
    again, and in between every record written was consumed before the
    next was written (the history grew by write/consume pairs). *)
Definition slotDiscipline (T : Type) `{Engine T} : Prop :=
  forall (t : T) (v : Z) (g : Global) (t' : T) (g' : Global),
    idle g ->
    insertOp t v g = Some (t', g') \/ deleteOp t v g = Some (t', g') ->
    settledAfter g g'.

(** The slots of all three engines over a call. *)
Lemma slots_settled_after_call :
  slotDiscipline Bst.BstNode /\ slotDiscipline Avl.AvlNode
  /\ slotDiscipline RbTree.
Proof.
  split; [|split]; intros t v g t' g' Hi [H|H]; simpl in H.
  - unfold Bst.insert in H. msplit. apply sameSlots_settledAfter; [exact Hi|].
    unfold sameSlots. simpl.
    destruct t; msplit; [reflexivity|].
    match goal with H : Bst.insertRecursive _ _ _ = _ |- _ =>
      apply bst_insertRecursive_slots in H; exact H end.
  - unfold Bst.delete_ in H. msplit. apply settled_settledAfter.
    match goal with H : Bst.deleteRecursive _ _ _ _ = _ |- _ =>
      apply (bst_deleteRecursive_slots (slotLog g)) in H as [Hs Hr] end.
    2:{ eapply settled_same; [|apply idle_settled; exact Hi]. reflexivity. }
    slots_fwd. solve_settled.
  - unfold Avl.insert in H. msplit. apply settled_settledAfter.
    destruct t; msplit.
    + solve_settled. eapply settled_same; [|apply idle_settled; exact Hi].
      reflexivity.
    + match goal with H : Avl.insertRecursive _ _ _ _ = _ |- _ =>
        apply (avl_insertRecursive_slots (slotLog g)) in H end.
      2:{ eapply settled_same; [|apply idle_settled; exact Hi]. reflexivity. }
      slots_fwd. solve_settled.
  - unfold Avl.delete_ in H. msplit. apply settled_settledAfter.
    match goal with H : Avl.deleteRecursive _ _ _ _ = _ |- _ =>
      apply (avl_deleteRecursive_slots (slotLog g)) in H end.
    2:{ eapply settled_same; [|apply idle_settled; exact Hi]. reflexivity. }
    slots_fwd. solve_settled.
  - apply sameSlots_settledAfter; [exact Hi|].
    eapply rbCall_respects; [apply rb_insert_sameSlots | exact H].
  - apply sameSlots_settledAfter; [exact Hi|].
    eapply rbCall_respects; [apply rb_delete_sameSlots | exact H].
Qed.

(** *** The records in the action list *)

(** The record an action was made of, and the tree copy it carries:
    [pushDelete] pushes [(5, [resizeRequired, copy])], and
    [pushDeleteAndRotate] pushes [(14, ...)] or [(15, [top, bottom, subtree,
    parentId, copy])]. *)
Definition recordOf (a : Action) : option (Slot * Arg) :=
  if id a =? 5 then
    match args a with
    | Some [ABool _; copy] => Some (DeleteSlot, copy)
    | _ => None
    end
  else if (id a =? 14) || (id a =? 15) then
    match args a with
    | Some [_; _; _; _; copy] => Some (RotationSlot, copy)
    | _ => None
    end
  else None.

Definition records (l : list Action) : list (Slot * Arg) := omap recordOf l.

(** What [getTreeCopy()] returns: a copy of [Global.tree], and null while
    [Global.tree] is null. *)
Definition copyArg (bound : bool) (c : Arg) : Prop :=
  if bound then exists s, c = ATree s else c = ANull.

(** The slots of the records consumed, in order. *)
Definition consumedSlots (log : list SlotEvent) : list Slot :=
  omap (fun e => match e with
                 | Consumed s => Some s
                 | Written _ => None
                 end) log.

(** The pending records have the shape the engines write. *)
Definition recordShaped (g : Global) : Prop :=
  (deleteSpec g = None \/ exists b, deleteSpec g = Some [ABool b])
  /\ (rotationSpec g = None
      \/ exists a b c i,
           rotationSpec g = Some [a; b; c; ANum i] /\ (i = 14 \/ i = 15)).

(** From [g] to [g']: the action list kept what it held, and the records
    consumed on the way are the record actions appended, one for one, each
    with the value of [getTreeCopy()]. *)
Definition inStep (g g' : Global) : Prop :=
  treeBound g' = treeBound g
  /\ exists pre post,
       actionList g' = pre ++ actionList g ++ post
       /\ Forall isInsertResize pre
       /\ consumedSlots (slotLog g')
          = consumedSlots (slotLog g) ++ map fst (records post)
       /\ Forall (fun r => copyArg (treeBound g) (snd r)) (records post).

Definition keepsRecords : relation Global := fun g g' =>
  recordShaped g -> recordShaped g' /\ inStep g g'.

Lemma records_app l1 l2 : records (l1 ++ l2) = records l1 ++ records l2.
Proof. apply omap_app. Qed.

Lemma consumedSlots_app l1 l2 :
  consumedSlots (l1 ++ l2) = consumedSlots l1 ++ consumedSlots l2.
Proof. apply omap_app. Qed.

Lemma consumedSlots_bracketed ks : consumedSlots (bracketed ks) = ks.
Proof.
  induction ks as [|k ks IH]; [reflexivity|].
  change (bracketed (k :: ks)) with ([Written k; Consumed k] ++ bracketed ks).
  rewrite consumedSlots_app, IH. reflexivity.
Qed.

Lemma records_insertResize pre : Forall isInsertResize pre -> records pre = [].
Proof.
  induction 1 as [|a l [h ->] _ IH]; [reflexivity|].
  change (records (mkAction 5 (Some [ANum h]) :: l)) with (records l).
  exact IH.
Qed.

Lemma inStep_refl g : inStep g g.
Proof.
  split; [reflexivity|]. exists [], []. simpl. rewrite !app_nil_r.
  repeat split; constructor.
Qed.

Lemma inStep_trans g1 g2 g3 : inStep g1 g2 -> inStep g2 g3 -> inStep g1 g3.
Proof.
  intros (B1 & p1 & q1 & E1 & F1 & C1 & A1) (B2 & p2 & q2 & E2 & F2 & C2 & A2).
  split; [congruence|]. exists (p2 ++ p1), (q1 ++ q2).
  split; [rewrite E2, E1, <- !app_assoc; reflexivity|].
  split; [apply Forall_app; split; assumption|].
  rewrite records_app, map_app. split.
  - rewrite C2, C1, <- app_assoc. reflexivity.
  - apply Forall_app. split; [exact A1|]. now rewrite <- B1.
Qed.

#[export] Instance keepsRecords_preorder : PreOrder keepsRecords.
Proof.
  split.
  - intros g Hg. split; [exact Hg|apply inStep_refl].
  - intros g1 g2 g3 H12 H23 Hg. destruct (H12 Hg) as [Hg2 S12].
    destruct (H23 Hg2) as [Hg3 S23]. split; [exact Hg3|].
    eapply inStep_trans; eassumption.
Qed.

Lemma inStep_push g a :
  recordOf a = None -> inStep g (withActions (fun l => l ++ [a]) g).
Proof.
  intros Ha. split; [reflexivity|]. exists [], [a]. simpl.
  unfold records. simpl. rewrite Ha. simpl. rewrite app_nil_r.
  repeat split; constructor.
Qed.

Lemma inStep_record g g' a s c :
  actionList g' = actionList g ++ [a] ->
  recordOf a = Some (s, c) -> copyArg (treeBound g) c ->
  treeBound g' = treeBound g ->
  slotLog g' = slotLog g ++ [Consumed s] ->
  inStep g g'.
Proof.
  intros El Ha Hc Eb Elog. split; [exact Eb|]. exists [], [a]. simpl.
  unfold records. simpl. rewrite Ha. simpl.
  split; [exact El|]. split; [constructor|].
  split; [rewrite Elog, consumedSlots_app; reflexivity|].
  constructor; [exact Hc|constructor].
Qed.

Lemma inStep_slots g g' :
  actionList g' = actionList g -> treeBound g' = treeBound g ->
  consumedSlots (slotLog g') = consumedSlots (slotLog g) ->
  inStep g g'.
Proof.
  intros El Eb Ec. split; [exact Eb|]. exists [], []. simpl.
  rewrite !app_nil_r. repeat split; try assumption; constructor.
Qed.

Section KeepsRecords.

Local Abbreviation ok m := (respects (fun g : Global => g) keepsRecords m).

Lemma keeps_pushArgs i a :
  recordOf (mkAction i a) = None -> ok (pushArgs i a).
Proof.
  intros Ha g u g' H Hg. msplit. split; [exact Hg|]. now apply inStep_push.
Qed.

Lemma keeps_pushAction i a :
  recordOf (mkAction i (Some a)) = None -> ok (pushAction i a).
Proof. apply keeps_pushArgs. Qed.

Lemma keeps_pushActionNull i : ok (pushActionNull i).
Proof.
  apply keeps_pushArgs. unfold recordOf. simpl.
  destruct (i =? 5); [reflexivity|]. now destruct ((i =? 14) || (i =? 15)).
Qed.

Lemma keeps_pushActionEnd message : ok (pushActionEnd message).
Proof. now apply keeps_pushAction. Qed.

Lemma keeps_checkInsertResize h : ok (checkInsertResize h).
Proof.
  intros g u g' H Hg. msplit. destruct (treeBound g) eqn:E.
  - split; [exact Hg|]. split; [reflexivity|].
    exists [mkAction 5 (Some [ANum h])], []. simpl. rewrite !app_nil_r.
    split; [reflexivity|]. split; [repeat constructor; now exists h|].
    split; [reflexivity|constructor].
  - split; [exact Hg|apply inStep_refl].
Qed.

Lemma keeps_setOperation o : ok (setOperation o).
Proof.
  intros g u g' H Hg. msplit. split; [exact Hg|]. now apply inStep_slots.
Qed.

Lemma keeps_setDeleteSpec b : ok (setDeleteSpec b).
Proof.
  intros g u g' H [Hd Hr]. msplit. split.
  - split; [right; now exists b|exact Hr].
  - apply inStep_slots; try reflexivity. simpl.
    rewrite consumedSlots_app. simpl. now rewrite app_nil_r.
Qed.

Lemma keeps_setRotationSpec a b c i :
  i = 14 \/ i = 15 -> ok (setRotationSpec [a; b; c; ANum i]).
Proof.
  intros Hi g u g' H [Hd Hr]. msplit. split.
  - split; [exact Hd|right; now exists a, b, c, i].
  - apply inStep_slots; try reflexivity. simpl.
    rewrite consumedSlots_app. simpl. now rewrite app_nil_r.
Qed.

Lemma copyArg_getTreeCopy w g :
  copyArg (treeBound g) (if treeBound g then ATree w else ANull).
Proof. unfold copyArg. destruct (treeBound g); [now exists w|reflexivity]. Qed.

Lemma keeps_pushDelete w : ok (pushDelete w).
Proof.
  intros g u g' H [Hd Hr]. unfold pushDelete in H.
  destruct Hd as [Ed|[b Ed]]; rewrite Ed in H.
  - msplit. split; [split; [now left|exact Hr]|apply inStep_refl].
  - msplit. split; [split; [now left|exact Hr]|].
    eapply inStep_record;
      [reflexivity|reflexivity|apply copyArg_getTreeCopy|reflexivity
      |reflexivity].
Qed.

Lemma keeps_pushDeleteAndRotate p w : ok (pushDeleteAndRotate p w).
Proof.
  intros g u g' H Hg. unfold pushDeleteAndRotate in H.
  destruct (deleteSpec g) as [spec|] eqn:Ed.
  - eapply keeps_pushDelete; eassumption.
  - destruct Hg as [Hd [Er|(a & b & c & i & Er & Hi)]]; rewrite Er in H.
    + msplit. split; [split; [exact Hd|now left]|apply inStep_refl].
    + change (popArg [a; b; c; ANum i]) with (Some ([a; b; c], ANum i)) in H.
      msplit. split; [split; [now left|now left]|].
      eapply inStep_record;
        [reflexivity| |apply copyArg_getTreeCopy|reflexivity|reflexivity].
      unfold recordOf. simpl. now destruct Hi as [-> | ->].
Qed.

Local Hint Resolve keeps_pushActionNull keeps_pushActionEnd
  keeps_checkInsertResize keeps_setOperation keeps_setDeleteSpec
  keeps_pushDelete keeps_pushDeleteAndRotate : respects.
Local Hint Extern 1 (respects _ keepsRecords (pushAction _ _)) =>
  apply keeps_pushAction; reflexivity : respects.
Local Hint Extern 1 (respects _ keepsRecords (setRotationSpec _)) =>
  apply keeps_setRotationSpec; first [left; reflexivity|right; reflexivity]
  : respects.

Ltac keeps := eauto 200 with respects typeclass_instances.

Lemma keeps_getMinValue {A} (n : Node A) : ok (Tree.getMinValue n).
Proof. induction n; simpl; keeps. Qed.

Lemma keeps_avl_valueOf n : ok (Avl.valueOf n).
Proof. unfold Avl.valueOf. keeps. Qed.

Lemma keeps_avl_getBalance n : ok (Avl.getBalance n).
Proof. unfold Avl.getBalance. keeps. Qed.

Lemma keeps_avl_leftRotate n : ok (Avl.leftRotate n).
Proof. unfold Avl.leftRotate. keeps. Qed.

Lemma keeps_avl_rightRotate n : ok (Avl.rightRotate n).
Proof. unfold Avl.rightRotate. keeps. Qed.

Local Hint Resolve keeps_getMinValue keeps_avl_valueOf keeps_avl_getBalance
  keeps_avl_leftRotate keeps_avl_rightRotate : respects.

Lemma keeps_avl_rebalanceInsert wrap n v : ok (Avl.rebalanceInsert wrap n v).
Proof. unfold Avl.rebalanceInsert. keeps. Qed.

Lemma keeps_avl_rebalanceDelete wrap n : ok (Avl.rebalanceDelete wrap n).
Proof. unfold Avl.rebalanceDelete. keeps. Qed.

Local Hint Resolve keeps_avl_rebalanceInsert keeps_avl_rebalanceDelete
  : respects.

Lemma keeps_bst_insertRecursive (t : Bst.BstNode) :
  forall v, ok (Bst.insertRecursive t v).
Proof. induction t; intros v; simpl; keeps. Qed.

Lemma keeps_bst_deleteRecursive (t : Bst.BstNode) :
  forall wrap v, ok (Bst.deleteRecursive wrap t v).
Proof. induction t; intros wrap v; simpl; keeps. Qed.

Lemma keeps_avl_insertRecursive (t : Avl.AvlNode) :
  forall wrap v, ok (Avl.insertRecursive wrap t v).
Proof. induction t; intros wrap v; simpl; keeps. Qed.

Lemma keeps_avl_deleteRecursive (t : Avl.AvlNode) :
  forall wrap v, ok (Avl.deleteRecursive wrap t v).
Proof. induction t; intros wrap v; simpl; keeps. Qed.

End KeepsRecords.

(** Over a call from [g] to [g']: the slots are empty again, the history
    grew by one write/consume pair per record, and the records consumed are
    the record actions the call added to those the list [kept], in the same
    order, each with the value of [getTreeCopy()]. *)
Definition recordsAdded (kept : list (Slot * Arg)) (g g' : Global) : Prop :=
  idle g'
  /\ exists rs,
       slotLog g' = slotLog g ++ bracketed (map fst rs)
       /\ records (replay (actionList g')) = kept ++ rs
       /\ Forall (fun r => copyArg (treeBound g) (snd r)) rs.

(** An insert into an empty tree replaces the action list; every other
    call keeps what the list held. *)
Definition recordDiscipline (T : Type) `{Engine T} : Prop :=
  forall (t : T) (v : Z) (g : Global) (t' : T) (g' : Global),
    idle g ->
    (insertOp t v g = Some (t', g') ->
     recordsAdded (if rootIsNull t then [] else records (actionList g)) g g')
    /\ (deleteOp t v g = Some (t', g') ->
        recordsAdded (records (actionList g)) g g').

(** The slots and their history are never touched. *)
Definition neverWrites (T : Type) `{Engine T} : Prop :=
  forall (t : T) (v : Z) (g : Global) (t' : T) (g' : Global),
    insertOp t v g = Some (t', g') \/ deleteOp t v g = Some (t', g') ->
    slotsOf g' = slotsOf g.

Lemma records_replay_insert l message :
  records (replay (rev (l ++ [endAction message]) ++ [mkAction 5 None]))
  = records l.
Proof.
  unfold replay. rewrite rev_app_distr, rev_involutive. simpl.
  change (records (mkAction 5 None :: l ++ [endAction message]))
    with (records (l ++ [endAction message])).
  rewrite records_app. unfold records at 2. simpl. apply app_nil_r.
Qed.

Lemma records_replay_delete l message :
  records (replay (rev (l ++ [endAction message]))) = records l.
Proof.
  unfold replay. rewrite rev_involutive, records_app.
  unfold records at 2. simpl. apply app_nil_r.
Qed.

Lemma call_recordsAdded g g2 g' :
  idle g -> settledAfter g g' -> keepsRecords g g2 ->
  slotLog g' = slotLog g2 ->
  records (replay (actionList g')) = records (actionList g2) ->
  recordsAdded (records (actionList g)) g g'.
Proof.
  intros [Hd Hr] [Hi (ks & Hlog)] Hk Elog Erec.
  destruct Hk as [_ (Eb & pre & post & El & Fpre & Ec & Fc)].
  { split; now left. }
  split; [exact Hi|]. exists (records post).
  assert (Eks : ks = map fst (records post)).
  { rewrite <- Elog, Hlog, consumedSlots_app, consumedSlots_bracketed in Ec.
    now apply app_inv_head in Ec. }
  split; [now rewrite <- Eks|]. split; [|exact Fc].
  rewrite Erec, El, !records_app, (records_insertResize pre Fpre).
  reflexivity.
Qed.

Lemma keepsRecords_run {A} (m : G A) g a g' :
  respects (fun g => g) keepsRecords m -> m g = Some (a, g') ->
  keepsRecords g g'.
Proof. intros Hm H. exact (Hm g a g' H). Qed.




(** ** C7: one reversal, after the end-of-sequence action *)

Definition reversedOnceAtEnd (T : Type) `{Engine T} : Prop :=
  forall (t : T) (v : Z) (g : Global) (t' : T) (g' : Global),
    rootIsNull t = false ->
    (insertOp t v g = Some (t', g') ->
     exists pre post message,
       Forall isInsertResize pre
       /\ actionList g'
          = rev (pre ++ actionList g ++ post ++ [endAction message])
            ++ [mkAction 5 None]
       /\ replay (actionList g')
          = mkAction 5 None
            :: pre ++ actionList g ++ post ++ [endAction message])
    /\ (deleteOp t v g = Some (t', g') ->
        exists post message,
          actionList g' = rev (actionList g ++ post ++ [endAction message])
          /\ replay (actionList g')
             = actionList g ++ post ++ [endAction message]).

Lemma reversed_insert_shape (l0 l1 : list Action) pre post message :
  l1 = pre ++ l0 ++ post ->
  rev (l1 ++ [endAction message]) ++ [mkAction 5 None]
  = rev (pre ++ l0 ++ post ++ [endAction message]) ++ [mkAction 5 None]
  /\ replay (rev (l1 ++ [endAction message]) ++ [mkAction 5 None])
     = mkAction 5 None :: pre ++ l0 ++ post ++ [endAction message].
Proof.
  intros ->. unfold replay. split.
  - now rewrite <- !app_assoc.
  - rewrite (rev_app_distr (rev _)). simpl.
    now rewrite rev_involutive, <- !app_assoc.
Qed.

Lemma reversed_delete_shape (l0 l1 : list Action) post message :
  l1 = l0 ++ post ->
  rev (l1 ++ [endAction message]) = rev (l0 ++ post ++ [endAction message])
  /\ replay (rev (l1 ++ [endAction message]))
     = l0 ++ post ++ [endAction message].
Proof.
  intros ->. unfold replay. rewrite rev_involutive, <- !app_assoc.
  split; reflexivity.
Qed.

Lemma rb_insert_body_extends v rt :
  respects RedBlack.glob extendsList
    (let* bound := gets RedBlack.nextLoc in
     let* newNode := RedBlack.insertRecursive (S bound) (Some rt) v in
     let* nv := RedBlack.valueOf newNode in
     RedBlack.push 16 [ANum nv] >>
     RedBlack.fixInsert (S bound) newNode).
Proof.
  pose proof extendsList_push. pose proof extendsList_resize.
  eauto 200 using respects_rb_insertRecursive, respects_valueOf,
    respects_push, respects_fixInsert with respects typeclass_instances.
Qed.





(** ** AVL: cached heights *)

Abbreviation avlH := (allNodes heightCachedAt).

Lemma avl_leftRotate_inv n g n' g' :
  Avl.leftRotate n g = Some (n', g') ->
  exists a lv h b rv h' c,
    n = node a lv h (node b rv h' c)
    /\ n' = node (node a lv (Z.max (Avl.getHeight a) (Avl.getHeight b) + 1) b)
                 rv
                 (Z.max (Z.max (Avl.getHeight a) (Avl.getHeight b) + 1)
                        (Avl.getHeight c) + 1)
                 c.
Proof.
  intros H. destruct n as [|a lv h [|b rv h' c]]; try discriminate H.
  unfold Avl.leftRotate in H. msplit. do 7 eexists. split; reflexivity.
Qed.

Lemma avl_rightRotate_inv n g n' g' :
  Avl.rightRotate n g = Some (n', g') ->
  exists a lv h b rv h' c,
    n = node (node a lv h b) rv h' c
    /\ n' = node a lv
                 (Z.max (Avl.getHeight a)
                        (Z.max (Avl.getHeight b) (Avl.getHeight c) + 1) + 1)
                 (node b rv (Z.max (Avl.getHeight b) (Avl.getHeight c) + 1) c).
Proof.
  intros H. destruct n as [|[|a lv h b] rv h' c]; try discriminate H.
  unfold Avl.rightRotate in H. msplit. do 7 eexists. split; reflexivity.
Qed.

Lemma avl_valueOf_inv n g v g' :
  Avl.valueOf n g = Some (v, g') ->
  g' = g /\ exists l h r, n = node l v h r.
Proof.
  destruct n as [|l x h r]; simpl; intros H; msplit. split; [reflexivity|].
  now exists l, h, r.
Qed.

Lemma avl_getBalance_inv n g b g' :
  Avl.getBalance n g = Some (b, g') ->
  g' = g /\ exists l x h r,
    n = node l x h r /\ b = Avl.getHeight l - Avl.getHeight r.
Proof.
  destruct n as [|l x h r]; simpl; intros H; msplit. split; [reflexivity|].
  now exists l, x, h, r.
Qed.

(** Takes the rotations of a run apart. *)
Ltac rot_inv :=
  repeat match goal with
  | H : Avl.leftRotate _ _ = Some _ |- _ =>
      apply avl_leftRotate_inv in H;
      destruct H as (? & ? & ? & ? & ? & ? & ? & ? & ?)
  | H : Avl.rightRotate _ _ = Some _ |- _ =>
      apply avl_rightRotate_inv in H;
      destruct H as (? & ? & ? & ? & ? & ? & ? & ? & ?)
  | H : Avl.valueOf _ _ = Some _ |- _ =>
      apply avl_valueOf_inv in H; destruct H as (? & ? & ? & ? & ?)
  | H : Avl.getBalance _ _ = Some _ |- _ =>
      apply avl_getBalance_inv in H;
      destruct H as (? & ? & ? & ? & ? & ? & ?)
  end.

Lemma avlH_node l x h r :
  avlH (node l x h r) <->
  h = Z.max (Tree.getHeight l) (Tree.getHeight r) + 1 /\ avlH l /\ avlH r.
Proof. simpl. unfold heightCachedAt. simpl. tauto. Qed.

Lemma avlH_height (n : Avl.AvlNode) :
  avlH n -> Avl.getHeight n = Tree.getHeight n.
Proof. apply allNodes_cached_root. Qed.

(** Rewrites cached heights of subtrees whose cache is right into
    computed heights, and opens [avlH] of nodes. *)
Ltac heights :=
  repeat match goal with
  | H : avlH (node _ _ _ _) |- _ =>
      apply (proj1 (avlH_node _ _ _ _)) in H; destruct H as (? & ? & ?)
  | H : avlH ?a |- _ =>
      is_var a;
      lazymatch goal with
      | _ : Avl.getHeight a = Tree.getHeight a |- _ => fail
      | _ => pose proof (avlH_height a H)
      end
  end;
  repeat match goal with
  | E : Avl.getHeight ?a = Tree.getHeight ?a |- _ =>
      rewrite !E in *; clear E
  | a : Avl.AvlNode |- _ =>
      lazymatch goal with
      | _ : 0 <= Tree.getHeight a |- _ => fail
      | _ => pose proof (getHeight_nonneg a)
      end
  end.

Lemma avl_rebalanceInsert_heights wrap l x h r v g n' g' :
  Avl.rebalanceInsert wrap (node l x h r) v g = Some (n', g') ->
  avlH l -> avlH r -> avlH n'.
Proof.
  intros H Hl Hr. unfold Avl.rebalanceInsert in H.
  destruct (_ >? 1); [|destruct (_ <? -1)]; msplit.
  - rot_inv. subst. destruct (v <? _); msplit; rot_inv; subst.
    + match goal with E : node _ _ _ _ = node _ _ _ _ |- _ =>
        injection E as ? ? ? ?; subst end.
      heights. simpl. unfold heightCachedAt. simpl. heights. repeat split; auto; lia.
    + repeat match goal with E : node _ _ _ _ = node _ _ _ _ |- _ =>
        injection E as ? ? ? ?; subst end.
      heights. simpl. unfold heightCachedAt. simpl. heights. repeat split; auto; lia.
  - rot_inv. subst. destruct (v >? _); msplit; rot_inv; subst.
    + match goal with E : node _ _ _ _ = node _ _ _ _ |- _ =>
        injection E as ? ? ? ?; subst end.
      heights. simpl. unfold heightCachedAt. simpl. heights. repeat split; auto; lia.
    + repeat match goal with E : node _ _ _ _ = node _ _ _ _ |- _ =>
        injection E as ? ? ? ?; subst end.
      heights. simpl. unfold heightCachedAt. simpl. heights. repeat split; auto; lia.
  - heights. simpl. unfold heightCachedAt. simpl. heights. repeat split; auto; lia.
Qed.

Ltac node_inj :=
  repeat match goal with
  | E : node _ _ _ _ = node _ _ _ _ |- _ => injection E as ? ? ? ?; subst
  | E : @null _ = node _ _ _ _ |- _ => discriminate E
  | E : node _ _ _ _ = @null _ |- _ => discriminate E
  end.

Ltac heights_solve :=
  heights; simpl; unfold heightCachedAt; simpl; heights;
  repeat split; auto; lia.

Lemma avl_rebalanceDelete_heights wrap l x h r g n' g' :
  Avl.rebalanceDelete wrap (node l x h r) g = Some (n', g') ->
  avlH l -> avlH r -> avlH n'.
Proof.
  intros H Hl Hr. unfold Avl.rebalanceDelete in H.
  destruct (_ >? 1); [|destruct (_ <? -1)]; msplit.
  - rot_inv. subst. destruct (_ >=? 0); msplit; rot_inv; subst; node_inj;
      heights_solve.
  - rot_inv. subst. destruct (_ <=? 0); msplit; rot_inv; subst; node_inj;
      heights_solve.
  - heights_solve.
Qed.

Lemma avl_insertRecursive_heights (t : Avl.AvlNode) :
  forall wrap v g t' g',
    Avl.insertRecursive wrap t v g = Some (t', g') -> avlH t -> avlH t'.
Proof.
  induction t as [|l IHl x h r IHr]; intros wrap v g t' g' H Ht; simpl in H.
  - discriminate.
  - apply bind_Some in H as (n1 & g1 & H1 & H2).
    apply (proj1 (avlH_node _ _ _ _)) in Ht. destruct Ht as (Hh & Hl & Hr).
    destruct (v <? x).
    + destruct l as [|ll lx lh lr]; msplit.
      * eapply avl_rebalanceInsert_heights; [eassumption| |assumption].
        simpl. unfold heightCachedAt. simpl. tauto.
      * match goal with H : Avl.insertRecursive _ _ _ _ = _ |- _ =>
          apply IHl in H; [|assumption] end.
        eapply avl_rebalanceInsert_heights; eassumption.
    + destruct r as [|rl rx rh rr]; msplit.
      * eapply avl_rebalanceInsert_heights; [eassumption|assumption|].
        simpl. unfold heightCachedAt. simpl. tauto.
      * match goal with H : Avl.insertRecursive _ _ _ _ = _ |- _ =>
          apply IHr in H; [|assumption] end.
        eapply avl_rebalanceInsert_heights; eassumption.
Qed.

Lemma avlH_orElse (l r : Avl.AvlNode) : avlH l -> avlH r -> avlH (orElse l r).
Proof. destruct l; simpl; tauto. Qed.

Lemma avl_deleteRecursive_heights (t : Avl.AvlNode) :
  forall wrap k g t' g',
    Avl.deleteRecursive wrap t k g = Some (t', g') -> avlH t -> avlH t'.
Proof.
  induction t as [|l IHl x h r IHr]; intros wrap k g t' g' H Ht; simpl in H.
  - msplit. exact I.
  - apply (proj1 (avlH_node _ _ _ _)) in Ht. destruct Ht as (Hh & Hl & Hr).
    destruct (k <? x); [|destruct (k >? x);
      [|destruct (negb (isNull l) && negb (isNull r))]]; msplit.
    + match goal with H : Avl.deleteRecursive _ _ _ _ = _ |- _ =>
        apply IHl in H; [|assumption] end.
      eapply avl_rebalanceDelete_heights; eassumption.
    + match goal with H : Avl.deleteRecursive _ _ _ _ = _ |- _ =>
        apply IHr in H; [|assumption] end.
      eapply avl_rebalanceDelete_heights; eassumption.
    + match goal with H : Avl.deleteRecursive _ _ _ _ = _ |- _ =>
        apply IHr in H; [|assumption] end.
      eapply avl_rebalanceDelete_heights; eassumption.
    + now apply avlH_orElse.
Qed.

Lemma avl_insert_heights t v g t' g' :
  Avl.insert t v g = Some (t', g') -> avlH t -> avlH t'.
Proof.
  intros H Ht. unfold Avl.insert in H. msplit. destruct t; msplit.
  - simpl. unfold heightCachedAt. simpl. tauto.
  - eapply avl_insertRecursive_heights; eassumption.
Qed.

Lemma avl_delete_heights t v g t' g' :
  Avl.delete_ t v g = Some (t', g') -> avlH t -> avlH t'.
Proof.
  intros H Ht. unfold Avl.delete_ in H. msplit.
  eapply avl_deleteRecursive_heights; eassumption.
Qed.

(** The AVL trees that calls of [insert] and [delete] can build, deletes
    only of keys that [find] finds. *)
Inductive avlReachable : Avl.AvlNode -> Prop :=
| avl_reach_new : avlReachable null
| avl_reach_insert t k g t' g' :
    avlReachable t -> Avl.insert t k g = Some (t', g') -> avlReachable t'
| avl_reach_delete t k g t' g' :
    avlReachable t -> Tree.findRecursive t k = 1 ->
    Avl.delete_ t k g = Some (t', g') -> avlReachable t'.

(** C9. In every AVL tree that inserts and deletes (of present keys) can
    build, the cached [height] of every node is the recursively computed
    height of its subtree: [Avl.getHeight] and [Tree.getHeight] agree on
    every node. *)
Theorem avl_cached_height_is_computed_height (t : Avl.AvlNode) :
  avlReachable t ->
  allNodes (fun n => Avl.getHeight n = Tree.getHeight n) t.
Proof.
  induction 1 as [|t k g t' g' _ IH H|t k g t' g' _ IH _ H].
  - exact I.
  - eapply avl_insert_heights; eassumption.
  - eapply avl_delete_heights; eassumption.
Qed.

Lemma avl_cached_height_is_computed_height_witness :
  allNodes (fun n => Avl.getHeight n = Tree.getHeight n)
    (node (node null 10 1 null) 20 2 (node null 30 1 null)).
Proof.
  apply avl_cached_height_is_computed_height.
  eapply (avl_reach_insert (node null 10 2 (node null 20 1 null)) 30
            readyGlobal); [|reflexivity].
  eapply (avl_reach_insert (node null 10 1 null) 20 readyGlobal);
    [|reflexivity].
  eapply (avl_reach_insert null 10 readyGlobal); [|reflexivity].
  apply avl_reach_new.
Defined.

(** ** AVL: balance *)

Abbreviation avlB := (allNodes balancedAt).

Definition avlOk (t : Avl.AvlNode) : Prop := avlH t /\ avlB t.

(** The subtree into which [v] went is the taller one, by one. *)
Definition leaning (v : Z) (t : Avl.AvlNode) : Prop :=
  match t with
  | null => False
  | node l x _ r =>
      (v < x /\ Tree.getHeight l = Tree.getHeight r + 1)
      \/ (x < v /\ Tree.getHeight r = Tree.getHeight l + 1)
  end.

Lemma avlB_node {A} (l : Node A) x h r :
  allNodes balancedAt (node l x h r) <->
  -1 <= Tree.getHeight l - Tree.getHeight r <= 1
  /\ allNodes balancedAt l /\ allNodes balancedAt r.
Proof. simpl. tauto. Qed.

(** Opens [avlOk], [avlH] and [avlB] of nodes in the hypotheses. *)
Ltac avl_open :=
  repeat match goal with
  | H : avlOk _ |- _ => destruct H as [? ?]
  | H : avlB (node _ _ _ _) |- _ =>
      apply (proj1 (avlB_node _ _ _ _)) in H; destruct H as (? & ? & ?)
  | H : leaning _ (node _ _ _ _) |- _ => simpl in H
  | H : leaning _ null |- _ => destruct H
  end;
  heights.

Ltac avl_close :=
  try match goal with |- avlOk _ => split end;
  simpl; unfold heightCachedAt; simpl; heights;
  repeat match goal with
  | |- _ /\ _ => split
  | |- True => exact I
  end; auto; try lia.

Lemma avl_rebalanceInsert_balanced wrap l x h r v g n' g' :
  Avl.rebalanceInsert wrap (node l x h r) v g = Some (n', g') ->
  avlOk l -> avlOk r ->
  -2 <= Tree.getHeight l - Tree.getHeight r <= 2 ->
  (Tree.getHeight l - Tree.getHeight r = 2 -> leaning v l) ->
  (Tree.getHeight l - Tree.getHeight r = -2 -> leaning v r) ->
  avlOk n'
  /\ ((-1 <= Tree.getHeight l - Tree.getHeight r <= 1
       /\ n' = node l x (Z.max (Tree.getHeight l) (Tree.getHeight r) + 1) r)
      \/ ((Tree.getHeight l - Tree.getHeight r = 2
           \/ Tree.getHeight l - Tree.getHeight r = -2)
          /\ Tree.getHeight n'
             = Z.max (Tree.getHeight l) (Tree.getHeight r))).
Proof.
  intros H Hl Hr Hb H2 Hm2. unfold Avl.rebalanceInsert in H.
  destruct Hl as [Hl Hlb]. destruct Hr as [Hr Hrb].
  rewrite (avlH_height l Hl), (avlH_height r Hr) in H.
  destruct (_ >? 1) eqn:E1; [|destruct (_ <? -1) eqn:E2]; msplit.
  - assert (Hv : leaning v l) by (apply H2; lia). clear H2 Hm2.
    rot_inv. subst. simpl in Hv.
    destruct (v <? _) eqn:Ev; msplit; rot_inv; subst; node_inj;
      avl_open; simpl in *; (split; [avl_close|right; lia]).
  - assert (Hv : leaning v r) by (apply Hm2; lia). clear H2 Hm2.
    rot_inv. subst. simpl in Hv.
    destruct (v >? _) eqn:Ev; msplit; rot_inv; subst; node_inj;
      avl_open; simpl in *; (split; [avl_close|right; lia]).
  - split; [avl_close|]. left. split; [lia|]. reflexivity.
Qed.

Lemma avlOk_new v : avlOk (Avl.newAvlNode v).
Proof.
  unfold avlOk, Avl.newAvlNode. simpl. unfold heightCachedAt. simpl.
  repeat split; lia.
Qed.

Lemma avl_insertRecursive_balanced (t : Avl.AvlNode) :
  forall wrap v g t' g',
    Avl.insertRecursive wrap t v g = Some (t', g') ->
    avlOk t -> Tree.findRecursive t v <> 1 ->
    avlOk t'
    /\ (Tree.getHeight t' = Tree.getHeight t
        \/ (Tree.getHeight t' = Tree.getHeight t + 1 /\ leaning v t')).
Proof.
  induction t as [|l IHl x h r IHr]; intros wrap v g t' g' H Ht Hf;
    simpl in H.
  - discriminate.
  - apply bind_Some in H as (n1 & g1 & H1 & H2).
    destruct Ht as [Hh Hb].
    apply (proj1 (avlH_node _ _ _ _)) in Hh. destruct Hh as (Hh & Hl & Hr).
    apply (proj1 (avlB_node _ _ _ _)) in Hb. destruct Hb as (Hb & Hlb & Hrb).
    simpl in Hf. destruct (v <? x) eqn:Ev.
    + destruct l as [|ll lx lh lr].
      * msplit. simpl in Hb.
        apply avl_rebalanceInsert_balanced in H2;
          [| apply avlOk_new
           | split; assumption
           | simpl; pose proof (getHeight_nonneg r); lia
           | simpl; pose proof (getHeight_nonneg r); lia
           | simpl; pose proof (getHeight_nonneg r); lia ].
        destruct H2 as (Hok & [(Hbal & ->)|(Hbal & Hht)]).
        -- split; [exact Hok|]. simpl in *.
           pose proof (getHeight_nonneg r). lia.
        -- simpl in *. pose proof (getHeight_nonneg r). lia.
      * msplit.
        match goal with H : Avl.insertRecursive _ _ _ _ = _ |- _ =>
          apply IHl in H; [|split; assumption|assumption];
          destruct H as (Hok' & Hgrow) end.
        apply avl_rebalanceInsert_balanced in H2;
          [| exact Hok' | split; assumption | | | ].
        -- destruct H2 as (Hok & [(Hbal & ->)|(Hbal & Hht)]).
           ++ split; [exact Hok|]. simpl in *. lia.
           ++ split; [exact Hok|]. left. simpl in *. lia.
        -- simpl in *. lia.
        -- intros E. destruct Hgrow as [Hg|[_ Hg]]; [simpl in *; lia|exact Hg].
        -- intros E. simpl in *. lia.
    + destruct (v >? x) eqn:Ev2; [|congruence].
      destruct r as [|rl rx rh rr].
      * msplit. simpl in Hb.
        apply avl_rebalanceInsert_balanced in H2;
          [| split; assumption
           | apply avlOk_new
           | simpl; pose proof (getHeight_nonneg l); lia
           | simpl; pose proof (getHeight_nonneg l); lia
           | simpl; pose proof (getHeight_nonneg l); lia ].
        destruct H2 as (Hok & [(Hbal & ->)|(Hbal & Hht)]).
        -- split; [exact Hok|]. simpl in *.
           pose proof (getHeight_nonneg l). lia.
        -- simpl in *. pose proof (getHeight_nonneg l). lia.
      * msplit.
        match goal with H : Avl.insertRecursive _ _ _ _ = _ |- _ =>
          apply IHr in H; [|split; assumption|assumption];
          destruct H as (Hok' & Hgrow) end.
        apply avl_rebalanceInsert_balanced in H2;
          [| split; assumption | exact Hok' | | | ].
        -- destruct H2 as (Hok & [(Hbal & ->)|(Hbal & Hht)]).
           ++ split; [exact Hok|]. simpl in *. lia.
           ++ split; [exact Hok|]. left. simpl in *. lia.
        -- simpl in *. lia.
        -- intros E. simpl in *. lia.
        -- intros E. destruct Hgrow as [Hg|[_ Hg]]; [simpl in *; lia|exact Hg].
Qed.

Lemma avl_rebalanceDelete_ok wrap l x h r g n' g' :
  Avl.rebalanceDelete wrap (node l x h r) g = Some (n', g') ->
  avlOk l -> avlOk r ->
  -2 <= Tree.getHeight l - Tree.getHeight r <= 2 ->
  avlOk n'
  /\ Z.max (Tree.getHeight l) (Tree.getHeight r) <= Tree.getHeight n'
     <= Z.max (Tree.getHeight l) (Tree.getHeight r) + 1
  /\ (-1 <= Tree.getHeight l - Tree.getHeight r <= 1 ->
      Tree.getHeight n'
      = Z.max (Tree.getHeight l) (Tree.getHeight r) + 1).
Proof.
  intros H Hl Hr Hb. unfold Avl.rebalanceDelete in H.
  destruct Hl as [Hl Hlb]. destruct Hr as [Hr Hrb].
  rewrite (avlH_height l Hl), (avlH_height r Hr) in H.
  destruct (_ >? 1) eqn:E1; [|destruct (_ <? -1) eqn:E2]; msplit.
  - rot_inv. subst.
    destruct (_ >=? 0) eqn:Ev; msplit; rot_inv; subst; node_inj;
      avl_open; simpl in *; (split; [avl_close|lia]).
  - rot_inv. subst.
    destruct (_ <=? 0) eqn:Ev; msplit; rot_inv; subst; node_inj;
      avl_open; simpl in *; (split; [avl_close|lia]).
  - split; [avl_close|]. simpl. lia.
Qed.

Lemma avlOk_orElse (l r : Avl.AvlNode) : avlOk l -> avlOk r -> avlOk (orElse l r).
Proof. destruct l; simpl; tauto. Qed.

Lemma avl_deleteRecursive_balanced (t : Avl.AvlNode) :
  forall wrap k g t' g',
    Avl.deleteRecursive wrap t k g = Some (t', g') ->
    avlOk t ->
    avlOk t' /\ Tree.getHeight t - 1 <= Tree.getHeight t' <= Tree.getHeight t.
Proof.
  induction t as [|l IHl x h r IHr]; intros wrap k g t' g' H Ht; simpl in H.
  - msplit. split; [exact Ht|]. simpl. lia.
  - destruct Ht as [Hh Hb].
    apply (proj1 (avlH_node _ _ _ _)) in Hh. destruct Hh as (Hh & Hl & Hr).
    apply (proj1 (avlB_node _ _ _ _)) in Hb. destruct Hb as (Hb & Hlb & Hrb).
    destruct (k <? x); [|destruct (k >? x);
      [|destruct (negb (isNull l) && negb (isNull r)) eqn:En]]; msplit.
    + match goal with H : Avl.deleteRecursive _ _ _ _ = _ |- _ =>
        apply IHl in H; [|split; assumption]; destruct H as (Hok' & Hsh) end.
      match goal with H : Avl.rebalanceDelete _ _ _ = _ |- _ =>
        apply avl_rebalanceDelete_ok in H;
          [|exact Hok'|split; assumption|lia];
        destruct H as (Hok & Hrange & Hsame) end.
      split; [exact Hok|]. simpl. lia.
    + match goal with H : Avl.deleteRecursive _ _ _ _ = _ |- _ =>
        apply IHr in H; [|split; assumption]; destruct H as (Hok' & Hsh) end.
      match goal with H : Avl.rebalanceDelete _ _ _ = _ |- _ =>
        apply avl_rebalanceDelete_ok in H;
          [|split; assumption|exact Hok'|lia];
        destruct H as (Hok & Hrange & Hsame) end.
      split; [exact Hok|]. simpl. lia.
    + match goal with H : Avl.deleteRecursive _ _ _ _ = _ |- _ =>
        apply IHr in H; [|split; assumption]; destruct H as (Hok' & Hsh) end.
      match goal with H : Avl.rebalanceDelete _ _ _ = _ |- _ =>
        apply avl_rebalanceDelete_ok in H;
          [|split; assumption|exact Hok'|lia];
        destruct H as (Hok & Hrange & Hsame) end.
      split; [exact Hok|]. simpl. lia.
    + split; [apply avlOk_orElse; split; assumption|].
      pose proof (getHeight_nonneg l). pose proof (getHeight_nonneg r).
      destruct l, r; simpl in *; try discriminate En; lia.
Qed.

Lemma avl_insert_balanced t v g t' g' :
  Avl.insert t v g = Some (t', g') ->
  avlOk t -> Tree.findRecursive t v <> 1 -> avlOk t'.
Proof.
  intros H Ht Hf. unfold Avl.insert in H. msplit. destruct t; msplit.
  - apply avlOk_new.
  - match goal with H : Avl.insertRecursive _ _ _ _ = _ |- _ =>
      apply avl_insertRecursive_balanced in H; [|assumption|assumption] end.
    tauto.
Qed.

Lemma avl_delete_balanced t v g t' g' :
  Avl.delete_ t v g = Some (t', g') -> avlOk t -> avlOk t'.
Proof.
  intros H Ht. unfold Avl.delete_ in H. msplit.
  match goal with H : Avl.deleteRecursive _ _ _ _ = _ |- _ =>
    apply avl_deleteRecursive_balanced in H; [|assumption] end.
  tauto.
Qed.

(** The AVL trees that the calls the controller lets through can build:
    [addClick] inserts a key only when [find] does not find it, and
    [deleteClick] deletes a key only when [find] finds it. *)
Inductive avlValid : Avl.AvlNode -> Prop :=
| avl_valid_new : avlValid null
| avl_valid_insert t k g t' g' :
    avlValid t -> Tree.findRecursive t k <> 1 ->
    Avl.insert t k g = Some (t', g') -> avlValid t'
| avl_valid_delete t k g t' g' :
    avlValid t -> Tree.findRecursive t k = 1 ->
    Avl.delete_ t k g = Some (t', g') -> avlValid t'.

(** C2, as the code has it. In every AVL tree built by inserts of keys
    that are not yet stored and deletes of keys that are stored, every node
    satisfies [|height(left) - height(right)| <= 1] when the call returns. *)
Theorem avl_balanced_after_each_call (t : Avl.AvlNode) :
  avlValid t -> allNodes balancedAt t.
Proof.
  intros H. cut (avlOk t); [intros [_ Hb]; exact Hb|].
  induction H as [|t k g t' g' _ IH Hf H|t k g t' g' _ IH _ H].
  - split; exact I.
  - eapply avl_insert_balanced; eassumption.
  - eapply avl_delete_balanced; eassumption.
Qed.

Lemma avl_balanced_after_each_call_witness :
  allNodes balancedAt
    (node (node null 10 1 null) 20 2 (node null 30 1 null)).
Proof.
  apply avl_balanced_after_each_call.
  eapply (avl_valid_insert (node null 10 2 (node null 20 1 null)) 30
            readyGlobal); [|discriminate|reflexivity].
  eapply (avl_valid_insert (node null 10 1 null) 20 readyGlobal);
    [|discriminate|reflexivity].
  eapply (avl_valid_insert null 10 readyGlobal); [|discriminate|reflexivity].
  apply avl_valid_new.
Defined.

(** C2 as stated fails: the claim lets any key be inserted. Inserting 10,
    5, 20, 15, 25 and then 20 again returns normally and leaves the node
    keyed 20 with an empty left subtree and a right subtree of height 2. *)
Lemma avl_duplicate_insert_unbalances :
  exists t,
    avlReachable t
    /\ t = node (node (node null 5 1 null) 10 2 null) 15 4
             (node null 20 3 (node (node null 20 1 null) 25 2 null))
    /\ ~ allNodes balancedAt t.
Proof.
  eexists. split; [|split; [reflexivity|]].
  - eapply (avl_reach_insert
              (node (node null 5 1 null) 10 3
                 (node (node null 15 1 null) 20 2 (node null 25 1 null)))
              20 readyGlobal); [|vm_compute; reflexivity].
    eapply (avl_reach_insert
              (node (node null 5 1 null) 10 3
                 (node (node null 15 1 null) 20 2 null))
              25 readyGlobal); [|vm_compute; reflexivity].
    eapply (avl_reach_insert
              (node (node null 5 1 null) 10 2 (node null 20 1 null))
              15 readyGlobal); [|vm_compute; reflexivity].
    eapply (avl_reach_insert (node (node null 5 1 null) 10 2 null)
              20 readyGlobal); [|vm_compute; reflexivity].
    eapply (avl_reach_insert (node null 10 1 null) 5 readyGlobal);
      [|vm_compute; reflexivity].
    eapply (avl_reach_insert null 10 readyGlobal); [|vm_compute; reflexivity].
    apply avl_reach_new.
  - simpl. lia.
Qed.

(** * Red-Black: the tree a store holds

    The nodes reachable from [root] are read back as a tree that keeps the
    location of every node; [rep] says which record the store must hold at
    each location, [parent] links included. *)

Inductive Colour : Type := Black | Red.

Definition colourZ (c : Colour) : Z :=
  match c with
  | Black => 0
  | Red => 1
  end.

Inductive rbt : Type :=
| Leaf
| Tn (l : rbt) (x : nat) (c : Colour) (v : Z) (r : rbt).

Definition rootOf (t : rbt) : RedBlack.ref :=
  match t with
  | Leaf => None
  | Tn _ x _ _ _ => Some x
  end.

Fixpoint locs (t : rbt) : list nat :=
  match t with
  | Leaf => []
  | Tn l x _ _ r => locs l ++ x :: locs r
  end.

Fixpoint keys (t : rbt) : list Z :=
  match t with
  | Leaf => []
  | Tn l _ _ v r => keys l ++ v :: keys r
  end.

Fixpoint rep (h : gmap nat RedBlack.RbNode) (par : RedBlack.ref) (t : rbt)
  : Prop :=
  match t with
  | Leaf => True
  | Tn l x c v r =>
      h !! x = Some (RedBlack.mkRbNode v (rootOf l) (rootOf r) par
                                       (colourZ c))
      /\ rep h (Some x) l /\ rep h (Some x) r
  end.

(** A tree with a hole: the path from the hole up to the root. *)
Inductive frame : Type :=
| FL (x : nat) (c : Colour) (v : Z) (r : rbt)    (* the hole is [x.left] *)
| FR (l : rbt) (x : nat) (c : Colour) (v : Z).   (* the hole is [x.right] *)

Definition fill (f : frame) (t : rbt) : rbt :=
  match f with
  | FL x c v r => Tn t x c v r
  | FR l x c v => Tn l x c v t
  end.

Fixpoint plug (k : list frame) (t : rbt) : rbt :=
  match k with
  | [] => t
  | f :: k' => plug k' (fill f t)
  end.

Definition frameLoc (f : frame) : nat :=
  match f with
  | FL x _ _ _ => x
  | FR _ x _ _ => x
  end.

Definition sibling (f : frame) : rbt :=
  match f with
  | FL _ _ _ r => r
  | FR l _ _ _ => l
  end.

Definition ctxTop (k : list frame) : RedBlack.ref :=
  match k with
  | [] => None
  | f :: _ => Some (frameLoc f)
  end.

Fixpoint ctxLocs (k : list frame) : list nat :=
  match k with
  | [] => []
  | f :: k' => frameLoc f :: locs (sibling f) ++ ctxLocs k'
  end.

(** The record of the node of a frame, given what hangs in its hole. *)
Definition frameNode (f : frame) (hole par : RedBlack.ref) : RedBlack.RbNode :=
  match f with
  | FL x c v r => RedBlack.mkRbNode v hole (rootOf r) par (colourZ c)
  | FR l x c v => RedBlack.mkRbNode v (rootOf l) hole par (colourZ c)
  end.

Fixpoint repCtx (h : gmap nat RedBlack.RbNode) (k : list frame)
  (hole : RedBlack.ref) : Prop :=
  match k with
  | [] => True
  | f :: k' =>
      h !! frameLoc f = Some (frameNode f hole (ctxTop k'))
      /\ rep h (Some (frameLoc f)) (sibling f)
      /\ repCtx h k' (Some (frameLoc f))
  end.

(** The store and the root of [s] hold the tree [t]. *)
Definition represents (s : RedBlack.State) (t : rbt) : Prop :=
  rep (RedBlack.heap s) None t
  /\ RedBlack.root s = rootOf t
  /\ NoDup (locs t)
  /\ Forall (fun x => (x < RedBlack.nextLoc s)%nat) (locs t).

Lemma rep_fill h par f t :
  rep h par (fill f t) <->
  h !! frameLoc f = Some (frameNode f (rootOf t) par)
  /\ rep h (Some (frameLoc f)) (sibling f)
  /\ rep h (Some (frameLoc f)) t.
Proof. destruct f; simpl; tauto. Qed.

Lemma rootOf_fill f t : rootOf (fill f t) = Some (frameLoc f).
Proof. now destruct f. Qed.

Lemma rep_plug h k : forall t,
  rep h None (plug k t) <-> rep h (ctxTop k) t /\ repCtx h k (rootOf t).
Proof.
  induction k as [|f k IH]; intros t; simpl.
  - tauto.
  - rewrite IH, rep_fill, rootOf_fill. tauto.
Qed.

Lemma rootOf_plug_cons k : forall f t,
  exists y, rootOf (plug (f :: k) t) = Some y /\ y ∈ ctxLocs (f :: k).
Proof.
  induction k as [|f' k IH]; intros f t.
  - exists (frameLoc f). simpl. rewrite rootOf_fill. split; [reflexivity|].
    set_solver.
  - destruct (IH f' (fill f t)) as (y & Hy & Hin). exists y.
    split; [exact Hy|]. change (ctxLocs (f :: f' :: k))
      with (frameLoc f :: locs (sibling f) ++ ctxLocs (f' :: k)).
    apply elem_of_cons. right. apply elem_of_app. right. exact Hin.
Qed.

Lemma locs_fill f t : locs (fill f t) ≡ₚ locs t ++ frameLoc f :: locs (sibling f).
Proof.
  destruct f; simpl; [reflexivity|].
  etransitivity; [apply Permutation_app_comm|]. simpl.
  apply Permutation_middle.
Qed.

Lemma locs_plug k : forall t, locs (plug k t) ≡ₚ locs t ++ ctxLocs k.
Proof.
  induction k as [|f k IH]; intros t; simpl.
  - now rewrite app_nil_r.
  - rewrite IH, locs_fill, <- app_assoc. reflexivity.
Qed.

(** [rep] only looks at the locations of the tree. *)
Lemma rep_frame h h' par t :
  (forall y, y ∈ locs t -> h' !! y = h !! y) -> rep h par t -> rep h' par t.
Proof.
  revert par. induction t as [|l IHl x c v r IHr]; intros par Hy; simpl.
  - tauto.
  - intros (Hx & Hl & Hr). split; [|split].
    + rewrite Hy; [exact Hx|]. set_solver.
    + apply IHl; [|exact Hl]. intros y Hin. apply Hy. set_solver.
    + apply IHr; [|exact Hr]. intros y Hin. apply Hy. set_solver.
Qed.

Lemma repCtx_frame h h' k : forall hole,
  (forall y, y ∈ ctxLocs k -> h' !! y = h !! y) ->
  repCtx h k hole -> repCtx h' k hole.
Proof.
  induction k as [|f k IH]; intros hole Hy; simpl; [tauto|].
  intros (Hx & Hs & Hk). split; [|split].
  - rewrite Hy; [exact Hx|]. set_solver.
  - eapply rep_frame; [|exact Hs]. intros y Hin. apply Hy. set_solver.
  - apply IH; [|exact Hk]. intros y Hin. apply Hy. set_solver.
Qed.

(** ** Weakest preconditions

    [wp m s Q]: the program [m] run in [s] returns, and [Q] holds of its
    result and final state. *)
Definition wp {S A} (m : M S A) (s : S) (Q : A -> S -> Prop) : Prop :=
  match m s with
  | Some (a, s') => Q a s'
  | None => False
  end.

Lemma wp_bind {S A B} (m : M S A) (f : A -> M S B) s Q :
  wp m s (fun a s' => wp (f a) s' Q) -> wp (bind m f) s Q.
Proof. unfold wp, bind. now destruct (m s) as [[a s']|]. Qed.

Lemma wp_ret {S A} (a : A) (s : S) (Q : A -> S -> Prop) : Q a s -> wp (ret a) s Q.
Proof. intros H. exact H. Qed.

Lemma wp_run {S A} (m : M S A) s a s' (Q : A -> S -> Prop) :
  m s = Some (a, s') -> Q a s' -> wp m s Q.
Proof. unfold wp. now intros ->. Qed.

Lemma wp_mono {S A} (m : M S A) s (Q Q' : A -> S -> Prop) :
  wp m s Q -> (forall a s', Q a s' -> Q' a s') -> wp m s Q'.
Proof. unfold wp. destruct (m s) as [[a s']|]; [|tauto]. intros H HQ. now apply HQ. Qed.

Lemma bind_assoc {S A B C} (m : M S A) (f : A -> M S B) (g : B -> M S C) s :
  bind (bind m f) g s = bind m (fun a => bind (f a) g) s.
Proof. unfold bind. now destruct (m s) as [[a s1]|]. Qed.

Lemma bind_ret {S A B} (a : A) (f : A -> M S B) s : bind (ret a) f s = f a s.
Proof. reflexivity. Qed.

(** ** Running the store operations *)

Lemma getNode_run s x n :
  RedBlack.heap s !! x = Some n -> RedBlack.getNode (Some x) s = Some (n, s).
Proof. unfold RedBlack.getNode. now intros ->. Qed.

Lemma setNode_run s x n f :
  RedBlack.heap s !! x = Some n ->
  RedBlack.setNode (Some x) f s
  = Some (tt, RedBlack.withHeap (fun h => <[x := f n]> h) s).
Proof.
  intros H. unfold RedBlack.setNode. erewrite bind_run by (apply getNode_run; exact H).
  reflexivity.
Qed.

Lemma rep_inner h k : forall t, rep h None (plug k t) -> rep h (ctxTop k) t.
Proof. intros t H. apply rep_plug in H. tauto. Qed.

Lemma represents_lookup s k l x c v r :
  represents s (plug k (Tn l x c v r)) ->
  RedBlack.heap s !! x
  = Some (RedBlack.mkRbNode v (rootOf l) (rootOf r) (ctxTop k) (colourZ c)).
Proof. intros (H & _). apply rep_inner in H. simpl in H. tauto. Qed.

Section Reads.
Context (s : RedBlack.State) (k : list frame) (l : rbt) (x : nat)
  (c : Colour) (v : Z) (r : rbt).
Context (Hrep : represents s (plug k (Tn l x c v r))).

Lemma valueOf_run : RedBlack.valueOf (Some x) s = Some (v, s).
Proof.
  unfold RedBlack.valueOf.
  erewrite bind_run by (apply getNode_run, represents_lookup, Hrep).
  reflexivity.
Qed.

Lemma leftOf_run : RedBlack.leftOf (Some x) s = Some (rootOf l, s).
Proof.
  unfold RedBlack.leftOf.
  erewrite bind_run by (apply getNode_run, represents_lookup, Hrep).
  reflexivity.
Qed.

Lemma rightOf_run : RedBlack.rightOf (Some x) s = Some (rootOf r, s).
Proof.
  unfold RedBlack.rightOf.
  erewrite bind_run by (apply getNode_run, represents_lookup, Hrep).
  reflexivity.
Qed.

Lemma parentOf_run : RedBlack.parentOf (Some x) s = Some (ctxTop k, s).
Proof.
  unfold RedBlack.parentOf.
  erewrite bind_run by (apply getNode_run, represents_lookup, Hrep).
  reflexivity.
Qed.

Lemma colourOf_run : RedBlack.colourOf (Some x) s = Some (colourZ c, s).
Proof.
  unfold RedBlack.colourOf.
  erewrite bind_run by (apply getNode_run, represents_lookup, Hrep).
  reflexivity.
Qed.

End Reads.

Lemma NoDup_locs_plug k t :
  NoDup (locs (plug k t)) <->
  NoDup (locs t) /\ NoDup (ctxLocs k)
  /\ (forall y, y ∈ locs t -> y ∉ ctxLocs k).
Proof. rewrite locs_plug, NoDup_app. tauto. Qed.


Lemma rootOf_elem t x : rootOf t = Some x -> x ∈ locs t.
Proof. destruct t; simpl; [discriminate|]. intros [= ->]. set_solver. Qed.

Lemma rootOf_plug_same k t t' :
  k <> [] -> rootOf (plug k t) = rootOf (plug k t').
Proof.
  revert t t'. induction k as [|f k IH]; intros t t' Hk; [congruence|].
  destruct k as [|f' k]; simpl.
  - now rewrite !rootOf_fill.
  - apply IH. discriminate.
Qed.

Lemma Forall_locs_plug (P : nat -> Prop) k t :
  Forall P (locs (plug k t)) <-> Forall P (locs t) /\ Forall P (ctxLocs k).
Proof. rewrite locs_plug. apply Forall_app. Qed.

Lemma rootOf_ne t x : x ∉ locs t -> Some x <> rootOf t.
Proof. intros H E. apply H. now apply rootOf_elem. Qed.

Lemma rootOf_ne' t x : x ∉ locs t -> rootOf t <> Some x.
Proof. intros H E. apply H. now apply rootOf_elem. Qed.

(** ** Distinct locations

    The goal [x <> y] or [x ∉ locs t] from [NoDup] of a list in which both
    occur. *)

Lemma elem_of_app_r {A} (x : A) l1 l2 : x ∈ l2 -> x ∈ l1 ++ l2.
Proof. intros H. apply elem_of_app. now right. Qed.

Lemma elem_of_app_l {A} (x : A) l1 l2 : x ∈ l1 -> x ∈ l1 ++ l2.
Proof. intros H. apply elem_of_app. now left. Qed.

Lemma Some_ne {A} (x y : A) : x <> y -> Some x <> Some y.
Proof. congruence. Qed.

Ltac elem_single :=
  solve [repeat first [ apply list_elem_of_here
                      | apply list_elem_of_further
                      | apply elem_of_app_r ]].

Ltac elem_comp Hin :=
  solve [repeat first [ exact Hin
                      | apply elem_of_app_l; exact Hin
                      | apply list_elem_of_further
                      | apply elem_of_app_r ]].

Ltac nd_ne x y H :=
  lazymatch type of H with
  | NoDup (x :: _) =>
      let E := fresh in
      intros E; apply (NoDup_cons_1_1 _ _ H); rewrite E; elem_single
  | NoDup (y :: _) =>
      let E := fresh in
      intros E; apply (NoDup_cons_1_1 _ _ H); rewrite <- E; elem_single
  | NoDup (_ :: _) => apply NoDup_cons_1_2 in H; nd_ne x y H
  | NoDup (_ ++ _) => apply NoDup_app in H as (_ & _ & H); nd_ne x y H
  end.

Ltac nd_notin x C H :=
  lazymatch type of H with
  | NoDup (x :: _) =>
      let Hin := fresh in
      intros Hin; apply (NoDup_cons_1_1 _ _ H); elem_comp Hin
  | NoDup (C ++ _) =>
      let Hin := fresh in
      intros Hin; apply (proj1 (proj2 (proj1 (NoDup_app _ _) H)) _ Hin);
      elem_single
  | NoDup [C] => fail
  | NoDup (_ :: _) => apply NoDup_cons_1_2 in H; nd_notin x C H
  | NoDup (_ ++ _) => apply NoDup_app in H as (_ & _ & H); nd_notin x C H
  end.

Ltac nd_flat H :=
  rewrite ?locs_plug in H; simpl in H;
  repeat (rewrite <- app_assoc in H || rewrite <- app_comm_cons in H).

(** [Hnd : NoDup l] with [l] any bracketing of locations and [locs]. *)
Ltac nd_solve Hnd :=
  let H := fresh in
  pose proof Hnd as H; nd_flat H;
  simpl;
  try apply Some_ne; try apply rootOf_ne; try apply rootOf_ne';
  lazymatch goal with
  | |- ?x <> ?y => nd_ne x y H
  | |- ?x ∉ ?C => nd_notin x C H
  end.

(** Looks a location up in a store that was updated a few times. *)
Ltac hlookup Hnd :=
  simpl;
  repeat first
    [ rewrite lookup_insert_eq
    | rewrite lookup_insert_ne by nd_solve Hnd ];
  first [reflexivity | eassumption].

(** Runs the store operation at the head of the program. *)
Ltac hstep Hnd :=
  first
  [ rewrite bind_assoc
  | rewrite bind_ret
  | erewrite bind_run by
      (unfold RedBlack.valueOf, RedBlack.leftOf, RedBlack.rightOf,
         RedBlack.parentOf, RedBlack.colourOf;
       erewrite bind_run by (apply getNode_run; hlookup Hnd); reflexivity)
  | erewrite bind_run by
      (unfold RedBlack.setValue, RedBlack.setLeft, RedBlack.setRight,
         RedBlack.setParent, RedBlack.setColour;
       apply setNode_run; hlookup Hnd)
  | rewrite bool_decide_true by (first [reflexivity | congruence])
  | rewrite bool_decide_false by (first [discriminate | nd_solve Hnd])
  | erewrite bind_run by reflexivity ];
  cbn [RedBlack.value RedBlack.left RedBlack.right RedBlack.parent
       RedBlack.colour RedBlack.valueOrNullOf RedBlack.isBlack
       RedBlack.isRed RedBlack.withHeap RedBlack.withRoot RedBlack.heap
       RedBlack.root RedBlack.nextLoc RedBlack.glob].

(** The same locations, linked another way. *)
Lemma represents_relink s s' t t' :
  represents s t ->
  locs t' ≡ₚ locs t ->
  (RedBlack.nextLoc s <= RedBlack.nextLoc s')%nat ->
  RedBlack.root s' = rootOf t' ->
  rep (RedBlack.heap s') None t' ->
  represents s' t'.
Proof.
  intros (_ & _ & Hnd & Hlt) Hp Hn Hroot Hrep.
  split; [exact Hrep|]. split; [exact Hroot|]. rewrite Hp.
  split; [exact Hnd|]. eapply Forall_impl; [exact Hlt|]. simpl. lia.
Qed.

Lemma rootOf_plug_eq k : forall t t',
  rootOf t = rootOf t' -> rootOf (plug k t) = rootOf (plug k t').
Proof.
  induction k as [|f k IH]; intros t t' H; simpl; [exact H|].
  apply IH. now rewrite !rootOf_fill.
Qed.

Lemma locs_plug_eq k : forall t t',
  locs t = locs t' -> locs (plug k t) = locs (plug k t').
Proof.
  induction k as [|f k IH]; intros t t' H; simpl; [exact H|].
  apply IH. destruct f; simpl; now rewrite H.
Qed.

Lemma locs_rotate a x cx vx b y cy vy c :
  locs (Tn (Tn a x cx vx b) y cy vy c) = locs (Tn a x cx vx (Tn b y cy vy c)).
Proof. simpl. now rewrite <- app_assoc. Qed.

(** The store agrees with the old one on an untouched part of the tree. *)
Ltac frame_ne Hnd Hz :=
  let E := fresh in
  intros E; rewrite <- E in Hz; revert Hz;
  lazymatch goal with
  | |- ?x ∈ ?l -> False => change (x ∉ l)
  end;
  nd_solve Hnd.

Ltac frame_solve Hnd :=
  let z := fresh "z" in let Hz := fresh "Hz" in
  intros z Hz; simpl;
  rewrite ?lookup_insert_ne by frame_ne Hnd Hz; reflexivity.

Ltac rep_solve Hnd :=
  simpl;
  repeat match goal with
  | |- _ /\ _ => split
  | |- True => exact I
  | |- _ !! _ = Some _ => hlookup Hnd
  | |- rep _ _ (Tn _ _ _ _ _) => simpl
  | |- rep _ _ _ => (eapply rep_frame; [|eassumption]); frame_solve Hnd
  | |- repCtx _ _ _ => (eapply repCtx_frame; [|eassumption]); frame_solve Hnd
  end.

(** ** Changing a node, rotating, attaching *)

(** Changing fields of the node in focus that are not links. *)
Lemma represents_update_focus s k l x c v r c' v' :
  represents s (plug k (Tn l x c v r)) ->
  represents
    (RedBlack.withHeap
       (fun h => <[x := RedBlack.mkRbNode v' (rootOf l) (rootOf r) (ctxTop k)
                          (colourZ c')]> h) s)
    (plug k (Tn l x c' v' r)).
Proof.
  intros H. pose proof H as (Hrep & Hroot & Hnd & Hlt).
  apply rep_plug in Hrep as [Hrep Hk]. simpl in Hrep.
  destruct Hrep as (Hx & Hl & Hr).
  eapply represents_relink;
    [ exact H
    | erewrite locs_plug_eq; reflexivity
    | simpl; lia
    | simpl; rewrite Hroot; now apply rootOf_plug_eq
    | apply rep_plug; split; rep_solve Hnd ].
Qed.

Lemma setColour_run s k l x c v r c' :
  represents s (plug k (Tn l x c v r)) ->
  exists s', RedBlack.setColour (Some x) (colourZ c') s = Some (tt, s')
             /\ represents s' (plug k (Tn l x c' v r)).
Proof.
  intros H. eexists. split.
  - unfold RedBlack.setColour.
    erewrite setNode_run by (eapply represents_lookup; exact H). reflexivity.
  - simpl. eapply represents_update_focus. exact H.
Qed.

Lemma setValue_run s k l x c v r v' :
  represents s (plug k (Tn l x c v r)) ->
  exists s', RedBlack.setValue (Some x) v' s = Some (tt, s')
             /\ represents s' (plug k (Tn l x c v' r)).
Proof.
  intros H. eexists. split.
  - unfold RedBlack.setValue.
    erewrite setNode_run by (eapply represents_lookup; exact H). reflexivity.
  - simpl. eapply represents_update_focus. exact H.
Qed.


Lemma leftRotate_shape s k a x cx vx b y cy vy c :
  represents s (plug k (Tn a x cx vx (Tn b y cy vy c))) ->
  exists s',
    RedBlack.leftRotate (Some x) s = Some (tt, s')
    /\ represents s' (plug k (Tn (Tn a x cx vx b) y cy vy c)).
Proof.
  intros H. pose proof H as (Hrep & Hroot & Hnd & Hlt).
  apply rep_plug in Hrep as [Hrep Hk].
  unfold RedBlack.leftRotate.
  destruct b as [|bl bx bc bv br]; destruct k as [|[p pc pv ps|ps p pc pv] k];
    simpl in Hrep, Hk; destruct_and?; nd_flat Hnd.
  all: eexists; split; [repeat hstep Hnd; reflexivity|].
  all: eapply represents_relink;
    [exact H
    |erewrite locs_plug_eq; [reflexivity|apply locs_rotate]
    |simpl; lia
    |simpl in Hroot |- *;
     first [reflexivity | rewrite Hroot; now apply rootOf_plug_eq]
    |apply rep_plug; split; rep_solve Hnd].
Qed.

Lemma rightRotate_shape s k a x cx vx b y cy vy c :
  represents s (plug k (Tn (Tn a x cx vx b) y cy vy c)) ->
  exists s',
    RedBlack.rightRotate (Some y) s = Some (tt, s')
    /\ represents s' (plug k (Tn a x cx vx (Tn b y cy vy c))).
Proof.
  intros H. pose proof H as (Hrep & Hroot & Hnd & Hlt).
  apply rep_plug in Hrep as [Hrep Hk].
  unfold RedBlack.rightRotate.
  destruct b as [|bl bx bc bv br]; destruct k as [|[p pc pv ps|ps p pc pv] k];
    simpl in Hrep, Hk; destruct_and?; nd_flat Hnd.
  all: eexists; split; [repeat hstep Hnd; reflexivity|].
  all: eapply represents_relink;
    [exact H
    |erewrite locs_plug_eq; [reflexivity|symmetry; apply locs_rotate]
    |simpl; lia
    |simpl in Hroot |- *;
     first [reflexivity | rewrite Hroot; now apply rootOf_plug_eq]
    |apply rep_plug; split; rep_solve Hnd].
Qed.


Lemma fresh_loc s t :
  represents s t -> NoDup (RedBlack.nextLoc s :: locs t).
Proof.
  intros (_ & _ & Hnd & Hlt). apply NoDup_cons. split; [|exact Hnd].
  intros Hin. rewrite Forall_forall in Hlt. specialize (Hlt _ Hin). lia.
Qed.

Lemma represents_extend s s' t t' :
  represents s t ->
  locs t' ≡ₚ RedBlack.nextLoc s :: locs t ->
  RedBlack.nextLoc s' = S (RedBlack.nextLoc s) ->
  RedBlack.root s' = rootOf t' ->
  rep (RedBlack.heap s') None t' ->
  represents s' t'.
Proof.
  intros H Hp Hn Hroot Hrep. pose proof (fresh_loc _ _ H) as Hnd.
  destruct H as (_ & _ & _ & Hlt).
  split; [exact Hrep|]. split; [exact Hroot|]. rewrite Hp.
  split; [exact Hnd|]. rewrite Hn. constructor; [lia|].
  eapply Forall_impl; [exact Hlt|]. simpl. lia.
Qed.

Lemma wp_attach_left s k x c nv r v i Q :
  represents s (plug k (Tn Leaf x c nv r)) ->
  (forall s',
     RedBlack.nextLoc s' = S (RedBlack.nextLoc s) ->
     represents s'
       (plug k (Tn (Tn Leaf (RedBlack.nextLoc s) Red v Leaf) x c nv r)) ->
     Q (Some (RedBlack.nextLoc s)) s') ->
  wp (let* newNode := RedBlack.newRbNode v in
      RedBlack.setParent newNode (Some x) >>
      RedBlack.setLeft (Some x) newNode >>
      RedBlack.checkResize >>
      RedBlack.push i [ANum v; ANum nv] >>
      ret newNode) s Q.
Proof.
  intros H HQ. pose proof (fresh_loc _ _ H) as Hnd.
  pose proof H as (Hrep & Hroot & _ & _).
  apply rep_plug in Hrep as [Hrep Hk]. simpl in Hrep. destruct_and?.
  nd_flat Hnd.
  eapply wp_run; [repeat hstep Hnd; reflexivity|].
  apply HQ; [reflexivity|].
  eapply represents_extend;
    [ exact H
    | rewrite !locs_plug; reflexivity
    | reflexivity
    | simpl in Hroot |- *; rewrite Hroot; now apply rootOf_plug_eq
    | apply rep_plug; split; rep_solve Hnd ].
Qed.

Lemma wp_attach_right s k l x c nv v i Q :
  represents s (plug k (Tn l x c nv Leaf)) ->
  (forall s',
     RedBlack.nextLoc s' = S (RedBlack.nextLoc s) ->
     represents s'
       (plug k (Tn l x c nv (Tn Leaf (RedBlack.nextLoc s) Red v Leaf))) ->
     Q (Some (RedBlack.nextLoc s)) s') ->
  wp (let* newNode := RedBlack.newRbNode v in
      RedBlack.setParent newNode (Some x) >>
      RedBlack.setRight (Some x) newNode >>
      RedBlack.checkResize >>
      RedBlack.push i [ANum v; ANum nv] >>
      ret newNode) s Q.
Proof.
  intros H HQ. pose proof (fresh_loc _ _ H) as Hnd.
  pose proof H as (Hrep & Hroot & _ & _).
  apply rep_plug in Hrep as [Hrep Hk]. simpl in Hrep. destruct_and?.
  nd_flat Hnd.
  eapply wp_run; [repeat hstep Hnd; reflexivity|].
  apply HQ; [reflexivity|].
  eapply represents_extend;
    [ exact H
    | rewrite !locs_plug; simpl; rewrite <- !app_assoc; simpl;
      symmetry; etransitivity; [apply Permutation_middle|];
      apply Permutation_app_head, perm_swap
    | reflexivity
    | simpl in Hroot |- *; rewrite Hroot; now apply rootOf_plug_eq
    | apply rep_plug; split; rep_solve Hnd ].
Qed.

(** ** The operations on a node in focus *)

Section WpFocus.
Context (s : RedBlack.State) (k : list frame) (l : rbt) (x : nat)
  (c : Colour) (v : Z) (r : rbt).
Context (Hrep : represents s (plug k (Tn l x c v r))).

Lemma wp_valueOf Q : Q v s -> wp (RedBlack.valueOf (Some x)) s Q.
Proof. apply wp_run. eapply valueOf_run, Hrep. Qed.

Lemma wp_leftOf Q : Q (rootOf l) s -> wp (RedBlack.leftOf (Some x)) s Q.
Proof. apply wp_run. eapply leftOf_run, Hrep. Qed.

Lemma wp_rightOf Q : Q (rootOf r) s -> wp (RedBlack.rightOf (Some x)) s Q.
Proof. apply wp_run. eapply rightOf_run, Hrep. Qed.

Lemma wp_parentOf Q : Q (ctxTop k) s -> wp (RedBlack.parentOf (Some x)) s Q.
Proof. apply wp_run. eapply parentOf_run, Hrep. Qed.

Lemma wp_colourOf Q : Q (colourZ c) s -> wp (RedBlack.colourOf (Some x)) s Q.
Proof. apply wp_run. eapply colourOf_run, Hrep. Qed.

Lemma wp_setColour c' Q :
  (forall s', represents s' (plug k (Tn l x c' v r)) -> Q tt s') ->
  wp (RedBlack.setColour (Some x) (colourZ c')) s Q.
Proof.
  intros HQ. destruct (setColour_run _ _ _ _ _ _ _ c' Hrep) as (s' & Hrun & H').
  eapply wp_run; [exact Hrun|]. now apply HQ.
Qed.

Lemma wp_setValue v' Q :
  (forall s', represents s' (plug k (Tn l x c v' r)) -> Q tt s') ->
  wp (RedBlack.setValue (Some x) v') s Q.
Proof.
  intros HQ. destruct (setValue_run _ _ _ _ _ _ _ v' Hrep) as (s' & Hrun & H').
  eapply wp_run; [exact Hrun|]. now apply HQ.
Qed.

End WpFocus.

Lemma wp_leftRotate s k a x cx vx b y cy vy c Q :
  represents s (plug k (Tn a x cx vx (Tn b y cy vy c))) ->
  (forall s', represents s' (plug k (Tn (Tn a x cx vx b) y cy vy c)) ->
              Q tt s') ->
  wp (RedBlack.leftRotate (Some x)) s Q.
Proof.
  intros H HQ. destruct (leftRotate_shape _ _ _ _ _ _ _ _ _ _ _ H)
    as (s' & Hrun & H').
  eapply wp_run; [exact Hrun|]. now apply HQ.
Qed.

Lemma wp_rightRotate s k a x cx vx b y cy vy c Q :
  represents s (plug k (Tn (Tn a x cx vx b) y cy vy c)) ->
  (forall s', represents s' (plug k (Tn a x cx vx (Tn b y cy vy c))) ->
              Q tt s') ->
  wp (RedBlack.rightRotate (Some y)) s Q.
Proof.
  intros H HQ. destruct (rightRotate_shape _ _ _ _ _ _ _ _ _ _ _ H)
    as (s' & Hrun & H').
  eapply wp_run; [exact Hrun|]. now apply HQ.
Qed.

Lemma wp_push s t i a Q :
  represents s t ->
  (forall s', represents s' t -> Q tt s') ->
  wp (RedBlack.push i a) s Q.
Proof.
  intros H HQ. eapply wp_run; [reflexivity|]. apply HQ. exact H.
Qed.

Lemma wp_liftG_modify s t f Q :
  represents s t ->
  (forall s', represents s' t -> Q tt s') ->
  wp (RedBlack.liftG (modify f)) s Q.
Proof. intros H HQ. eapply wp_run; [reflexivity|]. apply HQ. exact H. Qed.

Lemma wp_getRoot s t (Q : RedBlack.ref -> RedBlack.State -> Prop) :
  represents s t -> Q (rootOf t) s -> wp RedBlack.getRoot s Q.
Proof.
  intros (_ & Hroot & _) HQ. eapply wp_run; [reflexivity|]. simpl.
  now rewrite Hroot.
Qed.

(** ** The red-black invariants on the tree a store holds *)

Definition col (t : rbt) : Colour :=
  match t with
  | Leaf => Black
  | Tn _ _ c _ _ => c
  end.

Definition nb (c : Colour) : nat :=
  match c with
  | Black => 1
  | Red => 0
  end.

(** The number of black nodes on the leftmost path. *)
Fixpoint bh (t : rbt) : nat :=
  match t with
  | Leaf => O
  | Tn l _ c _ _ => (nb c + bh l)%nat
  end.

(** Every path below a node has as many black nodes as the leftmost. *)
Fixpoint bal (t : rbt) : Prop :=
  match t with
  | Leaf => True
  | Tn l _ _ _ r => bh l = bh r /\ bal l /\ bal r
  end.

(** No red node has a red child. *)
Fixpoint noRR (t : rbt) : Prop :=
  match t with
  | Leaf => True
  | Tn l _ c _ r =>
      (c = Red -> col l = Black /\ col r = Black) /\ noRR l /\ noRR r
  end.

Definition rbOk (t : rbt) : Prop := col t = Black /\ noRR t /\ bal t.

Definition fcol (f : frame) : Colour :=
  match f with
  | FL _ c _ _ => c
  | FR _ _ c _ => c
  end.

Definition ctxCol (k : list frame) : Colour :=
  match k with
  | [] => Black
  | f :: _ => fcol f
  end.

(** What is left of [rbOk] for the path above a hole that takes a tree of
    black height [n]; a red node is never the root. *)
Fixpoint ctxOk (k : list frame) (n : nat) : Prop :=
  match k with
  | [] => True
  | f :: k' =>
      bh (sibling f) = n /\ bal (sibling f) /\ noRR (sibling f)
      /\ (fcol f = Red ->
          col (sibling f) = Black /\ ctxCol k' = Black /\ k' <> [])
      /\ ctxOk k' (nb (fcol f) + n)
  end.

Lemma plug_ok k : forall t,
  ctxOk k (bh t) -> bal t -> noRR t ->
  (ctxCol k = Red -> col t = Black) ->
  (k = [] -> col t = Black) ->
  rbOk (plug k t).
Proof.
  induction k as [|f k IH]; intros t Hk Hb Hn Hc Hr; simpl.
  - split; [now apply Hr|]. now split.
  - destruct Hk as (Hs & Hbs & Hns & Hf & Hk). apply IH.
    + destruct f; simpl in *; [exact Hk|]. now rewrite Hs.
    + destruct f; simpl in *; auto.
    + destruct f; simpl in *; (split; [|tauto]); intros ->;
        destruct (Hf eq_refl) as (? & ? & ?); auto.
    + intros Hred. destruct (col (fill f t)) eqn:E; [reflexivity|].
      destruct f; simpl in *; subst; destruct (Hf eq_refl) as (? & ? & ?);
        congruence.
    + intros ->. destruct f as [x [|] v r|l x [|] v]; simpl in *; try reflexivity;
        destruct (Hf eq_refl) as (? & ? & ?); congruence.
Qed.

Lemma ok_plug k : forall t,
  rbOk (plug k t) ->
  ctxOk k (bh t) /\ bal t /\ noRR t /\ (ctxCol k = Red -> col t = Black)
  /\ (k = [] -> col t = Black).
Proof.
  induction k as [|f k IH]; intros t; simpl.
  - intros (Hc & Hn & Hb). tauto.
  - intros H. apply IH in H as (Hk & Hb & Hn & Hc & Hr).
    assert (Hroot : fcol f = Red -> k <> []).
    { intros Hf ->. specialize (Hr eq_refl). destruct f; simpl in *; congruence. }
    destruct f as [x c v r|l x c v]; simpl in *.
    all: destruct Hb as (Hbh & Hbl & Hbt); destruct Hn as (Hcc & Hnl & Hnr).
    all: rewrite <- ?Hbh.
    all: repeat split; try assumption; try congruence.
    all: try (now apply Hroot).
    all: try (intros Hred; now destruct (Hcc Hred)).
    all: try (now destruct (Hcc H)).
    all: destruct (ctxCol k); [reflexivity|]; specialize (Hc eq_refl);
      congruence.
Qed.

Lemma plug_inv k t :
  ctxOk k (bh t) -> bal t -> noRR t ->
  (ctxCol k = Red -> col t = Black) ->
  noRR (plug k t) /\ bal (plug k t).
Proof.
  intros Hk Hb Hn Hc. destruct k as [|f k].
  - simpl. now split.
  - eapply plug_ok; try eassumption. discriminate.
Qed.

Lemma col_plug k : forall t n,
  ctxOk k n -> k <> [] -> col (plug k t) = Black.
Proof.
  induction k as [|f k IH]; intros t n Hk Hne; [congruence|].
  simpl in *. destruct Hk as (_ & _ & _ & Hf & Hk).
  destruct k as [|f' k].
  - simpl. destruct f as [x [|] v r|l x [|] v]; simpl in *; try reflexivity;
      destruct (Hf eq_refl) as (_ & _ & ?); congruence.
  - eapply IH; [exact Hk|discriminate].
Qed.

Lemma keys_plug_eq k : forall t t',
  keys t = keys t' -> keys (plug k t) = keys (plug k t').
Proof.
  induction k as [|f k IH]; intros t t' H; simpl; [exact H|].
  apply IH. destruct f; simpl; now rewrite H.
Qed.

Lemma keys_fill_eq f t t' : keys t = keys t' -> keys (fill f t) = keys (fill f t').
Proof. intros H. destruct f; simpl; now rewrite H. Qed.

Lemma plug_not_leaf k : forall l x c v r, plug k (Tn l x c v r) <> Leaf.
Proof.
  induction k as [|f k IH]; intros l x c v r; simpl; [discriminate|].
  destruct f; simpl; apply IH.
Qed.


Definition blacken (t : rbt) : rbt :=
  match t with
  | Leaf => Leaf
  | Tn l x _ v r => Tn l x Black v r
  end.

Lemma blacken_ok t : noRR t -> bal t -> rbOk (blacken t).
Proof.
  destruct t as [|l x c v r]; unfold rbOk; simpl; [tauto|].
  intros (_ & Hl & Hr) Hb. split; [reflexivity|]. split; [|exact Hb].
  split; [discriminate|]. now split.
Qed.

Lemma keys_blacken t : keys (blacken t) = keys t.
Proof. now destruct t. Qed.

(** ** The root, and nodes that are not the root *)

Lemma wp_colourOf_root s t Q :
  represents s t -> t <> Leaf ->
  (forall c, Q (colourZ c) s) ->
  wp (RedBlack.colourOf (rootOf t)) s Q.
Proof.
  intros H Hn HQ. destruct t as [|l x c v r]; [congruence|].
  eapply (wp_colourOf _ []); [exact H|]. apply HQ.
Qed.

Lemma wp_blacken_root s t Q :
  represents s t -> t <> Leaf ->
  (forall s', represents s' (blacken t) -> Q tt s') ->
  wp (RedBlack.setColour (rootOf t) 0) s Q.
Proof.
  intros H Hn HQ. destruct t as [|l x c v r]; [congruence|].
  eapply (wp_setColour _ [] _ _ _ _ _ H Black). exact HQ.
Qed.

(** A node below the root of the subtree in the hole is not the root. *)
Lemma below_root_ne s k t x :
  represents s (plug k t) -> x ∈ locs t -> Some x <> rootOf t ->
  Some x <> rootOf (plug k t).
Proof.
  intros (_ & _ & Hnd & _) Hx Hne. destruct k as [|f k]; [exact Hne|].
  destruct (rootOf_plug_cons k f t) as (y & -> & Hy).
  apply NoDup_locs_plug in Hnd as (_ & _ & Hd). intros [= ->].
  exact (Hd _ Hx Hy).
Qed.

Lemma hole_not_root s f k t x :
  represents s (plug k (fill f t)) -> x ∈ locs t ->
  Some x <> rootOf (plug k (fill f t)).
Proof.
  change (plug k (fill f t)) with (plug (f :: k) t).
  intros (_ & _ & Hnd & _) Hx.
  destruct (rootOf_plug_cons k f t) as (y & -> & Hy).
  apply NoDup_locs_plug in Hnd as (_ & _ & Hd). intros [= ->].
  exact (Hd _ Hx Hy).
Qed.

Lemma none_not_root k l x c v r : None <> rootOf (plug k (Tn l x c v r)).
Proof.
  pose proof (plug_not_leaf k l x c v r) as H.
  destruct (plug k (Tn l x c v r)); [congruence|discriminate].
Qed.

Lemma hole_ref_not_root s f k t :
  represents s (plug k (fill f t)) -> rootOf t <> rootOf (plug k (fill f t)).
Proof.
  intros H. destruct t as [|l x c v r].
  - destruct f; apply none_not_root.
  - apply (hole_not_root _ _ _ _ _ H). simpl. 
    rewrite elem_of_app, elem_of_cons. tauto.
Qed.

Lemma hole_left_not_root s k t p c v w :
  represents s (plug k (Tn t p c v w)) ->
  rootOf t <> rootOf (plug k (Tn t p c v w)).
Proof. apply (hole_ref_not_root s (FL p c v w)). Qed.

Lemma hole_right_not_root s k t p c v w :
  represents s (plug k (Tn w p c v t)) ->
  rootOf t <> rootOf (plug k (Tn w p c v t)).
Proof. apply (hole_ref_not_root s (FR w p c v)). Qed.

Lemma orb_decide_same (x : RedBlack.ref) :
  bool_decide (x = None) || bool_decide (x = x) = true.
Proof. rewrite (bool_decide_true (x = x)) by reflexivity. apply orb_true_r. Qed.

(** [isBlack] of the root of a subtree, null or not. *)
Definition isBlackT (t : rbt) : bool :=
  match col t with
  | Black => true
  | Red => false
  end.

Lemma isBlackT_black t : col t = Black -> isBlackT t = true.
Proof. unfold isBlackT. now intros ->. Qed.

Lemma wp_isBlack s k t Q :
  represents s (plug k t) -> Q (isBlackT t) s ->
  wp (RedBlack.isBlack (rootOf t)) s Q.
Proof.
  intros H HQ. destruct t as [|l x c v r]; [exact HQ|].
  cbn [rootOf RedBlack.isBlack]. apply wp_bind.
  eapply wp_colourOf; [exact H|]. now destruct c.
Qed.

Lemma col_cases t : col t = Black \/ exists l x v r, t = Tn l x Red v r.
Proof.
  destruct t as [|l x [|] v r]; [now left..|]. right. now exists l, x, v, r.
Qed.

(** ** Stepping through a program

    [H : represents s t] is the tree held by the current state [s]. *)

(** Brings the node at [x] into focus in [H]. *)
Ltac focus_in x k t :=
  lazymatch t with
  | Tn _ x _ _ _ => constr:(plug k t)
  | Tn ?l ?y ?c ?v ?r =>
      lazymatch l with
      | context [Tn _ x _ _ _] => focus_in x constr:(FL y c v r :: k) l
      | _ => focus_in x constr:(FR l y c v :: k) r
      end
  end.

Ltac focus x H :=
  lazymatch type of H with
  | represents ?s (plug ?k ?t) =>
      let T := focus_in x k t in change (represents s T) in H
  | represents ?s ?t =>
      let T := focus_in x constr:(@nil frame) t in
      change (represents s T) in H
  end.

(** Brings the subtree [u] into the hole. *)
Ltac focus_sub_in u k t :=
  lazymatch t with
  | u => constr:(plug k t)
  | Tn ?l ?y ?c ?v ?r =>
      lazymatch l with
      | context [u] => focus_sub_in u constr:(FL y c v r :: k) l
      | _ => focus_sub_in u constr:(FR l y c v :: k) r
      end
  end.

Ltac focus_sub u H :=
  lazymatch type of H with
  | represents ?s (plug ?k ?t) =>
      let T := focus_sub_in u k t in change (represents s T) in H
  | represents ?s ?t =>
      let T := focus_sub_in u constr:(@nil frame) t in
      change (represents s T) in H
  end.

Ltac unfocus H := cbn [plug fill] in H.

Ltac wnext s H :=
  let s' := fresh "s" in let H' := fresh "H" in
  intros s' H'; clear s H; rename s' into s, H' into H; unfocus H.

Ltac not_leaf := first [apply plug_not_leaf | discriminate].

(** Distinct locations of the tree [H] holds. *)
Ltac distinct H :=
  let Hn := fresh in
  pose proof (proj1 (proj2 (proj2 H))) as Hn; nd_solve Hn.

Ltac elem_solve :=
  simpl; repeat (rewrite elem_of_app || rewrite elem_of_cons); tauto.

(** Decides the pointer comparison at the head of the program. *)
Ltac wdecide H :=
  first
  [ rewrite orb_decide_same
  | lazymatch goal with
    | |- context [bool_decide (?a = ?b)] =>
        first
        [ rewrite (bool_decide_true (a = b)) by reflexivity
        | rewrite (bool_decide_false (a = b)) by discriminate
        | rewrite (bool_decide_false (a = b)) by distinct H
        | rewrite (bool_decide_false (a = b)) by apply none_not_root
        | rewrite (bool_decide_false (a = b))
            by (first [eapply hole_left_not_root | eapply hole_right_not_root];
                exact H)
        | rewrite (bool_decide_false (a = b))
            by (eapply below_root_ne; [exact H|elem_solve|distinct H]) ]
    end ];
  cbn [negb andb orb]; cbv iota.

(** Evaluates a test on colours at the head of the program. *)
Ltac wif :=
  lazymatch goal with
  | |- wp (if ?b then _ else _) _ _ =>
      lazymatch b with
      | context [bool_decide _] => fail
      | context [colourZ ?c] =>
          tryif is_var c then destruct c
          else (let b' := eval cbv in b in change b with b'; cbv iota)
      | _ => let b' := eval cbv in b in change b with b'; cbv iota
      end
  end.

(** One step of the program at the head of the goal. *)
Ltac wstep s H :=
  cbv beta;
  lazymatch goal with
  | |- wp (bind _ _) _ _ => apply wp_bind; wstep s H
  | |- wp (ret _) _ _ => apply wp_ret
  | |- wp (if _ then _ else _) _ _ => first [wif | wdecide H]
  | |- wp (RedBlack.valueOf (Some ?x)) _ _ =>
      focus x H; eapply wp_valueOf; [exact H|]; unfocus H
  | |- wp (RedBlack.leftOf (Some ?x)) _ _ =>
      focus x H; eapply wp_leftOf; [exact H|]; unfocus H
  | |- wp (RedBlack.rightOf (Some ?x)) _ _ =>
      focus x H; eapply wp_rightOf; [exact H|]; unfocus H
  | |- wp (RedBlack.parentOf (Some ?x)) _ _ =>
      focus x H; eapply wp_parentOf; [exact H|]; unfocus H
  | |- wp (RedBlack.colourOf (Some ?x)) _ _ =>
      focus x H; eapply wp_colourOf; [exact H|]; unfocus H
  | |- wp (RedBlack.colourOf (rootOf _)) _ _ =>
      eapply wp_colourOf_root; [exact H|not_leaf|];
      let c := fresh "c" in intros c; destruct c
  | |- wp (RedBlack.setColour (Some ?x) 0) _ _ =>
      focus x H; eapply (wp_setColour _ _ _ _ _ _ _ H Black); wnext s H
  | |- wp (RedBlack.setColour (Some ?x) 1) _ _ =>
      focus x H; eapply (wp_setColour _ _ _ _ _ _ _ H Red); wnext s H
  | |- wp (RedBlack.setColour (Some ?x) (colourZ ?c)) _ _ =>
      focus x H; eapply (wp_setColour _ _ _ _ _ _ _ H c); wnext s H
  | |- wp (RedBlack.setColour (rootOf _) 0) _ _ =>
      eapply wp_blacken_root; [exact H|not_leaf|];
      let s' := fresh "s" in let H' := fresh "H" in
      intros s' H'; clear s H; rename s' into s, H' into H
  | |- wp (RedBlack.setValue (Some ?x) _) _ _ =>
      focus x H; eapply (wp_setValue _ _ _ _ _ _ _ H); wnext s H
  | |- wp (RedBlack.leftRotate (Some ?x)) _ _ =>
      focus x H; eapply wp_leftRotate; [exact H|]; wnext s H
  | |- wp (RedBlack.rightRotate (Some ?x)) _ _ =>
      focus x H; eapply wp_rightRotate; [exact H|]; wnext s H
  | |- wp (RedBlack.push _ _) _ _ =>
      eapply wp_push; [exact H|]; wnext s H
  | |- wp (RedBlack.liftG _) _ _ =>
      eapply wp_liftG_modify; [exact H|]; wnext s H
  | |- wp RedBlack.getRoot _ _ =>
      eapply wp_getRoot; [exact H|]
  | |- wp (RedBlack.isRed _) _ _ => cbn [RedBlack.isRed]; wstep s H
  | |- wp (RedBlack.isBlack (rootOf ?u)) _ _ =>
      tryif is_var u then focus_sub u H else idtac;
      eapply wp_isBlack; [exact H|]; unfocus H;
      rewrite ?isBlackT_black by assumption
  | |- wp (RedBlack.isBlack _) _ _ => cbn [RedBlack.isBlack]; wstep s H
  end;
  cbv beta; cbn [rootOf ctxTop frameLoc fst snd colourZ].

Ltac wgo s H := repeat wstep s H.

(** ** Closing a case *)

Ltac ctx_solve :=
  try exact I;
  match goal with
  | Hk : ctxOk ?k ?m |- ctxOk ?k ?n =>
      replace n with m by (simpl in *; lia); exact Hk
  end.

(** The invariants of a tree from those of its parts. *)
Ltac inv_solve :=
  first
  [ apply plug_inv;
    [ ctx_solve
    | simpl in *; intuition lia
    | simpl in *; intuition congruence
    | simpl in *; try reflexivity; intuition congruence ]
  | simpl in *; intuition (first [lia | congruence]) ].

Ltac keys_solve :=
  cbn [plug fill]; try apply keys_plug_eq; try apply keys_fill_eq; simpl;
  repeat (rewrite <- app_assoc; simpl); reflexivity.

(** Gives the node at the location the goal asks for. *)
Ltac give_focus H :=
  lazymatch goal with
  | |- represents _ (plug _ (Tn _ ?c _ _ _)) => focus c H; exact H
  end.

(** ** [RedBlack.fixInsert] *)

Lemma and3_intro (A B C : Prop) : A /\ B -> C -> A /\ B /\ C.
Proof. tauto. Qed.

(** The state in which the loop of [fixInsert] is left. *)
Definition fixLoopPost (ks : list Z) (ch : RedBlack.ref) (s : RedBlack.State)
  : Prop :=
  exists k l x c v r,
    ch = Some x
    /\ represents s (plug k (Tn l x c v r))
    /\ noRR (plug k (Tn l x c v r))
    /\ bal (plug k (Tn l x c v r))
    /\ keys (plug k (Tn l x c v r)) = ks.

Ltac post_here H :=
  eexists _, _, _, _, _, _; split; [reflexivity|];
  split; [give_focus H|]; unfocus H;
  apply and3_intro; [|keys_solve]; cbn [plug fill].

Lemma fixInsertLoop_spec fuel : forall k l x v r s,
  (length k <= fuel)%nat -> k <> [] ->
  represents s (plug k (Tn l x Red v r)) ->
  ctxOk k (bh l) -> bal (Tn l x Red v r) -> noRR (Tn l x Red v r) ->
  wp (RedBlack.fixInsertLoop fuel (Some x)) s
     (fixLoopPost (keys (plug k (Tn l x Red v r)))).
Proof.
  induction fuel as [|fuel IH]; intros k l x v r s Hlen Hne H Hk Hb Hn.
  { destruct k; [congruence|]. simpl in Hlen. lia. }
  cbn [RedBlack.fixInsertLoop].
  destruct k as [|[p [|] pv ps|ps p [|] pv] k]; [congruence|..]; clear Hne;
    unfocus H.
  1,3: wgo s H; post_here H;
    simpl in Hk; destruct Hk as (Hps & Hbps & Hnps & Hf & Hk); inv_solve.
  all: simpl in Hk; destruct Hk as (Hps & Hbps & Hnps & Hf & Hk);
    destruct (Hf eq_refl) as (Hcps & Hck & Hkne); clear Hf;
    destruct k as [|[g gc gv u|u g gc gv] k]; [congruence|..]; clear Hkne;
    simpl in Hck; subst gc; unfocus H;
    destruct u as [|ul ux [|] uv ur].
  all: unfold RedBlack.fixInsertSide; wgo s H;
    simpl in Hk; destruct Hk as (Hu & Hbu & Hnu & Hf & Hk).
  all: lazymatch goal with
    | |- wp (if bool_decide
                  (Some ?c = rootOf (plug _ (Tn _ ?c Red _ _))) then _ else _)
            _ _ =>
        destruct k as [|f k]; cbn [plug] in H |- *;
        [ rewrite bool_decide_true by reflexivity; wgo s H; post_here H;
          inv_solve
        | rewrite bool_decide_false
            by (eapply hole_not_root; [exact H|elem_solve]);
          eapply wp_mono;
          [ eapply (IH (f :: k));
            [ simpl in Hlen |- *; lia | discriminate | exact H | ctx_solve
            | simpl in *; intuition lia | simpl in *; intuition congruence ]
          | intros ch s' (k1 & l1 & x1 & c1 & v1 & r1 & -> & H1 & Hn1 & Hb1
                          & Hk1);
            eexists _, _, _, _, _, _; split; [reflexivity|];
            split; [exact H1|]; split; [exact Hn1|]; split; [exact Hb1|];
            rewrite Hk1; keys_solve ] ]
    | _ =>
        destruct fuel as [|fuel]; [simpl in Hlen; lia|];
        cbn [RedBlack.fixInsertLoop]; wgo s H; post_here H; inv_solve
    end.
Qed.


Definition insertPost (ks : list Z) (_ : unit) (s : RedBlack.State) : Prop :=
  exists t, represents s t /\ rbOk t /\ keys t = ks.

Lemma blacken_post s t ks :
  represents s (blacken t) -> noRR t -> bal t -> keys t = ks ->
  insertPost ks tt s.
Proof.
  intros H Hn Hb Hk. exists (blacken t). split; [exact H|].
  split; [now apply blacken_ok|]. now rewrite keys_blacken.
Qed.

Lemma fixInsert_spec fuel k xn v s :
  (length k <= fuel)%nat -> k <> [] ->
  represents s (plug k (Tn Leaf xn Red v Leaf)) ->
  rbOk (plug k Leaf) ->
  wp (RedBlack.fixInsert fuel (Some xn)) s
     (insertPost (keys (plug k (Tn Leaf xn Red v Leaf)))).
Proof.
  intros Hlen Hne H Hok. apply ok_plug in Hok as (Hk & _ & _ & _ & _).
  change (bh Leaf) with (bh (Tn Leaf xn Red v Leaf)) in Hk.
  unfold RedBlack.fixInsert.
  destruct k as [|[p pc pv ps|ps p pc pv] [|f k]]; [congruence|..]; clear Hne.
  1,3: unfocus H; wgo s H; (eexists; split; [exact H|]; split; [|reflexivity]);
    match goal with
    | |- rbOk (Tn (Tn _ _ _ _ _) ?p ?pc ?pv ?ps) =>
        change (rbOk (plug [FL p pc pv ps] (Tn Leaf xn Red v Leaf)))
    | |- rbOk (Tn ?ps ?p ?pc ?pv (Tn _ _ _ _ _)) =>
        change (rbOk (plug [FR ps p pc pv] (Tn Leaf xn Red v Leaf)))
    end;
    (apply plug_ok;
     [ exact Hk | simpl; tauto | simpl; intuition congruence
     | intros Hc; simpl in Hk, Hc; destruct Hk as (_ & _ & _ & Hf & _);
       destruct (Hf Hc) as (_ & _ & ?); congruence
     | discriminate ]).
  all: destruct f as [g gc gv u|u g gc gv]; unfocus H; wgo s H.
  all: apply wp_bind; eapply wp_mono;
    [ eapply fixInsertLoop_spec;
      [ exact Hlen | discriminate | exact H | exact Hk | simpl; tauto
      | simpl; intuition congruence ] |].
  all: cbv beta; clear s H;
    intros ch s (k1 & l1 & x1 & c1 & v1 & r1 & -> & H & Hn1 & Hb1 & Hk1).
  all: destruct k1 as [|[q qc qv qs|qs q qc qv] k1]; unfocus H.
  all: wgo s H.
  all: lazymatch type of Hn1 with
       | noRR ?t => eapply (blacken_post _ t)
       end; [exact H|exact Hn1|exact Hb1|exact Hk1].
Qed.

(** ** Keys in order *)

Definition sorted (l : list Z) : Prop := StronglySorted Z.le l.

(** [v] goes after the keys that are not greater. *)
Fixpoint insKey (v : Z) (l : list Z) : list Z :=
  match l with
  | [] => [v]
  | a :: l' => if v <? a then v :: a :: l' else a :: insKey v l'
  end.

Lemma insKey_perm v l : insKey v l ≡ₚ v :: l.
Proof.
  induction l as [|a l IH]; simpl; [reflexivity|].
  destruct (v <? a); [reflexivity|]. rewrite IH. apply perm_swap.
Qed.

Lemma insKey_sorted v l : sorted l -> sorted (insKey v l).
Proof.
  unfold sorted. induction l as [|a l IH]; simpl; intros H.
  - repeat constructor.
  - apply StronglySorted_inv in H as [Hl Ha].
    destruct (v <? a) eqn:E.
    + constructor; [constructor; assumption|]. constructor; [lia|].
      eapply Forall_impl; [exact Ha|]. simpl. lia.
    + constructor; [now apply IH|]. rewrite insKey_perm.
      constructor; [lia|exact Ha].
Qed.

Lemma insKey_app_lt v l a r :
  v < a -> insKey v (l ++ a :: r) = insKey v l ++ a :: r.
Proof.
  intros Hv. induction l as [|b l IH]; simpl.
  - destruct (v <? a) eqn:E; [reflexivity|lia].
  - destruct (v <? b); [reflexivity|]. now rewrite IH.
Qed.

Lemma insKey_app_ge v l r :
  Forall (fun a => a <= v) l -> insKey v (l ++ r) = l ++ insKey v r.
Proof.
  induction 1 as [|b l Hb Hl IH]; simpl; [reflexivity|].
  destruct (v <? b) eqn:E; [lia|]. now rewrite IH.
Qed.

Lemma sorted_app l1 l2 :
  sorted (l1 ++ l2) <->
  sorted l1 /\ sorted l2 /\ Forall (fun a => Forall (Z.le a) l2) l1.
Proof.
  unfold sorted. induction l1 as [|a l1 IH]; simpl.
  - split; [intros H; repeat split; [constructor|exact H|constructor]|tauto].
  - split.
    + intros H. apply StronglySorted_inv in H as [H Ha].
      apply IH in H as (H1 & H2 & H3). apply Forall_app in Ha as [Ha1 Ha2].
      repeat split; [now constructor|exact H2|now constructor].
    + intros (H1 & H2 & H3). apply StronglySorted_inv in H1 as [H1 Ha].
      apply Forall_cons in H3 as [Ha2 H3]. constructor.
      * apply IH. tauto.
      * apply Forall_app. tauto.
Qed.

Lemma sorted_cons a l : sorted (a :: l) <-> Forall (Z.le a) l /\ sorted l.
Proof.
  unfold sorted. split.
  - intros H. apply StronglySorted_inv in H. tauto.
  - intros [H1 H2]. now constructor.
Qed.

(** The keys left and right of the hole. *)
Fixpoint keysL (k : list frame) : list Z :=
  match k with
  | [] => []
  | FL _ _ _ _ :: k' => keysL k'
  | FR l _ _ v :: k' => keysL k' ++ keys l ++ [v]
  end.

Fixpoint keysR (k : list frame) : list Z :=
  match k with
  | [] => []
  | FL _ _ v r :: k' => v :: keys r ++ keysR k'
  | FR _ _ _ _ :: k' => keysR k'
  end.

Lemma keys_plug k : forall t, keys (plug k t) = keysL k ++ keys t ++ keysR k.
Proof.
  induction k as [|[x c v r|l x c v] k IH]; intros t; simpl.
  - now rewrite app_nil_r.
  - rewrite IH. simpl. now rewrite <- !app_assoc.
  - rewrite IH. simpl. now rewrite <- !app_assoc.
Qed.

(** ** The descent of [insertRecursive] *)

Fixpoint height (t : rbt) : nat :=
  match t with
  | Leaf => O
  | Tn l _ _ _ r => S (Nat.max (height l) (height r))
  end.

(** The path from the leaf at which [v] is attached up to the root. *)
Fixpoint descend (v : Z) (t : rbt) (k : list frame) : list frame :=
  match t with
  | Leaf => k
  | Tn l x c nv r =>
      if v <? nv then descend v l (FL x c nv r :: k)
      else descend v r (FR l x c nv :: k)
  end.

Lemma insertRecursive_spec v : forall t k s fuel,
  t <> Leaf -> (height t <= fuel)%nat ->
  represents s (plug k t) ->
  wp (RedBlack.insertRecursive fuel (rootOf t) v) s
     (fun r s' =>
        exists n, r = Some n
          /\ represents s' (plug (descend v t k) (Tn Leaf n Red v Leaf))).
Proof.
  induction t as [|l IHl x c nv r IHr]; intros k s fuel Hne Hfuel H;
    [congruence|].
  destruct fuel as [|fuel]; [simpl in Hfuel; lia|].
  cbn [RedBlack.insertRecursive rootOf descend]. wstep s H.
  destruct (v <? nv) eqn:E.
  - wstep s H. wstep s H. destruct l as [|ll lx lc lv lr].
    + cbn [rootOf]. eapply wp_attach_left; [exact H|].
      intros s' _ H'. eexists. split; [reflexivity|]. exact H'.
    + eapply (IHl (FL x c nv r :: k)); [discriminate| |exact H].
      simpl in Hfuel |- *. lia.
  - wstep s H. wstep s H. destruct r as [|rl rx rc rv rr].
    + cbn [rootOf]. eapply wp_attach_right; [exact H|].
      intros s' _ H'. eexists. split; [reflexivity|]. exact H'.
    + eapply (IHr (FR l x c nv :: k)); [discriminate| |exact H].
      simpl in Hfuel |- *. lia.
Qed.


Lemma plug_descend v : forall t k, plug (descend v t k) Leaf = plug k t.
Proof.
  induction t as [|l IHl x c nv r IHr]; intros k; simpl; [reflexivity|].
  destruct (v <? nv); [apply IHl|apply IHr].
Qed.

Lemma length_descend v : forall t k,
  (length k <= length (descend v t k) <= height t + length k)%nat
  /\ (t <> Leaf -> descend v t k <> k).
Proof.
  induction t as [|l IHl x c nv r IHr]; intros k; simpl.
  - split; [lia|congruence].
  - destruct (v <? nv).
    + destruct (IHl (FL x c nv r :: k)) as [H _]. simpl in H.
      split; [lia|]. intros _ E. rewrite E in H. lia.
    + destruct (IHr (FR l x c nv :: k)) as [H _]. simpl in H.
      split; [lia|]. intros _ E. rewrite E in H. lia.
Qed.

Lemma keys_descend v n c : forall t k,
  sorted (keys t) ->
  keys (plug (descend v t k) (Tn Leaf n c v Leaf))
  = keysL k ++ insKey v (keys t) ++ keysR k.
Proof.
  induction t as [|l IHl x cx nv r IHr]; intros k Hs; simpl.
  - now rewrite keys_plug.
  - apply sorted_app in Hs as (Hl & Hr & Hlr).
    apply sorted_cons in Hr as [Hnr Hr].
    destruct (v <? nv) eqn:E.
    + rewrite IHl by assumption. simpl.
      rewrite insKey_app_lt by lia. now rewrite <- !app_assoc.
    + rewrite IHr by assumption. simpl.
      rewrite insKey_app_ge.
      * simpl. rewrite E. now rewrite <- !app_assoc.
      * eapply Forall_impl; [exact Hlr|]. simpl. intros a Ha.
        apply Forall_cons in Ha as [Ha _]. lia.
Qed.

Lemma height_size t : (height t <= length (locs t))%nat.
Proof.
  induction t as [|l IHl x c v r IHr]; simpl; [lia|].
  rewrite length_app. simpl. lia.
Qed.

Lemma size_bound s t : represents s t -> (length (locs t) <= RedBlack.nextLoc s)%nat.
Proof.
  intros (_ & _ & Hnd & Hlt).
  assert (Hsub : locs t ⊆+ seq 0 (RedBlack.nextLoc s)).
  { apply NoDup_submseteq; [exact Hnd|]. intros x Hx.
    rewrite Forall_forall in Hlt. apply elem_of_seq. specialize (Hlt _ Hx).
    lia. }
  apply submseteq_length in Hsub. now rewrite length_seq in Hsub.
Qed.


(** ** [RedBlack.prototype.insert] *)

Lemma represents_single h n v g :
  represents
    (RedBlack.mkState (<[n := RedBlack.mkRbNode v None None None 0]> h)
                      (Some n) (S n) g)
    (Tn Leaf n Black v Leaf).
Proof.
  split; [|split; [|split]]; simpl.
  - split; [apply lookup_insert_eq|tauto].
  - reflexivity.
  - apply NoDup_singleton.
  - constructor; [lia|constructor].
Qed.

Definition rbInv (t : rbt) : Prop := rbOk t /\ sorted (keys t).

Lemma rb_insert_spec s t v :
  represents s t -> rbInv t ->
  wp (RedBlack.insert v) s
     (fun _ s' => exists t',
        represents s' t' /\ rbInv t' /\ keys t' = insKey v (keys t)).
Proof.
  intros H [Hok Hs]. unfold RedBlack.insert.
  apply wp_bind.
  eapply (wp_liftG_modify _ _ _ _ H). clear s H. intros s H.
  wstep s H. apply wp_bind.
  assert (Hpost : forall s',
    (exists t', represents s' t' /\ rbOk t' /\ keys t' = insKey v (keys t)) ->
    wp (RedBlack.liftG
          (pushActionEnd "Insertion complete, tree is balanced.") >>
        RedBlack.liftG reverseActions >>
        RedBlack.liftG (pushActionNull 5)) s'
       (fun _ s'' => exists t',
          represents s'' t' /\ rbInv t' /\ keys t' = insKey v (keys t))).
  { clear s H. intros s (t' & H & Hok' & Hk).
    apply wp_bind. eapply (wp_liftG_modify _ _ _ _ H). clear s H. intros s H.
    apply wp_bind. eapply (wp_liftG_modify _ _ _ _ H). clear s H. intros s H.
    eapply (wp_liftG_modify _ _ _ _ H). clear s H. intros s H.
    exists t'. split; [exact H|]. split; [|exact Hk]. split; [exact Hok'|].
    rewrite Hk. now apply insKey_sorted. }
  destruct t as [|l x c nv r]; cbn [rootOf].
  - (* the first node *)
    eapply wp_run.
    + unfold RedBlack.newRbNode, RedBlack.setRoot, RedBlack.setColour,
        RedBlack.setNode, RedBlack.getNode, RedBlack.liftG, setNewTreeAction,
        modify, bind. simpl. rewrite lookup_insert_eq. simpl. reflexivity.
    + apply Hpost. exists (Tn Leaf (RedBlack.nextLoc s) Black v Leaf).
      split; [|split; [|reflexivity]].
      * rewrite insert_insert_eq. apply represents_single.
      * unfold rbOk. simpl. tauto.
  - eapply wp_bind, wp_run; [reflexivity|]. cbv beta.
    apply wp_bind. eapply wp_mono.
    { eapply (insertRecursive_spec v (Tn l x c nv r) []);
        [discriminate| |exact H].
      pose proof (height_size (Tn l x c nv r)).
      pose proof (size_bound _ _ H). lia. }
    cbv beta. intros ? s' (n & -> & H').
    pose proof (length_descend v (Tn l x c nv r) []) as [Hlen Hne].
    pose proof (height_size (Tn l x c nv r)) as Hh.
    pose proof (size_bound _ _ H) as Hsz.
    pose proof (plug_descend v (Tn l x c nv r) []) as Hplug.
    pose proof (keys_descend v n Red (Tn l x c nv r) [] Hs) as Hkeys.
    simpl keysL in Hkeys. simpl keysR in Hkeys. rewrite app_nil_r in Hkeys.
    simpl app in Hkeys.
    revert H' Hlen Hne Hplug Hkeys.
    generalize (descend v (Tn l x c nv r) []). intros K H' Hlen Hne Hplug Hkeys.
    clear H. rename H' into H. 
    wstep s' H. wstep s' H.
    eapply wp_mono.
    { eapply (fixInsert_spec _ K); [|apply Hne; discriminate|exact H|].
      - simpl length in Hlen. lia.
      - rewrite Hplug. exact Hok. }
    cbv beta. intros [] s'' (t' & H'' & Hok' & Hk').
    apply Hpost. exists t'. split; [exact H''|]. split; [exact Hok'|].
    now rewrite Hk', Hkeys.
Qed.

(** ** [RedBlack.deleteFix] *)

(** The state in which the loop of [deleteFix] is left: blackening the
    node [n] makes the tree a red-black tree. *)
Definition fixDelPost (ks : list Z) (n : RedBlack.ref) (s : RedBlack.State)
  : Prop :=
  exists k t,
    n = rootOf t
    /\ represents s (plug k t)
    /\ rbOk (plug k (blacken t))
    /\ keys (plug k t) = ks.

Lemma rbOk_blacken t : rbOk t -> rbOk (blacken t).
Proof. intros (_ & Hn & Hb). now apply blacken_ok. Qed.

Lemma blacken_ok' t : noRR (blacken t) -> bal t -> rbOk (blacken t).
Proof.
  destruct t as [|l x c v r]; unfold rbOk; simpl; [tauto|].
  intros Hn Hb. split; [reflexivity|]. now split.
Qed.

Lemma noRR_blacken t : col t = Black -> noRR (blacken t) -> noRR t.
Proof. destruct t as [|l x c v r]; simpl; [tauto|]. intros ->. tauto. Qed.

Lemma bh_pos_node t n : bh t = S n -> exists l x c v r, t = Tn l x c v r.
Proof. destruct t as [|l x c v r]; [discriminate|]. eauto 6. Qed.

(** The invariants of a whole tree from those of its parts. *)
Ltac ok_solve :=
  cbn [plug fill blacken];
  try apply rbOk_blacken;
  first
  [ apply plug_ok;
    [ ctx_solve
    | simpl in *; intuition lia
    | simpl in *; intuition congruence
    | simpl in *; intuition congruence
    | simpl in *; intuition congruence ]
  | unfold rbOk; simpl in *; intuition (first [lia | congruence]) ].

Ltac del_post H :=
  lazymatch goal with
  | |- fixDelPost _ (Some ?p) _ =>
      focus p H;
      lazymatch type of H with
      | represents _ (plug ?k' ?t') => exists k', t'
      end
  | |- fixDelPost _ (rootOf ?t) _ => exists [], t
  end;
  split; [reflexivity|]; split; [exact H|]; split; [|keys_solve];
  unfocus H; ok_solve.

Ltac del_finish H Hlen Hfin :=
  lazymatch goal with
  | |- wp (RedBlack.deleteFixLoop _ (ctxTop _) (Some ?p)) _ _ =>
      apply Hfin; left; focus p H;
      lazymatch type of H with
      | represents _ (plug ?k' ?t') => exists k', t'
      end;
      split; [reflexivity|]; split; [reflexivity|];
      split; [simpl in Hlen |- *; lia|]; split; [exact H|]; unfocus H;
      split; [ctx_solve|]; split; [simpl in *; intuition lia|];
      split; [simpl in *; intuition congruence|keys_solve]
  | |- wp (RedBlack.deleteFixLoop _ _ (rootOf ?t)) _ _ =>
      apply Hfin; right; split; [simpl in Hlen; lia|]; exists [], t;
      split; [reflexivity|]; split; [exact H|];
      split; [left; reflexivity|]; split; [ok_solve|keys_solve]
  | |- wp (RedBlack.deleteFixLoop _ _ (Some ?p)) _ _ =>
      apply Hfin; right; split; [simpl in Hlen; lia|]; focus p H;
      lazymatch type of H with
      | represents _ (plug ?k' ?t') => exists k', t'
      end;
      split; [reflexivity|]; split; [exact H|];
      split; [right; reflexivity|]; unfocus H; split; [ok_solve|keys_solve]
  end.

Lemma deleteFixLoop_spec fuel : forall k t s,
  (length k < fuel)%nat ->
  represents s (plug k t) ->
  ctxOk k (S (bh t)) -> bal t -> noRR (blacken t) ->
  wp (RedBlack.deleteFixLoop fuel (ctxTop k) (rootOf t)) s
     (fixDelPost (keys (plug k t))).
Proof.
  induction fuel as [|fuel IH]; intros k t s Hlen H Hk Hb Hn; [lia|].
  cbn [RedBlack.deleteFixLoop].
  destruct k as [|f k].
  { (* the node is the root *)
    cbn [plug] in H |- *. wgo s H.
    exists [], t. split; [reflexivity|]. split; [exact H|].
    split; [|reflexivity]. now apply blacken_ok'. }
  assert (Hfin : forall s' p n ks,
    (exists k' t', p = ctxTop k' /\ n = rootOf t'
       /\ (length k' < fuel)%nat /\ represents s' (plug k' t')
       /\ ctxOk k' (S (bh t')) /\ bal t' /\ noRR (blacken t')
       /\ keys (plug k' t') = ks)
    \/ ((1 <= fuel)%nat /\ exists k' t', n = rootOf t'
          /\ represents s' (plug k' t')
          /\ (k' = [] \/ col t' = Red)
          /\ rbOk (plug k' (blacken t')) /\ keys (plug k' t') = ks) ->
    wp (RedBlack.deleteFixLoop fuel p n) s' (fixDelPost ks)).
  { clear -IH. intros s p n ks
      [(k & t & -> & -> & Hlen & H & Hk & Hb & Hn & <-)
      |(Hfuel & k & t & -> & H & Hx & Hok & <-)].
    - now apply IH.
    - destruct fuel as [|fuel]; [lia|]. cbn [RedBlack.deleteFixLoop].
      destruct Hx as [->|Hred].
      + cbn [plug] in H |- *. wgo s H. exists [], t.
        split; [reflexivity|]. split; [exact H|]. now split.
      + destruct t as [|l x [|] v r]; try discriminate.
        destruct k as [|f k].
        * cbn [plug] in H |- *. wgo s H.
          exists [], (Tn l x Red v r).
          split; [reflexivity|]. split; [exact H|]. now split.
        * destruct f as [fx fc fv fr|fl fx fc fv]; unfocus H; wgo s H;
            [ exists (FL fx fc fv fr :: k), (Tn l x Red v r)
            | exists (FR fl fx fc fv :: k), (Tn l x Red v r) ];
            (split; [reflexivity|]; split; [exact H|]; now split). }
  simpl in Hk. destruct Hk as (Hw & Hbw & Hnw & Hf & Hk).
  destruct f as [p pc pv w|w p pc pv]; simpl in Hw, Hbw, Hnw, Hf, Hk;
    (destruct pc;
     [clear Hf|destruct (Hf eq_refl) as (Hcw & Hck & Hkne); clear Hf]);
    unfocus H.
  all: destruct (col_cases t) as [Hc|(tl & tx & tv & tr & ->)];
    [|wgo s H; del_post H].
  all: apply noRR_blacken in Hn; [|exact Hc].
  all: destruct (bh_pos_node _ _ Hw) as (wl & wx & wc & wv & wr & ->).
  all: destruct wc; [|try discriminate].
  all: clear IH.
  1,3,4,6: destruct (col_cases wl) as [Hcl|(nl & nx & nv & nr & ->)];
      destruct (col_cases wr) as [Hcr|(fl & fx & fv & fr & ->)];
      unfold RedBlack.deleteFixSide; wgo s H; del_finish H Hlen Hfin.
  all: simpl in Hnw, Hw, Hbw; destruct Hnw as (Hcc & Hnwl & Hnwr);
    destruct (Hcc eq_refl) as [Hcwl Hcwr]; clear Hcc;
    destruct Hbw as (Hww & Hbwl & Hbwr).
  - destruct (bh_pos_node _ _ Hw) as (a & ax & ac & av & b & ->).
    simpl in Hcwl. subst ac.
    destruct (col_cases a) as [Hca|(nl & nx & nv & nr & ->)];
      destruct (col_cases b) as [Hcb|(fl & fx & fv & fr & ->)];
      unfold RedBlack.deleteFixSide; wgo s H; del_finish H Hlen Hfin.
  - rewrite Hww in Hw.
    destruct (bh_pos_node _ _ Hw) as (a & ax & ac & av & b & ->).
    simpl in Hcwr. subst ac.
    destruct (col_cases a) as [Hca|(fl & fx & fv & fr & ->)];
      destruct (col_cases b) as [Hcb|(nl & nx & nv & nr & ->)];
      unfold RedBlack.deleteFixSide; wgo s H; del_finish H Hlen Hfin.
Qed.

Lemma col_plug_cons k : forall f t t',
  col (plug (f :: k) t) = col (plug (f :: k) t').
Proof.
  induction k as [|f' k IH]; intros f t t'.
  - now destruct f.
  - apply (IH f').
Qed.

Lemma blacken_black t : col t = Black -> blacken t = t.
Proof. destruct t as [|l x c v r]; simpl; [reflexivity|]. now intros ->. Qed.

Lemma deleteFix_spec fuel k t s :
  (length k < fuel)%nat ->
  represents s (plug k t) ->
  ctxOk k (S (bh t)) -> bal t -> noRR (blacken t) ->
  wp (RedBlack.deleteFix fuel (ctxTop k) (rootOf t)) s
     (insertPost (keys (plug k t))).
Proof.
  intros Hlen H Hk Hb Hn. unfold RedBlack.deleteFix.
  apply wp_bind. eapply wp_mono; [now apply deleteFixLoop_spec|].
  cbv beta. clear s Hlen H Hk Hb Hn.
  intros n s (k' & t' & -> & H & Hok & Hkeys). rewrite <- Hkeys.
  clear k t Hkeys. rename k' into k, t' into t.
  wstep s H. apply wp_bind. eapply (wp_isBlack _ []); [exact H|].
  destruct (isBlackT (plug k t)) eqn:E; cbn [negb]; cbv iota.
  - wstep s H. destruct (col_cases t) as [Hc|(l & x & v & r & ->)].
    + rewrite isBlackT_black by assumption. wgo s H.
      exists (plug k t). split; [exact H|]. split; [|reflexivity].
      now rewrite blacken_black in Hok.
    + wgo s H. unfold insertPost. eexists. split; [exact H|].
      split; [exact Hok|]. keys_solve.
  - wstep s H.
    eapply wp_blacken_root;
      [exact H|intros E'; rewrite E' in E; discriminate|].
    clear s H. intros s H.
    exists (blacken (plug k t)). split; [exact H|].
    split; [|apply keys_blacken].
    destruct k as [|f k].
    + simpl in *. apply rbOk_blacken in Hok.
      destruct t; simpl in *; exact Hok.
    + unfold isBlackT in E. rewrite (col_plug_cons k f t (blacken t)) in E.
      destruct Hok as (Hc & _). now rewrite Hc in E.
Qed.

(** ** Taking a node out of the tree *)

(** The primitive at the head of the program, run on a store that is
    known location by location. *)
Ltac prim_run Hnd :=
  first
  [ unfold RedBlack.valueOf, RedBlack.leftOf, RedBlack.rightOf,
      RedBlack.parentOf, RedBlack.colourOf;
    erewrite bind_run by (apply getNode_run; hlookup Hnd); reflexivity
  | unfold RedBlack.setValue, RedBlack.setLeft, RedBlack.setRight,
      RedBlack.setParent, RedBlack.setColour;
    apply setNode_run; hlookup Hnd
  | reflexivity ].

Ltac lstep Hnd :=
  cbv beta;
  lazymatch goal with
  | |- wp (bind _ _) _ _ => apply wp_bind; lstep Hnd
  | |- wp (ret _) _ _ => apply wp_ret
  | |- wp (if bool_decide _ then _ else _) _ _ =>
      first [ rewrite bool_decide_true by reflexivity
            | rewrite bool_decide_false
                by (first [discriminate | nd_solve Hnd]) ];
      cbv iota
  | |- wp _ _ _ => eapply wp_run; [prim_run Hnd|]
  end;
  cbv beta;
  cbn [RedBlack.value RedBlack.left RedBlack.right RedBlack.parent
       RedBlack.colour RedBlack.withHeap RedBlack.withRoot RedBlack.heap
       RedBlack.root RedBlack.nextLoc RedBlack.glob].

Lemma represents_shrink s s' t t' x :
  represents s t ->
  locs t ≡ₚ x :: locs t' ->
  RedBlack.nextLoc s' = RedBlack.nextLoc s ->
  RedBlack.root s' = rootOf t' ->
  rep (RedBlack.heap s') None t' ->
  represents s' t'.
Proof.
  intros (_ & _ & Hnd & Hlt) Hp Hn Hroot Hrep. rewrite Hp in Hnd, Hlt.
  apply NoDup_cons in Hnd as [_ Hnd]. apply Forall_cons in Hlt as [_ Hlt].
  split; [exact Hrep|]. split; [exact Hroot|]. split; [exact Hnd|].
  eapply Forall_impl; [exact Hlt|]. simpl. lia.
Qed.

Lemma locs_splice_l k u x c v :
  locs (plug k (Tn u x c v Leaf)) ≡ₚ x :: locs (plug k u).
Proof.
  rewrite !locs_plug. simpl. rewrite <- app_assoc. simpl.
  symmetry. apply Permutation_middle.
Qed.

Lemma locs_splice_r k u x c v :
  locs (plug k (Tn Leaf x c v u)) ≡ₚ x :: locs (plug k u).
Proof. rewrite !locs_plug. reflexivity. Qed.

(** The links around [x] are redirected to its only subtree [u]; [x]
    itself is left as it was. *)
Definition spliceProg (x : nat) (p successor : RedBlack.ref) (b : bool)
  (rest : Z -> RedBlack.R unit) : RedBlack.R unit :=
  (match p with
   | None => RedBlack.setRoot successor
   | Some _ =>
       let* pl := RedBlack.leftOf p in
       if bool_decide (Some x = pl) then RedBlack.setLeft p successor
       else RedBlack.setRight p successor
   end) >>
  (match successor with
   | None => ret tt
   | Some _ => RedBlack.setParent successor p
   end) >>
  let* copy := RedBlack.getTreeCopyGlobal in
  RedBlack.push 5 [ABool b; copy] >>
  let* nc := RedBlack.colourOf (Some x) in
  rest nc.

Lemma wp_splice s k l x c v r u b rest Q :
  represents s (plug k (Tn l x c v r)) ->
  (l = u /\ r = Leaf) \/ (l = Leaf /\ r = u) ->
  (forall s', represents s' (plug k u) -> wp (rest (colourZ c)) s' Q) ->
  wp (spliceProg x (ctxTop k) (rootOf u) b rest) s Q.
Proof.
  intros H Hside HQ. pose proof H as (Hrep & Hroot & Hnd & Hlt).
  apply rep_plug in Hrep as [Hrep Hk]. unfold spliceProg.
  assert (Hperm : locs (plug k (Tn l x c v r)) ≡ₚ x :: locs (plug k u)).
  { destruct Hside as [[-> ->]|[-> ->]];
      [apply locs_splice_l|apply locs_splice_r]. }
  destruct u as [|ul ux uc uv ur];
    destruct k as [|[p pc pv ps|ps p pc pv] k];
    destruct Hside as [[-> ->]|[-> ->]];
    simpl in Hrep, Hk; destruct_and?; nd_flat Hnd;
    cbn [ctxTop rootOf frameLoc].
  all: repeat lstep Hnd.
  all: apply HQ; eapply represents_shrink;
    [ exact H | exact Hperm | reflexivity
    | simpl in Hroot |- *;
      first [reflexivity | rewrite Hroot; now apply rootOf_plug_eq]
    | apply rep_plug; split; rep_solve Hnd ].
Qed.

Lemma wp_setRoot_none s Q :
  (forall s', represents s' Leaf -> Q tt s') ->
  wp (RedBlack.setRoot None) s Q.
Proof.
  intros HQ. eapply wp_run; [reflexivity|]. apply HQ.
  split; [exact I|]. split; [reflexivity|]. split; constructor.
Qed.

Lemma removeNode_spec fuel k l x c v r s :
  (length k < fuel)%nat ->
  represents s (plug k (Tn l x c v r)) ->
  l = Leaf \/ r = Leaf ->
  rbOk (plug k (Tn l x c v r)) ->
  wp (RedBlack.removeNode fuel (Some x)) s
     (insertPost (keysL k ++ keys l ++ keys r ++ keysR k)).
Proof.
  intros Hlen H Hside Hok.
  apply ok_plug in Hok as (Hk & Hb & Hn & Hc & Hr).
  unfold RedBlack.removeNode.
  destruct l as [|ll lx lc lv lr]; destruct r as [|rl rx rc rv rr];
    [| | |destruct Hside; discriminate]; clear Hside.
  - (* no child *)
    destruct k as [|f k].
    + unfocus H. wgo s H.
      apply wp_setRoot_none. clear s H; intros s H.
      exists Leaf. split; [exact H|]. split; [|reflexivity].
      unfold rbOk. simpl. tauto.
    + assert (Hpost : forall s',
        represents s' (plug (f :: k) Leaf) ->
        wp (let* sb := RedBlack.isBlack None in
            if (colourZ c =? 0) && sb
            then
              (let* pv0 := RedBlack.valueOf (Some (frameLoc f)) in
               RedBlack.push 24
                 [ANum v;
                  AStr (" (null child of Node " +:+ pretty pv0 +:+ ")")]) >>
              RedBlack.deleteFix fuel (Some (frameLoc f)) None
            else RedBlack.liftG (pushActionNull 26)) s'
           (insertPost (keysL (f :: k) ++ keys Leaf ++ keys Leaf
                        ++ keysR (f :: k)))).
      { clear s H. intros s H.
        replace (keysL (f :: k) ++ keys Leaf ++ keys Leaf ++ keysR (f :: k))
          with (keys (plug (f :: k) Leaf)) by now rewrite keys_plug.
        destruct c.
        - destruct f as [p pc pv ps|ps p pc pv]; unfocus H; wgo s H;
            [ eapply (deleteFix_spec fuel (FL p pc pv ps :: k) Leaf)
            | eapply (deleteFix_spec fuel (FR ps p pc pv :: k) Leaf) ];
            first [exact Hlen|exact H|exact Hk|exact I].
        - destruct f as [p pc pv ps|ps p pc pv]; unfocus H; wgo s H;
            (eexists; split; [exact H|]; split; [|reflexivity]);
            [ eapply (plug_ok (FL p pc pv ps :: k) Leaf)
            | eapply (plug_ok (FR ps p pc pv :: k) Leaf) ];
            first [exact Hk|exact I|reflexivity|discriminate]. }
      destruct f as [p pc pv ps|ps p pc pv]; unfocus H; do 6 wstep s H.
      * eapply (wp_splice s (FL p pc pv ps :: k) Leaf x c v Leaf Leaf);
          [exact H|now left|exact Hpost].
      * eapply (wp_splice s (FR ps p pc pv :: k) Leaf x c v Leaf Leaf);
          [exact H|now left|exact Hpost].
  - (* a right child only *)
    simpl in Hb, Hn. destruct Hb as (Hbh & _ & Hbl & Hbr).
    destruct rc; [simpl in Hbh; lia|]. simpl in Hbh.
    destruct c; [|destruct Hn as (Hn & _); destruct (Hn eq_refl); discriminate].
    do 6 wstep s H.
    eapply (wp_splice s k Leaf x Black v (Tn rl rx Red rv rr)
              (Tn rl rx Red rv rr));
      [exact H|now right|]. clear s H. intros s H. wgo s H.
    eexists. split; [exact H|]. split; [|rewrite keys_plug; reflexivity].
    apply plug_ok; [ctx_solve|simpl in *; intuition lia
                   |simpl in *; intuition congruence|reflexivity
                   |reflexivity].
  - (* a left child only *)
    simpl in Hb, Hn. destruct Hb as (Hbh & (Hbh' & Hbl & Hbr) & _).
    destruct lc; [simpl in Hbh; lia|]. simpl in Hbh.
    destruct c; [|destruct Hn as (Hn & _); destruct (Hn eq_refl); discriminate].
    do 6 wstep s H.
    eapply (wp_splice s k (Tn ll lx Red lv lr) x Black v Leaf
              (Tn ll lx Red lv lr));
      [exact H|now left|]. clear s H. intros s H. wgo s H.
    eexists. split; [exact H|].
    split; [|rewrite keys_plug; simpl; now rewrite <- !app_assoc].
    apply plug_ok; [ctx_solve|simpl in *; intuition lia
                   |simpl in *; intuition congruence|reflexivity
                   |reflexivity].
Qed.

(** ** [RedBlack.deleteRecursive] *)

Definition minKey (t : rbt) : Z := hd 0 (keys t).

Lemma keys_not_nil l x c v r : keys (Tn l x c v r) <> [].
Proof. simpl. destruct (keys l); discriminate. Qed.

Lemma minKey_left l x c v r :
  l <> Leaf -> minKey (Tn l x c v r) = minKey l.
Proof.
  intros Hl. unfold minKey. simpl. destruct l as [|ll lx lc lv lr]; [congruence|].
  pose proof (keys_not_nil ll lx lc lv lr) as Hk.
  destruct (keys (Tn ll lx lc lv lr)); [congruence|reflexivity].
Qed.

Lemma getMinValue_spec : forall t k s fuel,
  t <> Leaf -> (height t <= fuel)%nat ->
  represents s (plug k t) ->
  wp (RedBlack.getMinValue fuel (rootOf t)) s
     (fun m s' => m = minKey t /\ represents s' (plug k t)).
Proof.
  induction t as [|l IHl x c v r _]; intros k s fuel Hne Hfuel H;
    [congruence|].
  destruct fuel as [|fuel]; [simpl in Hfuel; lia|].
  cbn [RedBlack.getMinValue rootOf]. do 3 wstep s H.
  destruct l as [|ll lx lc lv lr].
  - cbn [rootOf]. apply wp_ret. split; [reflexivity|exact H].
  - rewrite minKey_left by discriminate.
    apply (IHl (FL x c v r :: k)); [discriminate| |exact H].
    simpl in Hfuel |- *. lia.
Qed.

Lemma sorted_remove a l1 l2 : sorted (l1 ++ a :: l2) -> sorted (l1 ++ l2).
Proof.
  rewrite !sorted_app, sorted_cons. intros (H1 & (_ & H2) & H3).
  split; [exact H1|]. split; [exact H2|].
  eapply Forall_impl; [exact H3|]. simpl. intros b Hb.
  now apply Forall_cons in Hb as [_ Hb].
Qed.

Lemma sorted_replace a m l1 l2 :
  sorted (l1 ++ a :: m :: l2) -> sorted (l1 ++ m :: m :: l2).
Proof.
  rewrite !sorted_app, !sorted_cons. intros (H1 & (Ha & Hm & H2) & H3).
  split; [exact H1|]. split.
  - split; [|now split]. constructor; [lia|exact Hm].
  - eapply Forall_impl; [exact H3|]. simpl. intros b Hb.
    apply Forall_cons in Hb as [_ Hb]. apply Forall_cons in Hb as [Hbm Hb].
    now repeat constructor.
Qed.

Lemma rbOk_setValue k l x c v v' r :
  rbOk (plug k (Tn l x c v r)) -> rbOk (plug k (Tn l x c v' r)).
Proof.
  intros H. apply ok_plug in H as (Hk & Hb & Hn & Hc & Hr).
  now apply plug_ok.
Qed.

Lemma length_ctxLocs k : (length k <= length (ctxLocs k))%nat.
Proof.
  induction k as [|f k IH]; simpl; [lia|]. rewrite length_app. lia.
Qed.

Lemma length_locs_plug k t :
  length (locs (plug k t)) = (length (locs t) + length (ctxLocs k))%nat.
Proof. now rewrite locs_plug, length_app. Qed.

Definition deletePost (_ : unit) (s : RedBlack.State) : Prop :=
  exists t, represents s t /\ rbInv t.

Lemma keys_Tn l x c v r : keys (Tn l x c v r) = keys l ++ v :: keys r.
Proof. reflexivity. Qed.

Lemma minKey_keys t : t <> Leaf -> exists ks, keys t = minKey t :: ks.
Proof.
  destruct t as [|l x c v r]; [congruence|]. intros _. unfold minKey.
  pose proof (keys_not_nil l x c v r) as Hk.
  destruct (keys (Tn l x c v r)) as [|a ks]; [congruence|]. now exists ks.
Qed.

Lemma deleteRecursive_spec bound : forall t k s fuel v,
  (height t <= fuel)%nat ->
  (length (locs (plug k t)) < bound)%nat ->
  represents s (plug k t) ->
  rbInv (plug k t) ->
  v ∈ keys t ->
  wp (RedBlack.deleteRecursive fuel bound (rootOf t) v) s deletePost.
Proof.
  induction t as [|l IHl x c nv r IHr]; intros k s fuel v Hfuel Hbound H
    [Hok Hs] Hv; [now apply elem_of_nil in Hv|].
  destruct fuel as [|fuel]; [simpl in Hfuel; lia|].
  cbn [RedBlack.deleteRecursive rootOf]. wstep s H.
  pose proof Hs as Hst. rewrite keys_plug in Hst.
  apply sorted_app in Hst as (_ & Hst & _).
  apply sorted_app in Hst as (Hst & _ & _). simpl in Hst.
  apply sorted_app in Hst as (Hsl & Hsr & Hlr).
  apply sorted_cons in Hsr as [Hnr Hsr].
  assert (Hln : Forall (fun a => a <= nv) (keys l)).
  { eapply Forall_impl; [exact Hlr|]. simpl. intros a Ha.
    now apply Forall_cons in Ha as [Ha _]. }
  rewrite Forall_forall in Hln, Hnr.
  simpl in Hv. rewrite elem_of_app, elem_of_cons in Hv.
  destruct (v <? nv) eqn:E1; [|destruct (v >? nv) eqn:E2].
  - (* to the left *)
    do 2 wstep s H.
    apply (IHl (FL x c nv r :: k)); [simpl in Hfuel; lia|exact Hbound
                                     |exact H|now split|].
    destruct Hv as [Hv|[->|Hv]]; [exact Hv|lia|].
    specialize (Hnr _ Hv). lia.
  - (* to the right *)
    do 2 wstep s H.
    apply (IHr (FR l x c nv :: k)); [simpl in Hfuel; lia|exact Hbound
                                     |exact H|now split|].
    destruct Hv as [Hv|[->|Hv]]; [|lia|exact Hv].
    specialize (Hln _ Hv). lia.
  - (* this node *)
    assert (v = nv) as -> by lia. clear Hv E1 E2.
    do 2 wstep s H.
    assert (Hrm : l = Leaf \/ r = Leaf ->
      wp (RedBlack.removeNode bound (Some x)) s deletePost).
    { intros Hside. eapply wp_mono.
      - eapply removeNode_spec; [|exact H|exact Hside|exact Hok].
        pose proof (length_ctxLocs k). rewrite length_locs_plug in Hbound.
        lia.
      - intros [] s' (t' & H' & Hok' & Hk'). exists t'.
        split; [exact H'|]. split; [exact Hok'|]. rewrite Hk'.
        rewrite keys_plug in Hs. simpl in Hs.
        rewrite <- !app_assoc in Hs. simpl in Hs.
        rewrite app_assoc. rewrite app_assoc in Hs.
        eapply sorted_remove. rewrite <- !app_assoc.
        rewrite <- !app_assoc in Hs. exact Hs. }
    destruct l as [|ll lx lc lv lr]; [apply Hrm; now left|].
    destruct r as [|rl rx rc rv rr]; [apply Hrm; now right|].
    clear Hrm. cbn [rootOf]. wstep s H. apply wp_bind.
    eapply wp_mono.
    { apply (getMinValue_spec (Tn rl rx rc rv rr)
               (FR (Tn ll lx lc lv lr) x c nv :: k));
        [discriminate| |exact H].
      pose proof (height_size (Tn (Tn ll lx lc lv lr) x c nv
                                 (Tn rl rx rc rv rr))) as Hh.
      rewrite length_locs_plug in Hbound.
      assert (height (Tn rl rx rc rv rr)
              < height (Tn (Tn ll lx lc lv lr) x c nv (Tn rl rx rc rv rr)))%nat
        by (simpl; lia).
      lia. }
    cbv beta. clear s H. intros m s [-> H]. unfocus H.
    do 2 wstep s H.
    destruct (minKey_keys (Tn rl rx rc rv rr)) as (ks & Hks); [discriminate|].
    apply (IHr (FR (Tn ll lx lc lv lr) x c (minKey (Tn rl rx rc rv rr)) :: k)).
    + simpl in Hfuel |- *. lia.
    + cbn [plug fill]. erewrite locs_plug_eq; [exact Hbound|reflexivity].
    + exact H.
    + split; [cbn [plug fill]; eapply rbOk_setValue; exact Hok|].
      cbn [plug fill]. rewrite keys_plug in Hs |- *.
      rewrite (keys_Tn _ x c nv (Tn rl rx rc rv rr)) in Hs.
      rewrite (keys_Tn _ x c _ (Tn rl rx rc rv rr)).
      rewrite Hks in Hs |- *.
      rewrite <- !app_assoc in Hs |- *. simpl in Hs |- *.
      rewrite app_assoc in Hs |- *.
      eapply sorted_replace. exact Hs.
    + rewrite Hks. apply elem_of_cons. now left.
Qed.

(** ** [RedBlack.prototype.delete] *)

Lemma rb_delete_spec s t v :
  represents s t -> rbInv t -> v ∈ keys t ->
  wp (RedBlack.delete_ v) s deletePost.
Proof.
  intros H Hinv Hv. unfold RedBlack.delete_.
  do 2 wstep s H. apply wp_bind. eapply wp_run; [reflexivity|]. cbv beta.
  apply wp_bind. eapply wp_mono.
  { apply (deleteRecursive_spec _ t []); [| |exact H|exact Hinv|exact Hv].
    - pose proof (height_size t). pose proof (size_bound _ _ H). lia.
    - pose proof (size_bound _ _ H). simpl. lia. }
  cbv beta. clear s H. intros [] s (t' & H & Hinv').
  wgo s H. now exists t'.
Qed.

(** ** [find] *)

Lemma findRecursive_present h v : forall fuel t par,
  rep h par t ->
  RedBlack.findRecursive fuel h (rootOf t) v = Some 1 -> v ∈ keys t.
Proof.
  induction fuel as [|fuel IH]; intros t par Hrep Hf; [discriminate|].
  destruct t as [|l x c nv r]; [discriminate|].
  simpl in Hrep. cbn [RedBlack.findRecursive rootOf] in Hf.
  destruct Hrep as (Hx & Hl & Hr). unfold RedBlack.loc in Hf.
  rewrite Hx in Hf.
  cbn [RedBlack.value RedBlack.left RedBlack.right] in Hf.
  simpl keys. rewrite elem_of_app, elem_of_cons.
  destruct (v <? nv) eqn:E1; [|destruct (v >? nv) eqn:E2].
  - left. eapply IH; eassumption.
  - right. right. eapply IH; eassumption.
  - right. left. lia.
Qed.

Lemma find_present s t v :
  represents s t -> RedBlack.find s v = Some 1 -> v ∈ keys t.
Proof.
  intros (Hrep & Hroot & _) Hf. unfold RedBlack.find in Hf.
  rewrite Hroot in Hf. eapply findRecursive_present; eassumption.
Qed.

(** ** The copy of the tree *)

Fixpoint snapOf (t : rbt) : Snap :=
  match t with
  | Leaf => null
  | Tn l _ c v r => node (snapOf l) v (AugColour (colourZ c)) (snapOf r)
  end.

Lemma copyFrom_rep h : forall fuel t par,
  rep h par t -> (height t <= fuel)%nat ->
  RedBlack.copyFrom fuel h (rootOf t) = snapOf t.
Proof.
  induction fuel as [|fuel IH]; intros t par Hrep Hfuel.
  - destruct t; [reflexivity|simpl in Hfuel; lia].
  - destruct t as [|l x c v r]; [reflexivity|].
    simpl in Hrep, Hfuel. destruct Hrep as (Hx & Hl & Hr).
    cbn [RedBlack.copyFrom rootOf snapOf]. unfold RedBlack.loc.
    rewrite Hx.
    cbn [RedBlack.value RedBlack.left RedBlack.right RedBlack.colour].
    f_equal; eapply IH; try eassumption; lia.
Qed.

Lemma copyOf_represents s t : represents s t -> RedBlack.copyOf s = snapOf t.
Proof.
  intros H. pose proof (size_bound _ _ H). pose proof (height_size t).
  destruct H as (Hrep & Hroot & _). unfold RedBlack.copyOf. rewrite Hroot.
  eapply copyFrom_rep; [exact Hrep|lia].
Qed.

(** ** The red-black properties of a copy *)

(** The colour of the root of a copy; null counts as black. *)
Definition colourOfSnap (n : Snap) : Z :=
  match n with
  | node _ _ (AugColour c) _ => c
  | _ => 0
  end.

Definition rootIsBlack (n : Snap) : Prop := colourOfSnap n = 0.

Definition redHasNoRedChild (n : Snap) : Prop :=
  match n with
  | null => True
  | node l _ _ r =>
      colourOfSnap n = 1 -> colourOfSnap l <> 1 /\ colourOfSnap r <> 1
  end.

(** The number of black nodes on every path from [n] down to a null. *)
Fixpoint blackCounts (n : Snap) : list nat :=
  match n with
  | null => [O]
  | node l _ _ r =>
      map (Nat.add (if colourOfSnap n =? 0 then 1%nat else 0%nat))
          (blackCounts l ++ blackCounts r)
  end.

Definition sameBlackCount (n : Snap) : Prop :=
  exists b, Forall (fun b' => b' = b) (blackCounts n).

Definition redBlackProperties (n : Snap) : Prop :=
  rootIsBlack n
  /\ allNodes redHasNoRedChild n
  /\ allNodes sameBlackCount n.

Lemma colourOfSnap_snapOf t : colourOfSnap (snapOf t) = colourZ (col t).
Proof. now destruct t. Qed.

Lemma noRR_snap t : noRR t -> allNodes redHasNoRedChild (snapOf t).
Proof.
  induction t as [|l IHl x c v r IHr]; simpl; [tauto|].
  intros (Hc & Hl & Hr). split; [|split; [now apply IHl|now apply IHr]].
  rewrite !colourOfSnap_snapOf. intros Hred.
  destruct c; [discriminate|]. destruct (Hc eq_refl) as [-> ->].
  simpl. lia.
Qed.

Lemma blackCounts_bal t :
  bal t -> Forall (fun b' => b' = bh t) (blackCounts (snapOf t)).
Proof.
  induction t as [|l IHl x c v r IHr]; simpl.
  - intros _. now repeat constructor.
  - intros (Hbh & Hl & Hr). apply Forall_fmap, Forall_app.
    specialize (IHl Hl). specialize (IHr Hr). rewrite <- Hbh in IHr.
    split; (eapply Forall_impl; [eassumption|]); simpl; intros b ->;
      now destruct c.
Qed.

Lemma bal_snap t : bal t -> allNodes sameBlackCount (snapOf t).
Proof.
  induction t as [|l IHl x c v r IHr]; [simpl; tauto|].
  intros Hb. pose proof (blackCounts_bal _ Hb) as Hc.
  simpl in Hb. destruct Hb as (_ & Hl & Hr).
  split; [|split; [now apply IHl|now apply IHr]].
  eexists. exact Hc.
Qed.

Lemma rbOk_snap t : rbOk t -> redBlackProperties (snapOf t).
Proof.
  intros (Hc & Hn & Hb). split; [|split].
  - unfold rootIsBlack. now rewrite colourOfSnap_snapOf, Hc.
  - now apply noRR_snap.
  - now apply bal_snap.
Qed.

(** ** Reachable Red-Black trees *)

(** A new tree, and what [insert] and [delete] make of it; between two
    calls the controller does what it likes with [Global]. A key is only
    deleted when [find] finds it. *)
Inductive rbReachable : RedBlack.State -> Prop :=
| rbReachable_new g : rbReachable (RedBlack.emptyState g)
| rbReachable_global s g :
    rbReachable s ->
    rbReachable (RedBlack.mkState (RedBlack.heap s) (RedBlack.root s)
                                  (RedBlack.nextLoc s) g)
| rbReachable_insert s v s' :
    rbReachable s ->
    RedBlack.insert v s = Some (tt, s') ->
    rbReachable s'
| rbReachable_delete s v s' :
    rbReachable s ->
    RedBlack.find s v = Some 1 ->
    RedBlack.delete_ v s = Some (tt, s') ->
    rbReachable s'.

Lemma represents_empty g : represents (RedBlack.emptyState g) Leaf.
Proof. split; [exact I|]. split; [reflexivity|]. split; constructor. Qed.

Lemma rbReachable_inv s :
  rbReachable s -> exists t, represents s t /\ rbInv t.
Proof.
  induction 1 as [g|s g _ (t & H & Hinv)|s v s' _ (t & H & Hinv) Hrun
                 |s v s' _ (t & H & Hinv) Hf Hrun].
  - exists Leaf. split; [apply represents_empty|].
    split; [unfold rbOk; simpl; tauto|constructor].
  - exists t. split; [exact H|exact Hinv].
  - pose proof (rb_insert_spec s t v H Hinv) as Hwp. unfold wp in Hwp.
    rewrite Hrun in Hwp. destruct Hwp as (t' & H' & Hinv' & _). eauto.
  - pose proof (rb_delete_spec s t v H Hinv (find_present _ _ _ H Hf)) as Hwp.
    unfold wp in Hwp. rewrite Hrun in Hwp. exact Hwp.
Qed.

Lemma wp_returns {S} (m : M S unit) s Q :
  wp m s Q -> exists s', m s = Some (tt, s').
Proof. unfold wp. destruct (m s) as [[[] s']|]; [eauto|tauto]. Qed.

(** C3. In every Red-Black tree that inserts and deletes (of keys [find]
    finds) can build, when the call has returned: the root is black, no red
    node has a red child, and below every node all paths down to a null
    pass through the same number of black nodes. From such a tree every
    [insert], and every [delete] of a key that [find] finds, returns. *)
Theorem red_black_properties_after_each_call (s : RedBlack.State) :
  rbReachable s ->
  redBlackProperties (RedBlack.copyOf s)
  /\ (forall v, exists s', RedBlack.insert v s = Some (tt, s'))
  /\ (forall v, RedBlack.find s v = Some 1 ->
                exists s', RedBlack.delete_ v s = Some (tt, s')).
Proof.
  intros Hr. destruct (rbReachable_inv _ Hr) as (t & H & Hinv).
  split; [|split].
  - rewrite (copyOf_represents _ _ H). apply rbOk_snap. apply Hinv.
  - intros v. eapply wp_returns. apply (rb_insert_spec _ _ v H Hinv).
  - intros v Hf. eapply wp_returns.
    apply (rb_delete_spec _ _ v H Hinv (find_present _ _ _ H Hf)).
Qed.

(** The state a call leaves, for a call that returns. *)
Definition after (m : RedBlack.R unit) (s : RedBlack.State) : RedBlack.State :=
  match m s with
  | Some (_, s') => s'
  | None => s
  end.

(** Insert 10, 20, 30, 15, then delete 30. *)
Definition scenarioC (n : nat) : RedBlack.State :=
  let s0 := RedBlack.emptyState initialGlobal in
  let s1 := after (RedBlack.insert 10) s0 in
  let s2 := after (RedBlack.insert 20) s1 in
  let s3 := after (RedBlack.insert 30) s2 in
  let s4 := after (RedBlack.insert 15) s3 in
  match n with
  | 0%nat => s0
  | 1%nat => s1
  | 2%nat => s2
  | 3%nat => s3
  | 4%nat => s4
  | _ => after (RedBlack.delete_ 30) s4
  end.

Lemma red_black_properties_after_each_call_witness :
  rbReachable (scenarioC 5)
  /\ redBlackProperties (RedBlack.copyOf (scenarioC 5))
  /\ (forall v, exists s', RedBlack.insert v (scenarioC 5) = Some (tt, s'))
  /\ (forall v, RedBlack.find (scenarioC 5) v = Some 1 ->
                exists s', RedBlack.delete_ v (scenarioC 5) = Some (tt, s')).
Proof.
  assert (Hr : rbReachable (scenarioC 5)).
  { apply (rbReachable_delete (scenarioC 4) 30);
      [|vm_compute; reflexivity|vm_compute; reflexivity].
    apply (rbReachable_insert (scenarioC 3) 15); [|vm_compute; reflexivity].
    apply (rbReachable_insert (scenarioC 2) 30); [|vm_compute; reflexivity].
    apply (rbReachable_insert (scenarioC 1) 20); [|vm_compute; reflexivity].
    apply (rbReachable_insert (scenarioC 0) 10); [|vm_compute; reflexivity].
    apply rbReachable_new. }
  split; [exact Hr|].
  exact (red_black_properties_after_each_call (scenarioC 5) Hr).
Defined.


(** * Insertion keeps the keys in order *)

(** The keys [ks], inserted one after the other into the empty list. *)
Definition insertAll (ks : list Z) : list Z :=
  foldl (fun acc k => insKey k acc) [] ks.

Lemma insertAll_snoc ks k : insertAll (ks ++ [k]) = insKey k (insertAll ks).
Proof. unfold insertAll. now rewrite foldl_app. Qed.

Lemma insertAll_sorted ks : sorted (insertAll ks).
Proof.
  induction ks as [|k ks IH] using rev_ind; [constructor|].
  rewrite insertAll_snoc. now apply insKey_sorted.
Qed.

Lemma insertAll_perm ks : insertAll ks ≡ₚ ks.
Proof.
  induction ks as [|k ks IH] using rev_ind; [reflexivity|].
  rewrite insertAll_snoc, insKey_perm, IH. apply Permutation_cons_append.
Qed.

Lemma sorted_NoDup_lt l : sorted l -> NoDup l -> StronglySorted Z.lt l.
Proof.
  unfold sorted. induction 1 as [|a l Hs IH Ha]; intros Hnd; [constructor|].
  apply NoDup_cons in Hnd as [Hin Hnd]. constructor; [now apply IH|].
  rewrite Forall_forall in Ha |- *. intros b Hb. specialize (Ha b Hb).
  assert (a <> b) by (intros ->; contradiction). lia.
Qed.

Lemma insertAll_strict ks : NoDup ks -> StronglySorted Z.lt (insertAll ks).
Proof.
  intros Hnd. apply sorted_NoDup_lt; [apply insertAll_sorted|].
  now rewrite insertAll_perm.
Qed.

Lemma sorted_mid l v r :
  sorted (l ++ v :: r) ->
  Forall (fun a => a <= v) l /\ Forall (fun a => v <= a) r.
Proof.
  intros H. apply sorted_app in H as (_ & Hr & Hl).
  apply sorted_cons in Hr as [Hr _]. split; [|exact Hr].
  eapply Forall_impl; [exact Hl|]. simpl. intros a Ha.
  now apply Forall_cons in Ha as [Ha _].
Qed.

Lemma sorted_app_l l r : sorted (l ++ r) -> sorted l.
Proof. intros H. now apply sorted_app in H. Qed.

Lemma sorted_app_r l r : sorted (l ++ r) -> sorted r.
Proof. intros H. now apply sorted_app in H. Qed.

Lemma sorted_cons_r a l : sorted (a :: l) -> sorted l.
Proof. intros H. now apply sorted_cons in H. Qed.

Lemma inorder_copyNode {A} (f : A -> Aug) (t : Node A) :
  inorder (copyNode f t) = inorder t.
Proof.
  induction t as [|l IHl v a r IHr]; simpl; [reflexivity|].
  now rewrite IHl, IHr.
Qed.

(** ** Plain *)

Lemma bst_insertRecursive_inorder (t : Bst.BstNode) : forall v g t' g',
  Bst.insertRecursive t v g = Some (t', g') ->
  sorted (inorder t) ->
  inorder t' = insKey v (inorder t).
Proof.
  induction t as [|l IHl x a r IHr]; intros v g t' g' H Hs; simpl in H;
    [discriminate|].
  pose proof (sorted_mid _ _ _ Hs) as [Hl Hr].
  change (inorder (node l x a r)) with (inorder l ++ x :: inorder r) in *.
  destruct (v <? x) eqn:E.
  - rewrite insKey_app_lt by lia.
    destruct l as [|ll lx la lr]; msplit; [reflexivity|].
    simpl. f_equal.
    match goal with H : Bst.insertRecursive _ _ _ = _ |- _ =>
      apply IHl in H; [|now apply sorted_app_l in Hs] end.
    assumption.
  - rewrite insKey_app_ge
      by (eapply Forall_impl; [exact Hl|]; simpl; intros; lia).
    simpl insKey. rewrite E.
    destruct r as [|rl rx ra rr]; msplit; [reflexivity|].
    simpl. do 2 f_equal.
    match goal with H : Bst.insertRecursive _ _ _ = _ |- _ =>
      apply IHr in H; [|now apply sorted_app_r, sorted_cons_r in Hs] end.
    assumption.
Qed.

Lemma bst_insert_inorder t v g t' g' :
  Bst.insert t v g = Some (t', g') ->
  sorted (inorder t) ->
  inorder t' = insKey v (inorder t).
Proof.
  intros H Hs. unfold Bst.insert in H. msplit. destruct t; msplit.
  - reflexivity.
  - eapply bst_insertRecursive_inorder; eassumption.
Qed.

Lemma bst_insertRecursive_total (t : Bst.BstNode) : forall v g,
  t <> null -> exists t' g', Bst.insertRecursive t v g = Some (t', g').
Proof.
  induction t as [|l IHl x a r IHr]; intros v g Hne; [congruence|].
  simpl. destruct (v <? x).
  - destruct l as [|ll lx la lr]; [eexists _, _; reflexivity|].
    unfold bind at 1. unfold pushAction, pushArgs, modify.
    edestruct (IHl v) as (l' & g' & Hl); [discriminate|].
    unfold bind. rewrite Hl. eexists _, _. reflexivity.
  - destruct r as [|rl rx ra rr]; [eexists _, _; reflexivity|].
    unfold bind at 1. unfold pushAction, pushArgs, modify.
    edestruct (IHr v) as (r' & g' & Hr); [discriminate|].
    unfold bind. rewrite Hr. eexists _, _. reflexivity.
Qed.

Lemma bst_insert_total t v g :
  exists t' g', Bst.insert t v g = Some (t', g').
Proof.
  unfold Bst.insert. destruct t as [|l x a r].
  - eexists _, _. reflexivity.
  - unfold bind at 1. unfold setOperation, modify.
    unfold bind at 1.
    edestruct (bst_insertRecursive_total (node l x a r) v) as (t' & g' & Ht);
      [discriminate|].
    rewrite Ht. eexists _, _. reflexivity.
Qed.

(** ** AVL *)

Lemma avl_rebalanceInsert_inorder wrap n v g n' g' :
  Avl.rebalanceInsert wrap n v g = Some (n', g') -> inorder n' = inorder n.
Proof.
  intros H. destruct n as [|l x h r]; [discriminate H|].
  unfold Avl.rebalanceInsert in H.
  destruct (_ >? 1); [|destruct (_ <? -1)]; msplit.
  - rot_inv. subst. destruct (v <? _); msplit; rot_inv; subst; node_inj;
      simpl; repeat (rewrite <- app_assoc; simpl); reflexivity.
  - rot_inv. subst. destruct (v >? _); msplit; rot_inv; subst; node_inj;
      simpl; repeat (rewrite <- app_assoc; simpl); reflexivity.
  - reflexivity.
Qed.

Lemma avl_insertRecursive_inorder (t : Avl.AvlNode) : forall wrap v g t' g',
  Avl.insertRecursive wrap t v g = Some (t', g') ->
  sorted (inorder t) ->
  inorder t' = insKey v (inorder t).
Proof.
  induction t as [|l IHl x h r IHr]; intros wrap v g t' g' H Hs; simpl in H;
    [discriminate|].
  apply bind_Some in H as (n1 & g1 & H1 & H2).
  apply avl_rebalanceInsert_inorder in H2. rewrite H2. clear H2.
  pose proof (sorted_mid _ _ _ Hs) as [Hl Hr].
  change (inorder (node l x h r)) with (inorder l ++ x :: inorder r) in *.
  destruct (v <? x) eqn:E.
  - rewrite insKey_app_lt by lia.
    destruct l as [|ll lx lh lr]; msplit; [reflexivity|].
    simpl. f_equal.
    match goal with H : Avl.insertRecursive _ _ _ _ = _ |- _ =>
      apply IHl in H; [|now apply sorted_app_l in Hs] end.
    assumption.
  - rewrite insKey_app_ge
      by (eapply Forall_impl; [exact Hl|]; simpl; intros; lia).
    simpl insKey. rewrite E.
    destruct r as [|rl rx rh rr]; msplit; [reflexivity|].
    simpl. do 2 f_equal.
    match goal with H : Avl.insertRecursive _ _ _ _ = _ |- _ =>
      apply IHr in H; [|now apply sorted_app_r, sorted_cons_r in Hs] end.
    assumption.
Qed.

Lemma avl_insert_inorder t v g t' g' :
  Avl.insert t v g = Some (t', g') ->
  sorted (inorder t) ->
  inorder t' = insKey v (inorder t).
Proof.
  intros H Hs. unfold Avl.insert in H. msplit. destruct t; msplit.
  - reflexivity.
  - eapply avl_insertRecursive_inorder; eassumption.
Qed.

(** *** Every insert of a key that is not stored returns *)

(** No delete is pending, and a pending rotation record ends in its action
    id. *)
Definition rotationPending (g : Global) : Prop :=
  deleteSpec g = None
  /\ match rotationSpec g with
     | None => True
     | Some spec => exists spec' n, popArg spec = Some (spec', ANum n)
     end.

Lemma idle_pending g : idle g -> rotationPending g.
Proof. intros [Hd Hr]. split; [exact Hd|]. now rewrite Hr. Qed.

Lemma wp_eqn {S A} (m : M S A) s (Q : A -> S -> Prop) :
  wp m s Q -> wp m s (fun a s' => m s = Some (a, s') /\ Q a s').
Proof. unfold wp. destruct (m s) as [[a s']|]; [|tauto]. now split. Qed.

Lemma wp_ex {S A} (m : M S A) s (Q : A -> S -> Prop) :
  wp m s Q -> exists a s', m s = Some (a, s') /\ Q a s'.
Proof. unfold wp. destruct (m s) as [[a s']|]; [eauto|tauto]. Qed.

Lemma wp_pushArgs i a g (Q : unit -> Global -> Prop) :
  idle g -> (forall g', idle g' -> Q tt g') -> wp (pushArgs i a) g Q.
Proof. intros Hg HQ. eapply wp_run; [reflexivity|]. apply HQ. exact Hg. Qed.

Lemma wp_pushAction i a g (Q : unit -> Global -> Prop) :
  idle g -> (forall g', idle g' -> Q tt g') -> wp (pushAction i a) g Q.
Proof. apply wp_pushArgs. Qed.

Lemma wp_withActions f g (Q : unit -> Global -> Prop) :
  idle g -> (forall g', idle g' -> Q tt g') -> wp (modify (withActions f)) g Q.
Proof. intros Hg HQ. eapply wp_run; [reflexivity|]. apply HQ. exact Hg. Qed.

Lemma wp_setOperation o g (Q : unit -> Global -> Prop) :
  idle g -> (forall g', idle g' -> Q tt g') -> wp (setOperation o) g Q.
Proof. intros Hg HQ. eapply wp_run; [reflexivity|]. apply HQ. exact Hg. Qed.

Lemma wp_checkInsertResize k g (Q : unit -> Global -> Prop) :
  idle g -> (forall g', idle g' -> Q tt g') -> wp (checkInsertResize k) g Q.
Proof.
  intros Hg HQ. eapply wp_run; [reflexivity|]. apply HQ.
  destruct (treeBound g); exact Hg.
Qed.

Lemma wp_pushDeleteAndRotate p w g (Q : unit -> Global -> Prop) :
  rotationPending g -> (forall g', idle g' -> Q tt g') ->
  wp (pushDeleteAndRotate p w) g Q.
Proof.
  intros [Hd Hr] HQ. unfold wp, pushDeleteAndRotate. rewrite Hd.
  destruct (rotationSpec g) as [spec|] eqn:E.
  - destruct Hr as (spec' & n & ->). apply HQ. split; [exact Hd|reflexivity].
  - apply HQ. split; assumption.
Qed.

Lemma wp_avl_leftRotate a lv h b rv h' c g (Q : Avl.AvlNode -> Global -> Prop) :
  idle g ->
  (forall g', rotationPending g' ->
     Q (node (node a lv (Z.max (Avl.getHeight a) (Avl.getHeight b) + 1) b)
             rv
             (Z.max (Z.max (Avl.getHeight a) (Avl.getHeight b) + 1)
                    (Avl.getHeight c) + 1)
             c) g') ->
  wp (Avl.leftRotate (node a lv h (node b rv h' c))) g Q.
Proof.
  intros [Hd Hr] HQ. eapply wp_run; [reflexivity|]. apply HQ.
  split; [exact Hd|]. simpl. eauto.
Qed.

Lemma wp_avl_rightRotate a lv h b rv h' c g (Q : Avl.AvlNode -> Global -> Prop) :
  idle g ->
  (forall g', rotationPending g' ->
     Q (node a lv
             (Z.max (Avl.getHeight a)
                    (Z.max (Avl.getHeight b) (Avl.getHeight c) + 1) + 1)
             (node b rv (Z.max (Avl.getHeight b) (Avl.getHeight c) + 1) c))
       g') ->
  wp (Avl.rightRotate (node (node a lv h b) rv h' c)) g Q.
Proof.
  intros [Hd Hr] HQ. eapply wp_run; [reflexivity|]. apply HQ.
  split; [exact Hd|]. simpl. eauto.
Qed.

Lemma getHeight_pos_node {A} (n : Node A) :
  0 < Tree.getHeight n -> exists l v a r, n = node l v a r.
Proof. destruct n as [|l v a r]; simpl; [lia|eauto]. Qed.

(** Steps through the calls that only append to the action list. *)
Ltac avl_step :=
  lazymatch goal with
  | |- wp (bind _ _) _ _ => apply wp_bind
  | |- wp (ret _) _ _ => apply wp_ret
  | |- wp (pushAction _ _) _ _ => apply wp_pushAction; [assumption|intros ? ?]
  | |- wp (pushActionEnd _) _ _ => apply wp_pushAction; [assumption|intros ? ?]
  | |- wp (pushActionNull _) _ _ => apply wp_pushArgs; [assumption|intros ? ?]
  | |- wp reverseActions _ _ => apply wp_withActions; [assumption|intros ? ?]
  | |- wp setNewTreeAction _ _ => apply wp_withActions; [assumption|intros ? ?]
  | |- wp (setOperation _) _ _ => apply wp_setOperation; [assumption|intros ? ?]
  | |- wp (checkInsertResize _) _ _ =>
      apply wp_checkInsertResize; [assumption|intros ? ?]
  | |- wp (pushDeleteAndRotate _ _) _ _ =>
      apply wp_pushDeleteAndRotate; [assumption|intros ? ?]
  | |- wp (Avl.leftRotate _) _ _ =>
      apply wp_avl_leftRotate; [assumption|intros ? ?]
  | |- wp (Avl.rightRotate _) _ _ =>
      apply wp_avl_rightRotate; [assumption|intros ? ?]
  end.

Lemma wp_avl_rebalanceInsert wrap l x h r v g :
  idle g -> avlH l -> avlH r ->
  (Tree.getHeight l - Tree.getHeight r > 1 -> leaning v l) ->
  (Tree.getHeight l - Tree.getHeight r < -1 -> leaning v r) ->
  wp (Avl.rebalanceInsert wrap (node l x h r) v) g
     (fun _ g' => rotationPending g').
Proof.
  intros Hg Hl Hr H2 Hm2. unfold Avl.rebalanceInsert.
  rewrite (avlH_height l Hl), (avlH_height r Hr).
  destruct (_ >? 1) eqn:E1; [|destruct (_ <? -1) eqn:E2].
  - assert (Hv : leaning v l) by (apply H2; lia). clear H2 Hm2.
    destruct l as [|ll lx lh lr]; [destruct Hv|]. simpl in Hv.
    repeat avl_step. simpl Avl.valueOf. avl_step.
    destruct (v <? lx) eqn:Ev; [repeat avl_step; assumption|].
    destruct Hv as [[Hv _]|[_ Hv]]; [lia|].
    destruct (getHeight_pos_node lr) as (b & rv & h' & c & ->);
      [pose proof (getHeight_nonneg ll); lia|].
    repeat avl_step. assumption.
  - assert (Hv : leaning v r) by (apply Hm2; lia). clear H2 Hm2.
    destruct r as [|rl rx rh rr]; [destruct Hv|]. simpl in Hv.
    repeat avl_step. simpl Avl.valueOf. avl_step.
    destruct (v >? rx) eqn:Ev; [repeat avl_step; assumption|].
    destruct Hv as [[_ Hv]|[Hv _]]; [|lia].
    destruct (getHeight_pos_node rl) as (a & lv & h' & b & ->);
      [pose proof (getHeight_nonneg rr); lia|].
    repeat avl_step. assumption.
  - repeat avl_step. now apply idle_pending.
Qed.

Lemma wp_avl_insertRecursive (t : Avl.AvlNode) : forall wrap v g,
  t <> null -> avlOk t -> Tree.findRecursive t v <> 1 -> idle g ->
  wp (Avl.insertRecursive wrap t v) g (fun _ g' => rotationPending g').
Proof.
  induction t as [|l IHl x h r IHr]; intros wrap v g Hne Ht Hf Hg;
    [congruence|]. clear Hne.
  destruct Ht as [Hh Hb].
  apply (proj1 (avlH_node _ _ _ _)) in Hh. destruct Hh as (Hh & Hl & Hr).
  apply (proj1 (avlB_node _ _ _ _)) in Hb. destruct Hb as (Hb & Hlb & Hrb).
  simpl in Hf. simpl Avl.insertRecursive. apply wp_bind.
  destruct (v <? x) eqn:Ev.
  - destruct l as [|ll lx lh lr].
    + repeat avl_step. simpl in Hb. pose proof (getHeight_nonneg r).
      apply wp_avl_rebalanceInsert; try assumption.
      * simpl. unfold heightCachedAt. simpl. tauto.
      * simpl. lia.
      * simpl. lia.
    + repeat avl_step.
      eapply wp_mono;
        [apply wp_eqn, IHl; [discriminate|split; assumption|assumption
                            |assumption]|].
      intros l' g1 [Heq Hp]. simpl in Hp.
      apply avl_insertRecursive_balanced in Heq;
        [|split; assumption|assumption].
      destruct Heq as ([Hl' Hlb'] & Hgrow).
      repeat avl_step.
      apply wp_avl_rebalanceInsert; try assumption.
      * intros E. destruct Hgrow as [Hg'|[_ Hg']]; [lia|exact Hg'].
      * intros E. lia.
  - destruct (v >? x) eqn:Ev2; [|congruence].
    destruct r as [|rl rx rh rr].
    + repeat avl_step. simpl in Hb. pose proof (getHeight_nonneg l).
      apply wp_avl_rebalanceInsert; try assumption.
      * simpl. unfold heightCachedAt. simpl. tauto.
      * simpl. lia.
      * simpl. lia.
    + repeat avl_step.
      eapply wp_mono;
        [apply wp_eqn, IHr; [discriminate|split; assumption|assumption
                            |assumption]|].
      intros r' g1 [Heq Hp]. simpl in Hp.
      apply avl_insertRecursive_balanced in Heq;
        [|split; assumption|assumption].
      destruct Heq as ([Hr' Hrb'] & Hgrow).
      repeat avl_step.
      apply wp_avl_rebalanceInsert; try assumption.
      * intros E. lia.
      * intros E. destruct Hgrow as [Hg'|[_ Hg']]; [lia|exact Hg'].
Qed.

Lemma avl_insert_total t v g :
  avlOk t -> Tree.findRecursive t v <> 1 -> idle g ->
  exists t' g', Avl.insert t v g = Some (t', g').
Proof.
  intros Ht Hf Hg.
  enough (Hwp : wp (Avl.insert t v) g (fun _ _ => True)).
  { apply wp_ex in Hwp as (t' & g' & H & _). eauto. }
  unfold Avl.insert. repeat avl_step. destruct t as [|l x h r].
  - repeat avl_step. exact I.
  - avl_step.
    eapply wp_mono; [apply wp_avl_insertRecursive; try assumption;
                     discriminate|].
    intros r' g1 Hp. simpl in Hp. repeat avl_step. exact I.
Qed.

(** ** Red-Black *)

Definition rbState (t : RbTree) (g : Global) : RedBlack.State :=
  RedBlack.mkState (rbHeap t) (rbRoot t) (rbNext t) g.

Lemma represents_glob s t g :
  represents s t ->
  represents
    (RedBlack.mkState (RedBlack.heap s) (RedBlack.root s) (RedBlack.nextLoc s) g)
    t.
Proof. intros H. exact H. Qed.

Lemma inorder_snapOf t : inorder (snapOf t) = keys t.
Proof.
  induction t as [|l IHl x c v r IHr]; simpl; [reflexivity|].
  now rewrite IHl, IHr.
Qed.

Lemma rbCall_insert t v g T :
  represents (rbState t g) T -> rbInv T ->
  exists t' g',
    rbCall (RedBlack.insert v) t g = Some (t', g')
    /\ exists T', (forall g0, represents (rbState t' g0) T')
                  /\ rbInv T' /\ keys T' = insKey v (keys T).
Proof.
  intros H Hinv. pose proof (rb_insert_spec _ _ v H Hinv) as Hwp.
  apply wp_ex in Hwp as ([] & s' & Hrun & T' & H' & Hinv' & Hk).
  unfold rbCall. fold (rbState t g). rewrite Hrun.
  eexists _, _. split; [reflexivity|].
  exists T'. split; [|split; assumption].
  intros g0. apply (represents_glob _ _ g0 H').
Qed.

(** ** The three variants *)

(** The keys of a tree as an in-order traversal visits them; of a Red-Black
    tree, the traversal of its copy. *)
Class Traversal (T : Type) : Type := inorderOf : T -> list Z.

#[export] Instance BstTraversal : Traversal Bst.BstNode := inorder.
#[export] Instance AvlTraversal : Traversal Avl.AvlNode := inorder.
#[export] Instance RbTraversal : Traversal RbTree :=
  fun t => inorder (RedBlack.copyOf (rbState t initialGlobal)).

(** [builtBy ks t]: the calls [insert(k)], for the keys of [ks] in turn, have
    made [t] of a new tree. *)
Inductive builtBy {T : Type} `{Engine T} : list Z -> T -> Prop :=
| built_new : builtBy [] newTree
| built_insert ks t k g t' g' :
    builtBy ks t -> insertOp t k g = Some (t', g') ->
    builtBy (ks ++ [k]) t'.

Definition insertsKeepOrder (T : Type) `{Engine T} `{Traversal T} : Prop :=
  forall (ks : list Z) (t : T),
    NoDup ks -> builtBy ks t ->
    StronglySorted Z.lt (inorderOf t)
    /\ inorderOf t ≡ₚ ks
    /\ forall k g, k ∉ ks -> idle g ->
         exists t' g', insertOp t k g = Some (t', g').

Lemma findRecursive_inorder {A} (t : Node A) k :
  Tree.findRecursive t k = 1 -> k ∈ inorder t.
Proof.
  induction t as [|l IHl v a r IHr]; simpl; [lia|].
  rewrite elem_of_app, elem_of_cons.
  destruct (k <? v) eqn:E1; [tauto|].
  destruct (k >? v) eqn:E2; [tauto|]. intros _. right. left. lia.
Qed.

Lemma NoDup_snoc_inv (ks : list Z) k :
  NoDup (ks ++ [k]) -> NoDup ks /\ k ∉ ks.
Proof.
  intros H. apply NoDup_app in H as (Hks & Hk & _). split; [exact Hks|].
  intros Hin. apply (Hk k Hin). apply list_elem_of_here.
Qed.

Lemma bst_builtBy ks (t : Bst.BstNode) :
  builtBy ks t -> inorder t = insertAll ks.
Proof.
  induction 1 as [|ks t k g t' g' _ IH Hrun]; [reflexivity|].
  rewrite insertAll_snoc, <- IH.
  eapply bst_insert_inorder; [exact Hrun|].
  rewrite IH. apply insertAll_sorted.
Qed.

Lemma avl_builtBy ks (t : Avl.AvlNode) :
  builtBy ks t -> NoDup ks -> inorder t = insertAll ks /\ avlOk t.
Proof.
  induction 1 as [|ks t k g t' g' _ IH Hrun]; intros Hnd.
  - split; [reflexivity|]. split; exact I.
  - apply NoDup_snoc_inv in Hnd as [Hnd Hk].
    destruct (IH Hnd) as [Hin Hok]. split.
    + rewrite insertAll_snoc, <- Hin.
      eapply avl_insert_inorder; [exact Hrun|].
      rewrite Hin. apply insertAll_sorted.
    + eapply avl_insert_balanced; [exact Hrun|exact Hok|].
      intros Hf. apply findRecursive_inorder in Hf.
      rewrite Hin, insertAll_perm in Hf. contradiction.
Qed.

Lemma rb_builtBy ks (t : RbTree) :
  builtBy ks t ->
  exists T, (forall g, represents (rbState t g) T)
            /\ rbInv T /\ keys T = insertAll ks.
Proof.
  induction 1 as [|ks t k g t' g' _ (T & Hrep & Hinv & Hk) Hrun].
  - exists Leaf. split; [intros g; apply represents_empty|].
    split; [|reflexivity]. split; [unfold rbOk; simpl; tauto|constructor].
  - destruct (rbCall_insert t k g T (Hrep g) Hinv)
      as (t1 & g1 & Hrun1 & T' & Hrep' & Hinv' & Hk').
    simpl in Hrun. rewrite Hrun1 in Hrun. injection Hrun as <- <-.
    exists T'. split; [exact Hrep'|]. split; [exact Hinv'|].
    now rewrite insertAll_snoc, <- Hk.
Qed.

(** C1. For every sequence of [insert] calls with distinct keys, applied to
    a new tree of any of the three variants (Plain, AVL, Red-Black), an
    in-order traversal of the resulting tree visits the keys in ascending
    order; the keys visited are the keys inserted; and a further [insert] of
    a key that is not yet stored returns. *)
Theorem inorder_sorted_after_distinct_inserts :
  insertsKeepOrder Bst.BstNode
  /\ insertsKeepOrder Avl.AvlNode
  /\ insertsKeepOrder RbTree.
Proof.
  split; [|split]; intros ks t Hnd Hb.
  - apply bst_builtBy in Hb. unfold inorderOf, BstTraversal. rewrite Hb.
    split; [now apply insertAll_strict|]. split; [apply insertAll_perm|].
    intros k g _ _. apply bst_insert_total.
  - apply avl_builtBy in Hb as [Hb Hok]; [|exact Hnd].
    unfold inorderOf, AvlTraversal. rewrite Hb.
    split; [now apply insertAll_strict|]. split; [apply insertAll_perm|].
    intros k g Hk Hg. apply avl_insert_total; [exact Hok| |exact Hg].
    intros Hf. apply findRecursive_inorder in Hf.
    rewrite Hb, insertAll_perm in Hf. contradiction.
  - apply rb_builtBy in Hb as (T & Hrep & Hinv & Hk).
    unfold inorderOf, RbTraversal.
    rewrite (copyOf_represents _ _ (Hrep initialGlobal)), inorder_snapOf, Hk.
    split; [now apply insertAll_strict|]. split; [apply insertAll_perm|].
    intros k g _ _.
    destruct (rbCall_insert t k g T (Hrep g) Hinv) as (t1 & g1 & Hrun & _).
    exists t1, g1. exact Hrun.
Qed.

(** The tree, and the state of the page, after [insert(k)] called with a
    tree bound to the page. *)
Definition insertedInto {T : Type} `{Engine T} (t : T) (k : Z) : T :=
  match insertOp t k readyGlobal with
  | Some (t', _) => t'
  | None => t
  end.

Definition globalAfter {T : Type} `{Engine T} (t : T) (k : Z) : Global :=
  match insertOp t k readyGlobal with
  | Some (_, g') => g'
  | None => readyGlobal
  end.

Definition builtFrom {T : Type} `{Engine T} (ks : list Z) : T :=
  foldl insertedInto newTree ks.

(** Proves [builtBy ks (builtFrom ks)] for a list [ks] that is written out,
    one call after the other. *)
Ltac built_by_running :=
  lazymatch goal with
  | |- builtBy [] _ => apply built_new
  | |- @builtBy ?T ?E ?ks _ =>
      let k := eval cbv in (List.last ks 0) in
      let pre := eval cbv in (List.removelast ks) in
      apply (@built_insert T E pre (@builtFrom T E pre) k readyGlobal _
               (@globalAfter T E (@builtFrom T E pre) k));
      [built_by_running | vm_compute; reflexivity]
  end.

Ltac distinct_keys :=
  repeat (apply NoDup_cons; split; [set_solver|]); apply NoDup_nil_2.

Lemma inorder_sorted_after_distinct_inserts_witness :
  (inorderOf (builtFrom (T := Bst.BstNode) [20; 10; 30; 15]) = [10; 15; 20; 30]
   /\ StronglySorted Z.lt
        (inorderOf (builtFrom (T := Bst.BstNode) [20; 10; 30; 15])))
  /\ (builtFrom (T := Avl.AvlNode) [10; 20; 30]
      = node (node null 10 1 null) 20 2 (node null 30 1 null)
      /\ StronglySorted Z.lt
           (inorderOf (builtFrom (T := Avl.AvlNode) [10; 20; 30])))
  /\ (inorderOf (builtFrom (T := RbTree) [30; 20; 10; 15]) = [10; 15; 20; 30]
      /\ StronglySorted Z.lt
           (inorderOf (builtFrom (T := RbTree) [30; 20; 10; 15]))).
Proof.
  destruct inorder_sorted_after_distinct_inserts as (Hbst & Havl & Hrb).
  split; [|split]; (split; [vm_compute; reflexivity|]).
  - apply (Hbst [20; 10; 30; 15]); [distinct_keys|built_by_running].
  - apply (Havl [10; 20; 30]); [distinct_keys|built_by_running].
  - apply (Hrb [30; 20; 10; 15]); [distinct_keys|built_by_running].
Defined.

(** * Further properties of the engines *)

(** ** Looking a key up *)

Lemma sorted_inorder_node {A} (l : Node A) x a r :
  sorted (inorder (node l x a r)) ->
  sorted (inorder l) /\ sorted (inorder r)
  /\ Forall (fun k => k <= x) (inorder l)
  /\ Forall (fun k => x <= k) (inorder r).
Proof.
  intros Hs. pose proof (sorted_mid _ _ _ Hs) as [Hl Hr].
  change (inorder (node l x a r)) with (inorder l ++ x :: inorder r) in Hs.
  split; [now apply sorted_app_l in Hs|].
  split; [now apply sorted_app_r, sorted_cons_r in Hs|]. now split.
Qed.

Lemma findRecursive_spec {A} (t : Node A) (v : Z) :
  sorted (inorder t) ->
  Tree.findRecursive t v = if bool_decide (v ∈ inorder t) then 1 else -1.
Proof.
  induction t as [|l IHl x a r IHr]; intros Hs.
  - cbn [Tree.findRecursive inorder].
    rewrite bool_decide_eq_false_2; [reflexivity|]. apply not_elem_of_nil.
  - apply sorted_inorder_node in Hs as (Hsl & Hsr & Hl & Hr).
    rewrite Forall_forall in Hl, Hr. cbn [Tree.findRecursive inorder].
    destruct (v <? x) eqn:E1; [|destruct (v >? x) eqn:E2].
    + rewrite (IHl Hsl).
      rewrite (bool_decide_ext (v ∈ inorder l) (v ∈ inorder l ++ x :: inorder r));
        [reflexivity|].
      rewrite elem_of_app, elem_of_cons. split; [tauto|].
      intros [H|[->|H]]; [exact H|lia|]. specialize (Hr _ H). lia.
    + rewrite (IHr Hsr).
      rewrite (bool_decide_ext (v ∈ inorder r) (v ∈ inorder l ++ x :: inorder r));
        [reflexivity|].
      rewrite elem_of_app, elem_of_cons. split; [tauto|].
      intros [H|[->|H]]; [|lia|exact H]. specialize (Hl _ H). lia.
    + rewrite bool_decide_eq_true_2; [reflexivity|].
      rewrite elem_of_app, elem_of_cons. right. left. lia.
Qed.

(** X1. In a tree whose in-order keys ascend, [Tree.findRecursive] returns
    1 for a key that is stored and -1 for a key that is not. *)
Theorem findRecursive_finds_stored_keys {A} (t : Node A) (v : Z) :
  sorted (inorder t) ->
  Tree.findRecursive t v = if bool_decide (v ∈ inorder t) then 1 else -1.
Proof. apply findRecursive_spec. Qed.

Lemma findRecursive_finds_stored_keys_witness :
  Tree.findRecursive (node (node null 3 tt null) 5 tt (node null 8 tt null)) 8
  = 1
  /\ Tree.findRecursive (node (node null 3 tt null) 5 tt (node null 8 tt null))
       4 = -1.
Proof.
  split.
  - rewrite findRecursive_finds_stored_keys; [reflexivity|].
    repeat constructor; lia.
  - rewrite findRecursive_finds_stored_keys; [reflexivity|].
    repeat constructor; lia.
Defined.

(** ** The smallest key *)

(** The keys on the way to the leftmost node. *)
Fixpoint leftSpine {A} (n : Node A) : list Z :=
  match n with
  | null => []
  | node l v _ _ => v :: leftSpine l
  end.

Definition searchActions (ks : list Z) : list Action :=
  map (fun k => mkAction 9 (Some [ANum k])) ks.

Lemma withActions_app g (l1 l2 : list Action) :
  withActions (fun l => l ++ l2) (withActions (fun l => l ++ l1) g)
  = withActions (fun l => l ++ l1 ++ l2) g.
Proof. unfold withActions. simpl. now rewrite <- app_assoc. Qed.

(** The key of the leftmost node below a node with key [v] and left child
    [l]. *)
Fixpoint leftmost {A} (l : Node A) (v : Z) : Z :=
  match l with
  | null => v
  | node ll lv _ _ => leftmost ll lv
  end.

Lemma leftmost_first {A} (l : Node A) v a r :
  exists ks, inorder (node l v a r) = leftmost l v :: ks.
Proof.
  revert v a r. induction l as [|ll IH lv la lr _]; intros v a r.
  - simpl. eauto.
  - destruct (IH lv la lr) as (ks & Hks).
    change (inorder (node (node ll lv la lr) v a r))
      with (inorder (node ll lv la lr) ++ v :: inorder r).
    rewrite Hks. exists (ks ++ v :: inorder r). reflexivity.
Qed.

Lemma getMinValue_run {A} (l : Node A) : forall v a r g,
  Tree.getMinValue (node l v a r) g
  = Some (leftmost l v,
          withActions
            (fun acts => acts ++ searchActions (leftSpine (node l v a r))) g).
Proof.
  induction l as [|ll IH lv la lr _]; intros v a r g.
  - reflexivity.
  - change (Tree.getMinValue (node (node ll lv la lr) v a r))
      with (pushAction 9 [ANum v] >> Tree.getMinValue (node ll lv la lr)).
    unfold bind at 1. unfold pushAction at 1. rewrite pushArgs_run.
    rewrite IH. rewrite withActions_app. reflexivity.
Qed.

(** X2. On a node, [Tree.getMinValue] returns the key of the leftmost node
    below it, which is the first key of the in-order traversal, and appends
    one search action (id 9) for every node on the way down, top first. *)
Theorem getMinValue_returns_leftmost {A} (l : Node A) v a r g :
  exists m ks,
    Tree.getMinValue (node l v a r) g
    = Some (m, withActions
                 (fun acts =>
                    acts ++ searchActions (leftSpine (node l v a r))) g)
    /\ inorder (node l v a r) = m :: ks.
Proof.
  destruct (leftmost_first l v a r) as (ks & Hks).
  exists (leftmost l v), ks. split; [apply getMinValue_run|exact Hks].
Qed.

(** ** Taking a key out *)

(** The list without the first [v] in it. *)
Fixpoint delKey (v : Z) (l : list Z) : list Z :=
  match l with
  | [] => []
  | a :: l' => if a =? v then l' else a :: delKey v l'
  end.

Lemma delKey_notin v l : v ∉ l -> delKey v l = l.
Proof.
  induction l as [|a l IH]; intros Hv; simpl; [reflexivity|].
  apply not_elem_of_cons in Hv as [Hne Hv].
  destruct (a =? v) eqn:E; [lia|]. now rewrite IH.
Qed.

Lemma delKey_app_lt v l1 l2 :
  Forall (fun k => v < k) l2 -> delKey v (l1 ++ l2) = delKey v l1 ++ l2.
Proof.
  intros H. induction l1 as [|a l1 IH]; simpl.
  - apply delKey_notin. intros Hin. rewrite Forall_forall in H.
    specialize (H _ Hin). lia.
  - destruct (a =? v); [reflexivity|]. now rewrite IH.
Qed.

Lemma delKey_app_gt v l1 l2 :
  Forall (fun k => k < v) l1 -> delKey v (l1 ++ l2) = l1 ++ delKey v l2.
Proof.
  induction 1 as [|a l1 Ha _ IH]; simpl; [reflexivity|].
  destruct (a =? v) eqn:E; [lia|]. now rewrite IH.
Qed.

Lemma sorted_between a (l1 l2 : list Z) :
  sorted (a :: l1 ++ a :: l2) -> l1 ++ a :: l2 = a :: l1 ++ l2.
Proof.
  induction l1 as [|b l1 IH]; intros Hs; [reflexivity|].
  assert (b = a) as ->.
  { apply sorted_cons in Hs as [Ha Hs].
    apply Forall_cons in Ha as [Hab _].
    change ((b :: l1) ++ a :: l2) with (b :: l1 ++ a :: l2) in Hs.
    apply sorted_cons in Hs as [Hb _].
    apply Forall_app in Hb as [_ Hb]. apply Forall_cons in Hb as [Hba _]. lia. }
  simpl. f_equal. apply IH.
  change ((a :: l1) ++ a :: l2) with (a :: l1 ++ a :: l2) in Hs.
  now apply sorted_cons_r in Hs.
Qed.

Lemma delKey_mid a l1 l2 :
  sorted (l1 ++ a :: l2) -> delKey a (l1 ++ a :: l2) = l1 ++ l2.
Proof.
  induction l1 as [|b l1 IH]; intros Hs; simpl.
  - now rewrite Z.eqb_refl.
  - destruct (b =? a) eqn:E.
    + assert (b = a) as -> by lia. now apply sorted_between.
    + f_equal. apply IH.
      change ((b :: l1) ++ a :: l2) with (b :: l1 ++ a :: l2) in Hs.
      now apply sorted_cons_r in Hs.
Qed.

Lemma elem_of_delKey a v l : a ∈ delKey v l -> a ∈ l.
Proof.
  induction l as [|c l IH]; simpl; intros Hin; [exact Hin|].
  destruct (c =? v); [now apply list_elem_of_further|].
  apply elem_of_cons in Hin as [->|Hin];
    [apply list_elem_of_here|apply list_elem_of_further; auto].
Qed.

Lemma delKey_sorted v l : sorted l -> sorted (delKey v l).
Proof.
  unfold sorted. induction 1 as [|a l Hs IH Ha]; simpl; [constructor|].
  destruct (a =? v); [exact Hs|]. constructor; [exact IH|].
  rewrite Forall_forall in Ha |- *. intros b Hb. apply Ha.
  eapply elem_of_delKey, Hb.
Qed.

Lemma delKey_perm v l : v ∈ l -> l ≡ₚ v :: delKey v l.
Proof.
  induction l as [|a l IH]; intros Hv; [now apply elem_of_nil in Hv|].
  simpl. destruct (a =? v) eqn:E.
  - assert (a = v) as -> by lia. reflexivity.
  - apply elem_of_cons in Hv as [->|Hv]; [lia|].
    rewrite (IH Hv) at 1. apply perm_swap.
Qed.

Lemma delKey_strict v l :
  StronglySorted Z.lt l -> v ∉ delKey v l.
Proof.
  induction 1 as [|a l Hs IH Ha]; simpl; [apply not_elem_of_nil|].
  destruct (a =? v) eqn:E.
  - assert (a = v) as -> by lia. intros Hin. rewrite Forall_forall in Ha.
    specialize (Ha _ Hin). lia.
  - apply not_elem_of_cons. split; [lia|exact IH].
Qed.

Lemma strict_sorted l : StronglySorted Z.lt l -> sorted l.
Proof.
  unfold sorted. induction 1 as [|a l Hs IH Ha]; constructor; [exact IH|].
  eapply Forall_impl; [exact Ha|]. simpl. intros; lia.
Qed.

Lemma strict_NoDup l : StronglySorted Z.lt l -> NoDup l.
Proof.
  induction 1 as [|b l Hs IH Hb]; constructor; [|exact IH].
  intros Hin. rewrite Forall_forall in Hb. specialize (Hb _ Hin). lia.
Qed.

Lemma delKey_NoDup v l : NoDup l -> NoDup (delKey v l).
Proof.
  induction 1 as [|a l Ha Hnd IH]; simpl; [constructor|].
  destruct (a =? v); [exact Hnd|]. constructor; [|exact IH].
  intros Hin. apply Ha. eapply elem_of_delKey, Hin.
Qed.

Lemma delKey_strict_sorted v l :
  StronglySorted Z.lt l -> StronglySorted Z.lt (delKey v l).
Proof.
  intros Hs. apply sorted_NoDup_lt.
  - apply delKey_sorted, strict_sorted, Hs.
  - apply delKey_NoDup, strict_NoDup, Hs.
Qed.

Lemma inorder_orElse {A} (l r : Node A) :
  negb (isNull l) && negb (isNull r) = false ->
  inorder (orElse l r) = inorder l ++ inorder r.
Proof.
  destruct l, r; simpl; try discriminate; intros _;
    rewrite ?app_nil_r; reflexivity.
Qed.

Lemma wp_pushDelete w g (Q : unit -> Global -> Prop) :
  (forall g', Q tt g') -> wp (pushDelete w) g Q.
Proof.
  intros HQ. destruct (pushDelete_total w g) as (g' & H).
  eapply wp_run; [exact H|apply HQ].
Qed.

(** Steps through a call that cannot fail and whose effect on [Global] is
    of no interest. *)
Ltac gstep :=
  lazymatch goal with
  | |- wp (bind _ _) _ _ => apply wp_bind
  | |- wp (ret _) _ _ => apply wp_ret; cbv beta
  | |- wp (pushAction _ _) _ _ => eapply wp_run; [reflexivity|cbv beta]
  | |- wp (pushActionEnd _) _ _ => eapply wp_run; [reflexivity|cbv beta]
  | |- wp (pushActionNull _) _ _ => eapply wp_run; [reflexivity|cbv beta]
  | |- wp reverseActions _ _ => eapply wp_run; [reflexivity|cbv beta]
  | |- wp (setOperation _) _ _ => eapply wp_run; [reflexivity|cbv beta]
  | |- wp (setDeleteSpec _) _ _ => eapply wp_run; [reflexivity|cbv beta]
  | |- wp (pushDelete _) _ _ => apply wp_pushDelete; intros ?; cbv beta
  | |- wp (Tree.getMinValue (node _ _ _ _)) _ _ =>
      eapply wp_run; [apply getMinValue_run|cbv beta]
  | |- wp (if ?c then _ else _) _ _ => destruct c
  end.

Lemma wp_bst_deleteRecursive (t : Bst.BstNode) : forall wrap v g,
  sorted (inorder t) ->
  wp (Bst.deleteRecursive wrap t v) g
     (fun t' _ => inorder t' = delKey v (inorder t)).
Proof.
  induction t as [|l IHl x a r IHr]; intros wrap v g Hs.
  - apply wp_ret. reflexivity.
  - pose proof Hs as Hs0.
    apply sorted_inorder_node in Hs as (Hsl & Hsr & Hl & Hr).
    cbn [Bst.deleteRecursive].
    change (inorder (node l x a r)) with (inorder l ++ x :: inorder r) in *.
    destruct (v <? x) eqn:E1; [|destruct (v >? x) eqn:E2;
      [|destruct (negb (isNull l) && negb (isNull r)) eqn:En]].
    + do 3 gstep. eapply wp_mono; [apply IHl; exact Hsl|].
      intros l' g1 Hl'. cbv beta. repeat gstep.
      change (inorder (node l' x a r)) with (inorder l' ++ x :: inorder r).
      rewrite Hl', delKey_app_lt; [reflexivity|].
      constructor; [lia|]. eapply Forall_impl; [exact Hr|].
      simpl. intros; lia.
    + do 3 gstep. eapply wp_mono; [apply IHr; exact Hsr|].
      intros r' g1 Hr'. cbv beta. repeat gstep.
      change (inorder (node l x a r')) with (inorder l ++ x :: inorder r').
      rewrite Hr', delKey_app_gt.
      * simpl. destruct (x =? v) eqn:E; [lia|reflexivity].
      * eapply Forall_impl; [exact Hl|]. simpl. intros; lia.
    + assert (v = x) as -> by lia.
      destruct r as [|rl rx ra rr]; [destruct l; discriminate En|].
      do 7 gstep. destruct (leftmost_first rl rx ra rr) as (ks & Hks).
      eapply wp_mono; [apply IHr; exact Hsr|].
      intros r' g1 Hr'. cbv beta. repeat gstep.
      change (inorder (node l (leftmost rl rx) a r'))
        with (inorder l ++ leftmost rl rx :: inorder r').
      rewrite delKey_mid by exact Hs0. cbv beta in Hr'.
      rewrite Hr', Hks. simpl. now rewrite Z.eqb_refl.
    + assert (v = x) as -> by lia. cbv zeta. do 4 gstep; repeat gstep;
        rewrite delKey_mid by exact Hs0; now apply inorder_orElse.
Qed.

Lemma bst_delete_spec (t : Bst.BstNode) (v : Z) (g : Global) :
  sorted (inorder t) ->
  exists t' g',
    Bst.delete_ t v g = Some (t', g')
    /\ inorder t' = delKey v (inorder t).
Proof.
  intros Hs.
  enough (Hwp : wp (Bst.delete_ t v) g
                  (fun t' _ => inorder t' = delKey v (inorder t))).
  { apply wp_ex in Hwp as (t' & g' & Hrun & Hk). now exists t', g'. }
  unfold Bst.delete_. do 3 gstep.
  eapply wp_mono; [apply wp_bst_deleteRecursive; exact Hs|].
  intros t' g1 Hk. cbv beta. repeat gstep. exact Hk.
Qed.

(** X3. [Bst.prototype.delete] never fails: whatever the state of the page,
    it returns, and when the in-order keys of the tree ascend, the in-order
    keys of the result are those of the tree without (one) [v]; a tree that
    does not store [v] keeps its keys. *)
Theorem bst_delete_removes_the_key (t : Bst.BstNode) (v : Z) (g : Global) :
  sorted (inorder t) ->
  exists t' g',
    Bst.delete_ t v g = Some (t', g')
    /\ inorder t' = delKey v (inorder t)
    /\ sorted (inorder t').
Proof.
  intros Hs. destruct (bst_delete_spec t v g Hs) as (t' & g' & Hrun & Hk).
  exists t', g'. split; [exact Hrun|]. split; [exact Hk|]. rewrite Hk.
  now apply delKey_sorted.
Qed.

Lemma bst_delete_removes_the_key_witness :
  exists t' g',
    Bst.delete_ (node (node null 3 tt null) 5 tt (node null 8 tt null)) 5
      readyGlobal = Some (t', g')
    /\ inorder t' = [3; 8]
    /\ sorted (inorder t').
Proof.
  apply (bst_delete_removes_the_key
           (node (node null 3 tt null) 5 tt (node null 8 tt null)) 5
           readyGlobal).
  repeat constructor; lia.
Defined.

(** ** AVL: taking a key out *)

(** At most one record is pending, and a pending rotation record ends in
    its action id. *)
Definition recordPending (g : Global) : Prop :=
  (deleteSpec g = None \/ rotationSpec g = None)
  /\ match rotationSpec g with
     | None => True
     | Some spec => exists spec' n, popArg spec = Some (spec', ANum n)
     end.

Lemma rotationPending_record g : rotationPending g -> recordPending g.
Proof. intros [Hd Hr]. split; [now left|exact Hr]. Qed.

Lemma wp_pushDeleteAndRotate_record p w g (Q : unit -> Global -> Prop) :
  recordPending g -> (forall g', idle g' -> Q tt g') ->
  wp (pushDeleteAndRotate p w) g Q.
Proof.
  intros [Hone Hr] HQ. destruct (deleteSpec g) as [spec|] eqn:Ed.
  - destruct Hone as [Hd|Hn]; [discriminate|].
    eapply wp_run.
    + unfold pushDeleteAndRotate, pushDelete. rewrite Ed. reflexivity.
    + apply HQ. split; [reflexivity|exact Hn].
  - apply wp_pushDeleteAndRotate; [|exact HQ]. split; assumption.
Qed.

Lemma wp_setDeleteSpec b g (Q : unit -> Global -> Prop) :
  idle g -> (forall g', recordPending g' -> Q tt g') ->
  wp (setDeleteSpec b) g Q.
Proof.
  intros [Hd Hr] HQ. eapply wp_run; [reflexivity|]. apply HQ.
  split; [right; exact Hr|]. simpl. now rewrite Hr.
Qed.

Lemma wp_getMinValue {A} (l : Node A) v a r g (Q : Z -> Global -> Prop) :
  idle g -> (forall g', idle g' -> Q (leftmost l v) g') ->
  wp (Tree.getMinValue (node l v a r)) g Q.
Proof.
  intros Hg HQ. eapply wp_run; [apply getMinValue_run|]. apply HQ. exact Hg.
Qed.

Ltac avl_dstep :=
  first
    [ lazymatch goal with
      | |- wp (setDeleteSpec _) _ _ =>
          apply wp_setDeleteSpec; [assumption|intros ? ?]
      | |- wp (Tree.getMinValue (node _ _ _ _)) _ _ =>
          apply wp_getMinValue; [assumption|intros ? ?]
      | |- wp (pushDeleteAndRotate _ _) _ _ =>
          apply wp_pushDeleteAndRotate_record; [assumption|intros ? ?]
      end
    | avl_step ].

Lemma wp_avl_rebalanceDelete wrap l x h r g :
  idle g -> avlH l -> avlH r ->
  wp (Avl.rebalanceDelete wrap (node l x h r)) g
     (fun n' g' =>
        rotationPending g' /\ inorder n' = inorder l ++ x :: inorder r).
Proof.
  intros Hg Hl Hr. unfold Avl.rebalanceDelete.
  rewrite (avlH_height l Hl), (avlH_height r Hr).
  destruct (_ >? 1) eqn:E1; [|destruct (_ <? -1) eqn:E2].
  - destruct (getHeight_pos_node l) as (ll & lx & lh & lr & ->);
      [pose proof (getHeight_nonneg r); lia|].
    repeat avl_step. simpl Avl.getBalance. avl_step.
    apply (proj1 (avlH_node _ _ _ _)) in Hl. destruct Hl as (_ & Hll & Hlr).
    rewrite (avlH_height ll Hll), (avlH_height lr Hlr).
    destruct (_ >=? 0) eqn:Eb.
    + repeat avl_step. split; [assumption|].
      simpl. now rewrite <- app_assoc.
    + destruct (getHeight_pos_node lr) as (b & rv & h' & c & ->);
        [pose proof (getHeight_nonneg ll); lia|].
      repeat avl_step. split; [assumption|].
      simpl. repeat (rewrite <- app_assoc; simpl). reflexivity.
  - destruct (getHeight_pos_node r) as (rl & rx & rh & rr & ->);
      [pose proof (getHeight_nonneg l); lia|].
    repeat avl_step. simpl Avl.getBalance. avl_step.
    apply (proj1 (avlH_node _ _ _ _)) in Hr. destruct Hr as (_ & Hrl & Hrr).
    rewrite (avlH_height rl Hrl), (avlH_height rr Hrr).
    destruct (_ <=? 0) eqn:Eb.
    + repeat avl_step. split; [assumption|].
      simpl. now rewrite <- app_assoc.
    + destruct (getHeight_pos_node rl) as (a & lv & h' & b & ->);
        [pose proof (getHeight_nonneg rr); lia|].
      repeat avl_step. split; [assumption|].
      simpl. repeat (rewrite <- app_assoc; simpl). reflexivity.
  - repeat avl_step. split; [now apply idle_pending|reflexivity].
Qed.

Lemma wp_avl_deleteRecursive (t : Avl.AvlNode) : forall wrap v g,
  avlOk t -> sorted (inorder t) -> idle g ->
  wp (Avl.deleteRecursive wrap t v) g
     (fun t' g' =>
        recordPending g' /\ inorder t' = delKey v (inorder t)).
Proof.
  induction t as [|l IHl x h r IHr]; intros wrap v g Ht Hs Hg.
  - apply wp_ret. split; [|reflexivity].
    now apply rotationPending_record, idle_pending.
  - pose proof Hs as Hs0.
    apply sorted_inorder_node in Hs as (Hsl & Hsr & Hl & Hr).
    destruct Ht as [Hh Hb].
    apply (proj1 (avlH_node _ _ _ _)) in Hh. destruct Hh as (Hh & Hhl & Hhr).
    apply (proj1 (avlB_node _ _ _ _)) in Hb. destruct Hb as (Hb & Hbl & Hbr).
    cbn [Avl.deleteRecursive].
    change (inorder (node l x h r)) with (inorder l ++ x :: inorder r) in *.
    destruct (v <? x) eqn:E1; [|destruct (v >? x) eqn:E2;
      [|destruct (negb (isNull l) && negb (isNull r)) eqn:En]].
    + do 3 avl_dstep.
      eapply wp_mono;
        [apply wp_eqn, IHl; [split; assumption|exact Hsl|assumption]|].
      intros l' g1 (Heq & Hp & Hk). cbv beta.
      apply avl_deleteRecursive_balanced in Heq as ([Hl' _] & _);
        [|split; assumption].
      do 2 avl_dstep. eapply wp_mono;
        [apply wp_avl_rebalanceDelete; assumption|].
      intros n' g2 (Hp2 & Hk2). split; [now apply rotationPending_record|].
      rewrite Hk2, Hk, delKey_app_lt; [reflexivity|].
      constructor; [lia|]. eapply Forall_impl; [exact Hr|].
      simpl. intros; lia.
    + do 3 avl_dstep.
      eapply wp_mono;
        [apply wp_eqn, IHr; [split; assumption|exact Hsr|assumption]|].
      intros r' g1 (Heq & Hp & Hk). cbv beta.
      apply avl_deleteRecursive_balanced in Heq as ([Hr' _] & _);
        [|split; assumption].
      do 2 avl_dstep. eapply wp_mono;
        [apply wp_avl_rebalanceDelete; assumption|].
      intros n' g2 (Hp2 & Hk2). split; [now apply rotationPending_record|].
      rewrite Hk2, Hk, delKey_app_gt.
      * simpl. destruct (x =? v) eqn:E; [lia|reflexivity].
      * eapply Forall_impl; [exact Hl|]. simpl. intros; lia.
    + assert (v = x) as -> by lia.
      destruct r as [|rl rx ra rr]; [destruct l; discriminate En|].
      do 7 avl_dstep. destruct (leftmost_first rl rx ra rr) as (ks & Hks).
      eapply wp_mono;
        [apply wp_eqn, IHr; [split; assumption|exact Hsr|assumption]|].
      intros r' g1 (Heq & Hp & Hk). cbv beta.
      apply avl_deleteRecursive_balanced in Heq as ([Hr' _] & _);
        [|split; assumption].
      do 2 avl_dstep. eapply wp_mono;
        [apply wp_avl_rebalanceDelete; assumption|].
      intros n' g2 (Hp2 & Hk2). split; [now apply rotationPending_record|].
      rewrite delKey_mid by exact Hs0.
      rewrite Hk2, Hk, Hks. simpl. now rewrite Z.eqb_refl.
    + assert (v = x) as -> by lia. cbv zeta. do 3 avl_dstep.
      destruct (isNull (orElse l r)); repeat avl_dstep;
        (split; [assumption|]);
        rewrite delKey_mid by exact Hs0; now apply inorder_orElse.
Qed.

Lemma avl_delete_spec (t : Avl.AvlNode) (v : Z) (g : Global) :
  avlOk t -> sorted (inorder t) -> idle g ->
  exists t' g',
    Avl.delete_ t v g = Some (t', g')
    /\ inorder t' = delKey v (inorder t)
    /\ avlOk t'.
Proof.
  intros Ht Hs Hg.
  enough (Hwp : wp (Avl.delete_ t v) g
                  (fun t' _ => inorder t' = delKey v (inorder t))).
  { apply wp_ex in Hwp as (t' & g' & Hrun & Hk). exists t', g'.
    split; [exact Hrun|]. split; [exact Hk|].
    eapply avl_delete_balanced; eassumption. }
  unfold Avl.delete_. do 3 avl_dstep.
  eapply wp_mono; [apply wp_avl_deleteRecursive; assumption|].
  intros t' g1 [Hp Hk]. cbv beta. repeat avl_dstep. exact Hk.
Qed.

(** X4. On an AVL tree with right cached heights, every node balanced and
    ascending in-order keys, [Avl.prototype.delete] called with no record
    pending returns; the in-order keys of the result are those of the tree
    without (one) [v]; and the result again has right cached heights and
    balanced nodes. *)
Theorem avl_delete_removes_the_key (t : Avl.AvlNode) (v : Z) (g : Global) :
  avlOk t -> sorted (inorder t) -> idle g ->
  exists t' g',
    Avl.delete_ t v g = Some (t', g')
    /\ inorder t' = delKey v (inorder t)
    /\ avlOk t'.
Proof. apply avl_delete_spec. Qed.

Lemma avl_delete_removes_the_key_witness :
  exists t' g',
    Avl.delete_ (node (node null 3 1 null) 5 3
                   (node (node null 7 1 null) 8 2 null)) 3
      readyGlobal = Some (t', g')
    /\ inorder t' = [5; 7; 8]
    /\ avlOk t'.
Proof.
  apply (avl_delete_removes_the_key
           (node (node null 3 1 null) 5 3
              (node (node null 7 1 null) 8 2 null)) 3 readyGlobal).
  - split; simpl; unfold heightCachedAt; simpl; repeat split; lia.
  - repeat constructor; lia.
  - split; reflexivity.
Defined.

(** ** Red-Black: looking a key up *)

Lemma rb_findRecursive_spec h v : forall t fuel par,
  rep h par t -> (height t < fuel)%nat -> sorted (keys t) ->
  RedBlack.findRecursive fuel h (rootOf t) v
  = Some (if bool_decide (v ∈ keys t) then 1 else -1).
Proof.
  induction t as [|l IHl x c nv r IHr]; intros fuel par Hrep Hfuel Hs;
    (destruct fuel as [|fuel]; [simpl in Hfuel; lia|]).
  - cbn [RedBlack.findRecursive rootOf keys].
    rewrite bool_decide_eq_false_2; [reflexivity|apply not_elem_of_nil].
  - simpl in Hrep. destruct Hrep as (Hx & Hl & Hr).
    cbn [RedBlack.findRecursive rootOf]. unfold RedBlack.loc.
    rewrite Hx. cbn [RedBlack.value RedBlack.left RedBlack.right keys].
    pose proof (sorted_mid _ _ _ Hs) as [Hkl Hkr].
    rewrite Forall_forall in Hkl, Hkr.
    assert (Hsl : sorted (keys l)) by now apply sorted_app_l in Hs.
    assert (Hsr : sorted (keys r)) by now apply sorted_app_r, sorted_cons_r in Hs.
    simpl in Hfuel.
    destruct (v <? nv) eqn:E1; [|destruct (v >? nv) eqn:E2].
    + rewrite (IHl fuel (Some x) Hl) by (assumption || lia).
      rewrite (bool_decide_ext (v ∈ keys l) (v ∈ keys l ++ nv :: keys r));
        [reflexivity|].
      rewrite elem_of_app, elem_of_cons. split; [tauto|].
      intros [H|[->|H]]; [exact H|lia|]. specialize (Hkr _ H). lia.
    + rewrite (IHr fuel (Some x) Hr) by (assumption || lia).
      rewrite (bool_decide_ext (v ∈ keys r) (v ∈ keys l ++ nv :: keys r));
        [reflexivity|].
      rewrite elem_of_app, elem_of_cons. split; [tauto|].
      intros [H|[->|H]]; [|lia|exact H]. specialize (Hkl _ H). lia.
    + rewrite bool_decide_eq_true_2; [reflexivity|].
      rewrite elem_of_app, elem_of_cons. right. left. lia.
Qed.

Lemma rb_find_spec s t v :
  represents s t -> sorted (keys t) ->
  RedBlack.find s v = Some (if bool_decide (v ∈ keys t) then 1 else -1).
Proof.
  intros H Hs. pose proof (size_bound _ _ H). pose proof (height_size t).
  destruct H as (Hrep & Hroot & _). unfold RedBlack.find. rewrite Hroot.
  eapply rb_findRecursive_spec; [exact Hrep|lia|exact Hs].
Qed.

Lemma inorder_copyOf s t : represents s t -> inorder (RedBlack.copyOf s) = keys t.
Proof. intros H. now rewrite (copyOf_represents _ _ H), inorder_snapOf. Qed.

(** X5. In every Red-Black tree that inserts and deletes can build, [find]
    returns 1 for a key that is stored and -1 for a key that is not (the
    descent always ends); the stored keys are those of the tree's copy. *)
Theorem rb_find_finds_stored_keys (s : RedBlack.State) (v : Z) :
  rbReachable s ->
  RedBlack.find s v
  = Some (if bool_decide (v ∈ inorder (RedBlack.copyOf s)) then 1 else -1).
Proof.
  intros Hr. apply rbReachable_inv in Hr as (t & H & _ & Hs).
  rewrite (inorder_copyOf _ _ H). now apply rb_find_spec.
Qed.

(** The state after the calls [insert(k)], for the keys of [ks] in turn, on a
    new tree bound to the page. *)
Definition rbBuilt (ks : list Z) : RedBlack.State :=
  foldl (fun s k => after (RedBlack.insert k) s)
        (RedBlack.emptyState readyGlobal) ks.

(** Proves [rbReachable (rbBuilt ks)] for a list that is written out. *)
Ltac rb_built :=
  lazymatch goal with
  | |- rbReachable (rbBuilt []) => apply rbReachable_new
  | |- rbReachable (rbBuilt ?ks) =>
      let k := eval cbv in (List.last ks 0) in
      let pre := eval cbv in (List.removelast ks) in
      apply (rbReachable_insert (rbBuilt pre) k);
      [rb_built | vm_compute; reflexivity]
  end.

Lemma rb_find_finds_stored_keys_witness :
  RedBlack.find (rbBuilt [10; 20; 30; 15]) 15 = Some 1
  /\ RedBlack.find (rbBuilt [10; 20; 30; 15]) 12 = Some (-1).
Proof.
  split.
  - rewrite (rb_find_finds_stored_keys (rbBuilt [10; 20; 30; 15]) 15);
      [vm_compute; reflexivity|rb_built].
  - rewrite (rb_find_finds_stored_keys (rbBuilt [10; 20; 30; 15]) 12);
      [vm_compute; reflexivity|rb_built].
Defined.

(** ** Red-Black: taking a key out *)

Definition deleteKeysPost (ks : list Z) (_ : unit) (s : RedBlack.State) : Prop :=
  exists t, represents s t /\ rbInv t /\ keys t = ks.

Lemma deleteRecursive_keys bound : forall t k s fuel v,
  (height t <= fuel)%nat ->
  (length (locs (plug k t)) < bound)%nat ->
  represents s (plug k t) ->
  rbInv (plug k t) ->
  v ∈ keys t ->
  wp (RedBlack.deleteRecursive fuel bound (rootOf t) v) s
     (deleteKeysPost (keysL k ++ delKey v (keys t) ++ keysR k)).
Proof.
  induction t as [|l IHl x c nv r IHr]; intros k s fuel v Hfuel Hbound H
    [Hok Hs] Hv; [now apply elem_of_nil in Hv|].
  destruct fuel as [|fuel]; [simpl in Hfuel; lia|].
  cbn [RedBlack.deleteRecursive rootOf]. wstep s H.
  pose proof Hs as Hst. rewrite keys_plug in Hst.
  apply sorted_app in Hst as (_ & Hst & _).
  apply sorted_app in Hst as (Hst & _ & _). simpl in Hst.
  pose proof Hst as Hmid.
  apply sorted_app in Hst as (Hsl & Hsr & Hlr).
  apply sorted_cons in Hsr as [Hnr Hsr].
  assert (Hln : Forall (fun a => a <= nv) (keys l)).
  { eapply Forall_impl; [exact Hlr|]. simpl. intros a Ha.
    now apply Forall_cons in Ha as [Ha _]. }
  simpl in Hv. rewrite elem_of_app, elem_of_cons in Hv.
  cbn [keys].
  destruct (v <? nv) eqn:E1; [|destruct (v >? nv) eqn:E2].
  - (* to the left *)
    do 2 wstep s H.
    rewrite delKey_app_lt
      by (constructor; [lia|]; eapply Forall_impl; [exact Hnr|];
          simpl; intros; lia).
    rewrite <- app_assoc.
    apply (IHl (FL x c nv r :: k)); [simpl in Hfuel; lia|exact Hbound
                                     |exact H|now split|].
    rewrite Forall_forall in Hnr.
    destruct Hv as [Hv|[->|Hv]]; [exact Hv|lia|].
    specialize (Hnr _ Hv). lia.
  - (* to the right *)
    do 2 wstep s H.
    rewrite delKey_app_gt
      by (eapply Forall_impl; [exact Hln|]; simpl; intros; lia).
    cbn [delKey]. replace (nv =? v) with false by lia.
    replace (keysL k ++ (keys l ++ nv :: delKey v (keys r)) ++ keysR k)
      with (keysL (FR l x c nv :: k) ++ delKey v (keys r)
            ++ keysR (FR l x c nv :: k))
      by (simpl; repeat (rewrite <- app_assoc; simpl); reflexivity).
    apply (IHr (FR l x c nv :: k)); [simpl in Hfuel; lia|exact Hbound
                                     |exact H|now split|].
    rewrite Forall_forall in Hln.
    destruct Hv as [Hv|[->|Hv]]; [|lia|exact Hv].
    specialize (Hln _ Hv). lia.
  - (* this node *)
    assert (v = nv) as -> by lia. clear Hv E1 E2.
    rewrite delKey_mid by exact Hmid.
    do 2 wstep s H.
    assert (Hrm : l = Leaf \/ r = Leaf ->
      wp (RedBlack.removeNode bound (Some x)) s
         (deleteKeysPost (keysL k ++ (keys l ++ keys r) ++ keysR k))).
    { intros Hside. eapply wp_mono.
      - eapply removeNode_spec; [|exact H|exact Hside|exact Hok].
        pose proof (length_ctxLocs k). rewrite length_locs_plug in Hbound.
        lia.
      - intros [] s' (t' & H' & Hok' & Hk'). exists t'.
        split; [exact H'|]. rewrite <- app_assoc.
        split; [|exact Hk']. split; [exact Hok'|]. rewrite Hk'.
        rewrite keys_plug in Hs. simpl in Hs.
        rewrite <- !app_assoc in Hs. simpl in Hs.
        rewrite app_assoc. rewrite app_assoc in Hs.
        eapply sorted_remove. rewrite <- !app_assoc.
        rewrite <- !app_assoc in Hs. exact Hs. }
    destruct l as [|ll lx lc lv lr]; [apply Hrm; now left|].
    destruct r as [|rl rx rc rv rr]; [apply Hrm; now right|].
    clear Hrm. cbn [rootOf]. wstep s H. apply wp_bind.
    eapply wp_mono.
    { apply (getMinValue_spec (Tn rl rx rc rv rr)
               (FR (Tn ll lx lc lv lr) x c nv :: k));
        [discriminate| |exact H].
      pose proof (height_size (Tn (Tn ll lx lc lv lr) x c nv
                                 (Tn rl rx rc rv rr))) as Hh.
      rewrite length_locs_plug in Hbound.
      assert (height (Tn rl rx rc rv rr)
              < height (Tn (Tn ll lx lc lv lr) x c nv (Tn rl rx rc rv rr)))%nat
        by (simpl; lia).
      lia. }
    cbv beta. clear s H. intros m s [-> H]. unfocus H.
    do 2 wstep s H.
    destruct (minKey_keys (Tn rl rx rc rv rr)) as (ks & Hks); [discriminate|].
    replace (keysL k ++ (keys (Tn ll lx lc lv lr) ++ keys (Tn rl rx rc rv rr))
             ++ keysR k)
      with (keysL (FR (Tn ll lx lc lv lr) x c (minKey (Tn rl rx rc rv rr)) :: k)
            ++ delKey (minKey (Tn rl rx rc rv rr)) (keys (Tn rl rx rc rv rr))
            ++ keysR (FR (Tn ll lx lc lv lr) x c
                         (minKey (Tn rl rx rc rv rr)) :: k)).
    2:{ rewrite Hks. cbn [delKey keysL keysR]. rewrite Z.eqb_refl.
        repeat (rewrite <- app_assoc; simpl). reflexivity. }
    apply (IHr (FR (Tn ll lx lc lv lr) x c (minKey (Tn rl rx rc rv rr)) :: k)).
    + simpl in Hfuel |- *. lia.
    + cbn [plug fill]. erewrite locs_plug_eq; [exact Hbound|reflexivity].
    + exact H.
    + split; [cbn [plug fill]; eapply rbOk_setValue; exact Hok|].
      cbn [plug fill]. rewrite keys_plug in Hs |- *.
      rewrite (keys_Tn _ x c nv (Tn rl rx rc rv rr)) in Hs.
      rewrite (keys_Tn _ x c _ (Tn rl rx rc rv rr)).
      rewrite Hks in Hs |- *.
      rewrite <- !app_assoc in Hs |- *. simpl in Hs |- *.
      rewrite app_assoc in Hs |- *.
      eapply sorted_replace. exact Hs.
    + rewrite Hks. apply elem_of_cons. now left.
Qed.

Lemma rb_delete_keys s t v :
  represents s t -> rbInv t -> v ∈ keys t ->
  wp (RedBlack.delete_ v) s (deleteKeysPost (delKey v (keys t))).
Proof.
  intros H Hinv Hv. unfold RedBlack.delete_.
  do 2 wstep s H. apply wp_bind. eapply wp_run; [reflexivity|]. cbv beta.
  apply wp_bind. eapply wp_mono.
  { apply (deleteRecursive_keys _ t []); [| |exact H|exact Hinv|exact Hv].
    - pose proof (height_size t). pose proof (size_bound _ _ H). lia.
    - pose proof (size_bound _ _ H). simpl. lia. }
  cbv beta. clear s H. intros [] s (t' & H & Hinv' & Hk).
  simpl in Hk. rewrite app_nil_r in Hk.
  wgo s H. now exists t'.
Qed.

(** X6. From every Red-Black tree that inserts and deletes can build,
    [insert] returns, and the in-order keys of the new tree are those of the
    old one with [v] put in its place (after the keys equal to it). *)
Theorem rb_insert_adds_the_key (s : RedBlack.State) (v : Z) :
  rbReachable s ->
  exists s',
    RedBlack.insert v s = Some (tt, s')
    /\ inorder (RedBlack.copyOf s')
       = insKey v (inorder (RedBlack.copyOf s)).
Proof.
  intros Hr. apply rbReachable_inv in Hr as (t & H & Hinv).
  pose proof (rb_insert_spec s t v H Hinv) as Hwp.
  apply wp_ex in Hwp as ([] & s' & Hrun & t' & H' & _ & Hk).
  exists s'. split; [exact Hrun|].
  now rewrite (inorder_copyOf _ _ H), (inorder_copyOf _ _ H').
Qed.

Lemma rb_insert_adds_the_key_witness :
  exists s',
    RedBlack.insert 15 (rbBuilt [10; 20; 30]) = Some (tt, s')
    /\ inorder (RedBlack.copyOf s')
       = insKey 15 (inorder (RedBlack.copyOf (rbBuilt [10; 20; 30]))).
Proof. apply rb_insert_adds_the_key. rb_built. Defined.

(** X7. From every Red-Black tree that inserts and deletes can build,
    [delete] of a key that [find] finds returns, and the in-order keys of
    the new tree are those of the old one without (one) [v]. *)
Theorem rb_delete_removes_the_key (s : RedBlack.State) (v : Z) :
  rbReachable s -> RedBlack.find s v = Some 1 ->
  exists s',
    RedBlack.delete_ v s = Some (tt, s')
    /\ inorder (RedBlack.copyOf s')
       = delKey v (inorder (RedBlack.copyOf s)).
Proof.
  intros Hr Hf. apply rbReachable_inv in Hr as (t & H & Hinv).
  pose proof (rb_delete_keys s t v H Hinv (find_present _ _ _ H Hf)) as Hwp.
  apply wp_ex in Hwp as ([] & s' & Hrun & t' & H' & _ & Hk).
  exists s'. split; [exact Hrun|].
  now rewrite (inorder_copyOf _ _ H), (inorder_copyOf _ _ H').
Qed.

Lemma rb_delete_removes_the_key_witness :
  exists s',
    RedBlack.delete_ 20 (rbBuilt [10; 20; 30; 15]) = Some (tt, s')
    /\ inorder (RedBlack.copyOf s')
       = delKey 20 (inorder (RedBlack.copyOf (rbBuilt [10; 20; 30; 15]))).
Proof.
  apply rb_delete_removes_the_key; [rb_built|vm_compute; reflexivity].
Defined.

(** *** A key that is not stored *)

Lemma rb_valueOf_heap s x n :
  RedBlack.heap s !! x = Some n ->
  RedBlack.valueOf (Some x) s = Some (RedBlack.value n, s).
Proof.
  intros H. unfold RedBlack.valueOf.
  erewrite bind_run by (apply getNode_run; exact H). reflexivity.
Qed.

Lemma rb_leftOf_heap s x n :
  RedBlack.heap s !! x = Some n ->
  RedBlack.leftOf (Some x) s = Some (RedBlack.left n, s).
Proof.
  intros H. unfold RedBlack.leftOf.
  erewrite bind_run by (apply getNode_run; exact H). reflexivity.
Qed.

Lemma rb_rightOf_heap s x n :
  RedBlack.heap s !! x = Some n ->
  RedBlack.rightOf (Some x) s = Some (RedBlack.right n, s).
Proof.
  intros H. unfold RedBlack.rightOf.
  erewrite bind_run by (apply getNode_run; exact H). reflexivity.
Qed.

Lemma rb_deleteRecursive_absent bound v : forall fuel t par s,
  rep (RedBlack.heap s) par t -> v ∉ keys t ->
  RedBlack.deleteRecursive fuel bound (rootOf t) v s = None.
Proof.
  induction fuel as [|fuel IH]; intros t par s Hrep Hv; [reflexivity|].
  destruct t as [|l x c nv r]; [reflexivity|].
  simpl in Hrep. destruct Hrep as (Hx & Hl & Hr).
  simpl in Hv. rewrite elem_of_app, elem_of_cons in Hv.
  cbn [RedBlack.deleteRecursive rootOf].
  erewrite bind_run by (apply rb_valueOf_heap; exact Hx).
  cbn [RedBlack.value].
  destruct (v <? nv) eqn:E1; [|destruct (v >? nv) eqn:E2].
  - erewrite bind_run by reflexivity.
    erewrite bind_run by (apply rb_leftOf_heap; exact Hx).
    cbn [RedBlack.left]. apply (IH l (Some x)); [exact Hl|tauto].
  - erewrite bind_run by reflexivity.
    erewrite bind_run by (apply rb_rightOf_heap; exact Hx).
    cbn [RedBlack.right]. apply (IH r (Some x)); [exact Hr|tauto].
  - exfalso. apply Hv. right. left. lia.
Qed.

(** X8. [RedBlack.prototype.delete] of a key that [find] does not find
    does not return: the descent reaches a null child and reads its value
    (a [TypeError]); on an empty tree it fails at once. This holds for every
    Red-Black tree that inserts and deletes can build. *)
Theorem rb_delete_absent_key_throws (s : RedBlack.State) (v : Z) :
  rbReachable s -> RedBlack.find s v <> Some 1 ->
  RedBlack.delete_ v s = None.
Proof.
  intros Hr Hf. apply rbReachable_inv in Hr as (t & H & _ & Hs).
  assert (Hv : v ∉ keys t).
  { intros Hv. apply Hf. rewrite (rb_find_spec s t v H Hs).
    now rewrite bool_decide_eq_true_2. }
  destruct H as (Hrep & Hroot & _).
  unfold RedBlack.delete_.
  erewrite bind_run by reflexivity.
  erewrite bind_run by reflexivity.
  erewrite bind_run by reflexivity.
  unfold bind at 1. rewrite Hroot.
  erewrite (rb_deleteRecursive_absent _ v _ t None); [reflexivity|exact Hrep|exact Hv].
Qed.

Lemma rb_delete_absent_key_throws_witness :
  RedBlack.delete_ 12 (rbBuilt [10; 20; 30; 15]) = None
  /\ RedBlack.delete_ 12 (rbBuilt []) = None.
Proof.
  split.
  - apply rb_delete_absent_key_throws; [rb_built|vm_compute; discriminate].
  - apply rb_delete_absent_key_throws; [rb_built|vm_compute; discriminate].
Defined.

(** ** The keys after a delete that returned *)

Lemma avl_rebalanceDelete_inorder wrap n g n' g' :
  Avl.rebalanceDelete wrap n g = Some (n', g') -> inorder n' = inorder n.
Proof.
  intros H. destruct n as [|l x h r]; [discriminate H|].
  unfold Avl.rebalanceDelete in H.
  destruct (_ >? 1); [|destruct (_ <? -1)]; msplit.
  - rot_inv. subst. destruct (_ >=? 0); msplit; rot_inv; subst; node_inj;
      simpl; repeat (rewrite <- app_assoc; simpl); reflexivity.
  - rot_inv. subst. destruct (_ <=? 0); msplit; rot_inv; subst; node_inj;
      simpl; repeat (rewrite <- app_assoc; simpl); reflexivity.
  - reflexivity.
Qed.

Lemma avl_deleteRecursive_inorder (t : Avl.AvlNode) : forall wrap v g t' g',
  Avl.deleteRecursive wrap t v g = Some (t', g') ->
  sorted (inorder t) ->
  inorder t' = delKey v (inorder t).
Proof.
  induction t as [|l IHl x h r IHr]; intros wrap v g t' g' H Hs;
    cbn [Avl.deleteRecursive] in H.
  - msplit. reflexivity.
  - pose proof Hs as Hs0.
    apply sorted_inorder_node in Hs as (Hsl & Hsr & Hl & Hr).
    change (inorder (node l x h r)) with (inorder l ++ x :: inorder r) in *.
    destruct (v <? x) eqn:E1; [|destruct (v >? x) eqn:E2;
      [|destruct (negb (isNull l) && negb (isNull r)) eqn:En]].
    + msplit.
      match goal with H : Avl.deleteRecursive _ _ _ _ = _ |- _ =>
        apply IHl in H; [|exact Hsl]; rename H into Hk end.
      match goal with H : Avl.rebalanceDelete _ _ _ = _ |- _ =>
        apply avl_rebalanceDelete_inorder in H; rewrite H end.
      change (inorder (node ?a x h r)) with (inorder a ++ x :: inorder r).
      rewrite Hk, delKey_app_lt; [reflexivity|].
      constructor; [lia|]. eapply Forall_impl; [exact Hr|].
      simpl. intros; lia.
    + msplit.
      match goal with H : Avl.deleteRecursive _ _ _ _ = _ |- _ =>
        apply IHr in H; [|exact Hsr]; rename H into Hk end.
      match goal with H : Avl.rebalanceDelete _ _ _ = _ |- _ =>
        apply avl_rebalanceDelete_inorder in H; rewrite H end.
      change (inorder (node l x h ?a)) with (inorder l ++ x :: inorder a).
      rewrite Hk, delKey_app_gt.
      * simpl. destruct (x =? v) eqn:E; [lia|reflexivity].
      * eapply Forall_impl; [exact Hl|]. simpl. intros; lia.
    + assert (v = x) as -> by lia.
      destruct r as [|rl rx ra rr]; [destruct l; discriminate En|].
      apply bind_Some in H as ([] & g1 & _ & H).
      apply bind_Some in H as (m & g2 & Hm & H).
      rewrite getMinValue_run in Hm. injection Hm as <- _.
      msplit. destruct (leftmost_first rl rx ra rr) as (ks & Hks).
      match goal with H : Avl.deleteRecursive _ _ _ _ = _ |- _ =>
        apply IHr in H; [|exact Hsr]; rename H into Hk end.
      match goal with H : Avl.rebalanceDelete _ _ _ = _ |- _ =>
        apply avl_rebalanceDelete_inorder in H; rewrite H end.
      change (inorder (node l ?m h ?a)) with (inorder l ++ m :: inorder a).
      rewrite delKey_mid by exact Hs0.
      rewrite Hk, Hks. simpl. now rewrite Z.eqb_refl.
    + assert (v = x) as -> by lia. cbv zeta in H.
      destruct (isNull (orElse l r)); msplit;
        rewrite delKey_mid by exact Hs0; now apply inorder_orElse.
Qed.

Lemma avl_delete_inorder t v g t' g' :
  Avl.delete_ t v g = Some (t', g') -> sorted (inorder t) ->
  inorder t' = delKey v (inorder t).
Proof.
  intros H Hs. unfold Avl.delete_ in H. msplit.
  eapply avl_deleteRecursive_inorder; eassumption.
Qed.

Lemma rbCall_delete t v g T :
  represents (rbState t g) T -> rbInv T -> v ∈ keys T ->
  exists t' g',
    rbCall (RedBlack.delete_ v) t g = Some (t', g')
    /\ exists T', (forall g0, represents (rbState t' g0) T')
                  /\ rbInv T' /\ keys T' = delKey v (keys T).
Proof.
  intros H Hinv Hv. pose proof (rb_delete_keys _ _ v H Hinv Hv) as Hwp.
  apply wp_ex in Hwp as ([] & s' & Hrun & T' & H' & Hinv' & Hk).
  unfold rbCall. fold (rbState t g). rewrite Hrun.
  eexists _, _. split; [reflexivity|].
  exists T'. split; [|split; assumption].
  intros g0. apply (represents_glob _ _ g0 H').
Qed.

(** ** The trees the page can build, in any of the three variants *)

Lemma insKey_strict k l :
  StronglySorted Z.lt l -> k ∉ l -> StronglySorted Z.lt (insKey k l).
Proof.
  intros Hs Hk. apply sorted_NoDup_lt.
  - apply insKey_sorted, strict_sorted, Hs.
  - rewrite insKey_perm. constructor; [exact Hk|]. now apply strict_NoDup.
Qed.

Lemma elem_of_insKey v k l : v ∈ insKey k l <-> v = k \/ v ∈ l.
Proof. rewrite insKey_perm. apply elem_of_cons. Qed.

Lemma elem_of_delKey_ne v k l : v <> k -> v ∈ delKey k l <-> v ∈ l.
Proof.
  intros Hne. split; [apply elem_of_delKey|].
  induction l as [|a l IH]; simpl; intros Hin; [exact Hin|].
  apply elem_of_cons in Hin as [->|Hin].
  - destruct (a =? k) eqn:E; [lia|apply list_elem_of_here].
  - destruct (a =? k); [exact Hin|]. apply list_elem_of_further; auto.
Qed.

(** [addClick] calls [insert] only with a key that [find] does not find,
    [deleteClick] calls [delete] only with a key that [find] finds. *)
Inductive permitted {T : Type} `{Engine T} : T -> Prop :=
| permitted_new : permitted newTree
| permitted_insert t k g t' g' :
    permitted t -> findOp t k <> Some 1 ->
    insertOp t k g = Some (t', g') -> permitted t'
| permitted_delete t k g t' g' :
    permitted t -> findOp t k = Some 1 ->
    deleteOp t k g = Some (t', g') -> permitted t'.

Definition found (v : Z) (ks : list Z) : option Z :=
  Some (if bool_decide (v ∈ ks) then 1 else -1).

(** What the three engines have in common: an invariant of the trees the
    page can build, under which [find], [insert] and [delete] do to the
    in-order keys what a search tree does. *)
Record SearchTree (T : Type) `{Engine T} `{Traversal T} : Type := {
  inv : T -> Prop;
  inv_new : inv newTree;
  inv_sorted t : inv t -> StronglySorted Z.lt (inorderOf t);
  inv_find t v : inv t -> findOp t v = found v (inorderOf t);
  inv_insert t k g t' g' :
    inv t -> k ∉ inorderOf t -> insertOp t k g = Some (t', g') ->
    inv t' /\ inorderOf t' = insKey k (inorderOf t);
  inv_delete t k g t' g' :
    inv t -> k ∈ inorderOf t -> deleteOp t k g = Some (t', g') ->
    inv t' /\ inorderOf t' = delKey k (inorderOf t);
  inv_insert_returns t k g :
    inv t -> k ∉ inorderOf t -> idle g ->
    exists t' g', insertOp t k g = Some (t', g');
  inv_delete_returns t k g :
    inv t -> k ∈ inorderOf t -> idle g ->
    exists t' g', deleteOp t k g = Some (t', g')
}.
Arguments inv {T _ _} _ _.
Arguments inv_new {T _ _} _.
Arguments inv_sorted {T _ _} _ _ _.
Arguments inv_find {T _ _} _ _ _ _.
Arguments inv_insert {T _ _} _ _ _ _ _ _ _ _ _.
Arguments inv_delete {T _ _} _ _ _ _ _ _ _ _ _.
Arguments inv_insert_returns {T _ _} _ _ _ _ _ _ _.
Arguments inv_delete_returns {T _ _} _ _ _ _ _ _ _.

Lemma found_1 v ks : found v ks = Some 1 <-> v ∈ ks.
Proof.
  unfold found. destruct (bool_decide (v ∈ ks)) eqn:E.
  - apply bool_decide_eq_true in E. tauto.
  - apply bool_decide_eq_false in E. split; [discriminate|tauto].
Qed.

Lemma found_ext v ks ks' : (v ∈ ks <-> v ∈ ks') -> found v ks = found v ks'.
Proof. intros H. unfold found. now rewrite (bool_decide_ext _ _ H). Qed.

Section Generic.
Context {T : Type} `{Engine T} `{Traversal T} (M : SearchTree T).

Lemma permitted_inv t : permitted t -> inv M t.
Proof.
  induction 1 as [|t k g t' g' _ IH Hf Hrun|t k g t' g' _ IH Hf Hrun].
  - apply (inv_new M).
  - eapply (inv_insert M); [exact IH| |exact Hrun].
    rewrite (inv_find M t k IH), found_1 in Hf. exact Hf.
  - eapply (inv_delete M); [exact IH| |exact Hrun].
    rewrite (inv_find M t k IH), found_1 in Hf. exact Hf.
Qed.

Lemma generic_search t :
  permitted t ->
  StronglySorted Z.lt (inorderOf t)
  /\ forall v, findOp t v = found v (inorderOf t).
Proof.
  intros Hp. apply permitted_inv in Hp.
  split; [now apply (inv_sorted M)|]. intros v. now apply (inv_find M).
Qed.

Lemma generic_insert t k g :
  permitted t -> idle g -> findOp t k <> Some 1 ->
  exists t' g',
    insertOp t k g = Some (t', g')
    /\ inorderOf t' = insKey k (inorderOf t)
    /\ findOp t' k = Some 1
    /\ forall v, v <> k -> findOp t' v = findOp t v.
Proof.
  intros Hp Hg Hf. apply permitted_inv in Hp.
  rewrite (inv_find M t k Hp), found_1 in Hf.
  destruct (inv_insert_returns M t k g Hp Hf Hg) as (t' & g' & Hrun).
  destruct (inv_insert M t k g t' g' Hp Hf Hrun) as (Hp' & Hk).
  exists t', g'. split; [exact Hrun|]. split; [exact Hk|]. split.
  - rewrite (inv_find M t' k Hp'), found_1, Hk, elem_of_insKey. now left.
  - intros v Hv. rewrite (inv_find M t' v Hp'), (inv_find M t v Hp), Hk.
    apply found_ext. rewrite elem_of_insKey. tauto.
Qed.

Lemma generic_delete t k g :
  permitted t -> idle g -> findOp t k = Some 1 ->
  exists t' g',
    deleteOp t k g = Some (t', g')
    /\ inorderOf t' = delKey k (inorderOf t)
    /\ findOp t' k = Some (-1)
    /\ forall v, v <> k -> findOp t' v = findOp t v.
Proof.
  intros Hp Hg Hf. apply permitted_inv in Hp.
  rewrite (inv_find M t k Hp), found_1 in Hf.
  destruct (inv_delete_returns M t k g Hp Hf Hg) as (t' & g' & Hrun).
  destruct (inv_delete M t k g t' g' Hp Hf Hrun) as (Hp' & Hk).
  exists t', g'. split; [exact Hrun|]. split; [exact Hk|]. split.
  - rewrite (inv_find M t' k Hp'), Hk. unfold found.
    rewrite bool_decide_eq_false_2; [reflexivity|].
    apply delKey_strict. now apply (inv_sorted M).
  - intros v Hv. rewrite (inv_find M t' v Hp'), (inv_find M t v Hp), Hk.
    apply found_ext. now apply elem_of_delKey_ne.
Qed.

End Generic.

Lemma bstSearchTree : SearchTree Bst.BstNode.
Proof.
  refine {| inv := fun t => StronglySorted Z.lt (inorder t) |}.
  - constructor.
  - intros t Ht. exact Ht.
  - intros t v Ht. unfold found. simpl. f_equal.
    apply findRecursive_spec, strict_sorted, Ht.
  - intros t k g t' g' Ht Hk Hrun.
    apply bst_insert_inorder in Hrun; [|apply strict_sorted, Ht].
    split; [|exact Hrun]. unfold inorderOf, BstTraversal in Hk.
    rewrite Hrun. now apply insKey_strict.
  - intros t k g t' g' Ht Hk Hrun.
    destruct (bst_delete_spec t k g (strict_sorted _ Ht))
      as (t1 & g1 & H1 & Hk1).
    simpl in Hrun. rewrite H1 in Hrun. injection Hrun as <- <-.
    split; [|exact Hk1]. rewrite Hk1. now apply delKey_strict_sorted.
  - intros t k g _ _ _. apply bst_insert_total.
  - intros t k g Ht _ _.
    destruct (bst_delete_spec t k g (strict_sorted _ Ht))
      as (t1 & g1 & H1 & _). now exists t1, g1.
Qed.

Lemma findRecursive_absent {A} (t : Node A) k :
  sorted (inorder t) -> k ∉ inorder t -> Tree.findRecursive t k <> 1.
Proof.
  intros Hs Hk. rewrite (findRecursive_spec t k Hs).
  rewrite bool_decide_eq_false_2 by exact Hk. discriminate.
Qed.

Lemma avlSearchTree : SearchTree Avl.AvlNode.
Proof.
  refine {| inv := fun t => avlOk t /\ StronglySorted Z.lt (inorder t) |}.
  - split; [split; exact I|constructor].
  - intros t [_ Ht]. exact Ht.
  - intros t v [_ Ht]. unfold found. simpl. f_equal.
    apply findRecursive_spec, strict_sorted, Ht.
  - intros t k g t' g' [Hok Ht] Hk Hrun.
    unfold inorderOf, AvlTraversal in Hk |- *.
    pose proof (avl_insert_inorder _ _ _ _ _ Hrun (strict_sorted _ Ht)) as Hk'.
    split; [|exact Hk']. split.
    + eapply avl_insert_balanced; [exact Hrun|exact Hok|].
      apply findRecursive_absent; [apply strict_sorted, Ht|exact Hk].
    + rewrite Hk'. now apply insKey_strict.
  - intros t k g t' g' [Hok Ht] Hk Hrun.
    unfold inorderOf, AvlTraversal in Hk |- *.
    pose proof (avl_delete_inorder _ _ _ _ _ Hrun (strict_sorted _ Ht)) as Hk'.
    split; [|exact Hk']. split.
    + eapply avl_delete_balanced; [exact Hrun|exact Hok].
    + rewrite Hk'. now apply delKey_strict_sorted.
  - intros t k g [Hok Ht] Hk Hg. apply avl_insert_total; [exact Hok| |exact Hg].
    apply findRecursive_absent; [apply strict_sorted, Ht|exact Hk].
  - intros t k g [Hok Ht] _ Hg.
    destruct (avl_delete_spec t k g Hok (strict_sorted _ Ht) Hg)
      as (t1 & g1 & H1 & _). now exists t1, g1.
Qed.

Lemma rbSearchTree : SearchTree RbTree.
Proof.
  refine {| inv := fun t =>
              exists T, (forall g, represents (rbState t g) T)
                        /\ rbInv T /\ StronglySorted Z.lt (keys T) |}.
  - exists Leaf. split; [intros g; apply represents_empty|].
    split; [|constructor]. split; [unfold rbOk; simpl; tauto|constructor].
  - intros t (T & Hrep & _ & Hs). unfold inorderOf, RbTraversal.
    now rewrite (inorder_copyOf _ _ (Hrep initialGlobal)).
  - intros t v (T & Hrep & [_ Hs] & _). unfold inorderOf, RbTraversal.
    rewrite (inorder_copyOf _ _ (Hrep initialGlobal)).
    apply (rb_find_spec (rbState t initialGlobal) T v (Hrep initialGlobal) Hs).
  - intros t k g t' g' (T & Hrep & Hinv & Hs) Hk Hrun.
    unfold inorderOf, RbTraversal in Hk |- *.
    rewrite (inorder_copyOf _ _ (Hrep initialGlobal)) in Hk |- *.
    destruct (rbCall_insert t k g T (Hrep g) Hinv)
      as (t1 & g1 & Hrun1 & T' & Hrep' & Hinv' & Hk').
    simpl in Hrun. rewrite Hrun1 in Hrun. injection Hrun as <- <-.
    rewrite (inorder_copyOf _ _ (Hrep' initialGlobal)).
    split; [|exact Hk']. exists T'. split; [exact Hrep'|].
    split; [exact Hinv'|]. rewrite Hk'. now apply insKey_strict.
  - intros t k g t' g' (T & Hrep & Hinv & Hs) Hk Hrun.
    unfold inorderOf, RbTraversal in Hk |- *.
    rewrite (inorder_copyOf _ _ (Hrep initialGlobal)) in Hk |- *.
    destruct (rbCall_delete t k g T (Hrep g) Hinv Hk)
      as (t1 & g1 & Hrun1 & T' & Hrep' & Hinv' & Hk').
    simpl in Hrun. rewrite Hrun1 in Hrun. injection Hrun as <- <-.
    rewrite (inorder_copyOf _ _ (Hrep' initialGlobal)).
    split; [|exact Hk']. exists T'. split; [exact Hrep'|].
    split; [exact Hinv'|]. rewrite Hk'. now apply delKey_strict_sorted.
  - intros t k g (T & Hrep & Hinv & Hs) _ _.
    destruct (rbCall_insert t k g T (Hrep g) Hinv) as (t1 & g1 & Hrun1 & _).
    now exists t1, g1.
  - intros t k g (T & Hrep & Hinv & Hs) Hk _.
    unfold inorderOf, RbTraversal in Hk.
    rewrite (inorder_copyOf _ _ (Hrep initialGlobal)) in Hk.
    destruct (rbCall_delete t k g T (Hrep g) Hinv Hk) as (t1 & g1 & Hrun1 & _).
    now exists t1, g1.
Qed.

Definition keepsSearchOrder (T : Type) `{Engine T} `{Traversal T} : Prop :=
  forall t : T,
    permitted t ->
    StronglySorted Z.lt (inorderOf t)
    /\ forall v, findOp t v = found v (inorderOf t).

(** X9. In each of the three variants, every tree built by inserts of keys
    [find] does not find and deletes of keys [find] finds is a search tree
    with distinct keys: its in-order traversal is strictly ascending, and
    [find] returns 1 for exactly the keys of the traversal and -1 for every
    other key. (Deletes included; each call may start from any state of
    the page.) *)
Theorem permitted_trees_are_search_trees :
  keepsSearchOrder Bst.BstNode
  /\ keepsSearchOrder Avl.AvlNode
  /\ keepsSearchOrder RbTree.
Proof.
  split; [|split]; intros t Hp.
  - exact (generic_search bstSearchTree t Hp).
  - exact (generic_search avlSearchTree t Hp).
  - exact (generic_search rbSearchTree t Hp).
Qed.

(** The tree after [delete(k)], called with a tree bound to the page. *)
Definition deletedFrom {T : Type} `{Engine T} (t : T) (k : Z) : T :=
  match deleteOp t k readyGlobal with
  | Some (t', _) => t'
  | None => t
  end.

Definition globalAfterDelete {T : Type} `{Engine T} (t : T) (k : Z) : Global :=
  match deleteOp t k readyGlobal with
  | Some (_, g') => g'
  | None => readyGlobal
  end.

(** Proves [permitted] of a tree written as [builtFrom ks], or as
    [deletedFrom] of such a tree, by running the calls. *)
Ltac permitted_by_running :=
  lazymatch goal with
  | |- @permitted ?T ?E (@deletedFrom _ _ ?t ?k) =>
      apply (@permitted_delete T E t k readyGlobal _
               (@globalAfterDelete T E t k));
      [permitted_by_running | vm_compute; reflexivity
      | vm_compute; reflexivity]
  | |- @permitted ?T ?E (@builtFrom _ _ []) => apply permitted_new
  | |- @permitted ?T ?E (@builtFrom _ _ ?ks) =>
      let k := eval cbv in (List.last ks 0) in
      let pre := eval cbv in (List.removelast ks) in
      apply (@permitted_insert T E (@builtFrom T E pre) k readyGlobal _
               (@globalAfter T E (@builtFrom T E pre) k));
      [permitted_by_running | vm_compute; discriminate
      | vm_compute; reflexivity]
  end.

Lemma permitted_trees_are_search_trees_witness :
  StronglySorted Z.lt
    (inorderOf (deletedFrom (builtFrom (T := Bst.BstNode) [20; 10; 30; 15]) 20))
  /\ StronglySorted Z.lt
       (inorderOf
          (deletedFrom (builtFrom (T := Avl.AvlNode) [20; 10; 30; 40]) 10))
  /\ StronglySorted Z.lt
       (inorderOf (deletedFrom (builtFrom (T := RbTree) [20; 10; 30; 15]) 30)).
Proof.
  destruct permitted_trees_are_search_trees as (Hbst & Havl & Hrb).
  split; [|split].
  - apply (Hbst (deletedFrom (builtFrom [20; 10; 30; 15]) 20)).
    permitted_by_running.
  - apply (Havl (deletedFrom (builtFrom [20; 10; 30; 40]) 10)).
    permitted_by_running.
  - apply (Hrb (deletedFrom (builtFrom [20; 10; 30; 15]) 30)).
    permitted_by_running.
Defined.

Definition insertThenFind (T : Type) `{Engine T} `{Traversal T} : Prop :=
  forall (t : T) (k : Z) (g : Global),
    permitted t -> idle g -> findOp t k <> Some 1 ->
    exists t' g',
      insertOp t k g = Some (t', g')
      /\ inorderOf t' = insKey k (inorderOf t)
      /\ findOp t' k = Some 1
      /\ forall v, v <> k -> findOp t' v = findOp t v.

(** X10. In each of the three variants, on a tree the page can build, an
    [insert] of a key [find] does not find returns (with no record pending
    at the start); the in-order keys of the new tree are the old ones with
    the key in its place; [find] now finds the key, and answers as before
    for every other key. *)
Theorem insert_then_find_finds_the_key :
  insertThenFind Bst.BstNode
  /\ insertThenFind Avl.AvlNode
  /\ insertThenFind RbTree.
Proof.
  split; [|split]; intros t k g Hp Hg Hf.
  - exact (generic_insert bstSearchTree t k g Hp Hg Hf).
  - exact (generic_insert avlSearchTree t k g Hp Hg Hf).
  - exact (generic_insert rbSearchTree t k g Hp Hg Hf).
Qed.

Lemma readyGlobal_idle : idle readyGlobal.
Proof. split; reflexivity. Qed.

Lemma insert_then_find_finds_the_key_witness :
  (exists t' g',
      insertOp (builtFrom (T := Bst.BstNode) [20; 10; 30]) 15 readyGlobal
      = Some (t', g') /\ findOp t' 15 = Some 1)
  /\ (exists t' g',
         insertOp (builtFrom (T := Avl.AvlNode) [10; 20]) 30 readyGlobal
         = Some (t', g') /\ findOp t' 30 = Some 1)
  /\ (exists t' g',
         insertOp (builtFrom (T := RbTree) [10; 20]) 30 readyGlobal
         = Some (t', g') /\ findOp t' 30 = Some 1).
Proof.
  destruct insert_then_find_finds_the_key as (Hbst & Havl & Hrb).
  split; [|split].
  - destruct (Hbst (builtFrom [20; 10; 30]) 15 readyGlobal)
      as (t' & g' & Hrun & _ & Hf & _);
      [permitted_by_running|apply readyGlobal_idle|vm_compute; discriminate|].
    exists t', g'. split; assumption.
  - destruct (Havl (builtFrom [10; 20]) 30 readyGlobal)
      as (t' & g' & Hrun & _ & Hf & _);
      [permitted_by_running|apply readyGlobal_idle|vm_compute; discriminate|].
    exists t', g'. split; assumption.
  - destruct (Hrb (builtFrom [10; 20]) 30 readyGlobal)
      as (t' & g' & Hrun & _ & Hf & _);
      [permitted_by_running|apply readyGlobal_idle|vm_compute; discriminate|].
    exists t', g'. split; assumption.
Defined.

Definition deleteThenFind (T : Type) `{Engine T} `{Traversal T} : Prop :=
  forall (t : T) (k : Z) (g : Global),
    permitted t -> idle g -> findOp t k = Some 1 ->
    exists t' g',
      deleteOp t k g = Some (t', g')
      /\ inorderOf t' = delKey k (inorderOf t)
      /\ findOp t' k = Some (-1)
      /\ forall v, v <> k -> findOp t' v = findOp t v.

(** X11. In each of the three variants, on a tree the page can build, a
    [delete] of a key [find] finds returns (with no record pending at the
    start); the in-order keys of the new tree are the old ones without the
    key; [find] no longer finds the key, and answers as before for every
    other key. *)
Theorem delete_then_find_misses_the_key :
  deleteThenFind Bst.BstNode
  /\ deleteThenFind Avl.AvlNode
  /\ deleteThenFind RbTree.
Proof.
  split; [|split]; intros t k g Hp Hg Hf.
  - exact (generic_delete bstSearchTree t k g Hp Hg Hf).
  - exact (generic_delete avlSearchTree t k g Hp Hg Hf).
  - exact (generic_delete rbSearchTree t k g Hp Hg Hf).
Qed.

Lemma delete_then_find_misses_the_key_witness :
  (exists t' g',
      deleteOp (builtFrom (T := Bst.BstNode) [20; 10; 30]) 20 readyGlobal
      = Some (t', g') /\ findOp t' 20 = Some (-1))
  /\ (exists t' g',
         deleteOp (builtFrom (T := Avl.AvlNode) [20; 10; 30; 40]) 10
           readyGlobal
         = Some (t', g') /\ findOp t' 10 = Some (-1))
  /\ (exists t' g',
         deleteOp (builtFrom (T := RbTree) [10; 20; 30; 15]) 30 readyGlobal
         = Some (t', g') /\ findOp t' 30 = Some (-1)).
Proof.
  destruct delete_then_find_misses_the_key as (Hbst & Havl & Hrb).
  split; [|split].
  - destruct (Hbst (builtFrom [20; 10; 30]) 20 readyGlobal)
      as (t' & g' & Hrun & _ & Hf & _);
      [permitted_by_running|apply readyGlobal_idle|vm_compute; reflexivity|].
    exists t', g'. split; assumption.
  - destruct (Havl (builtFrom [20; 10; 30; 40]) 10 readyGlobal)
      as (t' & g' & Hrun & _ & Hf & _);
      [permitted_by_running|apply readyGlobal_idle|vm_compute; reflexivity|].
    exists t', g'. split; assumption.
  - destruct (Hrb (builtFrom [10; 20; 30; 15]) 30 readyGlobal)
      as (t' & g' & Hrun & _ & Hf & _);
      [permitted_by_running|apply readyGlobal_idle|vm_compute; reflexivity|].
    exists t', g'. split; assumption.
Defined.

(** ** AVL: the same key three times *)

(** Decides the tests of [H] that compare numbers. *)
Ltac decide_tests H :=
  repeat match type of H with
  | context [if ?c then _ else _] =>
      let b := eval vm_compute in c in
      lazymatch b with
      | true => change c with true in H
      | false => change c with false in H
      end;
      cbv iota in H
  end.

(** Runs [rebalanceInsert] on a node whose heights are numbers. *)
Ltac rebalance_run :=
  repeat match goal with
  | H : Avl.rebalanceInsert _ (node _ _ _ _) _ _ = _ |- _ =>
      unfold Avl.rebalanceInsert in H; progress decide_tests H; msplit
  end.

(** X12. [Avl.prototype.insert] takes an equal key to the right and
    rebalances as if it were larger: after two inserts of a key [k] into a
    new tree, the third insert of [k] does not return. The right subtree
    is two levels deep, [k > node.right.value] is false, and the rotation
    of the right child reads [right.left.right] where [right.left] is null
    (a [TypeError]). This is so whatever the state of the page at each
    call. *)
Theorem avl_third_equal_insert_throws (k : Z) (g1 g2 g3 g1' g2' : Global)
  (t1 t2 : Avl.AvlNode) :
  Avl.insert null k g1 = Some (t1, g1') ->
  Avl.insert t1 k g2 = Some (t2, g2') ->
  Avl.insert t2 k g3 = None.
Proof.
  intros H1 H2.
  assert (t1 = node null k 1 null) as ->.
  { unfold Avl.insert in H1. msplit. reflexivity. }
  assert (t2 = node null k 2 (node null k 1 null)) as ->.
  { unfold Avl.insert in H2. msplit. cbn [Avl.insertRecursive] in *.
    rewrite Z.ltb_irrefl in *. msplit. rebalance_run. reflexivity. }
  clear H1 H2.
  destruct (Avl.insert (node null k 2 (node null k 1 null)) k g3)
    as [[t3 g3']|] eqn:H3; [exfalso|reflexivity].
  unfold Avl.insert in H3. msplit. cbn [Avl.insertRecursive] in *.
  rewrite Z.ltb_irrefl in *. msplit. rebalance_run.
  rot_inv. node_inj. rewrite Z.gtb_ltb, Z.ltb_irrefl in *. msplit. rot_inv.
  subst. node_inj.
Qed.

Lemma avl_third_equal_insert_throws_witness :
  Avl.insert (node null 10 2 (node null 10 1 null)) 10 readyGlobal = None.
Proof.
  eapply (avl_third_equal_insert_throws 10 readyGlobal readyGlobal
            readyGlobal); reflexivity.
Defined.

(** ** The height after an insert *)

Lemma bst_insertRecursive_height (t : Bst.BstNode) : forall v g t' g',
  Bst.insertRecursive t v g = Some (t', g') ->
  Tree.getHeight t <= Tree.getHeight t' <= Tree.getHeight t + 1.
Proof.
  induction t as [|l IHl x a r IHr]; intros v g t' g' H; simpl in H;
    [discriminate|].
  pose proof (getHeight_nonneg l). pose proof (getHeight_nonneg r).
  destruct (v <? x).
  - destruct l as [|ll lx la lr]; msplit; [simpl in *; lia|].
    match goal with H : Bst.insertRecursive _ _ _ = _ |- _ =>
      apply IHl in H end.
    cbn [Tree.getHeight] in *. lia.
  - destruct r as [|rl rx ra rr]; msplit; [simpl in *; lia|].
    match goal with H : Bst.insertRecursive _ _ _ = _ |- _ =>
      apply IHr in H end.
    cbn [Tree.getHeight] in *. lia.
Qed.

(** X13. An insert raises the height of the tree by at most one, and never
    lowers it: for [Bst.prototype.insert] on any tree, and for
    [Avl.prototype.insert] of a key that is not stored into a tree with
    right cached heights and balanced nodes. ([animateTreeHeightChange]
    raises the height it draws by one per insert.) *)
Theorem insert_raises_height_by_at_most_one :
  (forall (t t' : Bst.BstNode) v g g',
      Bst.insert t v g = Some (t', g') ->
      Tree.getHeight t <= Tree.getHeight t' <= Tree.getHeight t + 1)
  /\ (forall (t t' : Avl.AvlNode) v g g',
         avlOk t -> Tree.findRecursive t v <> 1 ->
         Avl.insert t v g = Some (t', g') ->
         Tree.getHeight t <= Tree.getHeight t' <= Tree.getHeight t + 1).
Proof.
  split.
  - intros t t' v g g' H. unfold Bst.insert in H. msplit.
    destruct t; msplit; [simpl; lia|].
    eapply bst_insertRecursive_height; eassumption.
  - intros t t' v g g' Hok Hf H. unfold Avl.insert in H. msplit.
    destruct t; msplit; [simpl; lia|].
    match goal with H : Avl.insertRecursive _ _ _ _ = _ |- _ =>
      apply avl_insertRecursive_balanced in H; [|assumption|assumption];
      destruct H as (_ & [Hh|[Hh _]]) end; lia.
Qed.

Lemma insert_raises_height_by_at_most_one_witness :
  (exists t' g',
      Bst.insert (node null 10 tt (node null 20 tt null)) 30 readyGlobal
      = Some (t', g')
      /\ 2 <= Tree.getHeight t' <= 3)
  /\ (exists t' g',
         Avl.insert (node null 10 2 (node null 20 1 null)) 30 readyGlobal
         = Some (t', g')
         /\ 2 <= Tree.getHeight t' <= 3).
Proof.
  destruct insert_raises_height_by_at_most_one as [Hb Ha]. split.
  - eexists _, _. split; [reflexivity|].
    eapply (Hb (node null 10 tt (node null 20 tt null)) _ 30 readyGlobal).
    reflexivity.
  - eexists _, _. split; [reflexivity|].
    eapply (Ha (node null 10 2 (node null 20 1 null)) _ 30 readyGlobal).
    + split; simpl; unfold heightCachedAt; simpl; repeat split; lia.
    + simpl. discriminate.
    + reflexivity.
Defined.

(** ** A tree of random keys

    [generateRandomTree] draws its keys with [Math.random]. The outcomes
    are parameters here: [offsets] are the values of
    [Math.round(Math.random() * 4 - 2)], integers from -2 to 2, and [picks]
    the values of [Math.round(Math.random() * (numNodes - 1))], indices from
    0 to [numNodes - 1], in the order in which they are drawn. *)

(** [arr.map(x => x * 5 + Math.round(Math.random() * 4 - 2))] on the numbers
    from 1 to [numNodes]. *)
Definition randomKeys (numNodes : nat) (offsets : list Z) : list Z :=
  zip_with (fun x d => x * 5 + d) (map Z.of_nat (seq 1 numNodes)) offsets.

(** The body of the shuffle loop: [temp = arr[randNum]; arr[randNum] =
    arr[i]; arr[i] = temp]. Both indices are within the array. *)
Definition swapAt (i randNum : nat) (arr : list Z) : list Z :=
  match arr !! randNum, arr !! i with
  | Some temp, Some ai => <[i := temp]> (<[randNum := ai]> arr)
  | _, _ => arr
  end.

Fixpoint shuffleFrom (i : nat) (picks : list nat) (arr : list Z) : list Z :=
  match picks with
  | [] => arr
  | randNum :: picks' => shuffleFrom (S i) picks' (swapAt i randNum arr)
  end.

(** [arr.forEach((i) => { newTree.insert(i); })] *)
Fixpoint insertEach {T : Type} `{Engine T} (t : T) (ks : list Z) : G T :=
  match ks with
  | [] => ret t
  | k :: ks' => let* t' := insertOp t k in insertEach t' ks'
  end.

Definition generateRandomTree {T : Type} `{Engine T} (numNodes : nat)
  (offsets : list Z) (picks : list nat) : G T :=
  insertEach newTree (shuffleFrom 0 picks (randomKeys numNodes offsets)).

(** What a click leaves: nothing (the input was not a number), a message
    under the input, or a tree to animate. *)
Inductive Click (T : Type) : Type :=
| NoNumber
| Message (text : string)
| Animate (tree : T).
Arguments NoNumber {T}.
Arguments Message {T} text.
Arguments Animate {T} tree.

(** [createClick]; [input] is what [getInput] returns. *)
Definition createClick {T : Type} `{Engine T} (input : option Z)
  (offsets : list Z) (picks : list nat) : G (Click T) :=
  match input with
  | None => ret NoNumber
  | Some numNodes =>
      if (numNodes >? 200) || (numNodes <? 1)
      then ret (Message "Please enter a number between 1 and 200.")
      else
        let* t := generateRandomTree (Z.to_nat numNodes) offsets picks in
        modify (Controller.withTreeBound true) >>
        setCreateAction >>
        ret (Animate t)
  end.

Definition offsetOk (d : Z) : Prop := -2 <= d <= 2.

(** One index per element, each within the array. *)
Definition picksOk (numNodes : nat) (picks : list nat) : Prop :=
  length picks = numNodes /\ Forall (fun p => (p < numNodes)%nat) picks.

Lemma randomKeys_from (a n : nat) (offsets : list Z) :
  length offsets = n -> Forall offsetOk offsets ->
  let ks := zip_with (fun x d => x * 5 + d) (map Z.of_nat (seq a n)) offsets in
  length ks = n
  /\ StronglySorted Z.lt ks
  /\ Forall (fun k => Z.of_nat a * 5 - 2 <= k <= Z.of_nat (a + n) * 5 - 3) ks.
Proof.
  revert a offsets. induction n as [|n IH]; intros a offsets Hlen Hoff.
  - simpl. repeat split; constructor.
  - destruct offsets as [|d offsets]; [discriminate|].
    apply Forall_cons in Hoff as [Hd Hoff]. injection Hlen as Hlen.
    destruct (IH (S a) offsets Hlen Hoff) as (Hl & Hs & Hr).
    cbn zeta in *. cbn [seq map zip_with]. unfold offsetOk in Hd.
    split; [simpl; now rewrite Hl|]. split.
    + constructor; [exact Hs|]. eapply Forall_impl; [exact Hr|].
      simpl. intros k Hk. lia.
    + constructor; [lia|]. eapply Forall_impl; [exact Hr|].
      simpl. intros k Hk. lia.
Qed.

Lemma swapAt_perm i randNum arr : swapAt i randNum arr ≡ₚ arr.
Proof.
  unfold swapAt. destruct (arr !! randNum) as [temp|] eqn:E1; [|reflexivity].
  destruct (arr !! i) as [ai|] eqn:E2; [|reflexivity].
  now apply Permutation_insert_swap.
Qed.

Lemma shuffleFrom_perm picks : forall i arr, shuffleFrom i picks arr ≡ₚ arr.
Proof.
  induction picks as [|p picks IH]; intros i arr; simpl; [reflexivity|].
  rewrite IH. apply swapAt_perm.
Qed.

(** The loop only ever swaps within the array. *)
Lemma swapAt_in_range i randNum arr :
  (i < length arr)%nat -> (randNum < length arr)%nat ->
  exists temp ai,
    arr !! randNum = Some temp /\ arr !! i = Some ai
    /\ swapAt i randNum arr = <[i := temp]> (<[randNum := ai]> arr).
Proof.
  intros Hi Hr. unfold swapAt.
  destruct (lookup_lt_is_Some_2 arr randNum Hr) as (temp & ->).
  destruct (lookup_lt_is_Some_2 arr i Hi) as (ai & ->).
  now exists temp, ai.
Qed.

Lemma bst_insert_idle t v g t' g' :
  idle g -> Bst.insert t v g = Some (t', g') -> idle g'.
Proof.
  intros Hi H. unfold Bst.insert in H. msplit.
  apply (settled_idle (slotLog g)). solve_settled.
  destruct t; msplit.
  - eapply settled_same; [|apply idle_settled; exact Hi]. reflexivity.
  - match goal with H : Bst.insertRecursive _ _ _ = _ |- _ =>
      apply bst_insertRecursive_slots in H end.
    eapply settled_same; [eassumption|].
    eapply settled_same; [|apply idle_settled; exact Hi]. reflexivity.
Qed.

Lemma avl_insert_idle t v g t' g' :
  idle g -> Avl.insert t v g = Some (t', g') -> idle g'.
Proof.
  intros Hi H. unfold Avl.insert in H. msplit.
  apply (settled_idle (slotLog g)).
  destruct t; msplit.
  - solve_settled. eapply settled_same; [|apply idle_settled; exact Hi].
    reflexivity.
  - match goal with H : Avl.insertRecursive _ _ _ _ = _ |- _ =>
      apply (avl_insertRecursive_slots (slotLog g)) in H end.
    2:{ eapply settled_same; [|apply idle_settled; exact Hi]. reflexivity. }
    slots_fwd. solve_settled.
Qed.

Lemma rb_insert_idle (t : RbTree) v g t' g' :
  idle g -> insertOp t v g = Some (t', g') -> idle g'.
Proof.
  intros Hi H. apply (settled_idle (slotLog g)).
  eapply settled_same; [|apply idle_settled; exact Hi].
  apply (rbCall_respects sameSlots _ _ _ _ _ (rb_insert_sameSlots v)) in H.
  exact H.
Qed.

Section Create.
Context {T : Type} `{Engine T} `{Traversal T} (M : SearchTree T).
Context (insert_idle : forall (t : T) k g t' g',
            idle g -> insertOp t k g = Some (t', g') -> idle g').

Lemma insertEach_spec ks : forall (t : T) g,
  permitted t -> idle g -> NoDup ks ->
  (forall k, k ∈ ks -> k ∉ inorderOf t) ->
  exists t' g',
    insertEach t ks g = Some (t', g')
    /\ permitted t'
    /\ inorderOf t' ≡ₚ ks ++ inorderOf t.
Proof.
  induction ks as [|k ks IH]; intros t g Hp Hg Hnd Hnew.
  - exists t, g. split; [reflexivity|]. split; [exact Hp|reflexivity].
  - apply NoDup_cons in Hnd as [Hk Hnd].
    assert (Hf : findOp t k <> Some 1).
    { rewrite (inv_find M t k (permitted_inv M t Hp)), found_1.
      apply Hnew, list_elem_of_here. }
    destruct (generic_insert M t k g Hp Hg Hf)
      as (t1 & g1 & Hrun & Hk1 & _ & _).
    assert (Hp1 : permitted t1) by (eapply permitted_insert; eassumption).
    destruct (IH t1 g1 Hp1 (insert_idle _ _ _ _ _ Hg Hrun) Hnd)
      as (t' & g' & Hrun' & Hp' & Hk').
    { intros k' Hk'. rewrite Hk1, elem_of_insKey. intros [->|Hin].
      - contradiction.
      - apply (Hnew k'); [now apply list_elem_of_further|exact Hin]. }
    exists t', g'. split; [|split; [exact Hp'|]].
    + cbn [insertEach]. unfold bind. rewrite Hrun. exact Hrun'.
    + rewrite Hk', Hk1, insKey_perm. symmetry. apply Permutation_middle.
Qed.

Lemma generic_createClick (numNodes : Z) offsets picks g :
  1 <= numNodes <= 200 ->
  length offsets = Z.to_nat numNodes -> Forall offsetOk offsets ->
  idle g -> inorderOf (newTree (T := T)) = [] ->
  exists t g',
    createClick (Some numNodes) offsets picks g = Some (Animate t, g')
    /\ permitted t
    /\ StronglySorted Z.lt (inorderOf t)
    /\ Z.of_nat (length (inorderOf t)) = numNodes
    /\ Forall (fun k => 3 <= k <= numNodes * 5 + 2) (inorderOf t)
    /\ actionList g' = [mkAction 0 (Some [])].
Proof.
  intros Hn Hlen Hoff Hg Hnew.
  destruct (randomKeys_from 1 (Z.to_nat numNodes) offsets Hlen Hoff)
    as (Hl & Hs & Hr). cbn zeta in *.
  fold (randomKeys (Z.to_nat numNodes) offsets) in Hl, Hs, Hr.
  pose proof (shuffleFrom_perm picks 0 (randomKeys (Z.to_nat numNodes) offsets))
    as Hperm.
  destruct (insertEach_spec
              (shuffleFrom 0 picks (randomKeys (Z.to_nat numNodes) offsets))
              newTree g)
    as (t & g1 & Hrun & Hp & Hk).
  { apply permitted_new. }
  { exact Hg. }
  { rewrite Hperm. now apply strict_NoDup. }
  { intros k _. rewrite Hnew. apply not_elem_of_nil. }
  rewrite Hnew, app_nil_r, Hperm in Hk.
  eexists t, _. split.
  { unfold createClick.
    replace ((numNodes >? 200) || (numNodes <? 1)) with false by lia.
    unfold generateRandomTree, bind. rewrite Hrun. reflexivity. }
  split; [exact Hp|].
  split; [apply (inv_sorted M), permitted_inv, Hp|].
  split; [rewrite Hk, Hl; lia|].
  split; [|reflexivity].
  rewrite Hk. eapply Forall_impl; [exact Hr|]. simpl. intros k Hk'. lia.
Qed.

End Create.

Definition createsSearchTree (T : Type) `{Engine T} `{Traversal T} : Prop :=
  forall (numNodes : Z) (offsets : list Z) (picks : list nat) (g : Global),
    1 <= numNodes <= 200 ->
    length offsets = Z.to_nat numNodes -> Forall offsetOk offsets ->
    picksOk (Z.to_nat numNodes) picks ->
    idle g ->
    exists (t : T) g',
      createClick (Some numNodes) offsets picks g = Some (Animate t, g')
      /\ permitted t
      /\ StronglySorted Z.lt (inorderOf t)
      /\ Z.of_nat (length (inorderOf t)) = numNodes
      /\ Forall (fun k => 3 <= k <= numNodes * 5 + 2) (inorderOf t)
      /\ actionList g' = [mkAction 0 (Some [])].

(** X14. [createClick] with a number from 1 to 200 always ends with a tree
    to animate, whatever [Math.random] returns, in each of the three
    variants: the keys [x * 5 + d] with [d] from -2 to 2 are distinct, the
    shuffle only permutes them, so every [insert] is of a key that is not
    yet stored and returns. The tree holds exactly [numNodes] keys, between
    3 and [5 * numNodes + 2], in strictly ascending in-order, and the action
    list is the single create action. *)
Theorem create_click_builds_a_search_tree :
  createsSearchTree Bst.BstNode
  /\ createsSearchTree Avl.AvlNode
  /\ createsSearchTree RbTree.
Proof.
  split; [|split]; intros n offsets picks g Hn Hlen Hoff _ Hg.
  - apply (generic_createClick bstSearchTree bst_insert_idle); auto.
  - apply (generic_createClick avlSearchTree avl_insert_idle); auto.
  - apply (generic_createClick rbSearchTree rb_insert_idle); auto.
Qed.

Lemma create_click_builds_a_search_tree_witness :
  exists (t : Avl.AvlNode) g',
    createClick (Some 5) [2; -2; 0; 1; -1] [3; 0; 4; 1; 2]%nat initialGlobal
    = Some (Animate t, g')
    /\ StronglySorted Z.lt (inorderOf t)
    /\ Z.of_nat (length (inorderOf t)) = 5.
Proof.
  destruct create_click_builds_a_search_tree as (_ & Havl & _).
  destruct (Havl 5 [2; -2; 0; 1; -1] [3; 0; 4; 1; 2]%nat initialGlobal)
    as (t & g' & Hrun & _ & Hs & Hl & _).
  - lia.
  - reflexivity.
  - repeat constructor; unfold offsetOk; lia.
  - split; [reflexivity|]. repeat constructor; simpl; lia.
  - split; reflexivity.
  - exists t, g'. repeat split; assumption.
Defined.

(** ** Red-Black: the parent references *)

(** The nodes that can be reached from [tree.root] through [left] and
    [right]. *)
Inductive inTree (s : RedBlack.State) : RedBlack.loc -> Prop :=
| inTree_root x : RedBlack.root s = Some x -> inTree s x
| inTree_left x n c :
    inTree s x -> RedBlack.heap s !! x = Some n ->
    RedBlack.left n = Some c -> inTree s c
| inTree_right x n c :
    inTree s x -> RedBlack.heap s !! x = Some n ->
    RedBlack.right n = Some c -> inTree s c.

Lemma rootOf_Some t x :
  rootOf t = Some x -> exists l c v r, t = Tn l x c v r.
Proof.
  destruct t as [|l y c v r]; [discriminate|]. intros [= ->]. eauto.
Qed.

Lemma inTree_located s t x :
  represents s t -> inTree s x ->
  exists k l c v r, t = plug k (Tn l x c v r).
Proof.
  intros H. induction 1 as [x Hx|x n c _ IH Hn Hc|x n c _ IH Hn Hc].
  - destruct H as (_ & Hroot & _). rewrite Hroot in Hx.
    apply rootOf_Some in Hx as (l & c & v & r & ->). now exists [], l, c, v, r.
  - destruct IH as (k & l & cx & v & r & ->).
    pose proof (represents_lookup _ _ _ _ _ _ _ H) as Hx.
    assert (E : Some n = Some (RedBlack.mkRbNode v (rootOf l) (rootOf r)
                                 (ctxTop k) (colourZ cx)))
      by (etransitivity; [symmetry; exact Hn|exact Hx]).
    injection E as ->.
    simpl in Hc. apply rootOf_Some in Hc as (ll & lc & lv & lr & ->).
    now exists (FL x cx v r :: k), ll, lc, lv, lr.
  - destruct IH as (k & l & cx & v & r & ->).
    pose proof (represents_lookup _ _ _ _ _ _ _ H) as Hx.
    assert (E : Some n = Some (RedBlack.mkRbNode v (rootOf l) (rootOf r)
                                 (ctxTop k) (colourZ cx)))
      by (etransitivity; [symmetry; exact Hn|exact Hx]).
    injection E as ->.
    simpl in Hc. apply rootOf_Some in Hc as (rl & rc & rv & rr & ->).
    now exists (FR l x cx v :: k), rl, rc, rv, rr.
Qed.

Lemma located_parent s k l x c v r :
  represents s (plug k (Tn l x c v r)) ->
  ctxTop k = None <-> RedBlack.root s = Some x.
Proof.
  intros H. pose proof H as (_ & Hroot & _). rewrite Hroot.
  destruct k as [|f k]; simpl.
  - tauto.
  - split; [discriminate|]. intros E. exfalso.
    eapply (hole_not_root s f k (Tn l x c v r) x); [exact H| |now rewrite E].
    simpl. rewrite elem_of_app, elem_of_cons. tauto.
Qed.

Definition parentLinks (s : RedBlack.State) (x : RedBlack.loc) : Prop :=
  exists n,
    RedBlack.heap s !! x = Some n
    /\ (RedBlack.parent n = None <-> RedBlack.root s = Some x)
    /\ forall c,
         RedBlack.left n = Some c \/ RedBlack.right n = Some c ->
         exists nc,
           RedBlack.heap s !! c = Some nc /\ RedBlack.parent nc = Some x.

Lemma represents_parentLinks s t x :
  represents s t -> inTree s x -> parentLinks s x.
Proof.
  intros H Hx. destruct (inTree_located s t x H Hx) as (k & l & c & v & r & ->).
  eexists. split; [apply (represents_lookup _ _ _ _ _ _ _ H)|].
  split; [apply (located_parent _ _ _ _ _ _ _ H)|].
  intros y [Hy|Hy]; simpl in Hy.
  - apply rootOf_Some in Hy as (ll & lc & lv & lr & ->).
    eexists. split;
      [apply (represents_lookup s (FL x c v r :: k) ll y lc lv lr H)|].
    reflexivity.
  - apply rootOf_Some in Hy as (rl & rc & rv & rr & ->).
    eexists. split;
      [apply (represents_lookup s (FR l x c v :: k) rl y rc rv rr H)|].
    reflexivity.
Qed.

(** X15. In every Red-Black tree that inserts and deletes can build, the
    [parent] references agree with the [left] and [right] references: every
    node reached from the root is in the store, its [parent] is null
    exactly when it is the root, and the [parent] of each of its children
    is the node itself. *)
Theorem rb_parent_references_agree (s : RedBlack.State) (x : RedBlack.loc) :
  rbReachable s -> inTree s x -> parentLinks s x.
Proof.
  intros Hr Hx. apply rbReachable_inv in Hr as (t & H & _).
  eapply represents_parentLinks; eassumption.
Qed.

Lemma rb_parent_references_agree_witness :
  RedBlack.root (rbBuilt [10; 20; 30; 15]) = Some 1%nat
  /\ parentLinks (rbBuilt [10; 20; 30; 15]) 1%nat.
Proof.
  split; [vm_compute; reflexivity|].
  apply rb_parent_references_agree; [rb_built|].
  apply inTree_root. vm_compute. reflexivity.
Defined.

(** ** How deep the balanced trees are *)

Lemma pow2_halves (h a b : Z) :
  0 <= a -> 0 <= b -> -1 <= a - b <= 1 -> h = Z.max a b + 1 ->
  2 ^ (h / 2) <= 2 ^ (a / 2) + 2 ^ (b / 2).
Proof.
  intros Ha Hb Hab ->. destruct (Z.eq_dec (Z.max a b) 0) as [E|E].
  - assert (a = 0) as -> by lia. assert (b = 0) as -> by lia.
    vm_compute. discriminate.
  - set (e := (Z.max a b + 1 - 2) / 2).
    assert (He : 0 <= e) by (unfold e; Z.div_mod_to_equations; lia).
    assert (Hh : (Z.max a b + 1) / 2 = Z.succ e)
      by (unfold e; Z.div_mod_to_equations; lia).
    assert (Hea : e <= a / 2) by (unfold e; Z.div_mod_to_equations; lia).
    assert (Heb : e <= b / 2) by (unfold e; Z.div_mod_to_equations; lia).
    rewrite Hh, Z.pow_succ_r by exact He.
    pose proof (Z.pow_le_mono_r 2 e (a / 2) ltac:(lia) Hea).
    pose proof (Z.pow_le_mono_r 2 e (b / 2) ltac:(lia) Heb).
    lia.
Qed.

Lemma balanced_size {A} (t : Node A) :
  allNodes balancedAt t ->
  2 ^ (Tree.getHeight t / 2) <= Z.of_nat (length (inorder t)) + 1.
Proof.
  induction t as [|l IHl x a r IHr]; intros Hb.
  - vm_compute. discriminate.
  - apply (proj1 (avlB_node _ _ _ _)) in Hb. destruct Hb as (Hb & Hbl & Hbr).
    specialize (IHl Hbl). specialize (IHr Hbr).
    pose proof (getHeight_nonneg l). pose proof (getHeight_nonneg r).
    pose proof (pow2_halves (Tree.getHeight (node l x a r))
                  (Tree.getHeight l) (Tree.getHeight r)
                  ltac:(lia) ltac:(lia) Hb eq_refl) as Hp.
    change (inorder (node l x a r)) with (inorder l ++ x :: inorder r).
    rewrite length_app. cbn [length]. lia.
Qed.

(** X16. An AVL tree built by inserts of keys that are not stored and
    deletes of keys that are stored is shallow: with height [h] and [n]
    keys, [2 ^ (h / 2) <= n + 1]; the height is at most twice the binary
    logarithm of [n + 1], plus one. *)
Theorem avl_height_is_logarithmic (t : Avl.AvlNode) :
  avlValid t ->
  2 ^ (Tree.getHeight t / 2) <= Z.of_nat (length (inorder t)) + 1.
Proof.
  intros H. apply balanced_size.
  cut (avlOk t); [intros [_ Hb]; exact Hb|].
  induction H as [|t k g t' g' _ IH Hf H|t k g t' g' _ IH _ H].
  - split; exact I.
  - eapply avl_insert_balanced; eassumption.
  - eapply avl_delete_balanced; eassumption.
Qed.

Lemma avl_height_is_logarithmic_witness :
  2 ^ (Tree.getHeight (node (node null 10 1 null) 20 2 (node null 30 1 null))
       / 2)
  <= Z.of_nat
       (length (inorder (node (node null 10 1 null) 20 2
                           (node null 30 1 null)))) + 1.
Proof.
  apply avl_height_is_logarithmic.
  eapply (avl_valid_insert (node null 10 2 (node null 20 1 null)) 30
            readyGlobal); [|simpl; discriminate|reflexivity].
  eapply (avl_valid_insert (node null 10 1 null) 20 readyGlobal);
    [|simpl; discriminate|reflexivity].
  eapply (avl_valid_insert null 10 readyGlobal);
    [|simpl; discriminate|reflexivity].
  apply avl_valid_new.
Defined.

Lemma rb_height_bh t :
  noRR t -> bal t ->
  (height t <= 2 * bh t + match col t with Red => 1 | Black => 0 end)%nat.
Proof.
  induction t as [|l IHl x c v r IHr]; [simpl; lia|].
  intros (Hc & Hnl & Hnr) (Hbh & Hbl & Hbr).
  specialize (IHl Hnl Hbl). specialize (IHr Hnr Hbr).
  cbn [height bh col]. destruct c; cbn [nb].
  - destruct (col l), (col r); lia.
  - destruct (Hc eq_refl) as [El Er]. rewrite El in IHl. rewrite Er in IHr.
    lia.
Qed.

Lemma rb_size_bh t : bal t -> (2 ^ bh t <= length (keys t) + 1)%nat.
Proof.
  induction t as [|l IHl x c v r IHr]; [simpl; lia|].
  intros (Hbh & Hbl & Hbr). specialize (IHl Hbl). specialize (IHr Hbr).
  cbn [bh keys]. rewrite length_app. cbn [length].
  assert (Hp : (2 ^ (nb c + bh l) <= 2 * 2 ^ bh l)%nat).
  { destruct c; cbn [nb Nat.add]; [rewrite Nat.pow_succ_r'|];
      generalize (2 ^ bh l)%nat; intros; lia. }
  rewrite <- Hbh in IHr. revert Hp IHl IHr.
  generalize (2 ^ (nb c + bh l))%nat (2 ^ bh l)%nat. intros; lia.
Qed.

Lemma getHeight_snapOf t : Tree.getHeight (snapOf t) = Z.of_nat (height t).
Proof.
  induction t as [|l IHl x c v r IHr]; [reflexivity|].
  cbn [snapOf Tree.getHeight height]. rewrite IHl, IHr. lia.
Qed.

Lemma rbOk_size t :
  rbOk t ->
  2 ^ (Z.of_nat (height t) / 2) <= Z.of_nat (length (keys t)) + 1.
Proof.
  intros (Hc & Hn & Hb). pose proof (rb_height_bh t Hn Hb) as Hh.
  rewrite Hc in Hh. pose proof (rb_size_bh t Hb) as Hs.
  assert (He : Z.of_nat (height t) / 2 <= Z.of_nat (bh t))
    by (Z.div_mod_to_equations; lia).
  pose proof (Z.pow_le_mono_r 2 _ _ ltac:(lia) He) as Hp.
  apply Nat2Z.inj_le in Hs. rewrite Nat2Z.inj_pow in Hs.
  rewrite Nat2Z.inj_add in Hs. simpl Z.of_nat in Hs at 1 3. lia.
Qed.

(** X17. A Red-Black tree that inserts and deletes can build is shallow:
    with height [h] (of its copy) and [n] keys, [2 ^ (h / 2) <= n + 1]. *)
Theorem rb_height_is_logarithmic (s : RedBlack.State) :
  rbReachable s ->
  2 ^ (Tree.getHeight (RedBlack.copyOf s) / 2)
  <= Z.of_nat (length (inorder (RedBlack.copyOf s))) + 1.
Proof.
  intros Hr. apply rbReachable_inv in Hr as (t & H & Hok & _).
  rewrite (inorder_copyOf _ _ H), (copyOf_represents _ _ H), getHeight_snapOf.
  now apply rbOk_size.
Qed.

Lemma rb_height_is_logarithmic_witness :
  2 ^ (Tree.getHeight (RedBlack.copyOf (rbBuilt [10; 20; 30; 15])) / 2)
  <= Z.of_nat (length (inorder (RedBlack.copyOf (rbBuilt [10; 20; 30; 15]))))
     + 1.
Proof. apply rb_height_is_logarithmic. rb_built. Defined.

(** ** Plain: the tree copy that a delete records *)

(** The resize actions (id 5) of a list, in order. *)
Fixpoint resizes (l : list Action) : list Action :=
  match l with
  | [] => []
  | a :: l' => if id a =? 5 then a :: resizes l' else resizes l'
  end.

Lemma resizes_app l1 l2 : resizes (l1 ++ l2) = resizes l1 ++ resizes l2.
Proof.
  induction l1 as [|a l1 IH]; simpl; [reflexivity|].
  destruct (id a =? 5); simpl; now rewrite IH.
Qed.

Lemma resizes_searchActions ks : resizes (searchActions ks) = [].
Proof. induction ks as [|k ks IH]; simpl; [reflexivity|exact IH]. Qed.

Lemma wp_pushDelete_none w g (Q : unit -> Global -> Prop) :
  deleteSpec g = None -> Q tt g -> wp (pushDelete w) g Q.
Proof.
  intros Hd HQ. eapply wp_run; [|exact HQ]. unfold pushDelete. now rewrite Hd.
Qed.

Lemma wp_pushDelete_some w spec g (Q : unit -> Global -> Prop) :
  deleteSpec g = Some spec -> treeBound g = true ->
  Q tt (withDeleteSpec None (Consumed DeleteSlot)
          (withActions (fun l => l ++ [mkAction 5 (Some (spec ++ [ATree w]))])
             g)) ->
  wp (pushDelete w) g Q.
Proof.
  intros Hd Hb HQ. eapply wp_run; [|exact HQ].
  unfold pushDelete. rewrite Hd. unfold bind, getTreeCopy, gets.
  rewrite Hb. reflexivity.
Qed.

(** What [deleteRecursive] leaves when it returns [t'], with [post] the
    actions it pushed: nothing to record, or the record of the node it took
    out at this level, or the resize action with the copy of the whole
    tree. *)
Definition deleteTrace (wrap : Bst.BstNode -> Bst.BstNode) (v : Z)
  (t : Bst.BstNode) (g : Global) (t' : Bst.BstNode) (g' : Global) : Prop :=
  treeBound g' = true
  /\ exists post,
       actionList g' = actionList g ++ post
       /\ ((deleteSpec g' = None /\ resizes post = [] /\ v ∉ inorder t)
           \/ (exists b, deleteSpec g' = Some [ABool b] /\ resizes post = [])
           \/ (exists b,
                  deleteSpec g' = None
                  /\ resizes post
                     = [mkAction 5
                          (Some [ABool b; ATree (Bst.copy (wrap t'))])])).

(** After the recursive call on a child: [pushDelete], then the node is
    returned. *)
Lemma deleteTrace_parent wrap wrap' v t child child' n' g g0 g1 pre :
  actionList g0 = actionList g ++ pre -> resizes pre = [] ->
  deleteTrace wrap' v child g0 child' g1 ->
  wrap' child' = wrap n' ->
  (v ∉ inorder child -> v ∉ inorder t) ->
  wp (pushDelete (Bst.copy (wrap n')) >> ret n') g1
     (fun t' g' => deleteTrace wrap v t g t' g').
Proof.
  intros Hg0 Hpre (Hb & post & Hl & Hcase) Hw Hin.
  destruct Hcase as [(Hd & Hr & Hv)|[(b & Hd & Hr)|(b & Hd & Hr)]].
  - apply wp_bind, wp_pushDelete_none; [exact Hd|]. apply wp_ret.
    split; [exact Hb|]. exists (pre ++ post). split.
    + now rewrite Hl, Hg0, <- app_assoc.
    + left. rewrite resizes_app, Hpre, Hr. auto.
  - apply wp_bind, (wp_pushDelete_some _ [ABool b]); [exact Hd|exact Hb|].
    apply wp_ret. split; [exact Hb|].
    exists (pre ++ post
            ++ [mkAction 5 (Some [ABool b; ATree (Bst.copy (wrap n'))])]).
    split.
    + simpl. now rewrite Hl, Hg0, <- !app_assoc.
    + right. right. exists b. split; [reflexivity|].
      now rewrite !resizes_app, Hpre, Hr.
  - apply wp_bind, wp_pushDelete_none; [exact Hd|]. apply wp_ret.
    split; [exact Hb|]. exists (pre ++ post). split.
    + now rewrite Hl, Hg0, <- app_assoc.
    + right. right. exists b. split; [exact Hd|].
      now rewrite resizes_app, Hpre, Hr, Hw.
Qed.

Lemma wp_bst_deleteRecursive_trace (t : Bst.BstNode) : forall wrap v g,
  sorted (inorder t) -> deleteSpec g = None -> treeBound g = true ->
  wp (Bst.deleteRecursive wrap t v) g
     (fun t' g' => deleteTrace wrap v t g t' g').
Proof.
  induction t as [|l IHl x a r IHr]; intros wrap v g Hs Hd Hb.
  - apply wp_ret. split; [exact Hb|]. exists []. split.
    + now rewrite app_nil_r.
    + left. split; [exact Hd|]. split; [reflexivity|apply not_elem_of_nil].
  - apply sorted_inorder_node in Hs as (Hsl & Hsr & Hl & Hr).
    rewrite Forall_forall in Hl, Hr.
    cbn [Bst.deleteRecursive].
    change (inorder (node l x a r)) with (inorder l ++ x :: inorder r).
    destruct (v <? x) eqn:E1; [|destruct (v >? x) eqn:E2;
      [|destruct (negb (isNull l) && negb (isNull r)) eqn:En]].
    + do 3 gstep. eapply wp_mono; [apply IHl; [exact Hsl|exact Hd|exact Hb]|].
      intros l' g1 Ht. cbv beta in Ht |- *.
      lazymatch type of Ht with deleteTrace _ _ _ ?g0 _ _ =>
        eapply (deleteTrace_parent wrap _ v (node l x a r) l l'
                  (node l' x a r) g g0 g1
                  [mkAction 3 (Some [ANum v; ANum x])]) end;
        [reflexivity|reflexivity|exact Ht|reflexivity|].
      intros Hv. change (inorder (node l x a r))
        with (inorder l ++ x :: inorder r).
      rewrite elem_of_app, elem_of_cons.
      intros [H|[->|H]]; [tauto|lia|]. specialize (Hr _ H). lia.
    + do 3 gstep. eapply wp_mono; [apply IHr; [exact Hsr|exact Hd|exact Hb]|].
      intros r' g1 Ht. cbv beta in Ht |- *.
      lazymatch type of Ht with deleteTrace _ _ _ ?g0 _ _ =>
        eapply (deleteTrace_parent wrap _ v (node l x a r) r r'
                  (node l x a r') g g0 g1
                  [mkAction 4 (Some [ANum v; ANum x])]) end;
        [reflexivity|reflexivity|exact Ht|reflexivity|].
      intros Hv. change (inorder (node l x a r))
        with (inorder l ++ x :: inorder r).
      rewrite elem_of_app, elem_of_cons.
      intros [H|[->|H]]; [|lia|tauto]. specialize (Hl _ H). lia.
    + assert (v = x) as -> by lia.
      destruct r as [|rl rx ra rr]; [destruct l; discriminate En|].
      do 7 gstep. destruct (leftmost_first rl rx ra rr) as (ks & Hks).
      eapply wp_mono; [apply IHr; [exact Hsr|exact Hd|exact Hb]|].
      intros r' g1 Ht. cbv beta in Ht |- *.
      assert (Hfound : leftmost rl rx ∈ inorder (node rl rx ra rr))
        by (rewrite Hks; apply list_elem_of_here).
      eapply wp_mono.
      { lazymatch type of Ht with deleteTrace _ _ _ ?g0 _ _ =>
          eapply (deleteTrace_parent wrap
                    (fun t => wrap (node l (leftmost rl rx) a t))
                    (leftmost rl rx) (node rl rx ra rr) (node rl rx ra rr) r'
                    (node l (leftmost rl rx) a r') g g0 g1
                    ([mkAction 6 (Some [ANum x])]
                     ++ searchActions (leftSpine (node rl rx ra rr))
                     ++ [mkAction 10 (Some [ANum x; ANum (leftmost rl rx)])]))
        end;
          [simpl; now rewrite <- !app_assoc
          |rewrite !resizes_app, resizes_searchActions; reflexivity
          |exact Ht|reflexivity|tauto]. }
      intros t' g' (Hb' & post & Hl' & Hcase). split; [exact Hb'|].
      exists post. split; [exact Hl'|].
      destruct Hcase as [(_ & _ & Hv)|[H|H]];
        [contradiction|right; now left|right; now right].
    + assert (v = x) as -> by lia. cbv zeta. do 4 gstep; repeat gstep.
      * split; [exact Hb|]. eexists. split; [simpl; now rewrite <- app_assoc|].
        right. left. eexists. split; reflexivity.
      * split; [exact Hb|]. eexists. split; [simpl; now rewrite <- app_assoc|].
        right. left. eexists. split; reflexivity.
Qed.

Lemma bst_delete_trace (t : Bst.BstNode) (v : Z) (g : Global) :
  sorted (inorder t) -> v ∈ inorder t ->
  deleteSpec g = None -> treeBound g = true ->
  wp (Bst.delete_ t v) g
     (fun t' g' =>
        exists post b,
          actionList g'
          = rev (actionList g ++ post ++ [endAction "Deletion complete."])
          /\ resizes post
             = [mkAction 5 (Some [ABool b; ATree (Bst.copy t')])]).
Proof.
  intros Hs Hv Hd Hb. unfold Bst.delete_. do 3 gstep.
  eapply wp_mono;
    [apply (wp_bst_deleteRecursive_trace t (fun t => t) v); assumption|].
  intros t' g1 (Hb1 & post & Hl & Hcase). cbv beta.
  destruct Hcase as [(_ & _ & Hn)|[(b & Hd1 & Hr)|(b & Hd1 & Hr)]];
    [contradiction| |].
  - apply wp_bind, (wp_pushDelete_some _ [ABool b]); [exact Hd1|exact Hb1|].
    repeat gstep.
    exists (post ++ [mkAction 5 (Some [ABool b; ATree (Bst.copy t')])]), b.
    split.
    + simpl. rewrite Hl. simpl. now rewrite <- !app_assoc.
    + now rewrite resizes_app, Hr.
  - apply wp_bind, wp_pushDelete_none; [exact Hd1|]. repeat gstep.
    exists post, b. split; [|exact Hr].
    simpl. rewrite Hl. simpl. now rewrite <- !app_assoc.
Qed.

(** X18. [Bst.prototype.delete] of a key that is stored, called with the
    tree bound to the page and no record pending, pushes exactly one resize
    action (id 5), and the tree copy that action carries is the copy of the
    tree as the call leaves it: the record written when the node is taken
    out is turned into the action only after the parent has been relinked.
    The actions pushed are followed by the end action, and the list is
    reversed. *)
Theorem bst_delete_records_the_final_tree (t : Bst.BstNode) (v : Z)
  (g : Global) :
  sorted (inorder t) -> v ∈ inorder t ->
  deleteSpec g = None -> treeBound g = true ->
  exists t' g' post b,
    Bst.delete_ t v g = Some (t', g')
    /\ actionList g'
       = rev (actionList g ++ post ++ [endAction "Deletion complete."])
    /\ resizes post = [mkAction 5 (Some [ABool b; ATree (Bst.copy t')])].
Proof.
  intros Hs Hv Hd Hb.
  pose proof (bst_delete_trace t v g Hs Hv Hd Hb) as Hwp.
  apply wp_ex in Hwp as (t' & g' & Hrun & post & b & Hl & Hr).
  now exists t', g', post, b.
Qed.

Lemma bst_delete_records_the_final_tree_witness :
  exists t' g' post b,
    Bst.delete_ (node (node null 3 tt null) 5 tt (node null 8 tt null)) 5
      readyGlobal = Some (t', g')
    /\ actionList g'
       = rev (actionList readyGlobal ++ post
              ++ [endAction "Deletion complete."])
    /\ resizes post = [mkAction 5 (Some [ABool b; ATree (Bst.copy t')])].
Proof.
  apply (bst_delete_records_the_final_tree
           (node (node null 3 tt null) 5 tt (node null 8 tt null)) 5
           readyGlobal).
  - repeat constructor; lia.
  - apply list_elem_of_further, list_elem_of_here.
  - reflexivity.
  - reflexivity.
Defined.

(** ** AVL: one rebalancing per insert *)

Fixpoint countRotations (l : list Action) : nat :=
  match l with
  | [] => 0
  | a :: l' => (if isRotationAction a then 1 else 0) + countRotations l'
  end.

Lemma countRotations_app l1 l2 :
  countRotations (l1 ++ l2) = (countRotations l1 + countRotations l2)%nat.
Proof. induction l1 as [|a l1 IH]; simpl; [reflexivity|]. rewrite IH. lia. Qed.

Lemma countRotations_rev l : countRotations (rev l) = countRotations l.
Proof.
  induction l as [|a l IH]; simpl; [reflexivity|].
  rewrite countRotations_app, IH. simpl. lia.
Qed.

(** The rotations so far: those in the action list, and the one whose
    record is pending. *)
Definition rotated (g : Global) : nat :=
  (countRotations (actionList g)
   + match rotationSpec g with Some _ => 1 | None => 0 end)%nat.

(** No delete record is pending, and a pending rotation record is one that
    [leftRotate] or [rightRotate] wrote. *)
Definition rotationWritten (g : Global) : Prop :=
  deleteSpec g = None
  /\ match rotationSpec g with
     | None => True
     | Some spec =>
         exists a b c i, spec = [a; b; c; ANum i] /\ (i = 14 \/ i = 15)
     end.

Lemma idle_written g : idle g -> rotationWritten g.
Proof. intros [Hd Hr]. split; [exact Hd|]. now rewrite Hr. Qed.

Section CountedSteps.
Context (g : Global) (Q : unit -> Global -> Prop).
Context (HQ : forall g', idle g' -> rotated g' = rotated g -> Q tt g').

Lemma wp_pushArgs_counted i a :
  idle g -> isRotationAction (mkAction i a) = false ->
  wp (pushArgs i a) g Q.
Proof.
  intros Hg Hi. eapply wp_run; [reflexivity|]. apply HQ; [exact Hg|].
  unfold rotated. simpl. rewrite countRotations_app. simpl. rewrite Hi. lia.
Qed.

Lemma wp_pushAction_counted i a :
  idle g -> isRotationAction (mkAction i (Some a)) = false ->
  wp (pushAction i a) g Q.
Proof. apply wp_pushArgs_counted. Qed.

Lemma wp_checkInsertResize_counted k :
  idle g -> wp (checkInsertResize k) g Q.
Proof.
  intros Hg. eapply wp_run; [reflexivity|]. destruct (treeBound g) eqn:E.
  - apply HQ; [exact Hg|]. reflexivity.
  - apply HQ; [exact Hg|]. reflexivity.
Qed.

Lemma wp_setOperation_counted o : idle g -> wp (setOperation o) g Q.
Proof. intros Hg. eapply wp_run; [reflexivity|]. apply HQ; [exact Hg|reflexivity]. Qed.

Lemma wp_reverseActions_counted : idle g -> wp reverseActions g Q.
Proof.
  intros Hg. eapply wp_run; [reflexivity|]. apply HQ; [exact Hg|].
  unfold rotated. simpl. now rewrite countRotations_rev.
Qed.

Lemma wp_pushDeleteAndRotate_counted p w :
  rotationWritten g -> wp (pushDeleteAndRotate p w) g Q.
Proof.
  intros [Hd Hr]. unfold wp, pushDeleteAndRotate. rewrite Hd.
  destruct (rotationSpec g) as [spec|] eqn:E.
  - destruct Hr as (a & b & c & i & -> & Hi).
    change (popArg [a; b; c; ANum i]) with (Some ([a; b; c], ANum i)).
    apply HQ; [split; [exact Hd|reflexivity]|].
    unfold rotated. simpl. rewrite E, countRotations_app. simpl.
    unfold isRotationAction. simpl.
    destruct Hi as [-> | ->]; simpl; lia.
  - apply HQ; [split; assumption|reflexivity].
Qed.

End CountedSteps.

Lemma wp_avl_leftRotate_counted a lv h b rv h' c g
  (Q : Avl.AvlNode -> Global -> Prop) :
  idle g ->
  (forall g',
      rotationWritten g' -> rotated g' = S (rotated g) ->
      Q (node (node a lv (Z.max (Avl.getHeight a) (Avl.getHeight b) + 1) b)
              rv
              (Z.max (Z.max (Avl.getHeight a) (Avl.getHeight b) + 1)
                     (Avl.getHeight c) + 1)
              c) g') ->
  wp (Avl.leftRotate (node a lv h (node b rv h' c))) g Q.
Proof.
  intros [Hd Hr] HQ. eapply wp_run; [reflexivity|]. apply HQ.
  - split; [exact Hd|]. simpl. eauto 10.
  - unfold rotated. simpl. rewrite Hr. lia.
Qed.

Lemma wp_avl_rightRotate_counted a lv h b rv h' c g
  (Q : Avl.AvlNode -> Global -> Prop) :
  idle g ->
  (forall g',
      rotationWritten g' -> rotated g' = S (rotated g) ->
      Q (node a lv
              (Z.max (Avl.getHeight a)
                     (Z.max (Avl.getHeight b) (Avl.getHeight c) + 1) + 1)
              (node b rv (Z.max (Avl.getHeight b) (Avl.getHeight c) + 1) c))
        g') ->
  wp (Avl.rightRotate (node (node a lv h b) rv h' c)) g Q.
Proof.
  intros [Hd Hr] HQ. eapply wp_run; [reflexivity|]. apply HQ.
  - split; [exact Hd|]. simpl. eauto 10.
  - unfold rotated. simpl. rewrite Hr. lia.
Qed.

(** Steps through a call, keeping count of the rotations. *)
Ltac counted_step :=
  lazymatch goal with
  | |- wp (bind _ _) _ _ => apply wp_bind
  | |- wp (ret _) _ _ => apply wp_ret; cbv beta
  | |- wp (pushAction _ _) _ _ =>
      apply wp_pushAction_counted; [intros ? ? ?; cbv beta|assumption|reflexivity]
  | |- wp (pushActionEnd _) _ _ =>
      apply wp_pushAction_counted; [intros ? ? ?; cbv beta|assumption|reflexivity]
  | |- wp (pushActionNull _) _ _ =>
      apply wp_pushArgs_counted; [intros ? ? ?; cbv beta|assumption|reflexivity]
  | |- wp reverseActions _ _ =>
      apply wp_reverseActions_counted; [intros ? ? ?; cbv beta|assumption]
  | |- wp (setOperation _) _ _ =>
      apply wp_setOperation_counted; [intros ? ? ?; cbv beta|assumption]
  | |- wp (checkInsertResize _) _ _ =>
      apply wp_checkInsertResize_counted; [intros ? ? ?; cbv beta|assumption]
  | |- wp (pushDeleteAndRotate _ _) _ _ =>
      apply wp_pushDeleteAndRotate_counted; [intros ? ? ?; cbv beta|assumption]
  | |- wp (Avl.leftRotate _) _ _ =>
      apply wp_avl_leftRotate_counted; [assumption|intros ? ? ?; cbv beta]
  | |- wp (Avl.rightRotate _) _ _ =>
      apply wp_avl_rightRotate_counted; [assumption|intros ? ? ?; cbv beta]
  end.

Lemma wp_avl_rebalanceInsert_counted wrap l x h r v g :
  idle g -> avlH l -> avlH r ->
  (Tree.getHeight l - Tree.getHeight r > 1 -> leaning v l) ->
  (Tree.getHeight l - Tree.getHeight r < -1 -> leaning v r) ->
  wp (Avl.rebalanceInsert wrap (node l x h r) v) g
     (fun _ g' =>
        rotationWritten g'
        /\ (rotated g' <= rotated g + 2)%nat
        /\ (-1 <= Tree.getHeight l - Tree.getHeight r <= 1 ->
            rotated g' = rotated g)).
Proof.
  intros Hg Hl Hr H2 Hm2. unfold Avl.rebalanceInsert.
  rewrite (avlH_height l Hl), (avlH_height r Hr).
  destruct (_ >? 1) eqn:E1; [|destruct (_ <? -1) eqn:E2].
  - assert (Hv : leaning v l) by (apply H2; lia). clear H2 Hm2.
    destruct l as [|ll lx lh lr]; [destruct Hv|]. simpl in Hv.
    repeat counted_step. simpl Avl.valueOf. counted_step.
    destruct (v <? lx) eqn:Ev.
    + repeat counted_step. refine (conj _ (conj _ _)); [assumption|lia|lia].
    + destruct Hv as [[Hv _]|[_ Hv]]; [lia|].
      destruct (getHeight_pos_node lr) as (b & rv & h' & c & ->);
        [pose proof (getHeight_nonneg ll); lia|].
      repeat counted_step. refine (conj _ (conj _ _)); [assumption|lia|lia].
  - assert (Hv : leaning v r) by (apply Hm2; lia). clear H2 Hm2.
    destruct r as [|rl rx rh rr]; [destruct Hv|]. simpl in Hv.
    repeat counted_step. simpl Avl.valueOf. counted_step.
    destruct (v >? rx) eqn:Ev.
    + repeat counted_step. refine (conj _ (conj _ _)); [assumption|lia|lia].
    + destruct Hv as [[_ Hv]|[Hv _]]; [|lia].
      destruct (getHeight_pos_node rl) as (a & lv & h' & b & ->);
        [pose proof (getHeight_nonneg rr); lia|].
      repeat counted_step. refine (conj _ (conj _ _)); [assumption|lia|lia].
  - repeat counted_step.
    refine (conj _ (conj _ _)); [now apply idle_written|lia|lia].
Qed.

Lemma wp_avl_insertRecursive_counted (t : Avl.AvlNode) : forall wrap v g,
  t <> null -> avlOk t -> Tree.findRecursive t v <> 1 -> idle g ->
  wp (Avl.insertRecursive wrap t v) g
     (fun t' g' =>
        rotationWritten g'
        /\ (rotated g' <= rotated g + 2)%nat
        /\ (rotated g' <> rotated g ->
            Tree.getHeight t' = Tree.getHeight t)).
Proof.
  induction t as [|l IHl x h r IHr]; intros wrap v g Hne Ht Hf Hg;
    [congruence|]. clear Hne.
  destruct Ht as [Hh Hb].
  apply (proj1 (avlH_node _ _ _ _)) in Hh. destruct Hh as (Hh & Hl & Hr).
  apply (proj1 (avlB_node _ _ _ _)) in Hb. destruct Hb as (Hb & Hlb & Hrb).
  simpl in Hf. simpl Avl.insertRecursive. apply wp_bind.
  destruct (v <? x) eqn:Ev.
  - destruct l as [|ll lx lh lr].
    + repeat counted_step. simpl in Hb. pose proof (getHeight_nonneg r).
      eapply wp_mono.
      { apply wp_avl_rebalanceInsert_counted; try assumption.
        - simpl. unfold heightCachedAt. simpl. tauto.
        - simpl. lia.
        - simpl. lia. }
      intros n' g4 (Hw & Hle & Hsame). cbv beta.
      assert (rotated g4 = rotated g) by (rewrite Hsame; [lia|simpl; lia]).
      refine (conj Hw (conj _ _)); [lia|intros; lia].
    + repeat counted_step.
      eapply wp_mono;
        [apply wp_eqn, IHl; [discriminate|split; assumption|assumption
                            |assumption]|].
      intros l' g2 (Heq & Hw2 & Hle2 & Hsame2). cbv beta.
      apply avl_insertRecursive_balanced in Heq;
        [|split; assumption|assumption].
      destruct Heq as ([Hl' Hlb'] & Hgrow).
      repeat counted_step.
      eapply wp_mono.
      { apply wp_eqn, wp_avl_rebalanceInsert_counted; try assumption.
        - intros E. destruct Hgrow as [Hg'|[_ Hg']]; [lia|exact Hg'].
        - intros E. lia. }
      intros n' g4 (Heq & Hw4 & Hle4 & Hsame4). cbv beta.
      apply avl_rebalanceInsert_balanced in Heq;
        [|split; assumption|split; assumption|lia
         |intros E; destruct Hgrow as [Hg'|[_ Hg']]; [lia|exact Hg']
         |intros E; lia].
      destruct Heq as (_ & Hshape).
      cbn [Tree.getHeight] in *.
      refine (conj Hw4 (conj _ _)).
      * destruct (Nat.eq_dec (rotated g2) (rotated g')) as [E|E].
        -- lia.
        -- specialize (Hsame2 E). rewrite Hsame4 by lia. lia.
      * intros Hrot.
        destruct (Nat.eq_dec (rotated g2) (rotated g')) as [E|E].
        -- destruct Hshape as [(Hbal & ->)|(Hbal & Hht)].
           ++ specialize (Hsame4 Hbal). lia.
           ++ rewrite Hht. lia.
        -- specialize (Hsame2 E).
           destruct Hshape as [(Hbal & ->)|(Hbal & Hht)].
           ++ cbn [Tree.getHeight]. lia.
           ++ lia.
  - destruct (v >? x) eqn:Ev2; [|congruence].
    destruct r as [|rl rx rh rr].
    + repeat counted_step. simpl in Hb. pose proof (getHeight_nonneg l).
      eapply wp_mono.
      { apply wp_avl_rebalanceInsert_counted; try assumption.
        - simpl. unfold heightCachedAt. simpl. tauto.
        - simpl. lia.
        - simpl. lia. }
      intros n' g4 (Hw & Hle & Hsame). cbv beta.
      assert (rotated g4 = rotated g) by (rewrite Hsame; [lia|simpl; lia]).
      refine (conj Hw (conj _ _)); [lia|intros; lia].
    + repeat counted_step.
      eapply wp_mono;
        [apply wp_eqn, IHr; [discriminate|split; assumption|assumption
                            |assumption]|].
      intros r' g2 (Heq & Hw2 & Hle2 & Hsame2). cbv beta.
      apply avl_insertRecursive_balanced in Heq;
        [|split; assumption|assumption].
      destruct Heq as ([Hr' Hrb'] & Hgrow).
      repeat counted_step.
      eapply wp_mono.
      { apply wp_eqn, wp_avl_rebalanceInsert_counted; try assumption.
        - intros E. lia.
        - intros E. destruct Hgrow as [Hg'|[_ Hg']]; [lia|exact Hg']. }
      intros n' g4 (Heq & Hw4 & Hle4 & Hsame4). cbv beta.
      apply avl_rebalanceInsert_balanced in Heq;
        [|split; assumption|split; assumption|lia
         |intros E; lia
         |intros E; destruct Hgrow as [Hg'|[_ Hg']]; [lia|exact Hg']].
      destruct Heq as (_ & Hshape).
      cbn [Tree.getHeight] in *.
      refine (conj Hw4 (conj _ _)).
      * destruct (Nat.eq_dec (rotated g2) (rotated g')) as [E|E].
        -- lia.
        -- specialize (Hsame2 E). rewrite Hsame4 by lia. lia.
      * intros Hrot.
        destruct (Nat.eq_dec (rotated g2) (rotated g')) as [E|E].
        -- destruct Hshape as [(Hbal & ->)|(Hbal & Hht)].
           ++ specialize (Hsame4 Hbal). lia.
           ++ rewrite Hht. lia.
        -- specialize (Hsame2 E).
           destruct Hshape as [(Hbal & ->)|(Hbal & Hht)].
           ++ cbn [Tree.getHeight]. lia.
           ++ lia.
Qed.

Lemma avl_insert_counted t v g :
  avlOk t -> Tree.findRecursive t v <> 1 -> idle g ->
  wp (Avl.insert t v) g
     (fun _ g' =>
        (countRotations (actionList g')
         <= countRotations (actionList g) + 2)%nat).
Proof.
  intros Ht Hf Hg. unfold Avl.insert. do 3 counted_step.
  destruct t as [|l x h r].
  - apply wp_bind. eapply wp_run; [reflexivity|]. cbv beta.
    apply wp_ret. cbv beta. repeat (apply wp_bind || (eapply wp_run; [reflexivity|]; cbv beta)).
    apply wp_ret. simpl. lia.
  - counted_step.
    eapply wp_mono; [apply wp_avl_insertRecursive_counted; try assumption;
                     discriminate|].
    intros r' g1 (Hw & Hle & _). cbv beta. repeat counted_step.
    repeat match goal with
    | Hi : idle ?g0 |- _ =>
        lazymatch goal with
        | _ : rotated g0 = countRotations (actionList g0) |- _ => fail
        | _ => assert (rotated g0 = countRotations (actionList g0))
                 by (unfold rotated; destruct Hi as [_ ->]; lia)
        end
    end.
    lia.
Qed.

(** X19. [Avl.prototype.insert] of a key that is not stored, into a tree
    with right cached heights and balanced nodes and with no record pending,
    returns and rebalances at most once: the call adds at most two rotation
    actions (ids 14 and 15) to the action list, a single or a double
    rotation. *)
Theorem avl_insert_rotates_at_most_twice (t : Avl.AvlNode) (v : Z)
  (g : Global) :
  avlOk t -> Tree.findRecursive t v <> 1 -> idle g ->
  exists t' g',
    Avl.insert t v g = Some (t', g')
    /\ (countRotations (actionList g')
        <= countRotations (actionList g) + 2)%nat.
Proof.
  intros Ht Hf Hg. pose proof (avl_insert_counted t v g Ht Hf Hg) as Hwp.
  apply wp_ex in Hwp as (t' & g' & Hrun & Hc). now exists t', g'.
Qed.

Lemma avl_insert_rotates_at_most_twice_witness :
  exists t' g',
    Avl.insert (node (node null 5 1 null) 10 3
                  (node (node null 15 1 null) 20 2 null)) 17
      readyGlobal = Some (t', g')
    /\ (countRotations (actionList g')
        <= countRotations (actionList readyGlobal) + 2)%nat.
Proof.
  apply avl_insert_rotates_at_most_twice.
  - split; simpl; unfold heightCachedAt; simpl; repeat split; lia.
  - vm_compute. discriminate.
  - split; reflexivity.
Defined.

(** ** The data of a drawing *)

Module Js.

(** The values [xpos] takes: a double that is an integer, or an
    infinity. *)
Inductive num : Type :=
| Fin (z : Z)
| Inf (negative : bool).

(** The double nearest to the integer [z], ties to the even significand
    (53 bits); from [2 ^ 1024] on, an infinity. *)
Definition round (z : Z) : num :=
  let a := Z.abs z in
  if a <? 2 ^ 53 then Fin z
  else
    let e := Z.log2 a - 52 in
    let q := a / 2 ^ e in
    let r := a mod 2 ^ e in
    let q' := if 2 * r <? 2 ^ e then q
              else if 2 ^ e <? 2 * r then q + 1
              else if Z.even q then q else q + 1 in
    if 2 ^ 1024 <=? q' * 2 ^ e then Inf (z <? 0)
    else Fin (Z.sgn z * (q' * 2 ^ e)).

(** [x * 2] *)
Definition mul2 (x : num) : num :=
  match x with
  | Fin z => round (z * 2)
  | Inf s => Inf s
  end.

(** [x + d] and [x - d] for an integer [d] *)
Definition add (x : num) (d : Z) : num :=
  match x with
  | Fin z => round (z + d)
  | Inf s => Inf s
  end.

End Js.

Module Draw.

(** A [fill] or [stroke]: null, undefined or a colour string. *)
Inductive Paint : Type :=
| PaintNull
| PaintUndefined
| PaintStr (s : string).

(** An entry of [data.nodes]. The pixel coordinates [x] and [y], which
    [calculateNodePositions] and the simulation write, are left out. *)
Record DrawNode : Type := mkDrawNode {
  id : Z;
  ypos : Z;
  xpos : Js.num;
  fill : Paint;
  stroke : Paint
}.

Record Link : Type := mkLink { source : Z; target : Z }.

Record Data : Type := mkData {
  nodes : list DrawNode;
  links : list Link;
  treeHeight : Z
}.

(** [this.fills] and [this.strokes] of every [RbNode] *)
Definition fills : list string := ["#dedede"; "#ffb5b5"]%string.
Definition strokes : list string := ["#404040"; "#ff4040"]%string.

(** [Number.isInteger(node.colour) ? table[node.colour] : null] *)
Definition paint (table : list string) (a : Aug) : Paint :=
  match a with
  | AugColour c =>
      if c <? 0 then PaintUndefined
      else match table !! Z.to_nat c with
           | Some s => PaintStr s
           | None => PaintUndefined
           end
  | _ => PaintNull
  end.

Definition pushLink (s t : Z) (data : Data) : Data :=
  mkData (nodes data) (links data ++ [mkLink s t]) (treeHeight data).

(** [generateDrawObject(node, data, xpos, ypos)] with [data] an object.
    Reading [node.colour] of null throws. *)
Fixpoint generateDrawObjectFrom (n : Snap) (data : Data) (xpos : Js.num)
  (ypos : Z) : option Data :=
  match n with
  | null => None
  | node l v a r =>
      let data1 :=
        mkData (nodes data
                ++ [mkDrawNode v ypos xpos (paint fills a) (paint strokes a)])
               (links data) (Z.max (treeHeight data) ypos) in
      match
        match l with
        | null => Some data1
        | node _ lv _ _ =>
            generateDrawObjectFrom l (pushLink v lv data1)
              (Js.add (Js.mul2 xpos) (-1)) (ypos + 1)
        end
      with
      | None => None
      | Some data2 =>
          match r with
          | null => Some data2
          | node _ rv _ _ =>
              generateDrawObjectFrom r (pushLink v rv data2)
                (Js.add (Js.mul2 xpos) 1) (ypos + 1)
          end
      end
  end.

Definition emptyData : Data := mkData [] [] 0.

(** [generateDrawObject(node, data)]: [xpos = 0], [ypos = 1], and a new
    object when [data] is null. *)
Definition generateDrawObject (n : Snap) (data : option Data) : option Data :=
  generateDrawObjectFrom n (default emptyData data) (Js.Fin 0) 1.

End Draw.

(** *** What [generateDrawObject] lists *)

(** The entries in the order [generateDrawObject] pushes them. *)
Fixpoint drawNodes (t : Snap) (xpos : Js.num) (ypos : Z)
  : list Draw.DrawNode :=
  match t with
  | null => []
  | node l v a r =>
      Draw.mkDrawNode v ypos xpos (Draw.paint Draw.fills a)
                      (Draw.paint Draw.strokes a)
      :: drawNodes l (Js.add (Js.mul2 xpos) (-1)) (ypos + 1)
      ++ drawNodes r (Js.add (Js.mul2 xpos) 1) (ypos + 1)
  end.

Definition edgeTo (v : Z) (c : Snap) : list Draw.Link :=
  match c with
  | null => []
  | node _ cv _ _ => [Draw.mkLink v cv]
  end.

Fixpoint drawLinks (t : Snap) : list Draw.Link :=
  match t with
  | null => []
  | node l v _ r => edgeTo v l ++ drawLinks l ++ edgeTo v r ++ drawLinks r
  end.

(** [c] is the key of a child of a node keyed [p]. *)
Inductive edge : Snap -> Z -> Z -> Prop :=
| edge_left l v a r c : rootKey l = Some c -> edge (node l v a r) v c
| edge_right l v a r c : rootKey r = Some c -> edge (node l v a r) v c
| edge_in_left l v a r p c : edge l p c -> edge (node l v a r) p c
| edge_in_right l v a r p c : edge r p c -> edge (node l v a r) p c.

Lemma generateDrawObjectFrom_spec (t : Snap) : forall data x y,
  t <> null ->
  Draw.generateDrawObjectFrom t data x y
  = Some (Draw.mkData (Draw.nodes data ++ drawNodes t x y)
            (Draw.links data ++ drawLinks t)
            (Z.max (Draw.treeHeight data) (y + Tree.getHeight t - 1))).
Proof.
  induction t as [|l IHl v a r IHr]; intros data x y Hne; [congruence|].
  clear Hne. pose proof (getHeight_nonneg l). pose proof (getHeight_nonneg r).
  cbn [Draw.generateDrawObjectFrom].
  assert (Hchild : forall (c : Snap) d xc,
    (forall data x y, c <> null ->
       Draw.generateDrawObjectFrom c data x y
       = Some (Draw.mkData (Draw.nodes data ++ drawNodes c x y)
                 (Draw.links data ++ drawLinks c)
                 (Z.max (Draw.treeHeight data) (y + Tree.getHeight c - 1)))) ->
    y <= Draw.treeHeight d -> 0 <= Tree.getHeight c ->
    match c with
    | null => Some d
    | node _ cv _ _ =>
        Draw.generateDrawObjectFrom c (Draw.pushLink v cv d) xc (y + 1)
    end
    = Some (Draw.mkData (Draw.nodes d ++ drawNodes c xc (y + 1))
              (Draw.links d ++ edgeTo v c ++ drawLinks c)
              (Z.max (Draw.treeHeight d) (y + Tree.getHeight c)))).
  { intros c d xc IH Hy Hc. destruct c as [|cl cv ca cr].
    - destruct d as [ns ls h]. simpl in *. rewrite !app_nil_r.
      do 2 f_equal. lia.
    - rewrite IH by discriminate. cbn [Draw.pushLink Draw.nodes Draw.links
        Draw.treeHeight edgeTo]. rewrite <- app_assoc. do 2 f_equal. lia. }
  rewrite (Hchild l _ _ IHl) by (cbn [Draw.treeHeight]; lia).
  rewrite (Hchild r _ _ IHr) by (cbn [Draw.treeHeight]; lia).
  cbn [Draw.nodes Draw.links Draw.treeHeight drawNodes drawLinks
       Tree.getHeight].
  rewrite <- !app_assoc. simpl app. do 2 f_equal. lia.
Qed.

Lemma generateDrawObject_spec (t : Snap) :
  t <> null ->
  Draw.generateDrawObject t None
  = Some (Draw.mkData (drawNodes t (Js.Fin 0) 1) (drawLinks t)
            (Tree.getHeight t)).
Proof.
  intros Hne. unfold Draw.generateDrawObject.
  rewrite generateDrawObjectFrom_spec by exact Hne. simpl.
  pose proof (getHeight_nonneg t). do 2 f_equal. lia.
Qed.

Lemma drawNodes_ids (t : Snap) : forall x y,
  map Draw.id (drawNodes t x y) ≡ₚ inorder t.
Proof.
  induction t as [|l IHl v a r IHr]; intros x y; simpl; [reflexivity|].
  rewrite map_app, IHl, IHr. apply Permutation_middle.
Qed.

Lemma drawLinks_targets (t : Snap) : forall x y,
  map Draw.id (drawNodes t x y)
  = match rootKey t with
    | Some v => v :: map Draw.target (drawLinks t)
    | None => []
    end.
Proof.
  induction t as [|l IHl v a r IHr]; intros x y; simpl; [reflexivity|].
  f_equal. rewrite !map_app.
  rewrite (IHl (Js.add (Js.mul2 x) (-1)) (y + 1)).
  rewrite (IHr (Js.add (Js.mul2 x) 1) (y + 1)).
  destruct l, r; simpl; rewrite ?app_nil_r; reflexivity.
Qed.

Lemma drawLinks_edges (t : Snap) :
  Forall (fun k => edge t (Draw.source k) (Draw.target k)) (drawLinks t).
Proof.
  induction t as [|l IHl v a r IHr]; simpl; [constructor|].
  rewrite !Forall_app. repeat split.
  - destruct l; simpl; constructor; [|constructor].
    now apply edge_left.
  - eapply Forall_impl; [exact IHl|]. intros k Hk. now apply edge_in_left.
  - destruct r; simpl; constructor; [|constructor].
    now apply edge_right.
  - eapply Forall_impl; [exact IHr|]. intros k Hk. now apply edge_in_right.
Qed.

Lemma drawNodes_ypos (t : Snap) : forall x y,
  Forall (fun n => y <= Draw.ypos n <= y + Tree.getHeight t - 1)
         (drawNodes t x y).
Proof.
  induction t as [|l IHl v a r IHr]; intros x y; simpl; [constructor|].
  pose proof (getHeight_nonneg l). pose proof (getHeight_nonneg r).
  constructor; [simpl; lia|]. rewrite Forall_app. split.
  - eapply Forall_impl; [apply IHl|]. simpl. intros; lia.
  - eapply Forall_impl; [apply IHr|]. simpl. intros; lia.
Qed.

(** X20. [generateDrawObject] of a tree that is not null returns, and the
    data lists the tree: the ids of the entries are the keys of the tree,
    each once, the root first at [xpos] 0 and [ypos] 1; the targets of the
    links are, in order, the ids after the first, so every node but the root
    is the target of one link, and each link goes from a node to one of its
    children; [treeHeight] is [Tree.getHeight] of the root, and every [ypos]
    lies between 1 and [treeHeight]. *)
Theorem generateDrawObject_lists_the_tree (t : Snap) :
  t <> null ->
  exists data rootValue,
    Draw.generateDrawObject t None = Some data
    /\ rootKey t = Some rootValue
    /\ map Draw.id (Draw.nodes data) ≡ₚ inorder t
    /\ map Draw.id (Draw.nodes data)
       = rootValue :: map Draw.target (Draw.links data)
    /\ (exists first rest,
          Draw.nodes data = first :: rest
          /\ Draw.xpos first = Js.Fin 0 /\ Draw.ypos first = 1)
    /\ Forall (fun k => edge t (Draw.source k) (Draw.target k))
              (Draw.links data)
    /\ Draw.treeHeight data = Tree.getHeight t
    /\ Forall (fun n => 1 <= Draw.ypos n <= Draw.treeHeight data)
              (Draw.nodes data).
Proof.
  intros Hne. destruct t as [|l v a r]; [congruence|].
  eexists _, v. split; [apply generateDrawObject_spec; discriminate|].
  cbn [Draw.nodes Draw.links Draw.treeHeight].
  split; [reflexivity|]. split; [apply drawNodes_ids|].
  split; [apply (drawLinks_targets (node l v a r))|].
  split; [simpl; eauto|]. split; [apply drawLinks_edges|].
  split; [reflexivity|].
  eapply Forall_impl; [apply drawNodes_ypos|]. simpl. intros; lia.
Qed.

Lemma generateDrawObject_lists_the_tree_witness :
  exists data rootValue,
    Draw.generateDrawObject
      (node (node null 3 (AugColour 1) null) 5 (AugColour 0) null) None
    = Some data
    /\ rootKey (node (node null 3 (AugColour 1) null) 5 (AugColour 0) null)
       = Some rootValue
    /\ map Draw.id (Draw.nodes data)
       ≡ₚ inorder (node (node null 3 (AugColour 1) null) 5 (AugColour 0) null)
    /\ map Draw.id (Draw.nodes data)
       = rootValue :: map Draw.target (Draw.links data)
    /\ (exists first rest,
          Draw.nodes data = first :: rest
          /\ Draw.xpos first = Js.Fin 0 /\ Draw.ypos first = 1)
    /\ Forall (fun k =>
                 edge (node (node null 3 (AugColour 1) null) 5 (AugColour 0)
                         null) (Draw.source k) (Draw.target k))
              (Draw.links data)
    /\ Draw.treeHeight data
       = Tree.getHeight
           (node (node null 3 (AugColour 1) null) 5 (AugColour 0) null)
    /\ Forall (fun n => 1 <= Draw.ypos n <= Draw.treeHeight data)
              (Draw.nodes data).
Proof.
  apply generateDrawObject_lists_the_tree. discriminate.
Defined.

(** *** Where the nodes are drawn *)

Definition position (n : Draw.DrawNode) : Js.num * Z :=
  (Draw.xpos n, Draw.ypos n).

(** [a] is drawn to the left of [b]. [calculateNodePositions] puts a node
    at [Math.round((xpos / 2.0) * (width / Math.pow(2, ypos - 1)) + width / 2)
    + margin], so the nodes are compared by [xpos / 2 ^ ypos]. *)
Definition drawnLeftOf (a b : Draw.DrawNode) : Prop :=
  match Draw.xpos a, Draw.xpos b with
  | Js.Fin xa, Js.Fin xb => xa * 2 ^ Draw.ypos b < xb * 2 ^ Draw.ypos a
  | _, _ => False
  end.

(** The entries of [drawNodes], the left subtree first. *)
Fixpoint drawInorder (t : Snap) (xpos : Js.num) (ypos : Z)
  : list Draw.DrawNode :=
  match t with
  | null => []
  | node l v a r =>
      drawInorder l (Js.add (Js.mul2 xpos) (-1)) (ypos + 1)
      ++ Draw.mkDrawNode v ypos xpos (Draw.paint Draw.fills a)
                         (Draw.paint Draw.strokes a)
      :: drawInorder r (Js.add (Js.mul2 xpos) 1) (ypos + 1)
  end.

(** The column of a position in the grid of level [H]. *)
Definition columnOf (H : Z) (p : Js.num * Z) : Z :=
  match fst p with
  | Js.Fin z => z * 2 ^ (H - snd p)
  | Js.Inf _ => 0
  end.

Definition column (H : Z) (n : Draw.DrawNode) : Z := columnOf H (position n).

Lemma drawInorder_perm (t : Snap) : forall x y,
  drawNodes t x y ≡ₚ drawInorder t x y.
Proof.
  induction t as [|l IHl v a r IHr]; intros x y; simpl; [reflexivity|].
  rewrite IHl, IHr. apply Permutation_middle.
Qed.

Lemma drawInorder_ids (t : Snap) : forall x y,
  map Draw.id (drawInorder t x y) = inorder t.
Proof.
  induction t as [|l IHl v a r IHr]; intros x y; simpl; [reflexivity|].
  rewrite map_app. simpl. now rewrite IHl, IHr.
Qed.

Lemma pow2_53 : 2 ^ 53 = 9007199254740992.
Proof. reflexivity. Qed.

Lemma pow2_52 : 2 ^ 52 = 4503599627370496.
Proof. reflexivity. Qed.

Lemma round_exact z : Z.abs z < 2 ^ 53 -> Js.round z = Js.Fin z.
Proof.
  intros Hz. unfold Js.round. cbv zeta.
  destruct (Z.abs z <? 2 ^ 53) eqn:E; [reflexivity|]. lia.
Qed.

Lemma child_xpos x d :
  Z.abs x <= 2 ^ 52 - 1 -> -1 <= d <= 1 ->
  Js.add (Js.mul2 (Js.Fin x)) d = Js.Fin (x * 2 + d).
Proof.
  intros Hx Hd. pose proof pow2_52. pose proof pow2_53. unfold Js.mul2.
  rewrite round_exact by lia. unfold Js.add. apply round_exact. lia.
Qed.

Lemma lt_sorted_join (l1 : list Z) m l2 :
  StronglySorted Z.lt l1 -> StronglySorted Z.lt l2 ->
  Forall (fun a => a < m) l1 -> Forall (fun b => m < b) l2 ->
  StronglySorted Z.lt (l1 ++ m :: l2).
Proof.
  intros H1 H2 Hl Hr. induction H1 as [|a l1 H1 IH Ha]; simpl.
  - constructor; assumption.
  - apply Forall_cons in Hl as [Ham Hl]. constructor; [now apply IH|].
    rewrite Forall_app. split; [exact Ha|]. constructor; [exact Ham|].
    eapply Forall_impl; [exact Hr|]. simpl. intros; lia.
Qed.

Lemma lt_sorted_NoDup (l : list Z) : StronglySorted Z.lt l -> NoDup l.
Proof.
  induction 1 as [|a l Hl IH Ha]; constructor; [|exact IH].
  intros Hin. rewrite Forall_forall in Ha. specialize (Ha _ Hin). lia.
Qed.

(** Two strictly ascending readings of one list order its entries alike. *)
Lemma two_orders {A} (f g : A -> Z) (l : list A) a b :
  StronglySorted Z.lt (map f l) -> StronglySorted Z.lt (map g l) ->
  a ∈ l -> b ∈ l -> f a < f b -> g a < g b.
Proof.
  induction l as [|c l IH]; intros Hf Hg Ha Hb Hab.
  - inversion Ha.
  - simpl in Hf, Hg. apply StronglySorted_inv in Hf as [Hf Hfc].
    apply StronglySorted_inv in Hg as [Hg Hgc].
    rewrite Forall_forall in Hfc, Hgc.
    apply elem_of_cons in Ha as [->|Ha]; apply elem_of_cons in Hb as [->|Hb].
    + lia.
    + apply Hgc. now apply (list_elem_of_fmap_2 g).
    + specialize (Hfc (f a) (list_elem_of_fmap_2 f _ _ Ha)). lia.
    + now apply IH.
Qed.

Definition inColumns (H x y : Z) (n : Draw.DrawNode) : Prop :=
  (exists z, Draw.xpos n = Js.Fin z)
  /\ 1 <= Draw.ypos n <= H
  /\ (x - 1) * 2 ^ (H - y) < column H n < (x + 1) * 2 ^ (H - y).

Lemma drawInorder_columns (t : Snap) : forall x y H,
  1 <= y -> y + Tree.getHeight t - 1 <= H -> H <= 54 ->
  Z.abs x <= 2 ^ (y - 1) - 1 ->
  Forall (inColumns H x y) (drawInorder t (Js.Fin x) y)
  /\ StronglySorted Z.lt (map (column H) (drawInorder t (Js.Fin x) y)).
Proof.
  induction t as [|l IHl v a r IHr]; intros x y H Hy Hh H54 Hx.
  { simpl. split; constructor. }
  pose proof (getHeight_nonneg l) as Hl0.
  pose proof (getHeight_nonneg r) as Hr0.
  cbn [Tree.getHeight] in Hh.
  assert (Hp : 0 < 2 ^ (H - y)) by (apply Z.pow_pos_nonneg; lia).
  assert (Hchild : forall (c : Snap) d,
    (forall x y H, 1 <= y -> y + Tree.getHeight c - 1 <= H -> H <= 54 ->
       Z.abs x <= 2 ^ (y - 1) - 1 ->
       Forall (inColumns H x y) (drawInorder c (Js.Fin x) y)
       /\ StronglySorted Z.lt
            (map (column H) (drawInorder c (Js.Fin x) y))) ->
    0 <= Tree.getHeight c -> y + Tree.getHeight c <= H -> -1 <= d <= 1 ->
    d <> 0 ->
    Forall (fun n =>
              (exists z, Draw.xpos n = Js.Fin z)
              /\ 1 <= Draw.ypos n <= H
              /\ (x * 2 + d - 1) * 2 ^ (H - y - 1) < column H n
                 < (x * 2 + d + 1) * 2 ^ (H - y - 1))
           (drawInorder c (Js.add (Js.mul2 (Js.Fin x)) d) (y + 1))
    /\ StronglySorted Z.lt
         (map (column H)
            (drawInorder c (Js.add (Js.mul2 (Js.Fin x)) d) (y + 1)))).
  { intros c d IH Hc0 Hc Hd Hd0. destruct c as [|cl cv ca cr].
    { simpl. split; constructor. }
    cbn [Tree.getHeight] in Hc, Hc0.
    pose proof (getHeight_nonneg cl). pose proof (getHeight_nonneg cr).
    assert (Hy53 : y <= 53) by lia.
    assert (H2y : 2 ^ (y - 1) <= 2 ^ 52) by (apply Z.pow_le_mono_r; lia).
    assert (E2 : 2 ^ (y + 1 - 1) = 2 * 2 ^ (y - 1)).
    { replace (y + 1 - 1) with (Z.succ (y - 1)) by lia.
      apply Z.pow_succ_r. lia. }
    rewrite child_xpos by lia.
    destruct (IH (x * 2 + d) (y + 1) H) as [HF HS];
      [lia|cbn [Tree.getHeight]; lia|lia|lia|].
    split; [|exact HS].
    eapply Forall_impl; [exact HF|]. intros n (Hz & Hyn & Hcol).
    replace (H - (y + 1)) with (H - y - 1) in Hcol by lia.
    repeat split; try tauto; lia. }
  destruct (Z.eq_dec (Z.max (Tree.getHeight l) (Tree.getHeight r)) 0) as [E0|E0].
  - (* a leaf *)
    assert (l = null) as ->.
    { destruct l; [reflexivity|]. cbn [Tree.getHeight] in *.
      pose proof (getHeight_nonneg l1). pose proof (getHeight_nonneg l2). lia. }
    assert (r = null) as ->.
    { destruct r; [reflexivity|]. cbn [Tree.getHeight] in *.
      pose proof (getHeight_nonneg r1). pose proof (getHeight_nonneg r2). lia. }
    simpl. split.
    + constructor; [|constructor]. unfold inColumns, column, columnOf. simpl.
      split; [eauto|]. split; [lia|]. lia.
    + repeat constructor.
  - assert (Hy' : y + 1 <= H) by lia.
    assert (E : 2 ^ (H - y) = 2 * 2 ^ (H - y - 1)).
    { rewrite <- Z.pow_succ_r by lia. f_equal. lia. }
    destruct (Hchild l (-1) IHl) as [HlF HlS]; [lia..|].
    destruct (Hchild r 1 IHr) as [HrF HrS]; [lia..|].
    cbn [drawInorder]. rewrite map_app. cbn [map].
    assert (Hroot : column H (Draw.mkDrawNode v y (Js.Fin x)
                      (Draw.paint Draw.fills a) (Draw.paint Draw.strokes a))
                    = x * 2 ^ (H - y)) by reflexivity.
    split.
    + rewrite Forall_app. split; [|constructor].
      * eapply Forall_impl; [exact HlF|]. intros n (Hz & Hyn & Hcol).
        unfold inColumns. repeat split; try tauto; lia.
      * unfold inColumns. rewrite Hroot. simpl. split; [eauto|]. lia.
      * eapply Forall_impl; [exact HrF|]. intros n (Hz & Hyn & Hcol).
        unfold inColumns. repeat split; try tauto; lia.
    + apply lt_sorted_join; [exact HlS|exact HrS| |].
      * rewrite Forall_forall. intros c Hc.
        apply (list_elem_of_fmap_1 (column H)) in Hc as (n & -> & Hn).
        rewrite Forall_forall in HlF. destruct (HlF n Hn) as (_ & _ & Hcol).
        rewrite Hroot. lia.
      * rewrite Forall_forall. intros c Hc.
        apply (list_elem_of_fmap_1 (column H)) in Hc as (n & -> & Hn).
        rewrite Forall_forall in HrF. destruct (HrF n Hn) as (_ & _ & Hcol).
        rewrite Hroot. lia.
Qed.

Lemma column_leftOf H (a b : Draw.DrawNode) :
  (exists z, Draw.xpos a = Js.Fin z) -> (exists z, Draw.xpos b = Js.Fin z) ->
  1 <= Draw.ypos a <= H -> 1 <= Draw.ypos b <= H ->
  column H a < column H b -> drawnLeftOf a b.
Proof.
  intros [xa Ea] [xb Eb] Hya Hyb Hc. unfold drawnLeftOf, column, columnOf in *.
  simpl in Hc. rewrite Ea, Eb in *.
  assert (Ta : 2 ^ H = 2 ^ (H - Draw.ypos a) * 2 ^ Draw.ypos a).
  { rewrite <- Z.pow_add_r by lia. f_equal. lia. }
  assert (Tb : 2 ^ H = 2 ^ (H - Draw.ypos b) * 2 ^ Draw.ypos b).
  { rewrite <- Z.pow_add_r by lia. f_equal. lia. }
  assert (0 < 2 ^ H) by (apply Z.pow_pos_nonneg; lia).
  assert (0 < 2 ^ Draw.ypos a) by (apply Z.pow_pos_nonneg; lia).
  assert (0 < 2 ^ Draw.ypos b) by (apply Z.pow_pos_nonneg; lia).
  apply (Z.mul_lt_mono_pos_r (2 ^ H)); [assumption|].
  replace (xa * 2 ^ Draw.ypos b * 2 ^ H)
    with (xa * 2 ^ (H - Draw.ypos a) * (2 ^ Draw.ypos a * 2 ^ Draw.ypos b))
    by (rewrite Ta; ring).
  replace (xb * 2 ^ Draw.ypos a * 2 ^ H)
    with (xb * 2 ^ (H - Draw.ypos b) * (2 ^ Draw.ypos a * 2 ^ Draw.ypos b))
    by (rewrite Tb; ring).
  apply Z.mul_lt_mono_pos_r; [|exact Hc]. apply Z.mul_pos_pos; assumption.
Qed.

Lemma drawing_columns (t : Snap) :
  Tree.getHeight t <= 54 ->
  Forall (inColumns 54 0 1) (drawInorder t (Js.Fin 0) 1)
  /\ StronglySorted Z.lt (map (column 54) (drawInorder t (Js.Fin 0) 1)).
Proof.
  intros Hh. apply drawInorder_columns; lia.
Qed.

(** X21. In the data [generateDrawObject] returns for a tree of height at
    most 54, every [xpos] is an exact integer and no two entries have the
    same [xpos] and [ypos], whatever the keys are. *)
Theorem drawn_positions_are_distinct (t : Snap) :
  t <> null -> Tree.getHeight t <= 54 ->
  exists data,
    Draw.generateDrawObject t None = Some data
    /\ Forall (fun n => exists z, Draw.xpos n = Js.Fin z) (Draw.nodes data)
    /\ NoDup (map position (Draw.nodes data)).
Proof.
  intros Hne Hh. eexists. split; [apply generateDrawObject_spec, Hne|].
  cbn [Draw.nodes]. destruct (drawing_columns t Hh) as [HF HS].
  split.
  - rewrite drawInorder_perm. eapply Forall_impl; [exact HF|].
    intros n (Hz & _). exact Hz.
  - rewrite drawInorder_perm. apply lt_sorted_NoDup in HS.
    change (map (column 54) (drawInorder t (Js.Fin 0) 1))
      with ((columnOf 54 ∘ position) <$> drawInorder t (Js.Fin 0) 1) in HS.
    rewrite list_fmap_compose in HS. now apply NoDup_fmap_1 in HS.
Qed.

Lemma drawn_positions_are_distinct_witness :
  exists data,
    Draw.generateDrawObject
      (node (node null 7 AugPlain null) 7 AugPlain (node null 7 AugPlain null))
      None = Some data
    /\ Forall (fun n => exists z, Draw.xpos n = Js.Fin z) (Draw.nodes data)
    /\ NoDup (map position (Draw.nodes data)).
Proof.
  apply drawn_positions_are_distinct; [discriminate|].
  vm_compute. discriminate.
Defined.

(** X22. In the data [generateDrawObject] returns for a tree of height at
    most 54 whose keys ascend strictly in in-order, an entry with a smaller
    id is drawn to the left of an entry with a larger id: the picture shows
    the keys in ascending order from left to right. *)
Theorem smaller_keys_are_drawn_to_the_left (t : Snap) :
  t <> null -> Tree.getHeight t <= 54 ->
  StronglySorted Z.lt (inorder t) ->
  exists data,
    Draw.generateDrawObject t None = Some data
    /\ forall a b, a ∈ Draw.nodes data -> b ∈ Draw.nodes data ->
         Draw.id a < Draw.id b -> drawnLeftOf a b.
Proof.
  intros Hne Hh Hs. eexists. split; [apply generateDrawObject_spec, Hne|].
  cbn [Draw.nodes]. intros a b Ha Hb Hab.
  rewrite drawInorder_perm in Ha, Hb.
  destruct (drawing_columns t Hh) as [HF HS]. rewrite Forall_forall in HF.
  destruct (HF a Ha) as (Hza & Hya & _). destruct (HF b Hb) as (Hzb & Hyb & _).
  apply (column_leftOf 54); try assumption.
  apply (two_orders Draw.id (column 54) (drawInorder t (Js.Fin 0) 1));
    try assumption.
  now rewrite drawInorder_ids.
Qed.

Lemma smaller_keys_are_drawn_to_the_left_witness :
  exists data,
    Draw.generateDrawObject
      (node (node null 3 AugPlain (node null 4 AugPlain null)) 5 AugPlain
         (node null 8 AugPlain null))
      None = Some data
    /\ forall a b, a ∈ Draw.nodes data -> b ∈ Draw.nodes data ->
         Draw.id a < Draw.id b -> drawnLeftOf a b.
Proof.
  apply smaller_keys_are_drawn_to_the_left; [discriminate| |].
  - vm_compute. discriminate.
  - simpl. repeat constructor; lia.
Defined.

(** *** Below level 54 *)

(** The keys 10, 20, ..., 530 make a right spine of 53 nodes; 525 and 540
    are the children of its last node, on level 54; 527 and 535 lie on
    level 55. *)
Definition deepKeys : list Z :=
  map (fun i => Z.of_nat i * 10) (seq 1 53) ++ [525; 540; 527; 535].

(** X23. The bound of 54 levels is sharp, because [xpos * 2 - 1] and
    [xpos * 2 + 1] are rounded from level 55 on: inserting 57 distinct keys
    into a new [Bst] gives a tree of height 55 in whose drawing data the
    entries of the keys 527 and 535 have the same [xpos] and [ypos]. *)
Theorem positions_collide_on_level_55 :
  exists (t : Bst.BstNode) data a b,
    NoDup deepKeys
    /\ builtBy deepKeys t
    /\ Tree.getHeight t = 55
    /\ Draw.generateDrawObject (Bst.copy t) None = Some data
    /\ a ∈ Draw.nodes data /\ b ∈ Draw.nodes data
    /\ Draw.id a = 527 /\ Draw.id b = 535
    /\ position a = position b
    /\ Draw.ypos a = 55.
Proof.
  exists (builtFrom deepKeys).
  exists (Draw.mkData (drawNodes (Bst.copy (builtFrom deepKeys)) (Js.Fin 0) 1)
            (drawLinks (Bst.copy (builtFrom deepKeys)))
            (Tree.getHeight (Bst.copy (builtFrom deepKeys)))).
  exists (Draw.mkDrawNode 527 55 (Js.Fin (2 ^ 54 - 4)) Draw.PaintNull
            Draw.PaintNull).
  exists (Draw.mkDrawNode 535 55 (Js.Fin (2 ^ 54 - 4)) Draw.PaintNull
            Draw.PaintNull).
  split; [apply (bool_decide_unpack _); vm_compute; reflexivity|].
  split.
  { let ks := eval vm_compute in deepKeys in
    change deepKeys with ks. built_by_running. }
  split; [vm_compute; reflexivity|].
  split; [apply generateDrawObject_spec; vm_compute; discriminate|].
  cbn [Draw.nodes].
  split; [apply list_elem_of_In; vm_compute; tauto|].
  split; [apply list_elem_of_In; vm_compute; tauto|].
  repeat split.
Qed.

(** ** The insert animation and the drawing data *)

Module Animation.

(** [Global.movementNodeInfo] is [[sourceNode, newNode, newText,
    targetNode]]: the id of [sourceNode] and [targetNode], an entry of
    [data.nodes] or undefined, are kept. *)
Definition Info : Type := (Z * option Draw.DrawNode)%type.

(** [Global.simulationData] and [Global.movementNodeInfo] *)
Record View : Type := mkView {
  simulationData : option Draw.Data;
  movementNodeInfo : option Info
}.

(** [drawMovement(sourceId, targetId, settings)] up to the moment it
    enables the next step: the marker is made or reused, the target is
    looked up, and the marker is dropped when it has reached its own node. *)
Definition drawMovement (sourceId targetId : Z) (w : View) : option View :=
  match simulationData w with
  | None => None
  | Some data =>
      let targetNode :=
        List.find (fun x => Draw.id x =? targetId) (Draw.nodes data) in
      let sourceNode :=
        match movementNodeInfo w with
        | None => sourceId
        | Some (s, _) => s
        end in
      match targetNode with
      | None => None         (* [targetNode.x] of undefined *)
      | Some _ =>
          Some (mkView (Some data)
                  (if sourceId =? targetId then None
                   else Some (sourceNode, targetNode)))
      end
  end.

(** [formatInsertData(position)] *)
Definition formatInsertData (position : string) (w : View) : option View :=
  match movementNodeInfo w, simulationData w with
  | Some (newId, Some parentNode), Some data =>
      let pushed :=
        if String.eqb position "LEFT" then
          [Draw.mkDrawNode newId (Draw.ypos parentNode + 1)
             (Js.add (Js.mul2 (Draw.xpos parentNode)) (-1))
             Draw.PaintUndefined Draw.PaintUndefined]
        else if String.eqb position "RIGHT" then
          [Draw.mkDrawNode newId (Draw.ypos parentNode + 1)
             (Js.add (Js.mul2 (Draw.xpos parentNode)) 1)
             Draw.PaintUndefined Draw.PaintUndefined]
        else [] in
      Some (mkView
              (Some (Draw.mkData (Draw.nodes data ++ pushed)
                       (Draw.links data
                        ++ [Draw.mkLink (Draw.id parentNode) newId])
                       (Draw.treeHeight data)))
              (movementNodeInfo w))
  | _, _ => None
  end.

(** The cases 1 to 4 of [animate], for an action whose arguments are two
    numbers, as [insertRecursive] pushes them. *)
Definition animateInsertStep (a : Action) (w : View) : option View :=
  match args a with
  | Some [ANum a0; ANum a1] =>
      if id a =? 1 then formatInsertData "LEFT" w
      else if id a =? 2 then formatInsertData "RIGHT" w
      else if (id a =? 3) || (id a =? 4) then drawMovement a0 a1 w
      else None
  | _ => None
  end.

(** The actions in the order [animate] pops them. *)
Fixpoint animateInsertSteps (l : list Action) (w : View) : option View :=
  match l with
  | [] => Some w
  | a :: l' =>
      match animateInsertStep a w with
      | Some w' => animateInsertSteps l' w'
      | None => None
      end
  end.

End Animation.

(** What the picture shows of an entry. *)
Definition grid (n : Draw.DrawNode) : Z * Js.num * Z :=
  (Draw.id n, Draw.xpos n, Draw.ypos n).

Lemma find_by_id (ns : list Draw.DrawNode) e :
  NoDup (map Draw.id ns) -> e ∈ ns ->
  List.find (fun x => Draw.id x =? Draw.id e) ns = Some e.
Proof.
  induction ns as [|n ns IH]; intros Hnd He; [inversion He|].
  simpl in Hnd. apply NoDup_cons in Hnd as [Hn Hnd]. simpl.
  apply elem_of_cons in He as [->|He].
  - now rewrite Z.eqb_refl.
  - destruct (Draw.id n =? Draw.id e) eqn:E; [|now apply IH].
    exfalso. apply Hn. apply Z.eqb_eq in E. rewrite E.
    now apply (list_elem_of_fmap_2 Draw.id).
Qed.

Lemma animateInsertSteps_cons a l w w' :
  Animation.animateInsertStep a w = Some w' ->
  Animation.animateInsertSteps (a :: l) w = Animation.animateInsertSteps l w'.
Proof. intros E. simpl. now rewrite E. Qed.

Lemma bst_insertRecursive_draws (t : Bst.BstNode) (v : Z) :
  forall x y g ns ls h info,
    t <> null -> v ∉ inorder t ->
    NoDup (map Draw.id ns) ->
    (forall e, e ∈ drawNodes (Bst.copy t) x y -> e ∈ ns) ->
    (info = None \/ exists p, info = Some (v, p)) ->
    exists t' g' acts e k info',
      Bst.insertRecursive t v g = Some (t', g')
      /\ actionList g' = actionList g ++ acts
      /\ rootKey t' = rootKey t
      /\ Animation.animateInsertSteps acts
           (Animation.mkView (Some (Draw.mkData ns ls h)) info)
         = Some (Animation.mkView
                   (Some (Draw.mkData (ns ++ [e]) (ls ++ [k]) h)) info')
      /\ map grid (drawNodes (Bst.copy t') x y)
         ≡ₚ map grid (drawNodes (Bst.copy t) x y) ++ [grid e]
      /\ drawLinks (Bst.copy t') ≡ₚ drawLinks (Bst.copy t) ++ [k].
Proof.
  induction t as [|l IHl val a r IHr];
    intros x y g ns ls h info Hne Hv Hnd Hin Hinfo; [congruence|].
  clear Hne. cbn [inorder] in Hv.
  rewrite elem_of_app, elem_of_cons in Hv.
  assert (Hval : v <> val) by tauto.
  set (e0 := Draw.mkDrawNode val y x (Draw.paint Draw.fills AugPlain)
               (Draw.paint Draw.strokes AugPlain)).
  assert (He0 : e0 ∈ ns).
  { apply Hin. unfold Bst.copy. simpl. apply list_elem_of_here. }
  assert (Hmove : forall i, i = 3 \/ i = 4 ->
    Animation.animateInsertStep (mkAction i (Some [ANum v; ANum val]))
      (Animation.mkView (Some (Draw.mkData ns ls h)) info)
    = Some (Animation.mkView (Some (Draw.mkData ns ls h))
              (Some (v, Some e0)))).
  { intros i Hi. unfold Animation.animateInsertStep. cbn [args id].
    replace (i =? 1) with false by lia. replace (i =? 2) with false by lia.
    replace ((i =? 3) || (i =? 4)) with true by lia.
    unfold Animation.drawMovement.
    cbn [Animation.simulationData Animation.movementNodeInfo Draw.nodes].
    pose proof (find_by_id ns e0 Hnd He0) as Hfind.
    change (Draw.id e0) with val in Hfind. rewrite Hfind.
    replace (v =? val) with false by lia.
    destruct Hinfo as [->|[p ->]]; reflexivity. }
  cbn [Bst.insertRecursive].
  destruct (v <? val) eqn:Ev.
  - destruct l as [|ll lv la lr].
    + eexists _, _, [_; _], _, _, _.
      split; [reflexivity|]. split; [simpl; now rewrite <- app_assoc|].
      split; [reflexivity|].
      erewrite animateInsertSteps_cons by (apply Hmove; now left).
      split; [reflexivity|]. split.
      * unfold Bst.copy. simpl. apply perm_skip.
        exact (Permutation_cons_append _ _).
      * unfold Bst.copy. simpl. apply Permutation_cons_append.
    + destruct (IHl (Js.add (Js.mul2 x) (-1)) (y + 1)
                  (withActions
                     (fun l0 => l0 ++ [mkAction 3 (Some [ANum v; ANum val])])
                     g)
                  ns ls h (Some (v, Some e0)))
        as (l' & g' & acts & e & k & info' & Hrun & Hacts & Hroot & Hplay
            & Hns & Hls);
        [discriminate|tauto|exact Hnd| |eauto|].
      { intros e He. apply Hin. unfold Bst.copy. cbn [copyNode drawNodes].
        apply list_elem_of_further. rewrite elem_of_app. now left. }
      exists (node l' val a r), g',
        (mkAction 3 (Some [ANum v; ANum val]) :: acts), e, k, info'.
      split.
      { unfold bind at 1. unfold pushAction, pushArgs, modify at 1.
        unfold bind. rewrite Hrun. reflexivity. }
      split; [rewrite Hacts; simpl; now rewrite <- app_assoc|].
      split; [reflexivity|].
      split.
      { erewrite animateInsertSteps_cons by (apply Hmove; now left).
        exact Hplay. }
      assert (Eedge : edgeTo val (Bst.copy l')
                      = edgeTo val (Bst.copy (node ll lv la lr))).
      { destruct l'; [discriminate Hroot|]. simpl in Hroot.
        injection Hroot as ->. reflexivity. }
      remember (node ll lv la lr) as L eqn:EL.
      unfold Bst.copy in *. cbn [copyNode drawNodes drawLinks].
      split.
      * cbn [map]. rewrite <- app_comm_cons. apply perm_skip.
        rewrite !map_app, Hns, <- !app_assoc. apply Permutation_app_head.
        apply Permutation_app_comm.
      * rewrite Eedge, Hls. rewrite <- !app_assoc.
        apply Permutation_app_head. apply Permutation_app_head.
        rewrite (app_assoc _ _ [k]). apply (Permutation_app_comm [k]).
  - destruct r as [|rl rv ra rr].
    + eexists _, _, [_; _], _, _, _.
      split; [reflexivity|]. split; [simpl; now rewrite <- app_assoc|].
      split; [reflexivity|].
      erewrite animateInsertSteps_cons by (apply Hmove; now right).
      split; [reflexivity|]. split.
      * unfold Bst.copy. simpl. apply perm_skip.
        rewrite !app_nil_r, map_app. exact (Permutation_refl _).
      * unfold Bst.copy. simpl. rewrite !app_nil_r, <- !app_assoc.
        reflexivity.
    + destruct (IHr (Js.add (Js.mul2 x) 1) (y + 1)
                  (withActions
                     (fun l0 => l0 ++ [mkAction 4 (Some [ANum v; ANum val])])
                     g)
                  ns ls h (Some (v, Some e0)))
        as (r' & g' & acts & e & k & info' & Hrun & Hacts & Hroot & Hplay
            & Hns & Hls);
        [discriminate|tauto|exact Hnd| |eauto|].
      { intros e He. apply Hin. unfold Bst.copy. cbn [copyNode drawNodes].
        apply list_elem_of_further. rewrite elem_of_app. now right. }
      exists (node l val a r'), g',
        (mkAction 4 (Some [ANum v; ANum val]) :: acts), e, k, info'.
      split.
      { unfold bind at 1. unfold pushAction, pushArgs, modify at 1.
        unfold bind. rewrite Hrun. reflexivity. }
      split; [rewrite Hacts; simpl; now rewrite <- app_assoc|].
      split; [reflexivity|].
      split.
      { erewrite animateInsertSteps_cons by (apply Hmove; now right).
        exact Hplay. }
      assert (Eedge : edgeTo val (Bst.copy r')
                      = edgeTo val (Bst.copy (node rl rv ra rr))).
      { destruct r'; [discriminate Hroot|]. simpl in Hroot.
        injection Hroot as ->. reflexivity. }
      remember (node rl rv ra rr) as R eqn:ER.
      unfold Bst.copy in *. cbn [copyNode drawNodes drawLinks].
      split.
      * cbn [map]. rewrite <- app_comm_cons. apply perm_skip.
        rewrite !map_app, Hns, <- !app_assoc. reflexivity.
      * rewrite Eedge, Hls. rewrite <- !app_assoc. reflexivity.
Qed.

(** X24. The animation of a [Bst] insert ends with the data a new drawing
    would have. [Bst.prototype.insert] of a key that is not stored, into a
    tree that is not empty and has distinct keys, called with an empty
    action list, leaves the list that [animate] pops as the resize action,
    the search and append actions, and the end action. Played on the
    drawing data of the old tree, the search and append actions return, and
    afterwards [Global.simulationData] has the entries and links of
    [generateDrawObject] of the new tree: the same ids with the same [xpos]
    and [ypos], and the same links, in another order. *)
Theorem bst_insert_animation_draws_the_new_tree (t : Bst.BstNode) (v : Z)
  (g : Global) :
  t <> null -> StronglySorted Z.lt (inorder t) -> v ∉ inorder t ->
  actionList g = [] ->
  exists t' g' acts data w data' dataNew,
    Bst.insert t v g = Some (t', g')
    /\ rev (actionList g')
       = mkAction 5 None :: acts
         ++ [mkAction 32 (Some [AStr "Insertion complete."])]
    /\ Draw.generateDrawObject (Bst.copy t) None = Some data
    /\ Animation.animateInsertSteps acts
         (Animation.mkView (Some data) None) = Some w
    /\ Animation.simulationData w = Some data'
    /\ Draw.generateDrawObject (Bst.copy t') None = Some dataNew
    /\ map grid (Draw.nodes data') ≡ₚ map grid (Draw.nodes dataNew)
    /\ Draw.links data' ≡ₚ Draw.links dataNew.
Proof.
  intros Hne Hs Hv Hg.
  assert (Hnd : NoDup (map Draw.id (drawNodes (Bst.copy t) (Js.Fin 0) 1))).
  { rewrite drawNodes_ids. unfold Bst.copy. rewrite inorder_copyNode.
    now apply lt_sorted_NoDup. }
  destruct (bst_insertRecursive_draws t v (Js.Fin 0) 1
              (withOperation INSERT g)
              (drawNodes (Bst.copy t) (Js.Fin 0) 1)
              (drawLinks (Bst.copy t)) (Tree.getHeight (Bst.copy t)) None
              Hne Hv Hnd (fun e He => He) (or_introl eq_refl))
    as (t' & g1 & acts & e & k & info' & Hrun & Hacts & Hroot & Hplay
        & Hns & Hls).
  assert (Hne' : t' <> null).
  { destruct t; [congruence|]. destruct t'; [discriminate Hroot|].
    discriminate. }
  eexists t', _, acts, _, _, _, _.
  split.
  { unfold Bst.insert. destruct t as [|l val a r]; [congruence|].
    unfold bind at 1. unfold setOperation, modify at 1.
    unfold bind at 1. rewrite Hrun. reflexivity. }
  split.
  { cbn [actionList withActions]. rewrite Hacts. cbn [actionList withOperation].
    rewrite Hg. cbn [app]. rewrite rev_app_distr. cbn [rev app].
    now rewrite rev_involutive. }
  split.
  { apply generateDrawObject_spec. destruct t; [congruence|discriminate]. }
  split; [exact Hplay|]. split; [reflexivity|].
  split.
  { apply generateDrawObject_spec. destruct t'; [congruence|discriminate]. }
  cbn [Draw.nodes Draw.links]. split.
  - rewrite map_app. cbn [map]. now rewrite Hns.
  - now rewrite Hls.
Qed.

Lemma bst_insert_animation_draws_the_new_tree_witness :
  exists t' g' acts data w data' dataNew,
    Bst.insert (node (node null 3 tt null) 5 tt (node null 8 tt null)) 4
      readyGlobal = Some (t', g')
    /\ rev (actionList g')
       = mkAction 5 None :: acts
         ++ [mkAction 32 (Some [AStr "Insertion complete."])]
    /\ Draw.generateDrawObject
         (Bst.copy (node (node null 3 tt null) 5 tt (node null 8 tt null)))
         None = Some data
    /\ Animation.animateInsertSteps acts
         (Animation.mkView (Some data) None) = Some w
    /\ Animation.simulationData w = Some data'
    /\ Draw.generateDrawObject (Bst.copy t') None = Some dataNew
    /\ map grid (Draw.nodes data') ≡ₚ map grid (Draw.nodes dataNew)
    /\ Draw.links data' ≡ₚ Draw.links dataNew.
Proof.
  apply bst_insert_animation_draws_the_new_tree.
  - discriminate.
  - simpl. repeat constructor; lia.
  - simpl. set_solver.
  - reflexivity.
Defined.
